(** * KaMinPar: refinement subsystems and concurrent primitives

    A shallow embedding of the parts of the partitioner that the
    specification makes checkable statements about:

    - [DenseGainCache] (kaminpar/refinement/gain_cache.h),
    - the label-propagation refiner's acceptance rule
      (kaminpar/refinement/parallel_label_propagation_refiner.h),
    - the JET refiner's pass loop and filter phase
      (kaminpar-dist/refinement/jet/jet_refiner.cc),
    - [ConcurrentCircularVector] and [FastResetArray]
      (kaminpar-common/datastructures),
    - [CompressedGraph::remove_isolated_nodes] / [integrate_isolated_nodes]
      (kaminpar-shm/datastructures/compressed_graph.cc),
    - the balancer's [MoveSetBuilder] (dkaminpar/refinement/balancer).

    Conventions.  Node, block and array indices are [nat]; edge and node
    weights are [Z].  The C++ weight types are signed, so overflow is
    undefined behaviour there; the specification bounds the weights so that
    weighted-degree sums fit, and the embedding computes in [Z].  Unsigned
    arithmetic whose wrap-around is defined and matters (bucket counters,
    ring-buffer values) is written out with an explicit modulus. *)

From Stdlib Require Import ZArith QArith Qround Lia Bool.
From stdpp Require Import base decidable option list numbers gmap.

(** ** Shared vocabulary *)

Abbreviation NodeID := nat (only parsing).
Abbreviation BlockID := nat (only parsing).
Abbreviation EdgeWeight := Z (only parsing).
Abbreviation NodeWeight := Z (only parsing).

(** Sum of a list of weights. *)
Definition sumZ (l : list Z) : Z := foldr Z.add 0%Z l.

(** [__atomic_fetch_add(&a[i], d, __ATOMIC_RELAXED)] on an array of weights,
    seen by a single thread; an index past the end is outside the array and
    leaves it unchanged. *)
Definition atomic_fetch_add (a : list Z) (i : nat) (d : Z) : list Z :=
  <[i := (a !!! i + d)%Z]> a.

(** [__atomic_fetch_sub(&a[i], d, __ATOMIC_RELAXED)]. *)
Definition atomic_fetch_sub (a : list Z) (i : nat) (d : Z) : list Z :=
  <[i := (a !!! i - d)%Z]> a.

(** A static graph in adjacency form: [neighbors u] enumerates the
    half-edges leaving [u] as pairs (target, edge weight), in edge order. *)
Record Graph := mkGraph {
  adjacency : list (list (NodeID * EdgeWeight))
}.

Definition graph_n (g : Graph) : nat := length (adjacency g).

Definition neighbors (g : Graph) (u : NodeID) : list (NodeID * EdgeWeight) :=
  adjacency g !!! u.

(** A graph together with a partition of its nodes into [k] blocks. *)
Record PartitionedGraph := mkPartitionedGraph {
  graph : Graph;
  p_k : BlockID;
  partition : list BlockID
}.

Definition block (p_graph : PartitionedGraph) (u : NodeID) : BlockID :=
  partition p_graph !!! u.

Definition set_block (p_graph : PartitionedGraph) (u : NodeID) (b : BlockID)
  : PartitionedGraph :=
  {| graph := graph p_graph;
     p_k := p_k p_graph;
     partition := <[u := b]> (partition p_graph) |}.

(** ** Dense gain cache (gain_cache.h) *)

Module DenseGainCache.

Record t := mk {
  _k : BlockID;
  _n : NodeID;
  _gain_cache : list EdgeWeight;
  _weighted_degrees : list EdgeWeight
}.

Definition index (gc : t) (node : NodeID) (b : BlockID) : nat :=
  node * _k gc + b.

Definition weighted_degree_to (gc : t) (node : NodeID) (b : BlockID)
  : EdgeWeight :=
  _gain_cache gc !!! index gc node b.

Definition gain (gc : t) (node : NodeID) (block_from block_to : BlockID)
  : EdgeWeight :=
  (weighted_degree_to gc node block_to
   - weighted_degree_to gc node block_from)%Z.

Definition is_border_node (gc : t) (node : NodeID) (b : BlockID) : bool :=
  negb (Z.eqb (_weighted_degrees gc !!! node) (weighted_degree_to gc node b)).

Definition reset (gc : t) : t :=
  {| _k := _k gc; _n := _n gc;
     _gain_cache := replicate (length (_gain_cache gc)) 0%Z;
     _weighted_degrees := _weighted_degrees gc |}.

(** Body of the neighbour loop of [recompute_node]. *)
Definition recompute_edge (p_graph : PartitionedGraph) (u : NodeID)
    (gc : t) (e : NodeID * EdgeWeight) : t :=
  let block_v := block p_graph (fst e) in
  let weight := snd e in
  {| _k := _k gc; _n := _n gc;
     _gain_cache :=
       atomic_fetch_add (_gain_cache gc) (index gc u block_v) weight;
     _weighted_degrees :=
       atomic_fetch_add (_weighted_degrees gc) u weight |}.

Definition recompute_node (p_graph : PartitionedGraph) (gc : t) (u : NodeID)
  : t :=
  let gc0 := {| _k := _k gc; _n := _n gc;
                _gain_cache := _gain_cache gc;
                _weighted_degrees := <[u := 0%Z]> (_weighted_degrees gc) |} in
  fold_left (recompute_edge p_graph u) (neighbors (graph p_graph) u) gc0.

(** [pfor_nodes] visits every node once; a node's recomputation writes only
    its own row and its own degree, so the visiting order is immaterial and
    the embedding takes the ascending one. *)
Definition recompute_all (p_graph : PartitionedGraph) (gc : t) : t :=
  fold_left (recompute_node p_graph) (seq 0 (graph_n (graph p_graph))) gc.

Definition initialize (p_graph : PartitionedGraph) (gc : t) : t :=
  recompute_all p_graph (reset gc).

(** Body of the neighbour loop of [move]. *)
Definition move_edge (block_from block_to : BlockID)
    (gc : t) (e : NodeID * EdgeWeight) : t :=
  let v := fst e in
  let weight := snd e in
  let cache1 :=
    atomic_fetch_sub (_gain_cache gc) (index gc v block_from) weight in
  {| _k := _k gc; _n := _n gc;
     _gain_cache := atomic_fetch_add cache1 (index gc v block_to) weight;
     _weighted_degrees := _weighted_degrees gc |}.

Definition move (p_graph : PartitionedGraph) (node : NodeID)
    (block_from block_to : BlockID) (gc : t) : t :=
  fold_left (move_edge block_from block_to)
            (neighbors (graph p_graph) node) gc.

(** The constructor allocates [_n * _k] cache cells and [_n] degrees in
    [NoinitVector]s, whose initial contents are unspecified: [garbage_cache]
    and [garbage_degrees] stand for whatever the memory held. *)
Definition create (k : BlockID) (n : NodeID)
    (garbage_cache garbage_degrees : nat -> EdgeWeight) : t :=
  {| _k := k; _n := n;
     _gain_cache := map garbage_cache (seq 0 (n * k));
     _weighted_degrees := map garbage_degrees (seq 0 n) |}.

(** Body of the neighbour loop of [check_cached_gain_for_node]: the pair
    ([actual_weighted_degree], [actual_external_degrees]). *)
Definition check_edge (p_graph : PartitionedGraph)
    (actual : EdgeWeight * list EdgeWeight) (e : NodeID * EdgeWeight)
  : EdgeWeight * list EdgeWeight :=
  let block_v := block p_graph (fst e) in
  let weight := snd e in
  ((fst actual + weight)%Z, atomic_fetch_add (snd actual) block_v weight).

(** The loop over the blocks returns [false] at the first cell that differs;
    the degree is compared when no cell does. *)
Definition check_cached_gain_for_node (p_graph : PartitionedGraph) (gc : t)
    (u : NodeID) : bool :=
  let '(actual_weighted_degree, actual_external_degrees) :=
    fold_left (check_edge p_graph) (neighbors (graph p_graph) u)
              (0%Z, replicate (_k gc) 0%Z) in
  if forallb (fun b => Z.eqb (actual_external_degrees !!! b)
                             (weighted_degree_to gc u b))
             (seq 0 (_k gc))
  then Z.eqb actual_weighted_degree (_weighted_degrees gc !!! u)
  else false.

(** [valid] starts out [true] and is cleared by every node whose check
    fails. *)
Definition validate (p_graph : PartitionedGraph) (gc : t) : bool :=
  forallb (check_cached_gain_for_node p_graph gc)
          (seq 0 (graph_n (graph p_graph))).

End DenseGainCache.

(** ** Delta gain cache (gain_cache.h)

    An overlay on a dense cache: the moves of a search are recorded in a
    hash map from cache index to weight change and the dense cache is left
    untouched.  [operator[]] of the hash map inserts a zero for an index it
    does not hold yet; [find] does not insert. *)

Module DeltaGainCache.

Record t := mk {
  _gain_cache : DenseGainCache.t;
  _gain_cache_delta : gmap nat EdgeWeight
}.

Definition create (gain_cache : DenseGainCache.t) : t :=
  {| _gain_cache := gain_cache; _gain_cache_delta := ∅ |}.

(** [it != end() ? it->second : 0]. *)
Definition find_or_zero (delta : gmap nat EdgeWeight) (i : nat) : EdgeWeight :=
  match delta !! i with
  | Some d => d
  | None => 0%Z
  end.

Definition gain (d : t) (node : NodeID) (from to : BlockID) : EdgeWeight :=
  let delta_to :=
    find_or_zero (_gain_cache_delta d)
                 (DenseGainCache.index (_gain_cache d) node to) in
  let delta_from :=
    find_or_zero (_gain_cache_delta d)
                 (DenseGainCache.index (_gain_cache d) node from) in
  (DenseGainCache.gain (_gain_cache d) node from to + delta_to - delta_from)%Z.

(** Body of the neighbour loop of [move]. *)
Definition move_edge (gain_cache : DenseGainCache.t)
    (block_from block_to : BlockID) (delta : gmap nat EdgeWeight)
    (e : NodeID * EdgeWeight) : gmap nat EdgeWeight :=
  let v := fst e in
  let weight := snd e in
  let i_from := DenseGainCache.index gain_cache v block_from in
  let i_to := DenseGainCache.index gain_cache v block_to in
  let delta1 := <[i_from := (find_or_zero delta i_from - weight)%Z]> delta in
  <[i_to := (find_or_zero delta1 i_to + weight)%Z]> delta1.

(** [d_graph] is the delta graph of the search; the loop reads its
    adjacency, which is that of the graph underneath. *)
Definition move (d_graph : PartitionedGraph) (u : NodeID)
    (block_from block_to : BlockID) (d : t) : t :=
  {| _gain_cache := _gain_cache d;
     _gain_cache_delta :=
       fold_left (move_edge (_gain_cache d) block_from block_to)
                 (neighbors (graph d_graph) u) (_gain_cache_delta d) |}.

Definition clear (d : t) : t :=
  {| _gain_cache := _gain_cache d; _gain_cache_delta := ∅ |}.

End DeltaGainCache.

(** ** On-the-fly connectivity (on_the_fly_gain_cache.h)

    [conn_impl] recomputes the weight between a node and a block from the
    adjacency; it is the reference the dense cache is compared with. *)

Module OnTheFlyGainCache.

Definition conn_impl (p_graph : PartitionedGraph) (node : NodeID)
    (b : BlockID) : EdgeWeight :=
  fold_left
    (fun conn e =>
       if Nat.eqb (block p_graph (fst e)) b then (conn + snd e)%Z else conn)
    (neighbors (graph p_graph) node) 0%Z.

(** Body of the neighbour loop of [gain_impl]: the pair
    ([conn_from], [conn_to]).  The second test is the [else] of the first. *)
Definition gain_edge (p_graph : PartitionedGraph) (from to : BlockID)
    (conns : EdgeWeight * EdgeWeight) (e : NodeID * EdgeWeight)
  : EdgeWeight * EdgeWeight :=
  if Nat.eqb (block p_graph (fst e)) from
  then ((fst conns + snd e)%Z, snd conns)
  else if Nat.eqb (block p_graph (fst e)) to
       then (fst conns, (snd conns + snd e)%Z)
       else conns.

Definition gain_impl (p_graph : PartitionedGraph) (node : NodeID)
    (from to : BlockID) : EdgeWeight :=
  let '(conn_from, conn_to) :=
    fold_left (gain_edge p_graph from to)
              (neighbors (graph p_graph) node) (0%Z, 0%Z) in
  (conn_to - conn_from)%Z.

(** The loop returns [true] at the first neighbour outside [b]. *)
Definition is_border_node_impl (p_graph : PartitionedGraph) (node : NodeID)
    (b : BlockID) : bool :=
  existsb (fun e => negb (Nat.eqb (block p_graph (fst e)) b))
          (neighbors (graph p_graph) node).

End OnTheFlyGainCache.

(** The path 0-1-2-3 with unit weights and the partition [0,1,1,0]. *)
Definition path4 : Graph :=
  mkGraph [ [(1, 1%Z)]; [(0, 1%Z); (2, 1%Z)]; [(1, 1%Z); (3, 1%Z)]; [(2, 1%Z)] ].

Definition path4_partitioned : PartitionedGraph :=
  mkPartitionedGraph path4 2 [0; 1; 1; 0].

Definition path4_cache : DenseGainCache.t :=
  DenseGainCache.initialize path4_partitioned
    (DenseGainCache.create 2 4 (fun i => Z.of_nat i + 17)%Z (fun _ => (-3)%Z)).

Definition path4_cache_moved : DenseGainCache.t :=
  DenseGainCache.move path4_partitioned 1 1 0 path4_cache.

(** ** Label-propagation refiner (parallel_label_propagation_refiner.h) *)

Module LabelPropagationRefiner.

(** The fields of [Base::ClusterSelectionState] that [accept_cluster] reads.
    [local_rand] is the pseudo-random generator of the thread; the embedding
    records the bit that [local_rand.random_bool()] would deliver. *)
Record ClusterSelectionState := mkState {
  local_rand : bool;
  u_weight : NodeWeight;
  initial_cluster : BlockID;
  initial_cluster_weight : NodeWeight;
  best_cluster : BlockID;
  best_gain : EdgeWeight;
  best_cluster_weight : NodeWeight;
  current_cluster : BlockID;
  current_gain : EdgeWeight;
  current_cluster_weight : NodeWeight
}.

Section AcceptCluster.
(** [max_cluster_weight(b)] is [_p_ctx->max_block_weight(b)]. *)
Variable max_cluster_weight : BlockID -> NodeWeight.

Local Open Scope Z_scope.

Definition current_max_weight (state : ClusterSelectionState) : NodeWeight :=
  max_cluster_weight (current_cluster state).

Definition best_overload (state : ClusterSelectionState) : NodeWeight :=
  best_cluster_weight state - max_cluster_weight (best_cluster state).

Definition current_overload (state : ClusterSelectionState) : NodeWeight :=
  current_cluster_weight state - current_max_weight state.

Definition initial_overload (state : ClusterSelectionState) : NodeWeight :=
  initial_cluster_weight state - max_cluster_weight (initial_cluster state).

(** First conjunct of the acceptance rule: the candidate is preferred. *)
Definition gain_condition (state : ClusterSelectionState) : bool :=
  (current_gain state >? best_gain state)
  || ((current_gain state =? best_gain state)
      && ((current_overload state <? best_overload state)
          || ((current_overload state =? best_overload state)
              && local_rand state))).

(** Second conjunct of the acceptance rule: the weight constraint. *)
Definition weight_condition (state : ClusterSelectionState) : bool :=
  (current_cluster_weight state + u_weight state <? current_max_weight state)
  || (current_overload state <? initial_overload state)
  || Nat.eqb (current_cluster state) (initial_cluster state).

Definition accept_cluster (state : ClusterSelectionState) : bool :=
  gain_condition state && weight_condition state.
End AcceptCluster.

(** [std::numeric_limits<std::size_t>::max()] with a [size_t] of 64 bits. *)
Definition kInfiniteIterations : N := (2 ^ 64 - 1)%N.

Definition max_iterations (num_iterations : N) : N :=
  if (num_iterations =? 0)%N then kInfiniteIterations else num_iterations.

Section Refine.
(** The partition and whatever else an iteration reads and writes. *)
Variable State : Type.
(** [randomized_iteration()] of the label propagation base: the number of
    nodes it moved and the state it leaves.  (The number of emptied
    clusters that it also returns is not used.) *)
Variable randomized_iteration : State -> N * State.

(** The loop of [refine] with [remaining] iterations to go: an iteration
    that moves no node returns [false], running out of iterations returns
    [true]. *)
Fixpoint refine_loop (remaining : nat) (st : State) : bool * State :=
  match remaining with
  | O => (true, st)
  | S remaining' =>
      let '(num_moved_nodes, st') := randomized_iteration st in
      if (num_moved_nodes =? 0)%N then (false, st')
      else refine_loop remaining' st'
  end.

Definition refine (num_iterations : N) (st : State) : bool * State :=
  refine_loop (N.to_nat (max_iterations num_iterations)) st.
End Refine.

End LabelPropagationRefiner.

(** ** JET refiner (jet_refiner.cc) *)

Module JetRefiner.

Record JetRefinementContext := mkJetContext {
  num_iterations : Z;
  num_fruitless_iterations : Z;
  fruitless_threshold : Q
}.

(** [std::numeric_limits<int>::max()]. *)
Definition int_max : Z := 2147483647.

Definition max_num_fruitless_iterations (ctx : JetRefinementContext) : Z :=
  if (num_fruitless_iterations ctx =? 0)%Z then int_max
  else num_fruitless_iterations ctx.

Definition max_num_iterations (ctx : JetRefinementContext) : Z :=
  if (num_iterations ctx =? 0)%Z then int_max else num_iterations ctx.

(** The test [best_cut - final_cut > (1.0 - fruitless_threshold) * best_cut].
    The source evaluates it in [double]; the embedding evaluates it over the
    rationals, which agrees with it whenever the threshold and the product
    are exactly representable (as for the threshold 1/2 and the small cuts
    used below). *)
Definition improves (ctx : JetRefinementContext)
    (best_cut final_cut : EdgeWeight) : bool :=
  negb (Qle_bool (inject_Z (best_cut - final_cut))
                 ((1 - fruitless_threshold ctx) * inject_Z best_cut)).

Section Refine.
(** Everything one pass reads and writes: the distributed partitioned graph
    with its block weights, the lock bits and the move candidates. *)
Variable State : Type.
(** [metrics::edge_cut]. *)
Variable edge_cut : State -> EdgeWeight.
(** One pass: [find_moves], [synchronize_ghost_node_move_candidates],
    [filter_bad_moves], [move_locked_nodes],
    [synchronize_ghost_node_labels], [apply_block_weight_deltas] and the
    balancer's [initialize] and [refine]. *)
Variable pass : State -> State.
Variable ctx : JetRefinementContext.

(** Modelled from the spec: the snapshooter (snapshooter.h is not among the
    sources).  It keeps the best partition seen: [init] records the
    partition the refiner starts from, [update] replaces the record when
    the cut of the current partition improved on it, [rollback] restores
    the recorded partition. *)
Record Snapshooter := mkSnapshooter {
  best_partition : State;
  best_partition_cut : EdgeWeight
}.

Definition snapshooter_init (p_graph : State) : Snapshooter :=
  {| best_partition := p_graph; best_partition_cut := edge_cut p_graph |}.

Definition snapshooter_update (p_graph : State) (s : Snapshooter)
  : Snapshooter :=
  if (edge_cut p_graph <? best_partition_cut s)%Z
  then {| best_partition := p_graph; best_partition_cut := edge_cut p_graph |}
  else s.

Definition snapshooter_rollback (s : Snapshooter) : State :=
  best_partition s.

(** The variables of [refine()] that live across iterations. *)
Record LoopState := mkLoop {
  _p_graph : State;
  _snapshooter : Snapshooter;
  cur_iteration : Z;
  cur_fruitless_iteration : Z;
  best_cut : EdgeWeight
}.

(** Body of the do-while loop. *)
Definition iteration (st : LoopState) : LoopState :=
  let p_graph := pass (_p_graph st) in
  let snapshooter := snapshooter_update p_graph (_snapshooter st) in
  let cur_iteration := (cur_iteration st + 1)%Z in
  let cur_fruitless_iteration := (cur_fruitless_iteration st + 1)%Z in
  let final_cut := edge_cut p_graph in
  if improves ctx (best_cut st) final_cut
  then mkLoop p_graph snapshooter cur_iteration 0%Z final_cut
  else mkLoop p_graph snapshooter cur_iteration cur_fruitless_iteration
              (best_cut st).

(** The loop condition
    [cur_iteration < max_num_iterations &&
     cur_fruitless_iteration < max_num_fruitless_iterations]. *)
Definition loop_condition (st : LoopState) : bool :=
  (cur_iteration st <? max_num_iterations ctx)%Z
  && (cur_fruitless_iteration st <? max_num_fruitless_iterations ctx)%Z.

(** [do { ... } while (condition)]: [more] bounds the number of further
    iterations after the first one. *)
Fixpoint do_while (more : nat) (st : LoopState) : LoopState :=
  let st' := iteration st in
  match more with
  | O => st'
  | S more' => if loop_condition st' then do_while more' st' else st'
  end.

Definition initial_loop_state (p_graph : State) (s : Snapshooter)
  : LoopState :=
  mkLoop p_graph s 0%Z 0%Z (edge_cut p_graph).

(** State of the loop when it is left.  The iteration counter grows by one
    per iteration and the loop stops at [max_num_iterations] at the latest,
    so [max_num_iterations - 1] further iterations always suffice
    (see [do_while_more_irrelevant] and [refine_loop_exits]). *)
Definition refine_loop (p_graph : State) (s : Snapshooter) : LoopState :=
  do_while (Z.to_nat (max_num_iterations ctx - 1))
           (initial_loop_state p_graph s).

(** [refine()]: the returned flag and the partition after the rollback. *)
Definition refine (p_graph : State) (s : Snapshooter) : bool * State :=
  let initial_cut := edge_cut p_graph in
  let st := refine_loop p_graph s in
  ((initial_cut >? best_cut st)%Z, snapshooter_rollback (_snapshooter st)).

(** The stopping rule in the words of the specification:
    stop when [cur_iter >= num_iterations] or
    [fruitless_iter >= num_fruitless_iterations]. *)
Definition spec_stop (st : LoopState) : bool :=
  (num_iterations ctx <=? cur_iteration st)%Z
  || (num_fruitless_iterations ctx <=? cur_fruitless_iteration st)%Z.

(** The stopping rule with the limits the loop really uses. *)
Definition effective_stop (st : LoopState) : bool :=
  (max_num_iterations ctx <=? cur_iteration st)%Z
  || (max_num_fruitless_iterations ctx <=? cur_fruitless_iteration st)%Z.
End Refine.

Arguments mkSnapshooter {State}.
Arguments best_partition {State}.
Arguments best_partition_cut {State}.
Arguments mkLoop {State}.
Arguments _p_graph {State}.
Arguments _snapshooter {State}.
Arguments cur_iteration {State}.
Arguments cur_fruitless_iteration {State}.
Arguments best_cut {State}.

(** *** Filter phase

    The view of one PE: owned nodes are [0 .. n), ghost nodes are
    [n .. total_n); [_gains_and_targets] and the block array cover both, the
    adjacency covers the owned nodes. *)
Record LocalView := mkView {
  lv_graph : PartitionedGraph;
  _gains_and_targets : list (EdgeWeight * BlockID)
}.

(** The condition under which [u] takes [v]'s target block instead of [v]'s
    current block:
    [gain_v > gain_u || (gain_v == gain_u && v < u)]. *)
Definition treats_as_moved (gain_u : EdgeWeight) (u : NodeID)
    (gain_v : EdgeWeight) (v : NodeID) : bool :=
  (gain_v >? gain_u)%Z || ((gain_v =? gain_u)%Z && (v <? u)).

Definition projected_block (pe : LocalView) (gain_u : EdgeWeight) (u v : NodeID)
  : BlockID :=
  let '(gain_v, to_v) := _gains_and_targets pe !!! v in
  if treats_as_moved gain_u u gain_v v then to_v else block (lv_graph pe) v.

(** Body of the neighbour loop of [filter_bad_moves]. *)
Definition filter_edge (pe : LocalView) (u : NodeID) (gain_u : EdgeWeight)
    (from_u to_u : BlockID) (projected_gain : EdgeWeight)
    (e : NodeID * EdgeWeight) : EdgeWeight :=
  let w_e := snd e in
  let projected_b_v := projected_block pe gain_u u (fst e) in
  if Nat.eqb projected_b_v to_u then (projected_gain + w_e)%Z
  else if Nat.eqb projected_b_v from_u then (projected_gain - w_e)%Z
  else projected_gain.

(** The lock bit [filter_bad_moves] leaves for the owned node [u]. *)
Definition filter_node (pe : LocalView) (u : NodeID) : bool :=
  let from_u := block (lv_graph pe) u in
  let '(gain_u, to_u) := _gains_and_targets pe !!! u in
  if Nat.eqb from_u to_u then false
  else
    let projected_gain :=
      fold_left (filter_edge pe u gain_u from_u to_u)
                (neighbors (graph (lv_graph pe)) u) 0%Z in
    (0 <=? projected_gain)%Z.

Definition filter_bad_moves (pe : LocalView) : list bool :=
  map (filter_node pe) (seq 0 (graph_n (graph (lv_graph pe)))).

End JetRefiner.

(** ** Distributed graph builder (distributed_graph_builder.h)

    The part that assigns local ids: a node owned by the PE gets
    [global - offset], every other endpoint becomes a ghost node with the
    next id after the owned ones. *)

Module Builder.

Record t := mk {
  _node_distribution : list nat;
  _offset_n : nat;
  _local_n : NodeID;
  _nodes : list nat;
  _edges : list NodeID;
  _node_weights : list NodeWeight;
  _edge_weights : list EdgeWeight;
  _ghost_owner : list nat;
  _ghost_to_global : list nat;
  _global_to_ghost : gmap nat NodeID
}.

Definition initialize (rank : nat) (node_distribution : list nat) : t :=
  {| _node_distribution := node_distribution;
     _offset_n := node_distribution !!! rank;
     _local_n := node_distribution !!! (rank + 1) - node_distribution !!! rank;
     _nodes := []; _edges := []; _node_weights := []; _edge_weights := [];
     _ghost_owner := []; _ghost_to_global := []; _global_to_ghost := ∅ |}.

Definition create_node (weight : NodeWeight) (b : t) : t :=
  {| _node_distribution := _node_distribution b;
     _offset_n := _offset_n b; _local_n := _local_n b;
     _nodes := _nodes b ++ [length (_edges b)];
     _edges := _edges b;
     _node_weights := _node_weights b ++ [weight];
     _edge_weights := _edge_weights b;
     _ghost_owner := _ghost_owner b;
     _ghost_to_global := _ghost_to_global b;
     _global_to_ghost := _global_to_ghost b |}.

Definition is_local_node (b : t) (global_u : nat) : bool :=
  (_offset_n b <=? global_u) && (global_u <? _offset_n b + _local_n b).

(** [std::upper_bound] on a sorted range: the position of the first entry
    that is greater than [value] (the length when there is none). *)
Fixpoint upper_bound (range : list nat) (value : nat) : nat :=
  match range with
  | [] => 0
  | x :: range' => if value <? x then 0 else S (upper_bound range' value)
  end.

(** The search starts at the second entry of the distribution, and the
    distance from the first entry, less one, is the owner. *)
Definition find_ghost_owner (b : t) (global_u : nat) : nat :=
  1 + upper_bound (tail (_node_distribution b)) global_u - 1.

Definition create_ghost_node (global_u : nat) (b : t) : NodeID * t :=
  match _global_to_ghost b !! global_u with
  | Some local_id => (local_id, b)
  | None =>
      let local_id := _local_n b + length (_ghost_to_global b) in
      (local_id,
       {| _node_distribution := _node_distribution b;
          _offset_n := _offset_n b; _local_n := _local_n b;
          _nodes := _nodes b; _edges := _edges b;
          _node_weights := _node_weights b;
          _edge_weights := _edge_weights b;
          _ghost_owner := _ghost_owner b ++ [find_ghost_owner b global_u];
          _ghost_to_global := _ghost_to_global b ++ [global_u];
          _global_to_ghost := <[global_u := local_id]> (_global_to_ghost b) |})
  end.

(** [create_edge] returns the builder; the embedding also hands back the
    local id the endpoint was given. *)
Definition create_edge (weight : EdgeWeight) (global_v : nat) (b : t)
  : NodeID * t :=
  let '(local_v, b1) :=
    if is_local_node b global_v then (global_v - _offset_n b, b)
    else create_ghost_node global_v b in
  (local_v,
   {| _node_distribution := _node_distribution b1;
      _offset_n := _offset_n b1; _local_n := _local_n b1;
      _nodes := _nodes b1;
      _edges := _edges b1 ++ [local_v];
      _node_weights := _node_weights b1;
      _edge_weights := _edge_weights b1 ++ [weight];
      _ghost_owner := _ghost_owner b1;
      _ghost_to_global := _ghost_to_global b1;
      _global_to_ghost := _global_to_ghost b1 |}).

Definition with_node_weights (node_weights : list NodeWeight) (b : t) : t :=
  {| _node_distribution := _node_distribution b;
     _offset_n := _offset_n b; _local_n := _local_n b;
     _nodes := _nodes b; _edges := _edges b;
     _node_weights := node_weights;
     _edge_weights := _edge_weights b;
     _ghost_owner := _ghost_owner b;
     _ghost_to_global := _ghost_to_global b;
     _global_to_ghost := _global_to_ghost b |}.

(** The two setters assert [node < _node_weights.size()]; a node past the
    end is outside their contract and leaves the weights unchanged. *)
Definition change_local_node_weight (node : NodeID) (weight : NodeWeight)
    (b : t) : t :=
  with_node_weights (<[node := weight]> (_node_weights b)) b.

Definition add_local_node_weight (node : NodeID) (delta : NodeWeight)
    (b : t) : t :=
  with_node_weights
    (<[node := (_node_weights b !!! node + delta)%Z]> (_node_weights b)) b.

(** The arrays [finalize] hands to the distributed graph.  The edge
    distribution is the result of two collective operations over all PEs
    and is left out. *)
Record DistributedGraph := mkDistributedGraph {
  dg_node_distribution : list nat;
  dg_nodes : list nat;
  dg_edges : list NodeID;
  dg_node_weights : list NodeWeight;
  dg_edge_weights : list EdgeWeight;
  dg_ghost_owner : list nat;
  dg_ghost_to_global : list nat;
  dg_global_to_ghost : gmap nat NodeID
}.

(** [finalize]: the closing offset is appended to [_nodes] and every ghost
    node gets the weight 1. *)
Definition finalize (b : t) : DistributedGraph :=
  {| dg_node_distribution := _node_distribution b;
     dg_nodes := _nodes b ++ [length (_edges b)];
     dg_edges := _edges b;
     dg_node_weights :=
       _node_weights b ++ replicate (length (_ghost_to_global b)) 1%Z;
     dg_edge_weights := _edge_weights b;
     dg_ghost_owner := _ghost_owner b;
     dg_ghost_to_global := _ghost_to_global b;
     dg_global_to_ghost := _global_to_ghost b |}.

End Builder.

(** ** Circular vector for ordered prefix sums (concurrent_circular_vector.h) *)

Module ConcurrentCircularVector.

Section WithTypes.
(** [std::numeric_limits<Size>::max()] and
    [std::numeric_limits<Value>::max()] of the two unsigned template
    parameters. *)
Variable size_max : nat.
Variable value_max : Z.

Definition kLock : Z := value_max.

(** Unsigned arithmetic of [Value]. *)
Definition wrap_value (x : Z) : Z := (x mod (value_max + 1))%Z.

Record t := mk {
  _counter : nat;
  _buffer : list Z
}.

(** [_buffer(size + 1)] value-initialises [size + 1] slots and [std::fill]
    overwrites all but the last with [kLock]. *)
Definition create (size : nat) : t :=
  {| _counter := 0; _buffer := replicate size kLock ++ [0%Z] |}.

Definition next (v : t) : nat * t :=
  (_counter v,
   {| _counter := (_counter v + 1) mod (S size_max);
      _buffer := _buffer v |}).

Definition pos_of (v : t) (entry : nat) : nat :=
  entry mod length (_buffer v).

Definition prev_pos_of (v : t) (entry : nat) : nat :=
  let pos := pos_of v entry in
  if Nat.eqb pos 0 then length (_buffer v) - 1 else pos - 1.

(** One thread running [fetch_and_update] with no other thread making
    progress: the spin loop leaves at once when the previous slot is set
    and never when it holds [kLock] ([None]). *)
Definition fetch_and_update (entry : nat) (delta : Z) (v : t)
  : option (Z * t) :=
  let pos := pos_of v entry in
  let prev_pos := prev_pos_of v entry in
  let value := _buffer v !!! prev_pos in
  if (value =? kLock)%Z then None
  else
    Some (value,
          {| _counter := _counter v;
             _buffer := <[pos := wrap_value (value + delta)]>
                          (<[prev_pos := kLock]> (_buffer v)) |}).

(** Tickets are drawn with [next] and served in the order drawn, one
    [fetch_and_update] per ticket; the result lists the returned values. *)
Fixpoint process_in_order (deltas : list Z) (v : t) : option (list Z * t) :=
  match deltas with
  | [] => Some ([], v)
  | delta :: deltas' =>
      let '(entry, v1) := next v in
      match fetch_and_update entry delta v1 with
      | None => None
      | Some (value, v2) =>
          match process_in_order deltas' v2 with
          | None => None
          | Some (values, v3) => Some (value :: values, v3)
          end
      end
  end.
End WithTypes.

End ConcurrentCircularVector.

(** ** Fast-reset array (fast_reset_array.h) *)

Module FastResetArray.

Section WithValue.
Context {Value : Type} `{EqDecision Value}.
(** The value-initialised [Value()]. *)
Variable default : Value.

#[local] Instance value_inhabited : Inhabited Value := populate default.

Record t := mk {
  _data : list Value;
  _used_entries : list nat
}.

Definition create (capacity : nat) : t :=
  {| _data := replicate capacity default; _used_entries := [] |}.

Definition capacity (a : t) : nat := length (_data a).

(** The non-const [operator[]]: registers the position when it still holds
    the default value; the reference it returns is [_data[pos]]. *)
Definition access (pos : nat) (a : t) : t :=
  if decide (_data a !!! pos = default)
  then {| _data := _data a; _used_entries := _used_entries a ++ [pos] |}
  else a.

Definition get (a : t) (pos : nat) : Value := _data a !!! pos.

Definition set (pos : nat) (new_value : Value) (a : t) : t :=
  let a' := access pos a in
  {| _data := <[pos := new_value]> (_data a');
     _used_entries := _used_entries a' |}.

Definition exists_ (a : t) (pos : nat) : bool :=
  bool_decide (_data a !!! pos = default).

Definition clear (a : t) : t :=
  {| _data := fold_left (fun data pos => <[pos := default]> data)
                        (_used_entries a) (_data a);
     _used_entries := [] |}.

Definition used_entry_ids (a : t) : list nat := _used_entries a.

Definition used_entry_values (a : t) : list Value :=
  map (fun entry => _data a !!! entry) (used_entry_ids a).

Definition entries (a : t) : list (nat * Value) :=
  map (fun entry => (entry, _data a !!! entry)) (used_entry_ids a).

Definition empty (a : t) : bool :=
  match _used_entries a with
  | [] => true
  | _ => false
  end.

Definition size (a : t) : nat := length (_used_entries a).
End WithValue.

End FastResetArray.

(** ** Concurrent fast-reset array (concurrent_fast_reset_array.h)

    The same array without the bookkeeping on access: the user tells it
    which entries are in use. *)

Module ConcurrentFastResetArray.

Section WithValue.
Context {Value : Type}.
(** The value-initialised [Value()]. *)
Variable default : Value.

#[local] Instance value_inhabited : Inhabited Value := populate default.

Record t := mk {
  _data : list Value;
  _used_entries : list nat
}.

Definition create (capacity : nat) : t :=
  {| _data := replicate capacity default; _used_entries := [] |}.

(** Reading through the reference that [operator[]] returns. *)
Definition get (a : t) (pos : nat) : Value := _data a !!! pos.

(** Writing through the reference that [operator[]] returns. *)
Definition set (pos : nat) (new_value : Value) (a : t) : t :=
  {| _data := <[pos := new_value]> (_data a);
     _used_entries := _used_entries a |}.

Definition set_used_entries (used_entries : list nat) (a : t) : t :=
  {| _data := _data a; _used_entries := used_entries |}.

Definition entries (a : t) : list (nat * Value) :=
  map (fun entry => (entry, _data a !!! entry)) (_used_entries a).

Definition clear (a : t) : t :=
  {| _data := fold_left (fun data pos => <[pos := default]> data)
                        (_used_entries a) (_data a);
     _used_entries := [] |}.
End WithValue.

End ConcurrentFastResetArray.

(** ** Compressed graph: isolated nodes (compressed_graph.cc) *)

Module StaticArray.

(** Modelled from the spec: [StaticArray] and [CompactStaticArray]
    (static_array.h and compact_static_array.h are not among the sources).
    The storage is never copied; [restrict] narrows the visible size and
    remembers the size it had, [unrestrict] goes back to the remembered
    size, and an array that was never restricted remembers its own size. *)
Record t (A : Type) := mk {
  storage : list A;
  _size : nat;
  _unrestricted_size : nat
}.
Arguments mk {A}.
Arguments storage {A}.
Arguments _size {A}.
Arguments _unrestricted_size {A}.

Definition of_list {A} (l : list A) : t A :=
  {| storage := l; _size := length l; _unrestricted_size := length l |}.

Definition size {A} (a : t A) : nat := _size a.

Definition empty {A} (a : t A) : bool := Nat.eqb (_size a) 0.

(** The visible elements. *)
Definition elements {A} (a : t A) : list A := take (_size a) (storage a).

Definition restrict {A} (new_size : nat) (a : t A) : t A :=
  {| storage := storage a; _size := new_size; _unrestricted_size := _size a |}.

Definition unrestrict {A} (a : t A) : t A :=
  {| storage := storage a;
     _size := _unrestricted_size a;
     _unrestricted_size := _unrestricted_size a |}.

End StaticArray.

Module CompressedGraph.

(** [NodeID] is an unsigned 32-bit integer; the bucket counters are
    [NodeID]s and their arithmetic wraps. *)
Definition NodeID_modulus : Z := 2 ^ 32.

Definition wrap_node (x : Z) : Z := (x mod NodeID_modulus)%Z.

(** The members that the isolated-node operations read or write.  [_nodes]
    holds the [n + 1] offsets into the compressed edge array. *)
Record t := mk {
  _nodes : StaticArray.t Z;
  _node_weights : StaticArray.t NodeWeight;
  _total_node_weight : NodeWeight;
  _max_node_weight : NodeWeight;
  _sorted : bool;
  _buckets : list Z;
  _number_of_buckets : nat
}.

(** Modelled from the spec: [n()] (compressed_graph.h is not among the
    sources); [nodes[0..n]] has one offset more than there are nodes. *)
Definition n (g : t) : nat := StaticArray.size (_nodes g) - 1.

Definition sorted (g : t) : bool := _sorted g.

(** [parallel::accumulate(weights, 0)]. *)
Definition accumulate (weights : list NodeWeight) : NodeWeight := sumZ weights.

(** [parallel::max_element(weights)] on a non-empty range. *)
Definition max_element (weights : list NodeWeight) : NodeWeight :=
  match weights with
  | [] => 0%Z
  | w :: weights' => fold_left Z.max weights' w
  end.

Definition update_total_node_weight (g : t) : t :=
  if StaticArray.empty (_node_weights g)
  then {| _nodes := _nodes g; _node_weights := _node_weights g;
          _total_node_weight := Z.of_nat (n g);
          _max_node_weight := 1%Z;
          _sorted := _sorted g; _buckets := _buckets g;
          _number_of_buckets := _number_of_buckets g |}
  else {| _nodes := _nodes g; _node_weights := _node_weights g;
          _total_node_weight :=
            accumulate (StaticArray.elements (_node_weights g));
          _max_node_weight :=
            max_element (StaticArray.elements (_node_weights g));
          _sorted := _sorted g; _buckets := _buckets g;
          _number_of_buckets := _number_of_buckets g |}.

(** The constructor: the totals are computed as in
    [update_total_node_weight].  [init_degree_buckets] needs the degrees,
    which come out of the edge decoder (not among the sources); its result
    is passed in as [buckets] and [number_of_buckets]. *)
Definition create (nodes : list Z) (node_weights : list NodeWeight)
    (is_sorted : bool) (buckets : list Z) (number_of_buckets : nat) : t :=
  update_total_node_weight
    {| _nodes := StaticArray.of_list nodes;
       _node_weights := StaticArray.of_list node_weights;
       _total_node_weight := 0%Z;
       _max_node_weight := 0%Z;
       _sorted := is_sorted; _buckets := buckets;
       _number_of_buckets := number_of_buckets |}.

(** [for (i = 0; i < _buckets.size() - 1; ++i) _buckets[1 + i] += delta]
    in [NodeID] arithmetic: every counter but the first. *)
Definition shift_buckets (delta : Z) (buckets : list Z) : list Z :=
  match buckets with
  | [] => []
  | b0 :: rest => b0 :: map (fun b => wrap_node (b + delta)) rest
  end.

Definition remove_isolated_nodes (isolated_nodes : nat) (g : t) : t :=
  if Nat.eqb isolated_nodes 0 then g
  else
    let new_n := n g - isolated_nodes in
    let nodes := StaticArray.restrict (new_n + 1) (_nodes g) in
    let node_weights :=
      if negb (StaticArray.empty (_node_weights g))
      then StaticArray.restrict new_n (_node_weights g)
      else _node_weights g in
    let g1 := update_total_node_weight
                {| _nodes := nodes; _node_weights := node_weights;
                   _total_node_weight := _total_node_weight g;
                   _max_node_weight := _max_node_weight g;
                   _sorted := _sorted g; _buckets := _buckets g;
                   _number_of_buckets := _number_of_buckets g |} in
    {| _nodes := _nodes g1; _node_weights := _node_weights g1;
       _total_node_weight := _total_node_weight g1;
       _max_node_weight := _max_node_weight g1;
       _sorted := _sorted g1;
       _buckets := shift_buckets (- Z.of_nat isolated_nodes) (_buckets g1);
       _number_of_buckets :=
         if Nat.eqb (_number_of_buckets g1) 1 then 0
         else _number_of_buckets g1 |}.

Definition integrate_isolated_nodes (g : t) : t :=
  let nonisolated_nodes := n g in
  let g0 := {| _nodes := StaticArray.unrestrict (_nodes g);
               _node_weights := StaticArray.unrestrict (_node_weights g);
               _total_node_weight := _total_node_weight g;
               _max_node_weight := _max_node_weight g;
               _sorted := _sorted g; _buckets := _buckets g;
               _number_of_buckets := _number_of_buckets g |} in
  let isolated_nodes := n g0 - nonisolated_nodes in
  let g1 := update_total_node_weight g0 in
  {| _nodes := _nodes g1; _node_weights := _node_weights g1;
     _total_node_weight := _total_node_weight g1;
     _max_node_weight := _max_node_weight g1;
     _sorted := _sorted g1;
     _buckets := shift_buckets (Z.of_nat isolated_nodes) (_buckets g1);
     _number_of_buckets :=
       if Nat.eqb (_number_of_buckets g1) 0 then 1
       else _number_of_buckets g1 |}.

(** What the constructor establishes and the graph keeps while no isolated
    nodes are removed: the arrays are unrestricted, the node weights are
    absent or one per node, the cached total and maximum are those of
    [update_total_node_weight], and the bucket counters are [NodeID]s. *)
Record well_formed (g : t) : Prop := {
  wf_sorted : sorted g = true;
  wf_nodes_size : 1 <= StaticArray._size (_nodes g);
  wf_nodes_unrestricted :
    StaticArray._unrestricted_size (_nodes g) = StaticArray._size (_nodes g);
  wf_weights_storage :
    StaticArray._size (_node_weights g)
    <= length (StaticArray.storage (_node_weights g));
  wf_weights_size :
    StaticArray._size (_node_weights g) = 0
    \/ StaticArray._size (_node_weights g) = n g;
  wf_weights_unrestricted :
    StaticArray._unrestricted_size (_node_weights g)
    = StaticArray._size (_node_weights g);
  wf_totals :
    _total_node_weight (update_total_node_weight g) = _total_node_weight g
    /\ _max_node_weight (update_total_node_weight g) = _max_node_weight g;
  wf_buckets :
    Forall (fun b => (0 <= b < NodeID_modulus)%Z) (_buckets g)
}.

End CompressedGraph.

(** ** Balancer: greedy move sets (dkaminpar/refinement/balancer/move_sets.cc) *)

Module BinaryMaxHeap.

(** Modelled from the spec: [BinaryMaxHeap] (binary_heap.h is not among the
    sources), the addressable max-priority queue behind the growth frontier
    and the per-block connections.  The builder is written against this
    interface; [ids] lists the ids the heap currently holds. *)
Class Ops (H : Type) := {
  create : nat -> H;
  empty : H -> bool;
  contains : H -> nat -> bool;
  key : H -> nat -> Z;
  peek_id : H -> nat;
  peek_key : H -> Z;
  push : nat -> Z -> H -> H;
  pop : H -> H;
  decrease_priority : nat -> Z -> H -> H;
  decrease_priority_by : nat -> Z -> H -> H;
  clear : H -> H;
  ids : H -> list nat
}.

(** What the growth of a move set relies on: which ids a heap holds. *)
Class Laws (H : Type) `{Ops H} := {
  ids_create : forall capacity, ids (create capacity) = [];
  ids_empty : forall h, empty h = true -> ids h = [];
  peek_id_held : forall h, empty h = false -> peek_id h ∈ ids h;
  ids_push : forall id k h x, x ∈ ids (push id k h) -> x = id \/ x ∈ ids h;
  ids_pop : forall h x, x ∈ ids (pop h) -> x ∈ ids h;
  ids_decrease_priority :
    forall id k h x, x ∈ ids (decrease_priority id k h) -> x ∈ ids h
}.

(** A heap kept as an unordered list of (id, key) pairs.  The top is the
    entry with the largest key, the earliest such entry on ties. *)
Definition ListHeap := list (nat * Z).

Fixpoint top (h : ListHeap) : option (nat * Z) :=
  match h with
  | [] => None
  | e :: h' =>
      match top h' with
      | None => Some e
      | Some e' => if (snd e' >? snd e)%Z then Some e' else Some e
      end
  end.

Definition list_key (h : ListHeap) (id : nat) : Z :=
  match list_find (fun e => fst e = id) h with
  | Some (_, e) => snd e
  | None => 0%Z
  end.

Definition reprioritise (id : nat) (f : Z -> Z) (h : ListHeap) : ListHeap :=
  map (fun e => if Nat.eqb (fst e) id then (id, f (snd e)) else e) h.

#[global] Instance list_heap_ops : Ops ListHeap := {|
  create := fun _ => [];
  empty := fun h => match h with [] => true | _ => false end;
  contains := fun h id => existsb (fun e => Nat.eqb (fst e) id) h;
  key := list_key;
  peek_id := fun h => match top h with Some e => fst e | None => 0 end;
  peek_key := fun h => match top h with Some e => snd e | None => 0%Z end;
  push := fun id k h => h ++ [(id, k)];
  pop := fun h =>
    match top h with
    | Some e => filter (fun e' => fst e' ≠ fst e) h
    | None => h
    end;
  decrease_priority := fun id k h => reprioritise id (fun _ => k) h;
  decrease_priority_by := fun id delta h =>
    reprioritise id (fun k => (k + delta)%Z) h;
  clear := fun _ => [];
  ids := fun h => map fst h
|}.

End BinaryMaxHeap.

Module MoveSetBuilder.

(** The view of one PE that the builder reads: the adjacency of the owned
    nodes [0 .. n), and blocks and weights of owned and ghost nodes. *)
Record DistributedPartitionedGraph := mkGraph {
  p_graph : PartitionedGraph;
  node_weights : list NodeWeight;
  block_weights : list NodeWeight;
  (** [_p_ctx.graph->max_block_weight] *)
  max_block_weights : list NodeWeight
}.

Definition dist_n (g : DistributedPartitionedGraph) : nat :=
  graph_n (graph (p_graph g)).

Definition is_owned_node (g : DistributedPartitionedGraph) (v : NodeID) : bool :=
  v <? dist_n g.

Definition node_weight (g : DistributedPartitionedGraph) (u : NodeID)
  : NodeWeight := node_weights g !!! u.

Definition block_weight (g : DistributedPartitionedGraph) (b : BlockID)
  : NodeWeight := block_weights g !!! b.

Definition max_block_weight (g : DistributedPartitionedGraph) (b : BlockID)
  : NodeWeight := max_block_weights g !!! b.

(** The result of the builder: the set of each node, the nodes of the sets
    one after the other, and where each set starts. *)
Record MoveSets := mkMoveSets {
  ms_node_to_move_set : list (option NodeID);
  ms_move_sets : list (option NodeID);
  ms_move_set_indices : list nat
}.

(** [MoveSets::size]. *)
Definition size (sets : MoveSets) (set : NodeID) : nat :=
  ms_move_set_indices sets !!! (set + 1) - ms_move_set_indices sets !!! set.

(** What a call of the builder does.  The builder indexes its arrays and
    its frontier without a check: [OutOfBounds] stands for a run in which
    the source stores or reads at an index that the array does not have,
    where its behaviour is undefined.  [OutOfFuel] is the model's own: the
    growth loop was stopped while it was still running. *)
Inductive Outcome (A : Type) : Type :=
  | Returns (a : A)
  | OutOfBounds
  | OutOfFuel.
Arguments Returns {A}.
Arguments OutOfBounds {A}.
Arguments OutOfFuel {A}.

Section WithHeap.
Context {H : Type} `{BinaryMaxHeap.Ops H}.
Variable g : DistributedPartitionedGraph.

(** [kInvalidNodeID] and [kInvalidBlockID] are [None]. *)
Record t := mk {
  _node_to_move_set : list (option NodeID);
  _move_sets : list (option NodeID);
  _move_set_indices : list nat;
  _frontier : H;
  _cur_pos : nat;
  _cur_move_set : nat;
  _cur_block_conn : EdgeWeight;
  _cur_conns : H;
  _cur_block : option BlockID;
  _cur_weight : NodeWeight;
  _best_prefix_pos : nat;
  _best_prefix_block : option BlockID;
  _best_prefix_conn : EdgeWeight
}.

(** The constructor.  [_move_set_indices] is a [NoinitVector] of which only
    the first entry is written, [garbage] stands for the others. *)
Definition create (garbage : nat) : t :=
  {| _node_to_move_set := replicate (dist_n g) None;
     _move_sets := replicate (dist_n g) None;
     _move_set_indices := 0 :: replicate (dist_n g) garbage;
     _frontier := BinaryMaxHeap.create (dist_n g);
     _cur_pos := 0; _cur_move_set := 0; _cur_block_conn := 0%Z;
     _cur_conns := BinaryMaxHeap.create (p_k (p_graph g));
     _cur_block := None; _cur_weight := 0%Z;
     _best_prefix_pos := 0; _best_prefix_block := None;
     _best_prefix_conn := 0%Z |}.

Definition in_cur_move_set (b : t) (v : NodeID) : bool :=
  bool_decide (_node_to_move_set b !!! v = Some (_cur_move_set b)).

(** Body of the neighbour loop of [add_to_move_set]; the state it changes
    is [_cur_block_conn] and [_cur_conns]. *)
Definition add_edge (b : t) (cur_block : BlockID)
    (acc : EdgeWeight * H) (e : NodeID * EdgeWeight) : EdgeWeight * H :=
  let v := fst e in
  if is_owned_node g v && in_cur_move_set b v
  then ((fst acc - snd e)%Z, snd acc)
  else
    let bv := block (p_graph g) v in
    if Nat.eqb bv cur_block then ((fst acc + snd e)%Z, snd acc)
    else (fst acc, BinaryMaxHeap.decrease_priority_by bv (snd e) (snd acc)).

(** [add_to_move_set].  [_node_to_move_set] and [_move_sets] have [n]
    entries; the stores [_node_to_move_set[u]] and [_move_sets[_cur_pos]]
    are [OutOfBounds] for an index that the array does not have. *)
Definition add_to_move_set (u : NodeID) (b : t) : Outcome t :=
  if negb ((u <? length (_node_to_move_set b))
           && (_cur_pos b <? length (_move_sets b)))
  then OutOfBounds else
  let cur_block :=
    match _cur_block b with
    | None => block (p_graph g) u
    | Some cur_block => cur_block
    end in
  let b1 :=
    {| _node_to_move_set := <[u := Some (_cur_move_set b)]> (_node_to_move_set b);
       _move_sets := <[_cur_pos b := Some u]> (_move_sets b);
       _move_set_indices := _move_set_indices b;
       _frontier := _frontier b;
       _cur_pos := _cur_pos b + 1;
       _cur_move_set := _cur_move_set b;
       _cur_block_conn := _cur_block_conn b;
       _cur_conns := _cur_conns b;
       _cur_block := Some cur_block;
       _cur_weight := (_cur_weight b + node_weight g u)%Z;
       _best_prefix_pos := _best_prefix_pos b;
       _best_prefix_block := _best_prefix_block b;
       _best_prefix_conn := _best_prefix_conn b |} in
  let '(cur_block_conn, cur_conns) :=
    fold_left (add_edge b1 cur_block) (neighbors (graph (p_graph g)) u)
              (_cur_block_conn b1, _cur_conns b1) in
  let better :=
    (_best_prefix_conn b1 <=? BinaryMaxHeap.peek_key cur_conns)%Z in
  Returns
  {| _node_to_move_set := _node_to_move_set b1;
     _move_sets := _move_sets b1;
     _move_set_indices := _move_set_indices b1;
     _frontier := _frontier b1;
     _cur_pos := _cur_pos b1;
     _cur_move_set := _cur_move_set b1;
     _cur_block_conn := cur_block_conn;
     _cur_conns := cur_conns;
     _cur_block := _cur_block b1;
     _cur_weight := _cur_weight b1;
     _best_prefix_pos :=
       if better then _cur_pos b1 else _best_prefix_pos b1;
     _best_prefix_block :=
       if better then Some (BinaryMaxHeap.peek_id cur_conns)
       else _best_prefix_block b1;
     _best_prefix_conn :=
       if better then BinaryMaxHeap.peek_key cur_conns
       else _best_prefix_conn b1 |}.

Definition reset_cur_conns (cur_conns : H) : H :=
  fold_left (fun h b => BinaryMaxHeap.push b 0%Z h)
            (seq 0 (p_k (p_graph g))) (BinaryMaxHeap.clear cur_conns).

(** [_node_to_move_set[_move_sets[pos]] = kInvalidNodeID]: [OutOfBounds]
    when [pos] is no index of [_move_sets] or the entry there, which may be
    [kInvalidNodeID], is no index of [_node_to_move_set]. *)
Definition unassign (b : t) (acc : Outcome (list (option NodeID)))
    (pos : nat) : Outcome (list (option NodeID)) :=
  match acc with
  | Returns node_to_move_set =>
      match _move_sets b !! pos with
      | Some (Some u) =>
          if u <? length node_to_move_set
          then Returns (<[u := None]> node_to_move_set)
          else OutOfBounds
      | _ => OutOfBounds
      end
  | OutOfBounds => OutOfBounds
  | OutOfFuel => OutOfFuel
  end.

(** [finish_move_set]; the store to [_move_set_indices[_cur_move_set + 1]]
    is [OutOfBounds] past the end of the array. *)
Definition finish_move_set (b : t) : Outcome t :=
  match fold_left (unassign b)
                  (seq (_best_prefix_pos b) (_cur_pos b - _best_prefix_pos b))
                  (Returns (_node_to_move_set b)) with
  | OutOfBounds => OutOfBounds
  | OutOfFuel => OutOfFuel
  | Returns node_to_move_set =>
      if negb (_cur_move_set b + 1 <? length (_move_set_indices b))
      then OutOfBounds else
      Returns
  {| _node_to_move_set := node_to_move_set;
     _move_sets := _move_sets b;
     _move_set_indices :=
       <[_cur_move_set b + 1 :=
           _move_set_indices b !!! _cur_move_set b + _best_prefix_pos b]>
         (_move_set_indices b);
     _frontier := _frontier b;
     _cur_pos := _best_prefix_pos b;
     _cur_move_set := _cur_move_set b + 1;
     _cur_block_conn := 0%Z;
     _cur_conns := reset_cur_conns (_cur_conns b);
     _cur_block := None;
     _cur_weight := _cur_weight b;
     _best_prefix_pos := _best_prefix_pos b;
     _best_prefix_block := _best_prefix_block b;
     _best_prefix_conn := _best_prefix_conn b |}
  end.

Definition with_frontier (frontier : H) (b : t) : t :=
  {| _node_to_move_set := _node_to_move_set b;
     _move_sets := _move_sets b;
     _move_set_indices := _move_set_indices b;
     _frontier := frontier;
     _cur_pos := _cur_pos b; _cur_move_set := _cur_move_set b;
     _cur_block_conn := _cur_block_conn b; _cur_conns := _cur_conns b;
     _cur_block := _cur_block b; _cur_weight := _cur_weight b;
     _best_prefix_pos := _best_prefix_pos b;
     _best_prefix_block := _best_prefix_block b;
     _best_prefix_conn := _best_prefix_conn b |}.

(** Body of the neighbour loop of [grow_move_set].  [_frontier] is a heap
    for the ids [0 .. n): an operation on it with the id of a ghost node
    is [OutOfBounds]. *)
Definition push_neighbor (bu : BlockID) (acc : Outcome H)
    (e : NodeID * EdgeWeight) : Outcome H :=
  match acc with
  | Returns frontier =>
      let v := fst e in
      let bv := block (p_graph g) v in
      if Nat.eqb bv bu then
        if negb (v <? dist_n g) then OutOfBounds
        else if BinaryMaxHeap.contains frontier v
        then Returns (BinaryMaxHeap.decrease_priority
                        v (BinaryMaxHeap.key frontier v + snd e)%Z frontier)
        else Returns (BinaryMaxHeap.push v (snd e) frontier)
      else Returns frontier
  | OutOfBounds => OutOfBounds
  | OutOfFuel => OutOfFuel
  end.

(** The while loop of [grow_move_set].  With node weights of zero it need
    not terminate; [fuel] bounds the iterations and [OutOfFuel] reports
    that the bound was reached with the loop still running. *)
Fixpoint grow_loop (fuel : nat) (max_weight : NodeWeight) (b : t)
  : Outcome t :=
  if negb (BinaryMaxHeap.empty (_frontier b))
     && (_cur_weight b <? max_weight)%Z
  then
    match fuel with
    | O => OutOfFuel
    | S fuel' =>
        let u := BinaryMaxHeap.peek_id (_frontier b) in
        let bu := block (p_graph g) u in
        let b1 := with_frontier (BinaryMaxHeap.pop (_frontier b)) b in
        match add_to_move_set u b1 with
        | Returns b2 =>
            match fold_left (push_neighbor bu)
                            (neighbors (graph (p_graph g)) u)
                            (Returns (_frontier b2)) with
            | Returns frontier =>
                grow_loop fuel' max_weight (with_frontier frontier b2)
            | OutOfBounds => OutOfBounds
            | OutOfFuel => OutOfFuel
            end
        | OutOfBounds => OutOfBounds
        | OutOfFuel => OutOfFuel
        end
    end
  else Returns b.

Definition grow_move_set (fuel : nat) (seed : NodeID)
    (max_weight : NodeWeight) (b : t) : Outcome t :=
  let b0 := with_frontier (BinaryMaxHeap.push seed 0%Z (_frontier b)) b in
  match grow_loop fuel max_weight b0 with
  | Returns b1 => finish_move_set b1
  | OutOfBounds => OutOfBounds
  | OutOfFuel => OutOfFuel
  end.

(** The test under which [build] starts a move set at [u]. *)
Definition starts_move_set (b : t) (u : NodeID) : bool :=
  let bu := block (p_graph g) u in
  (max_block_weight g bu <? block_weight g bu)%Z
  && bool_decide (_node_to_move_set b !!! u = None).

Definition build_node (fuel : nat) (max_move_set_weight : NodeWeight)
    (acc : Outcome t) (u : NodeID) : Outcome t :=
  match acc with
  | Returns b =>
      if starts_move_set b u
      then grow_move_set fuel u max_move_set_weight b
      else Returns b
  | OutOfBounds => OutOfBounds
  | OutOfFuel => OutOfFuel
  end.

Definition build (fuel : nat) (max_move_set_weight : NodeWeight) (b : t)
  : Outcome t :=
  fold_left (build_node fuel max_move_set_weight) (seq 0 (dist_n g))
            (Returns b).

(** [finalize]: the index array is cut to one entry per set plus one, its
    last entry becomes [n], and the three arrays go into the result. *)
Definition finalize (b : t) : MoveSets :=
  {| ms_node_to_move_set := _node_to_move_set b;
     ms_move_sets := _move_sets b;
     ms_move_set_indices :=
       <[_cur_move_set b := dist_n g]>
         (resize (_cur_move_set b + 1) 0 (_move_set_indices b)) |}.

Definition build_greedy_move_sets (fuel : nat) (garbage : nat)
    (max_move_set_weight : NodeWeight) : Outcome MoveSets :=
  match build fuel max_move_set_weight (create garbage) with
  | Returns b => Returns (finalize b)
  | OutOfBounds => OutOfBounds
  | OutOfFuel => OutOfFuel
  end.
End WithHeap.

End MoveSetBuilder.

(** ** JET refiner: the phases of one pass (jet_refiner.cc) *)

Module JetPass.

(** Modelled from the spec: the result of [compute_max_gainer]
    (gain_calculator.h is not among the sources): the best target block of
    a node, the node's connection to its own block and to the target, and
    their difference as the absolute gain. *)
Record MaxGainer := mkMaxGainer {
  mg_block : BlockID;
  int_degree : EdgeWeight;
  ext_degree : EdgeWeight
}.

Definition absolute_gain (m : MaxGainer) : EdgeWeight :=
  (ext_degree m - int_degree m)%Z.

(** The members of the refiner that the phases read and write.  The block
    array of [_p_graph] covers the owned nodes [0 .. n) and the ghost nodes
    [n .. total_n). *)
Record t := mk {
  _p_graph : MoveSetBuilder.DistributedPartitionedGraph;
  _penalty_factor : Q;
  _gains_and_targets : list (EdgeWeight * BlockID);
  _block_weight_deltas : list NodeWeight;
  _locked : list bool
}.

Definition n (st : t) : NodeID := MoveSetBuilder.dist_n (_p_graph st).

Definition total_n (st : t) : NodeID :=
  length (partition (MoveSetBuilder.p_graph (_p_graph st))).

Definition k (st : t) : BlockID := p_k (MoveSetBuilder.p_graph (_p_graph st)).

Definition block_of (st : t) (u : NodeID) : BlockID :=
  block (MoveSetBuilder.p_graph (_p_graph st)) u.

(** A parallel loop that stores [f i] at every index [i] of
    [first .. first + count); a store past the end of the array is outside
    the contract of the refiner and is dropped. *)
Definition write_range {A} (f : nat -> A) (first count : nat) (a : list A)
  : list A :=
  fold_left (fun a i => <[i := f i]> a) (seq first count) a.

(** [initialize()] without the snapshooter and the gain calculator. *)
Definition initialize (contraction_limit : nat)
    (coarse_penalty_factor fine_penalty_factor : Q) (st : t) : t :=
  {| _p_graph := _p_graph st;
     _penalty_factor :=
       if n st <=? 2 * k st * contraction_limit
       then coarse_penalty_factor else fine_penalty_factor;
     _gains_and_targets :=
       write_range (fun u => (0%Z, block_of st u)) 0 (total_n st)
                   (_gains_and_targets st);
     _block_weight_deltas :=
       write_range (fun _ => 0%Z) 0 (k st) (_block_weight_deltas st);
     _locked := write_range (fun _ => false) 0 (n st) (_locked st) |}.

(** The entry [find_moves] stores for the owned node [u];
    [compute_max_gainer] is the gain calculator on the current partition.
    The product with the penalty factor is taken in [double] in the source
    and over the rationals here. *)
Definition find_move (compute_max_gainer : NodeID -> MaxGainer) (st : t)
    (u : NodeID) : EdgeWeight * BlockID :=
  let b_u := block_of st u in
  if (_locked st !!! u : bool) then (0%Z, b_u)
  else
    let max_gainer := compute_max_gainer u in
    if negb (Nat.eqb (mg_block max_gainer) b_u)
       && ((ext_degree max_gainer >? int_degree max_gainer)%Z
           || (- Qfloor (_penalty_factor st
                         * inject_Z (int_degree max_gainer))
               <=? absolute_gain max_gainer)%Z)
    then (absolute_gain max_gainer, mg_block max_gainer)
    else (0%Z, b_u).

Definition find_moves (compute_max_gainer : NodeID -> MaxGainer) (st : t)
  : t :=
  {| _p_graph := _p_graph st;
     _penalty_factor := _penalty_factor st;
     _gains_and_targets :=
       write_range (find_move compute_max_gainer st) 0 (n st)
                   (_gains_and_targets st);
     _block_weight_deltas := _block_weight_deltas st;
     _locked := _locked st |}.

(** A move candidate as it arrives from another PE, with the sender's node
    id already translated by [map_foreign_node] into the local id of the
    ghost. *)
Record Message := mkMessage {
  msg_node : NodeID;
  msg_gain : EdgeWeight;
  msg_target : BlockID
}.

(** [synchronize_ghost_node_move_candidates]: every ghost entry is reset to
    "stays in its block", then the received candidates are stored. *)
Definition synchronize_ghost_node_move_candidates (recv_buffer : list Message)
    (st : t) : t :=
  let reset :=
    write_range (fun ghost => (0%Z, block_of st ghost))
                (n st) (total_n st - n st) (_gains_and_targets st) in
  {| _p_graph := _p_graph st;
     _penalty_factor := _penalty_factor st;
     _gains_and_targets :=
       fold_left (fun a m => <[msg_node m := (msg_gain m, msg_target m)]> a)
                 recv_buffer reset;
     _block_weight_deltas := _block_weight_deltas st;
     _locked := _locked st |}.

(** What [filter_bad_moves] reads. *)
Definition view (st : t) : JetRefiner.LocalView :=
  {| JetRefiner.lv_graph := MoveSetBuilder.p_graph (_p_graph st);
     JetRefiner._gains_and_targets := _gains_and_targets st |}.

(** [filter_bad_moves]: the lock bit of every owned node is cleared and set
    again when the projected gain of its move is not negative. *)
Definition filter_bad_moves (st : t) : t :=
  {| _p_graph := _p_graph st;
     _penalty_factor := _penalty_factor st;
     _gains_and_targets := _gains_and_targets st;
     _block_weight_deltas := _block_weight_deltas st;
     _locked :=
       write_range (JetRefiner.filter_node (view st)) 0 (n st) (_locked st) |}.

(** [set_block<false>(u, to)]: the block of [u] is written and the block
    weights are left to [apply_block_weight_deltas]. *)
Definition set_block_false (u : NodeID) (to : BlockID)
    (g : MoveSetBuilder.DistributedPartitionedGraph)
  : MoveSetBuilder.DistributedPartitionedGraph :=
  {| MoveSetBuilder.p_graph := set_block (MoveSetBuilder.p_graph g) u to;
     MoveSetBuilder.node_weights := MoveSetBuilder.node_weights g;
     MoveSetBuilder.block_weights := MoveSetBuilder.block_weights g;
     MoveSetBuilder.max_block_weights := MoveSetBuilder.max_block_weights g |}.

Definition set_block_weight (b : BlockID) (weight : NodeWeight)
    (g : MoveSetBuilder.DistributedPartitionedGraph)
  : MoveSetBuilder.DistributedPartitionedGraph :=
  {| MoveSetBuilder.p_graph := MoveSetBuilder.p_graph g;
     MoveSetBuilder.node_weights := MoveSetBuilder.node_weights g;
     MoveSetBuilder.block_weights :=
       <[b := weight]> (MoveSetBuilder.block_weights g);
     MoveSetBuilder.max_block_weights := MoveSetBuilder.max_block_weights g |}.

(** Body of the loop of [move_locked_nodes]. *)
Definition move_locked_node (st : t) (u : NodeID) : t :=
  if (_locked st !!! u : bool) then
    let from := block_of st u in
    let to := snd (_gains_and_targets st !!! u) in
    let w_u := MoveSetBuilder.node_weight (_p_graph st) u in
    {| _p_graph := set_block_false u to (_p_graph st);
       _penalty_factor := _penalty_factor st;
       _gains_and_targets := _gains_and_targets st;
       _block_weight_deltas :=
         atomic_fetch_add
           (atomic_fetch_sub (_block_weight_deltas st) from w_u) to w_u;
       _locked := _locked st |}
  else st.

(** Every iteration reads and writes the block of its own node only and
    updates the deltas atomically, so the iterations commute; the embedding
    runs them in ascending order. *)
Definition move_locked_nodes (st : t) : t :=
  fold_left move_locked_node (seq 0 (n st)) st.

(** [MPI_Allreduce(MPI_IN_PLACE, _block_weight_deltas.data(), k, ...,
    MPI_SUM, ...)] over the PEs [pes]: afterwards the first [k] deltas of
    every PE are the sums over all PEs. *)
Definition receive_sum (pes : list t) (pe : t) : t :=
  {| _p_graph := _p_graph pe;
     _penalty_factor := _penalty_factor pe;
     _gains_and_targets := _gains_and_targets pe;
     _block_weight_deltas :=
       write_range
         (fun b => sumZ (map (fun q => _block_weight_deltas q !!! b) pes))
         0 (k pe) (_block_weight_deltas pe);
     _locked := _locked pe |}.

Definition allreduce_sum (pes : list t) : list t :=
  map (receive_sum pes) pes.

(** Body of the loop over the blocks in [apply_block_weight_deltas]. *)
Definition apply_block_weight_delta (st : t) (b : BlockID) : t :=
  {| _p_graph :=
       set_block_weight
         b (MoveSetBuilder.block_weight (_p_graph st) b
            + _block_weight_deltas st !!! b)%Z
         (_p_graph st);
     _penalty_factor := _penalty_factor st;
     _gains_and_targets := _gains_and_targets st;
     _block_weight_deltas := <[b := 0%Z]> (_block_weight_deltas st);
     _locked := _locked st |}.

(** [apply_block_weight_deltas], run by all PEs together. *)
Definition apply_block_weight_deltas (pes : list t) : list t :=
  map (fun pe => fold_left apply_block_weight_delta (seq 0 (k pe)) pe)
      (allreduce_sum pes).

End JetPass.

(** ** Distributed coarsener (dkaminpar/coarsening/coarsener.cc) *)

Module Coarsener.

(** What [uncoarsen_once] reads of the partition it is given and builds of
    the one it returns; the graph that the result points to is [coarsest]
    of the coarsener afterwards. *)
Record DistributedPartitionedGraph := mkPartition {
  dp_k : BlockID;
  dp_partition : list BlockID;
  dp_block_weights : list Z
}.

Section WithGraphs.
(** A graph of the hierarchy; [total_n] counts its owned and ghost nodes. *)
Variable DistributedGraph : Type.
Variable total_n : DistributedGraph -> nat.
(** The mapping of a global contraction, and the state of the two
    clustering algorithms. *)
Variables GlobalMapping Algorithms : Type.
(** [_local_clustering_algorithm->compute_clustering] followed by
    [contract_local_clustering]: the coarse graph with the coarse node of
    each fine node, or [None] for an empty clustering, which is not
    contracted. *)
Variable local_clustering :
  Algorithms -> DistributedGraph -> Z ->
  Algorithms * option (DistributedGraph * list NodeID).
(** [_global_clustering_algorithm->compute_clustering] followed by
    [contract_global_clustering]. *)
Variable global_clustering :
  Algorithms -> DistributedGraph -> Z ->
  Algorithms * option (DistributedGraph * GlobalMapping).
(** [has_converged(before, after)], a test in double precision of
    [after.global_n() / before.global_n()] against [0.95]. *)
Variable has_converged : DistributedGraph -> DistributedGraph -> bool.
(** [project_global_contracted_graph]. *)
Variable project_global_contracted_graph :
  DistributedGraph -> DistributedPartitionedGraph -> GlobalMapping ->
  DistributedPartitionedGraph.

Record t := mk {
  _input_graph : DistributedGraph;
  (** [_input_ctx.coarsening.max_global_clustering_levels] *)
  max_global_clustering_levels : nat;
  (** [_input_ctx.coarsening.max_local_clustering_levels] *)
  max_local_clustering_levels : nat;
  _algorithms : Algorithms;
  _graph_hierarchy : list DistributedGraph;
  _global_mapping_hierarchy : list GlobalMapping;
  _local_mapping_hierarchy : list (list NodeID);
  _local_clustering_converged : bool
}.

Definition level (c : t) : nat := length (_graph_hierarchy c).

Definition nth_coarsest (c : t) (n : nat) : DistributedGraph :=
  if n <? length (_graph_hierarchy c)
  then default (_input_graph c)
               (_graph_hierarchy c !! (length (_graph_hierarchy c) - n - 1))
  else _input_graph c.

Definition coarsest (c : t) : DistributedGraph := nth_coarsest c 0.

Definition with_algorithms (c : t) (algorithms : Algorithms) : t :=
  {| _input_graph := _input_graph c;
     max_global_clustering_levels := max_global_clustering_levels c;
     max_local_clustering_levels := max_local_clustering_levels c;
     _algorithms := algorithms;
     _graph_hierarchy := _graph_hierarchy c;
     _global_mapping_hierarchy := _global_mapping_hierarchy c;
     _local_mapping_hierarchy := _local_mapping_hierarchy c;
     _local_clustering_converged := _local_clustering_converged c |}.

Definition with_local_clustering_converged (c : t) : t :=
  {| _input_graph := _input_graph c;
     max_global_clustering_levels := max_global_clustering_levels c;
     max_local_clustering_levels := max_local_clustering_levels c;
     _algorithms := _algorithms c;
     _graph_hierarchy := _graph_hierarchy c;
     _global_mapping_hierarchy := _global_mapping_hierarchy c;
     _local_mapping_hierarchy := _local_mapping_hierarchy c;
     _local_clustering_converged := true |}.

(** [coarsen_once_local].  The pointer that the source returns is
    [coarsest()] afterwards; it differs from the pointer to the graph that
    was the coarsest before exactly when a level was pushed, which is the
    flag returned here. *)
Definition coarsen_once_local (c : t) (max_cluster_weight : Z) : t * bool :=
  let graph := coarsest c in
  let '(algorithms, clustering) :=
    local_clustering (_algorithms c) graph max_cluster_weight in
  let c := with_algorithms c algorithms in
  match clustering with
  | None => (c, false)
  | Some (c_graph, mapping) =>
      if negb (has_converged graph c_graph) then
        ({| _input_graph := _input_graph c;
            max_global_clustering_levels := max_global_clustering_levels c;
            max_local_clustering_levels := max_local_clustering_levels c;
            _algorithms := _algorithms c;
            _graph_hierarchy := _graph_hierarchy c ++ [c_graph];
            _global_mapping_hierarchy := _global_mapping_hierarchy c;
            _local_mapping_hierarchy := _local_mapping_hierarchy c ++ [mapping];
            _local_clustering_converged := _local_clustering_converged c |},
         true)
      else (c, false)
  end.

(** [coarsen_once_global], without the optional debug output. *)
Definition coarsen_once_global (c : t) (max_cluster_weight : Z) : t :=
  let graph := coarsest c in
  let '(algorithms, clustering) :=
    global_clustering (_algorithms c) graph max_cluster_weight in
  let c := with_algorithms c algorithms in
  match clustering with
  | None => c
  | Some (c_graph, mapping) =>
      if negb (has_converged graph c_graph) then
        {| _input_graph := _input_graph c;
           max_global_clustering_levels := max_global_clustering_levels c;
           max_local_clustering_levels := max_local_clustering_levels c;
           _algorithms := _algorithms c;
           _graph_hierarchy := _graph_hierarchy c ++ [c_graph];
           _global_mapping_hierarchy := _global_mapping_hierarchy c ++ [mapping];
           _local_mapping_hierarchy := _local_mapping_hierarchy c;
           _local_clustering_converged := _local_clustering_converged c |}
      else c
  end.

(** [coarsen_once(max_cluster_weight)]; the graph it returns is [coarsest]
    of the result on every path. *)
Definition coarsen_once (c : t) (max_cluster_weight : Z) : t :=
  if max_global_clustering_levels c <=? level c then c
  else
    let c :=
      if level c =? max_local_clustering_levels c
      then with_local_clustering_converged c else c in
    if negb (_local_clustering_converged c) then
      let '(c', pushed) := coarsen_once_local c max_cluster_weight in
      if pushed then c'
      else coarsen_once_global (with_local_clustering_converged c')
                               max_cluster_weight
    else coarsen_once_global c max_cluster_weight.

(** [uncoarsen_once_local]: [None] when there is no local mapping or no
    graph to pop, where the source reads [back()] of an empty vector. *)
Definition uncoarsen_once_local (c : t) (p_graph : DistributedPartitionedGraph)
  : option (t * DistributedPartitionedGraph) :=
  match last (_local_mapping_hierarchy c), _graph_hierarchy c with
  | Some mapping, _ :: _ =>
      let new_coarsest := nth_coarsest c 1 in
      let partition :=
        map (fun u => dp_partition p_graph !!! (mapping !!! u))
            (seq 0 (total_n new_coarsest)) in
      Some ({| _input_graph := _input_graph c;
               max_global_clustering_levels := max_global_clustering_levels c;
               max_local_clustering_levels := max_local_clustering_levels c;
               _algorithms := _algorithms c;
               _graph_hierarchy := removelast (_graph_hierarchy c);
               _global_mapping_hierarchy := _global_mapping_hierarchy c;
               _local_mapping_hierarchy :=
                 removelast (_local_mapping_hierarchy c);
               _local_clustering_converged := _local_clustering_converged c |},
            {| dp_k := dp_k p_graph;
               dp_partition := partition;
               dp_block_weights := dp_block_weights p_graph |})
  | _, _ => None
  end.

(** [uncoarsen_once_global]. *)
Definition uncoarsen_once_global (c : t) (p_graph : DistributedPartitionedGraph)
  : option (t * DistributedPartitionedGraph) :=
  match last (_global_mapping_hierarchy c), _graph_hierarchy c with
  | Some mapping, _ :: _ =>
      let new_coarsest := nth_coarsest c 1 in
      Some ({| _input_graph := _input_graph c;
               max_global_clustering_levels := max_global_clustering_levels c;
               max_local_clustering_levels := max_local_clustering_levels c;
               _algorithms := _algorithms c;
               _graph_hierarchy := removelast (_graph_hierarchy c);
               _global_mapping_hierarchy :=
                 removelast (_global_mapping_hierarchy c);
               _local_mapping_hierarchy := _local_mapping_hierarchy c;
               _local_clustering_converged := _local_clustering_converged c |},
            project_global_contracted_graph new_coarsest p_graph mapping)
  | _, _ => None
  end.

(** [uncoarsen_once]; with both mapping hierarchies empty its assertion
    fails and the local branch has nothing to pop. *)
Definition uncoarsen_once (c : t) (p_graph : DistributedPartitionedGraph)
  : option (t * DistributedPartitionedGraph) :=
  match _global_mapping_hierarchy c with
  | _ :: _ => uncoarsen_once_global c p_graph
  | [] => uncoarsen_once_local c p_graph
  end.

End WithGraphs.

End Coarsener.

(** ** MPI helpers (dkaminpar/utility/mpi_helper.h) *)

Module Mpi.

(** Conversion of an integer to [int]: its low 32 bits in two's
    complement. *)
Definition to_int (x : Z) : Z := ((x + 2 ^ 31) mod 2 ^ 32 - 2 ^ 31)%Z.

(** [build_distribution_recvcounts]: [None] for an empty distribution,
    where [dist.size() - 1] wraps around and the vector cannot be
    allocated. *)
Definition build_distribution_recvcounts (dist : list Z) : option (list Z) :=
  match dist with
  | [] => None
  | _ :: _ =>
      Some (map (fun i => to_int (dist !!! (i + 1) - dist !!! i))
                (seq 0 (length dist - 1)))
  end.

(** [build_distribution_displs]. *)
Definition build_distribution_displs (dist : list Z) : option (list Z) :=
  match dist with
  | [] => None
  | _ :: _ =>
      Some (map (fun i => to_int (dist !!! i)) (seq 0 (length dist - 1)))
  end.

End Mpi.

(** ** Binary files (kaminpar-common/binary_util.h) *)

Module BinaryIO.

(** The object representation of an unsigned integer of [size] bytes on a
    little-endian host, as bytes [0 .. 255], and the integer that a
    representation stands for. *)
Fixpoint to_bytes (size : nat) (value : Z) : list Z :=
  match size with
  | O => []
  | S size' => (value mod 256)%Z :: to_bytes size' (value / 256)%Z
  end.

Fixpoint of_bytes (bytes : list Z) : Z :=
  match bytes with
  | [] => 0%Z
  | b :: bytes' => (b + 256 * of_bytes bytes')%Z
  end.

End BinaryIO.

Module BinaryWriter.

(** The bytes written to the file so far; the stream is taken to have been
    opened, which truncates the file, and to accept every write. *)
Record t := mk { _out : list Z }.

Definition create : t := {| _out := [] |}.

(** [write(data, size)] with the [size] first bytes of [data]. *)
Definition write (data : list Z) (size : nat) (w : t) : t :=
  {| _out := _out w ++ take size data |}.

(** [write_int<T>(value)] for an unsigned [T] of [size] bytes. *)
Definition write_int (size : nat) (value : Z) (w : t) : t :=
  write (BinaryIO.to_bytes size value) size w.

(** [write_raw_static_array] for elements of [size] bytes. *)
Definition write_raw_static_array (size : nat) (static_array : StaticArray.t Z)
    (w : t) : t :=
  write (flat_map (BinaryIO.to_bytes size)
                  (StaticArray.elements static_array))
        (StaticArray.size static_array * size) w.

End BinaryWriter.

Module BinaryReader.

Record t := mk { _length : nat; _data : list Z }.

(** The constructor reads the whole file; a file that cannot be opened is
    [None] and makes it throw [BinaryReaderException], the [None] result. *)
Definition create (file : option (list Z)) : option t :=
  match file with
  | None => None
  | Some bytes => Some {| _length := length bytes; _data := bytes |}
  end.

(** [read<T>(position)] for an unsigned [T] of [size] bytes.  The source
    does not compare [position] with [_length]; a read that leaves the
    buffer is [None]. *)
Definition read (size position : nat) (r : t) : option Z :=
  if position + size <=? length (_data r)
  then Some (BinaryIO.of_bytes (take size (drop position (_data r))))
  else None.

End BinaryReader.

(** * Vocabulary of the properties *)

(** The weight [w] counted when the condition holds. *)
Definition counted (c : bool) (w : Z) : Z := if c then w else 0%Z.

(** Weighted degree of a node and total weight of the half-edges between two
    nodes, read off the adjacency. *)
Definition weighted_degree (g : Graph) (u : NodeID) : EdgeWeight :=
  sumZ (map snd (neighbors g u)).

Definition edge_weight_between (g : Graph) (u v : NodeID) : EdgeWeight :=
  sumZ (map (fun e => counted (Nat.eqb (fst e) v) (snd e)) (neighbors g u)).

(** The data-model invariants of a partitioned graph: one block below [k]
    per node, edge targets that are nodes, and a symmetric edge list. *)
Record valid_partitioned_graph (p_graph : PartitionedGraph) : Prop := {
  vp_partition_length :
    length (partition p_graph) = graph_n (graph p_graph);
  vp_blocks :
    forall u, u < graph_n (graph p_graph) -> block p_graph u < p_k p_graph;
  vp_targets :
    forall u e, e ∈ neighbors (graph p_graph) u ->
                fst e < graph_n (graph p_graph);
  vp_symmetric :
    forall u v, edge_weight_between (graph p_graph) u v
                = edge_weight_between (graph p_graph) v u
}.

(** The cache was allocated for at least the nodes and blocks of the
    graph. *)
Record cache_fits (gc : DenseGainCache.t) (p_graph : PartitionedGraph)
  : Prop := {
  cf_k : p_k p_graph <= DenseGainCache._k gc;
  cf_n : graph_n (graph p_graph) <= DenseGainCache._n gc;
  cf_cache :
    length (DenseGainCache._gain_cache gc)
    = DenseGainCache._n gc * DenseGainCache._k gc;
  cf_degrees :
    length (DenseGainCache._weighted_degrees gc) = DenseGainCache._n gc
}.

(** The moves of a refinement: each entry sends a node to a block; the
    partition is updated and the cache is told the same move. *)
Definition apply_move (st : PartitionedGraph * DenseGainCache.t)
    (m : NodeID * BlockID) : PartitionedGraph * DenseGainCache.t :=
  let '(p_graph, gc) := st in
  let '(u, to) := m in
  (set_block p_graph u to,
   DenseGainCache.move p_graph u (block p_graph u) to gc).

Definition apply_moves (moves : list (NodeID * BlockID))
    (st : PartitionedGraph * DenseGainCache.t)
  : PartitionedGraph * DenseGainCache.t :=
  fold_left apply_move moves st.

(** Membership in the node range [s .. s + len). *)
Definition in_node_range (s len v : nat) : bool := (s <=? v) && (v <? s + len).

(** The cache agrees with the partition: every cell is the connection
    recomputed from the adjacency, every degree the weighted degree. *)
Record cache_consistent (gc : DenseGainCache.t) (p_graph : PartitionedGraph)
  : Prop := {
  cc_fits : cache_fits gc p_graph;
  cc_conn :
    forall u b, u < graph_n (graph p_graph) -> b < p_k p_graph ->
      DenseGainCache.weighted_degree_to gc u b
      = OnTheFlyGainCache.conn_impl p_graph u b;
  cc_degree :
    forall u, u < graph_n (graph p_graph) ->
      DenseGainCache._weighted_degrees gc !!! u
      = weighted_degree (graph p_graph) u
}.

(** The same partitioned graph declared with [K] blocks. *)
Definition with_k (K : BlockID) (p_graph : PartitionedGraph)
  : PartitionedGraph :=
  {| graph := graph p_graph; p_k := K; partition := partition p_graph |}.

(** Every cell of the cache, also those of blocks the graph does not use,
    and every degree is what a recomputation from the adjacency gives. *)
Definition cache_exact (gc : DenseGainCache.t) (p_graph : PartitionedGraph)
  : Prop :=
  (forall u b, u < graph_n (graph p_graph) -> b < DenseGainCache._k gc ->
     DenseGainCache.weighted_degree_to gc u b
     = OnTheFlyGainCache.conn_impl p_graph u b)
  /\ (forall u, u < graph_n (graph p_graph) ->
        DenseGainCache._weighted_degrees gc !!! u
        = weighted_degree (graph p_graph) u).

(** The moves of a local search, each a node with the block it leaves and
    the block it enters, told to a dense cache and to an overlay. *)
Definition dense_moves (p_graph : PartitionedGraph)
    (moves : list (NodeID * (BlockID * BlockID))) (gc : DenseGainCache.t)
  : DenseGainCache.t :=
  fold_left (fun gc m => DenseGainCache.move p_graph (fst m) (fst (snd m))
                                             (snd (snd m)) gc)
            moves gc.

Definition delta_moves (p_graph : PartitionedGraph)
    (moves : list (NodeID * (BlockID * BlockID))) (d : DeltaGainCache.t)
  : DeltaGainCache.t :=
  fold_left (fun d m => DeltaGainCache.move p_graph (fst m) (fst (snd m))
                                            (snd (snd m)) d)
            moves d.

(** Total weight of the owned nodes of a PE that lie in block [b]. *)
Definition owned_block_weight (st : JetPass.t) (b : BlockID) : NodeWeight :=
  sumZ (map (fun u => counted (Nat.eqb (JetPass.block_of st u) b)
                              (MoveSetBuilder.node_weight
                                 (JetPass._p_graph st) u))
            (seq 0 (JetPass.n st))).

(** Total weight of block [b] over all PEs. *)
Definition global_block_weight (pes : list JetPass.t) (b : BlockID)
  : NodeWeight :=
  sumZ (map (fun pe => owned_block_weight pe b) pes).

(** What [move_locked_nodes] relies on: the block array covers the owned
    nodes, there is one delta per block, and the blocks of the owned nodes
    and the targets of the locked ones are blocks of the graph. *)
Record moves_in_range (st : JetPass.t) : Prop := {
  mr_partition : JetPass.n st <= JetPass.total_n st;
  mr_deltas : length (JetPass._block_weight_deltas st) = JetPass.k st;
  mr_blocks :
    forall u, u < JetPass.n st -> JetPass.block_of st u < JetPass.k st;
  mr_targets :
    forall u, u < JetPass.n st -> JetPass._locked st !!! u = true ->
      snd (JetPass._gains_and_targets st !!! u) < JetPass.k st
}.

(** The replicated block weights of a PE are the global block weights and
    no delta is pending. *)
Definition block_weights_exact (pes : list JetPass.t) (pe : JetPass.t)
  : Prop :=
  forall b, b < JetPass.k pe ->
    MoveSetBuilder.block_weight (JetPass._p_graph pe) b
    = global_block_weight pes b
    /\ JetPass._block_weight_deltas pe !!! b = 0%Z.

(** The path 0-1-2-3 split over two PEs.  PE 0 owns the global nodes 0 and 1
    and sees node 2 as a ghost; PE 1 owns the global nodes 2 and 3 (local
    ids 0 and 1) and sees node 1 as a ghost.  All node weights are 1, the
    blocks are [0,1,1,0], and the filter has locked node 1 on PE 0 with
    target block 0. *)
Definition pe0_pass : JetPass.t :=
  {| JetPass._p_graph :=
       MoveSetBuilder.mkGraph
         (mkPartitionedGraph
            (mkGraph [ [(1, 1%Z)]; [(0, 1%Z); (2, 1%Z)] ]) 2 [0; 1; 1])
         [1; 1; 1]%Z [2; 2]%Z [3; 3]%Z;
     JetPass._penalty_factor := 0;
     JetPass._gains_and_targets := [(0%Z, 0); (0%Z, 0); (0%Z, 1)];
     JetPass._block_weight_deltas := [0; 0]%Z;
     JetPass._locked := [false; true] |}.

Definition pe1_pass : JetPass.t :=
  {| JetPass._p_graph :=
       MoveSetBuilder.mkGraph
         (mkPartitionedGraph
            (mkGraph [ [(2, 1%Z); (1, 1%Z)]; [(0, 1%Z)] ]) 2 [1; 0; 1])
         [1; 1; 1]%Z [2; 2]%Z [3; 3]%Z;
     JetPass._penalty_factor := 0;
     JetPass._gains_and_targets := [(0%Z, 1); (0%Z, 0); (0%Z, 0)];
     JetPass._block_weight_deltas := [0; 0]%Z;
     JetPass._locked := [false; false] |}.

(** The calls a user makes on a builder between [initialize] and
    [finalize]. *)
Inductive BuilderCall :=
| CreateNode (weight : NodeWeight)
| ChangeLocalNodeWeight (node : NodeID) (weight : NodeWeight)
| AddLocalNodeWeight (node : NodeID) (delta : NodeWeight)
| CreateEdge (weight : EdgeWeight) (global_v : nat).

Definition builder_call (b : Builder.t) (c : BuilderCall) : Builder.t :=
  match c with
  | CreateNode weight => Builder.create_node weight b
  | ChangeLocalNodeWeight node weight =>
      Builder.change_local_node_weight node weight b
  | AddLocalNodeWeight node delta => Builder.add_local_node_weight node delta b
  | CreateEdge weight global_v => snd (Builder.create_edge weight global_v b)
  end.

Definition builder_calls (calls : list BuilderCall) (b : Builder.t)
  : Builder.t :=
  fold_left builder_call calls b.

(** The global endpoints passed to [create_edge], in call order, and the
    number of [create_node] calls. *)
Definition edge_targets (calls : list BuilderCall) : list nat :=
  flat_map (fun c => match c with
                     | CreateEdge _ global_v => [global_v]
                     | _ => []
                     end) calls.

Definition created_nodes (calls : list BuilderCall) : nat :=
  length (flat_map (fun c => match c with
                             | CreateNode weight => [weight]
                             | _ => []
                             end) calls).

(** The global id behind a local id: owned nodes are numbered from the
    offset of the PE, ghost nodes are looked up. *)
Definition local_to_global (b : Builder.t) (local : NodeID) : nat :=
  if local <? Builder._local_n b then Builder._offset_n b + local
  else Builder._ghost_to_global b !!! (local - Builder._local_n b).

(** A node distribution as [initialize] asserts it and as the binary search
    of [find_ghost_owner] needs it: it starts at 0, is sorted, ends at the
    global number of nodes, and has an entry after the one of the PE. *)
Record valid_distribution (rank global_n : nat) (node_distribution : list nat)
  : Prop := {
  vd_front : node_distribution !! 0 = Some 0;
  vd_back : last node_distribution = Some global_n;
  vd_sorted :
    forall i j x y, i <= j -> node_distribution !! i = Some x ->
                    node_distribution !! j = Some y -> x <= y;
  vd_rank : rank + 1 < length node_distribution
}.

(** What the builder keeps between its calls. *)
Record builder_invariant (b : Builder.t) : Prop := {
  bi_ghost_ids :
    forall global id,
      Builder._global_to_ghost b !! global = Some id
      <-> exists j, id = Builder._local_n b + j
                    /\ Builder._ghost_to_global b !! j = Some global;
  bi_ghosts_distinct : NoDup (Builder._ghost_to_global b);
  bi_ghosts_foreign :
    Forall (fun global => Builder.is_local_node b global = false)
           (Builder._ghost_to_global b);
  bi_owners :
    Builder._ghost_owner b
    = map (Builder.find_ghost_owner b) (Builder._ghost_to_global b);
  bi_edges :
    Forall (fun local => local < Builder._local_n b
                                 + length (Builder._ghost_to_global b))
           (Builder._edges b);
  bi_edge_weights :
    length (Builder._edge_weights b) = length (Builder._edges b)
}.

(** The offsets in [_nodes] are sorted and none points past the edges
    created so far. *)
Record offsets_invariant (b : Builder.t) : Prop := {
  oi_sorted :
    forall i j x y, i <= j -> Builder._nodes b !! i = Some x ->
                    Builder._nodes b !! j = Some y -> x <= y;
  oi_bounded :
    Forall (fun offset => offset <= length (Builder._edges b))
           (Builder._nodes b)
}.

(** A sequence of [set] calls on a fast-reset array, first call first. *)
Definition fast_reset_sets {Value : Type} `{EqDecision Value}
    (default : Value) (writes : list (nat * Value))
    (a : @FastResetArray.t Value) : @FastResetArray.t Value :=
  fold_left (fun a w => FastResetArray.set default (fst w) (snd w) a)
            writes a.

(** Every slot that does not hold the default value is registered, and
    every registered position is a slot of the array. *)
Record fast_reset_tracked {Value : Type} (default : Value)
    (a : @FastResetArray.t Value) : Prop := {
  frt_registered :
    forall pos value, FastResetArray._data a !! pos = Some value ->
                      value <> default ->
                      pos ∈ FastResetArray._used_entries a;
  frt_in_range :
    Forall (fun pos => pos < length (FastResetArray._data a))
           (FastResetArray._used_entries a)
}.

(** Whether a node is assigned to a move set, and the total weight of the
    owned nodes that are. *)
Definition is_assigned (node_to_move_set : list (option NodeID)) (u : NodeID)
  : bool :=
  match node_to_move_set !! u with
  | Some (Some _) => true
  | _ => false
  end.

Definition assigned_weight (g : MoveSetBuilder.DistributedPartitionedGraph)
    (node_to_move_set : list (option NodeID)) : NodeWeight :=
  sumZ (map (fun u => counted (is_assigned node_to_move_set u)
                              (MoveSetBuilder.node_weight g u))
            (seq 0 (MoveSetBuilder.dist_n g))).

(** The weight counter of the builder bounds the weight of the assigned
    nodes and has passed the cap by less than one node. *)
Definition weight_accounted {H : Type} `{BinaryMaxHeap.Ops H}
    (g : MoveSetBuilder.DistributedPartitionedGraph)
    (max_weight max_node_weight : NodeWeight) (b : @MoveSetBuilder.t H)
  : Prop :=
  (assigned_weight g (MoveSetBuilder._node_to_move_set b)
   <= MoveSetBuilder._cur_weight b)%Z
  /\ (0 <= MoveSetBuilder._cur_weight b < max_weight + max_node_weight)%Z.

(** A call of the coarsener by the partitioner. *)
Inductive CoarsenerCall : Type :=
  | CoarsenOnce (max_cluster_weight : Z)
  | UncoarsenOnce (p_graph : Coarsener.DistributedPartitionedGraph).

(** What the coarsener keeps between its calls: one mapping per level,
    the two limits on the levels, and no global level before local
    clustering has converged. *)
Record hierarchy_invariant {DistributedGraph GlobalMapping Algorithms : Type}
    (c : Coarsener.t DistributedGraph GlobalMapping Algorithms) : Prop := {
  hi_level :
    Coarsener.level _ _ _ c
    = length (Coarsener._local_mapping_hierarchy _ _ _ c)
      + length (Coarsener._global_mapping_hierarchy _ _ _ c);
  hi_global_levels :
    Coarsener.level _ _ _ c <= Coarsener.max_global_clustering_levels _ _ _ c;
  hi_local_levels :
    length (Coarsener._local_mapping_hierarchy _ _ _ c)
    <= Coarsener.max_local_clustering_levels _ _ _ c;
  hi_local_first :
    Coarsener._local_clustering_converged _ _ _ c = false ->
    Coarsener._global_mapping_hierarchy _ _ _ c = []
}.

Section CoarsenerCalls.
Context {DistributedGraph GlobalMapping Algorithms : Type}.
Variable total_n : DistributedGraph -> nat.
Variable local_clustering :
  Algorithms -> DistributedGraph -> Z ->
  Algorithms * option (DistributedGraph * list NodeID).
Variable global_clustering :
  Algorithms -> DistributedGraph -> Z ->
  Algorithms * option (DistributedGraph * GlobalMapping).
Variable has_converged : DistributedGraph -> DistributedGraph -> bool.
Variable project_global_contracted_graph :
  DistributedGraph -> Coarsener.DistributedPartitionedGraph -> GlobalMapping ->
  Coarsener.DistributedPartitionedGraph.

(** One call; [None] when [uncoarsen_once] is called without a level. *)
Definition coarsener_call
    (c : Coarsener.t DistributedGraph GlobalMapping Algorithms)
    (call : CoarsenerCall)
  : option (Coarsener.t DistributedGraph GlobalMapping Algorithms) :=
  match call with
  | CoarsenOnce max_cluster_weight =>
      Some (Coarsener.coarsen_once _ _ _ local_clustering global_clustering
                                   has_converged c max_cluster_weight)
  | UncoarsenOnce p_graph =>
      fst <$> Coarsener.uncoarsen_once _ total_n _ _
                project_global_contracted_graph c p_graph
  end.

(** A sequence of calls, each on the coarsener that the one before left. *)
Fixpoint coarsener_calls
    (c : Coarsener.t DistributedGraph GlobalMapping Algorithms)
    (calls : list CoarsenerCall)
  : option (Coarsener.t DistributedGraph GlobalMapping Algorithms) :=
  match calls with
  | [] => Some c
  | call :: calls' =>
      match coarsener_call c call with
      | Some c' => coarsener_calls c' calls'
      | None => None
      end
  end.
End CoarsenerCalls.

(** A coarsener as constructed: no level yet. *)
Definition no_levels {DistributedGraph GlobalMapping Algorithms : Type}
    (c : Coarsener.t DistributedGraph GlobalMapping Algorithms) : Prop :=
  Coarsener._graph_hierarchy _ _ _ c = []
  /\ Coarsener._global_mapping_hierarchy _ _ _ c = []
  /\ Coarsener._local_mapping_hierarchy _ _ _ c = [].

(** A coarsener over graphs that are given by their number of nodes, where
    every clustering halves the graph; at most three levels, one of them
    local. *)
Definition halving_coarsener : Coarsener.t nat unit unit :=
  Coarsener.mk nat unit unit 8 3 1 tt [] [] [] false.

Definition halving_calls (calls : list CoarsenerCall)
  : option (Coarsener.t nat unit unit) :=
  coarsener_calls id
    (fun (a : unit) (g : nat) (_ : Z) => (a, Some (g / 2, [0; 0])))
    (fun (a : unit) (g : nat) (_ : Z) => (a, Some (g / 2, tt)))
    (fun before after : nat => 19 * before <=? 20 * after)
    (fun _ p_graph _ => p_graph)
    halving_coarsener calls.

(** The file after a sequence of [write_int] calls, each given as the size
    of its type in bytes and the value, and the position in the file of the
    integer written by call [i]. *)
Definition write_ints (ints : list (nat * Z)) : list Z :=
  BinaryWriter._out
    (fold_left (fun w int => BinaryWriter.write_int (fst int) (snd int) w)
               ints BinaryWriter.create).

Definition position_of (ints : list (nat * Z)) (i : nat) : nat :=
  foldr Nat.add 0 (map fst (take i ints)).

(** The state after [i] iterations of a refiner, whatever they moved. *)
Fixpoint after_iterations {State : Type}
    (randomized_iteration : State -> N * State) (i : nat) (st : State)
  : State :=
  match i with
  | O => st
  | S i' => after_iterations randomized_iteration i'
                             (snd (randomized_iteration st))
  end.

(** The values the specification lists for the path example. *)
Definition path4_values_as_specified : Prop :=
  DenseGainCache.weighted_degree_to path4_cache 0 0 = 0%Z
  /\ DenseGainCache.weighted_degree_to path4_cache 0 1 = 1%Z
  /\ DenseGainCache.weighted_degree_to path4_cache 1 0 = 1%Z
  /\ DenseGainCache.weighted_degree_to path4_cache 1 1 = 1%Z
  /\ DenseGainCache.weighted_degree_to path4_cache_moved 0 1 = 0%Z
  /\ DenseGainCache.weighted_degree_to path4_cache_moved 0 0 = 1%Z
  /\ DenseGainCache.weighted_degree_to path4_cache_moved 2 1 = 0%Z
  /\ DenseGainCache.weighted_degree_to path4_cache_moved 2 0 = 1%Z
  /\ DenseGainCache.gain path4_cache_moved 2 1 0 = 1%Z.

(** A candidate that brings its block exactly to the cap: node of weight 1,
    target block 1 of weight 3 and cap 4, initial block 0 of weight 2, and a
    better gain than the best candidate so far. *)
Definition state_at_cap : LabelPropagationRefiner.ClusterSelectionState :=
  {| LabelPropagationRefiner.local_rand := false;
     LabelPropagationRefiner.u_weight := 1;
     LabelPropagationRefiner.initial_cluster := 0;
     LabelPropagationRefiner.initial_cluster_weight := 2;
     LabelPropagationRefiner.best_cluster := 0;
     LabelPropagationRefiner.best_gain := 0;
     LabelPropagationRefiner.best_cluster_weight := 2;
     LabelPropagationRefiner.current_cluster := 1;
     LabelPropagationRefiner.current_gain := 1;
     LabelPropagationRefiner.current_cluster_weight := 3 |}.

(** The same candidate with a target block of weight 2. *)
Definition state_below_cap : LabelPropagationRefiner.ClusterSelectionState :=
  {| LabelPropagationRefiner.local_rand := false;
     LabelPropagationRefiner.u_weight := 1;
     LabelPropagationRefiner.initial_cluster := 0;
     LabelPropagationRefiner.initial_cluster_weight := 2;
     LabelPropagationRefiner.best_cluster := 0;
     LabelPropagationRefiner.best_gain := 0;
     LabelPropagationRefiner.best_cluster_weight := 2;
     LabelPropagationRefiner.current_cluster := 1;
     LabelPropagationRefiner.current_gain := 1;
     LabelPropagationRefiner.current_cluster_weight := 2 |}.

(** A node weighing 1 whose best candidate is its own, overloaded block. *)
Definition state_back_home : LabelPropagationRefiner.ClusterSelectionState :=
  {| LabelPropagationRefiner.local_rand := false;
     LabelPropagationRefiner.u_weight := 1;
     LabelPropagationRefiner.initial_cluster := 0;
     LabelPropagationRefiner.initial_cluster_weight := 6;
     LabelPropagationRefiner.best_cluster := 1;
     LabelPropagationRefiner.best_gain := 0;
     LabelPropagationRefiner.best_cluster_weight := 2;
     LabelPropagationRefiner.current_cluster := 0;
     LabelPropagationRefiner.current_gain := 1;
     LabelPropagationRefiner.current_cluster_weight := 5 |}.

(** A node weighing 5 in a block of weight 8 that is within its cap of 10,
    and a better candidate of weight 7 with the same cap. *)
Definition state_feasible_source
  : LabelPropagationRefiner.ClusterSelectionState :=
  {| LabelPropagationRefiner.local_rand := false;
     LabelPropagationRefiner.u_weight := 5;
     LabelPropagationRefiner.initial_cluster := 0;
     LabelPropagationRefiner.initial_cluster_weight := 8;
     LabelPropagationRefiner.best_cluster := 0;
     LabelPropagationRefiner.best_gain := 0;
     LabelPropagationRefiner.best_cluster_weight := 8;
     LabelPropagationRefiner.current_cluster := 1;
     LabelPropagationRefiner.current_gain := 1;
     LabelPropagationRefiner.current_cluster_weight := 7 |}.

(** A node weighing 1 in a block of weight 6 with a cap of 4, and a better
    candidate that is filled exactly to the same cap. *)
Definition state_repair : LabelPropagationRefiner.ClusterSelectionState :=
  {| LabelPropagationRefiner.local_rand := false;
     LabelPropagationRefiner.u_weight := 1;
     LabelPropagationRefiner.initial_cluster := 0;
     LabelPropagationRefiner.initial_cluster_weight := 6;
     LabelPropagationRefiner.best_cluster := 0;
     LabelPropagationRefiner.best_gain := 0;
     LabelPropagationRefiner.best_cluster_weight := 6;
     LabelPropagationRefiner.current_cluster := 1;
     LabelPropagationRefiner.current_gain := 1;
     LabelPropagationRefiner.current_cluster_weight := 4 |}.

(** The overload of a block as the glossary of the specification defines
    it: the weight above the cap, and 0 for a block within its cap. *)
Definition overload (weight max_weight : NodeWeight) : NodeWeight :=
  Z.max 0 (weight - max_weight).

(** What the pass loop maintains: the snapshot records its own cut, that cut
    is at most the running [best_cut], which is at most [initial_cut]. *)
Definition snapshot_invariant {State : Type} (edge_cut : State -> EdgeWeight)
    (initial_cut : EdgeWeight) (st : JetRefiner.LoopState State) : Prop :=
  JetRefiner.best_partition_cut (JetRefiner._snapshooter st)
  = edge_cut (JetRefiner.best_partition (JetRefiner._snapshooter st))
  /\ (JetRefiner.best_partition_cut (JetRefiner._snapshooter st)
      <= JetRefiner.best_cut st)%Z
  /\ (0 <= JetRefiner.best_cut st <= initial_cut)%Z.

(** A refiner state that only remembers how many passes were run, with the
    cut after each: 4 at the start, [after] from the first pass on. *)
Definition cut_after_passes (after : EdgeWeight) (passes : nat) : EdgeWeight :=
  match passes with
  | O => 4%Z
  | S _ => after
  end.

(** One iteration, one fruitless iteration, threshold 1/2. *)
Definition single_pass_ctx : JetRefiner.JetRefinementContext :=
  {| JetRefiner.num_iterations := 1;
     JetRefiner.num_fruitless_iterations := 1;
     JetRefiner.fruitless_threshold := 1 # 2 |}.

(** No limit on the iterations, two fruitless iterations, threshold 1/2. *)
Definition unlimited_ctx : JetRefiner.JetRefinementContext :=
  {| JetRefiner.num_iterations := 0;
     JetRefiner.num_fruitless_iterations := 2;
     JetRefiner.fruitless_threshold := 1 # 2 |}.

(** Two PEs, two nodes, one edge of weight 1 between them.  PE 0 owns the
    node with global id 0 (block 0), PE 1 owns the node with global id 1
    (block 1); each PE builds its part of the graph with the builder. *)
Definition two_pe_distribution : list nat := [0; 1; 2].

Definition pe0_edge : NodeID * Builder.t :=
  Builder.create_edge 1%Z 1
    (Builder.create_node 1%Z (Builder.initialize 0 two_pe_distribution)).

Definition pe1_edge : NodeID * Builder.t :=
  Builder.create_edge 1%Z 0
    (Builder.create_node 1%Z (Builder.initialize 1 two_pe_distribution)).

(** Each owner proposes to move to the other block with gain 1, and after
    [synchronize_ghost_node_move_candidates] each PE holds the proposal of
    the other one at the ghost. *)
Definition pe0_view : JetRefiner.LocalView :=
  {| JetRefiner.lv_graph :=
       mkPartitionedGraph (mkGraph [ [(fst pe0_edge, 1%Z)] ]) 2 [0; 1];
     JetRefiner._gains_and_targets := [(1%Z, 1); (1%Z, 0)] |}.

Definition pe1_view : JetRefiner.LocalView :=
  {| JetRefiner.lv_graph :=
       mkPartitionedGraph (mkGraph [ [(fst pe1_edge, 1%Z)] ]) 2 [1; 0];
     JetRefiner._gains_and_targets := [(1%Z, 0); (1%Z, 1)] |}.

(** The sums of the deltas before each position. *)
Definition prefix_sums (deltas : list Z) : list Z :=
  map (fun i => sumZ (take i deltas)) (seq 0 (length deltas)).

(** Four nodes with weights 2, 3, 1, 1, the last two isolated; the degree
    buckets hold the prefix counts 0, 2, 4, 4. *)
Definition small_compressed_graph : CompressedGraph.t :=
  CompressedGraph.create [0; 1; 2; 2; 2]%Z [2; 3; 1; 1]%Z true
                         [0; 2; 4; 4]%Z 2.

(** The block of the node is overloaded. *)
Definition overloaded (g : MoveSetBuilder.DistributedPartitionedGraph)
    (u : NodeID) : Prop :=
  (MoveSetBuilder.max_block_weight g (block (MoveSetBuilder.p_graph g) u)
   < MoveSetBuilder.block_weight g (block (MoveSetBuilder.p_graph g) u))%Z.

(** Every assigned node lies in the block of the seed of its set. *)
Definition sets_in_seed_blocks (g : MoveSetBuilder.DistributedPartitionedGraph)
    (seeds : list NodeID) (node_to_move_set : list (option NodeID)) : Prop :=
  forall u s, node_to_move_set !! u = Some (Some s) ->
    exists seed,
      seeds !! s = Some seed
      /\ block (MoveSetBuilder.p_graph g) u
         = block (MoveSetBuilder.p_graph g) seed.

(** Every node on the frontier is an owned node. *)
Definition frontier_owned {H : Type} `{BinaryMaxHeap.Ops H}
    (g : MoveSetBuilder.DistributedPartitionedGraph)
    (b : @MoveSetBuilder.t H) : Prop :=
  forall x, x ∈ BinaryMaxHeap.ids (MoveSetBuilder._frontier b) ->
            x < MoveSetBuilder.dist_n g.

(** The weights of the owned nodes, which the growth loop adds up, are
    positive. *)
Definition positive_weights (g : MoveSetBuilder.DistributedPartitionedGraph)
  : Prop :=
  forall u, u < MoveSetBuilder.dist_n g ->
            (1 <= MoveSetBuilder.node_weight g u)%Z.




(** Two adjacent nodes of weight 1 in one overloaded block. *)
Definition adjacent2 : MoveSetBuilder.DistributedPartitionedGraph :=
  MoveSetBuilder.mkGraph
    (mkPartitionedGraph (mkGraph [ [(1, 1%Z)]; [(0, 1%Z)] ]) 1 [0; 0])
    [1; 1]%Z [2]%Z [1]%Z.

(** What holds while the set of [seed] grows. *)
Definition growing {H : Type} `{BinaryMaxHeap.Ops H}
    (g : MoveSetBuilder.DistributedPartitionedGraph) (max_weight : NodeWeight)
    (seeds : list NodeID) (seed : NodeID) (b : @MoveSetBuilder.t H) : Prop :=
  MoveSetBuilder._cur_move_set b = length seeds
  /\ ((forall x, x ∈ BinaryMaxHeap.ids (MoveSetBuilder._frontier b) ->
                 block (MoveSetBuilder.p_graph g) x
                 = block (MoveSetBuilder.p_graph g) seed)
      \/ (max_weight <= MoveSetBuilder._cur_weight b)%Z)
  /\ sets_in_seed_blocks g (seeds ++ [seed])
                         (MoveSetBuilder._node_to_move_set b).

(** What holds between two sets. *)
Definition between_sets {H : Type} `{BinaryMaxHeap.Ops H}
    (g : MoveSetBuilder.DistributedPartitionedGraph) (max_weight : NodeWeight)
    (seeds : list NodeID) (b : @MoveSetBuilder.t H) : Prop :=
  MoveSetBuilder._cur_move_set b = length seeds
  /\ Forall (fun seed => seed < MoveSetBuilder.dist_n g /\ overloaded g seed)
            seeds
  /\ sets_in_seed_blocks g seeds (MoveSetBuilder._node_to_move_set b)
  /\ (BinaryMaxHeap.ids (MoveSetBuilder._frontier b) = []
      \/ (max_weight <= MoveSetBuilder._cur_weight b)%Z).

(** The path 0-1-...-7 with unit weights, eight nodes of weight 1 owned by
    one PE, blocks [0,0,0,0,0,0,1,1] of weights 6 and 2, and a cap of 4. *)
Definition path8 : Graph :=
  mkGraph [ [(1, 1%Z)]; [(0, 1%Z); (2, 1%Z)]; [(1, 1%Z); (3, 1%Z)];
            [(2, 1%Z); (4, 1%Z)]; [(3, 1%Z); (5, 1%Z)]; [(4, 1%Z); (6, 1%Z)];
            [(5, 1%Z); (7, 1%Z)]; [(6, 1%Z)] ].

Definition path8_partitioned : MoveSetBuilder.DistributedPartitionedGraph :=
  MoveSetBuilder.mkGraph
    (mkPartitionedGraph path8 2 [0; 0; 0; 0; 0; 0; 1; 1])
    [1; 1; 1; 1; 1; 1; 1; 1]%Z [6; 2]%Z [4; 4]%Z.

(** What the builder returns on it with a list heap and sets of weight at
    most 2: nodes 0 and 1 form set 0. *)
Definition path8_move_sets : MoveSetBuilder.MoveSets :=
  {| MoveSetBuilder.ms_node_to_move_set :=
       [Some 0; Some 0; None; None; None; None; None; None];
     MoveSetBuilder.ms_move_sets :=
       [Some 0; Some 1; None; None; None; None; None; None];
     MoveSetBuilder.ms_move_set_indices := [0; 2; 4; 6; 8; 8] |}.

(** * Properties *)

(** ** Sums and indexed updates *)

Lemma sumZ_app (l1 l2 : list Z) : sumZ (l1 ++ l2) = (sumZ l1 + sumZ l2)%Z.
Proof. induction l1 as [|x l1 IH]; simpl; [reflexivity | rewrite IH; lia]. Qed.

Lemma sumZ_map_add {A} (f h : A -> Z) (l : list A) :
  sumZ (map (fun x => (f x + h x)%Z) l)
  = (sumZ (map f l) + sumZ (map h l))%Z.
Proof. induction l as [|x l IH]; simpl; [reflexivity | rewrite IH; lia]. Qed.

Lemma sumZ_map_ext {A} (f h : A -> Z) (l : list A) :
  (forall x, x ∈ l -> f x = h x) -> sumZ (map f l) = sumZ (map h l).
Proof.
  induction l as [|x l IH]; intros Hfh; simpl; [reflexivity|].
  rewrite Hfh by apply list_elem_of_here.
  rewrite IH; [reflexivity|].
  intros y Hy. apply Hfh. by apply list_elem_of_further.
Qed.

Lemma sumZ_map_zero {A} (l : list A) : sumZ (map (fun _ => 0%Z) l) = 0%Z.
Proof. induction l as [|x l IH]; simpl; [reflexivity | rewrite IH; lia]. Qed.

Lemma sumZ_map_scale {A} (c : Z) (f : A -> Z) (l : list A) :
  sumZ (map (fun x => (c * f x)%Z) l) = (c * sumZ (map f l))%Z.
Proof. induction l as [|x l IH]; simpl; [lia | rewrite IH; lia]. Qed.

(** A sum over the block ids [0 .. k) picks out the one block that matches. *)
Lemma sumZ_counted_seq (x k : nat) (w : Z) :
  sumZ (map (fun b => counted (Nat.eqb x b) w) (seq 0 k))
  = counted (x <? k) w.
Proof.
  induction k as [|k IH]; [reflexivity|].
  rewrite seq_S, map_app, sumZ_app, IH. simpl. unfold counted.
  destruct (Nat.eqb_spec x k), (Nat.ltb_spec x k), (Nat.ltb_spec x (S k));
    lia.
Qed.

Lemma fold_left_add_counted {A} (c : A -> bool) (w : A -> Z) (l : list A) (a : Z) :
  fold_left (fun acc e => if c e then (acc + w e)%Z else acc) l a
  = (a + sumZ (map (fun e => counted (c e) (w e)) l))%Z.
Proof.
  revert a. induction l as [|e l IH]; intros a; simpl; [lia|].
  rewrite IH. unfold counted. destruct (c e); lia.
Qed.

Lemma atomic_fetch_add_length a i d : length (atomic_fetch_add a i d) = length a.
Proof. apply length_insert. Qed.

Lemma atomic_fetch_sub_length a i d : length (atomic_fetch_sub a i d) = length a.
Proof. apply length_insert. Qed.

Lemma atomic_fetch_add_lookup a i d j :
  i < length a ->
  atomic_fetch_add a i d !!! j = (a !!! j + counted (Nat.eqb i j) d)%Z.
Proof.
  intros Hi. unfold atomic_fetch_add, counted.
  destruct (Nat.eqb_spec i j) as [->|Hne].
  - by rewrite list_lookup_total_insert_eq.
  - rewrite list_lookup_total_insert_ne by done. lia.
Qed.

Lemma atomic_fetch_sub_lookup a i d j :
  i < length a ->
  atomic_fetch_sub a i d !!! j = (a !!! j - counted (Nat.eqb i j) d)%Z.
Proof.
  intros Hi. unfold atomic_fetch_sub, counted.
  destruct (Nat.eqb_spec i j) as [->|Hne].
  - by rewrite list_lookup_total_insert_eq.
  - rewrite list_lookup_total_insert_ne by done. lia.
Qed.

(** Adding [wt e] at cell [ix e] for every [e] of a list. *)
Lemma scatter_add_length {A} (ix : A -> nat) (wt : A -> Z) (l : list A) a :
  length (fold_left (fun a e => atomic_fetch_add a (ix e) (wt e)) l a)
  = length a.
Proof.
  revert a. induction l as [|e l IH]; intros a; simpl; [reflexivity|].
  by rewrite IH, atomic_fetch_add_length.
Qed.

Lemma scatter_add_lookup {A} (ix : A -> nat) (wt : A -> Z) (l : list A) a j :
  (forall e, e ∈ l -> ix e < length a) ->
  fold_left (fun a e => atomic_fetch_add a (ix e) (wt e)) l a !!! j
  = (a !!! j + sumZ (map (fun e => counted (Nat.eqb (ix e) j) (wt e)) l))%Z.
Proof.
  revert a. induction l as [|e l IH]; intros a Hix; simpl; [lia|].
  rewrite IH.
  - rewrite atomic_fetch_add_lookup by (apply Hix, list_elem_of_here). lia.
  - intros e' He'. rewrite atomic_fetch_add_length.
    by apply Hix, list_elem_of_further.
Qed.

(** Moving [wt e] from cell [ixf e] to cell [ixt e] for every [e] of a
    list. *)
Lemma transfer_length {A} (ixf ixt : A -> nat) (wt : A -> Z) (l : list A) a :
  length (fold_left
            (fun a e => atomic_fetch_add (atomic_fetch_sub a (ixf e) (wt e))
                                         (ixt e) (wt e)) l a)
  = length a.
Proof.
  revert a. induction l as [|e l IH]; intros a; simpl; [reflexivity|].
  by rewrite IH, atomic_fetch_add_length, atomic_fetch_sub_length.
Qed.

Lemma transfer_lookup {A} (ixf ixt : A -> nat) (wt : A -> Z) (l : list A) a j :
  (forall e, e ∈ l -> ixf e < length a /\ ixt e < length a) ->
  fold_left
    (fun a e => atomic_fetch_add (atomic_fetch_sub a (ixf e) (wt e))
                                 (ixt e) (wt e)) l a !!! j
  = (a !!! j
     + sumZ (map (fun e => counted (Nat.eqb (ixt e) j) (wt e)) l)
     - sumZ (map (fun e => counted (Nat.eqb (ixf e) j) (wt e)) l))%Z.
Proof.
  revert a. induction l as [|e l IH]; intros a Hix; simpl; [lia|].
  destruct (Hix e (list_elem_of_here _ _)) as [Hf Ht].
  rewrite IH.
  - rewrite atomic_fetch_add_lookup
      by (by rewrite atomic_fetch_sub_length).
    rewrite atomic_fetch_sub_lookup by done. lia.
  - intros e' He'.
    rewrite atomic_fetch_add_length, atomic_fetch_sub_length.
    by apply Hix, list_elem_of_further.
Qed.

(** ** Dense gain cache *)

Lemma index_eqb (K u b v b' : nat) :
  b < K -> b' < K ->
  Nat.eqb (u * K + b) (v * K + b') = Nat.eqb u v && Nat.eqb b b'.
Proof.
  intros Hb Hb'.
  destruct (Nat.eqb_spec (u * K + b) (v * K + b')) as [Heq|Hne],
           (Nat.eqb_spec u v) as [Huv|Huv],
           (Nat.eqb_spec b b') as [Hbb|Hbb]; simpl; try reflexivity;
    exfalso; subst; try lia.
  - destruct (Nat.lt_total u v) as [Hlt|[?|Hlt]]; [|done|]; nia.
  - destruct (Nat.lt_total u v) as [Hlt|[?|Hlt]]; [|done|]; nia.
Qed.

Lemma index_in_range (N K u b : nat) : u < N -> b < K -> u * K + b < N * K.
Proof. intros. nia. Qed.

Lemma conn_impl_sum (p_graph : PartitionedGraph) (u : NodeID) (b : BlockID) :
  OnTheFlyGainCache.conn_impl p_graph u b
  = sumZ (map (fun e => counted (Nat.eqb (block p_graph (fst e)) b) (snd e))
              (neighbors (graph p_graph) u)).
Proof.
  unfold OnTheFlyGainCache.conn_impl.
  rewrite (fold_left_add_counted
             (fun e => Nat.eqb (block p_graph (fst e)) b) snd).
  lia.
Qed.

(** Summed over all blocks, the connections of a node are its weighted
    degree. *)
Lemma conn_impl_total (p_graph : PartitionedGraph) (u : NodeID) (K : nat) :
  (forall e, e ∈ neighbors (graph p_graph) u -> block p_graph (fst e) < K) ->
  sumZ (map (OnTheFlyGainCache.conn_impl p_graph u) (seq 0 K))
  = weighted_degree (graph p_graph) u.
Proof.
  unfold weighted_degree.
  rewrite (sumZ_map_ext _ _ _ (fun b _ => conn_impl_sum p_graph u b)).
  induction (neighbors (graph p_graph) u) as [|e l IH]; intros Hblocks; simpl.
  - apply sumZ_map_zero.
  - rewrite (sumZ_map_add
               (fun b => counted (Nat.eqb (block p_graph (fst e)) b) (snd e))).
    rewrite sumZ_counted_seq. f_equal.
    + pose proof (Hblocks e (list_elem_of_here _ _)) as Hlt.
      apply Nat.ltb_lt in Hlt. rewrite Hlt. reflexivity.
    + apply IH. intros e' He'. by apply Hblocks, list_elem_of_further.
Qed.

Lemma recompute_fold_fields p_graph u l gc :
  let gc' := fold_left (DenseGainCache.recompute_edge p_graph u) l gc in
  DenseGainCache._k gc' = DenseGainCache._k gc
  /\ DenseGainCache._n gc' = DenseGainCache._n gc
  /\ DenseGainCache._gain_cache gc'
     = fold_left
         (fun a e => atomic_fetch_add
                       a (u * DenseGainCache._k gc + block p_graph (fst e))
                       (snd e))
         l (DenseGainCache._gain_cache gc)
  /\ DenseGainCache._weighted_degrees gc'
     = fold_left (fun a e => atomic_fetch_add a u (snd e))
                 l (DenseGainCache._weighted_degrees gc).
Proof.
  revert gc. induction l as [|e l IH]; intros gc; simpl; [done|].
  destruct (IH (DenseGainCache.recompute_edge p_graph u gc e))
    as (Hk & Hn & Hc & Hd).
  simpl in *. by rewrite Hk, Hn, Hc, Hd.
Qed.

Lemma move_fold_fields block_from block_to l gc :
  let gc' := fold_left (DenseGainCache.move_edge block_from block_to) l gc in
  DenseGainCache._k gc' = DenseGainCache._k gc
  /\ DenseGainCache._n gc' = DenseGainCache._n gc
  /\ DenseGainCache._gain_cache gc'
     = fold_left
         (fun a e =>
            atomic_fetch_add
              (atomic_fetch_sub
                 a (fst e * DenseGainCache._k gc + block_from) (snd e))
              (fst e * DenseGainCache._k gc + block_to) (snd e))
         l (DenseGainCache._gain_cache gc)
  /\ DenseGainCache._weighted_degrees gc'
     = DenseGainCache._weighted_degrees gc.
Proof.
  revert gc. induction l as [|e l IH]; intros gc; simpl; [done|].
  destruct (IH (DenseGainCache.move_edge block_from block_to gc e))
    as (Hk & Hn & Hc & Hd).
  simpl in *. by rewrite Hk, Hn, Hc, Hd.
Qed.

Lemma neighbor_block_bound p_graph gc u e :
  valid_partitioned_graph p_graph -> cache_fits gc p_graph ->
  e ∈ neighbors (graph p_graph) u ->
  block p_graph (fst e) < DenseGainCache._k gc.
Proof.
  intros Hv Hf He.
  pose proof (vp_blocks _ Hv _ (vp_targets _ Hv _ _ He)).
  pose proof (cf_k _ _ Hf). lia.
Qed.

Lemma recompute_node_fits p_graph gc u :
  cache_fits gc p_graph ->
  cache_fits (DenseGainCache.recompute_node p_graph gc u) p_graph.
Proof.
  intros [Hk Hn Hc Hd]. unfold DenseGainCache.recompute_node.
  match goal with
  | |- cache_fits (fold_left _ ?l ?gc0) _ =>
      destruct (recompute_fold_fields p_graph u l gc0) as (Ek & En & Ec & Ed)
  end.
  simpl in *.
  split; rewrite ?Ek, ?En, ?Ec, ?Ed, ?scatter_add_length, ?length_insert; done.
Qed.

Lemma recompute_node_lookup p_graph gc u v b :
  valid_partitioned_graph p_graph -> cache_fits gc p_graph ->
  u < graph_n (graph p_graph) -> v < graph_n (graph p_graph) ->
  b < p_k p_graph ->
  DenseGainCache.weighted_degree_to
    (DenseGainCache.recompute_node p_graph gc u) v b
  = (DenseGainCache.weighted_degree_to gc v b
     + counted (Nat.eqb u v) (OnTheFlyGainCache.conn_impl p_graph u b))%Z.
Proof.
  intros Hv Hf Hu Hvn Hb.
  pose proof (cf_k _ _ Hf) as HK. pose proof (cf_n _ _ Hf) as HN.
  unfold DenseGainCache.weighted_degree_to, DenseGainCache.index,
    DenseGainCache.recompute_node.
  match goal with
  | |- context [fold_left _ ?l ?gc0] =>
      destruct (recompute_fold_fields p_graph u l gc0) as (Ek & _ & Ec & _)
  end.
  simpl in Ek, Ec. rewrite Ek, Ec.
  rewrite scatter_add_lookup.
  - f_equal. destruct (Nat.eqb_spec u v) as [->|Hne]; simpl.
    + rewrite conn_impl_sum. apply sumZ_map_ext. intros e He.
      rewrite index_eqb, Nat.eqb_refl; [done| |lia].
      by eapply neighbor_block_bound.
    + rewrite <- (sumZ_map_zero (neighbors (graph p_graph) u)).
      apply sumZ_map_ext. intros e He.
      rewrite index_eqb; [| by eapply neighbor_block_bound | lia].
      destruct (Nat.eqb_spec u v); [done|]. reflexivity.
  - intros e He. rewrite (cf_cache _ _ Hf).
    apply index_in_range; [lia|]. by eapply neighbor_block_bound.
Qed.

Lemma recompute_node_degree p_graph gc u v :
  cache_fits gc p_graph ->
  u < graph_n (graph p_graph) ->
  DenseGainCache._weighted_degrees
    (DenseGainCache.recompute_node p_graph gc u) !!! v
  = if Nat.eqb u v then weighted_degree (graph p_graph) u
    else DenseGainCache._weighted_degrees gc !!! v.
Proof.
  intros Hf Hu.
  pose proof (cf_n _ _ Hf) as HN. pose proof (cf_degrees _ _ Hf) as HD.
  unfold DenseGainCache.recompute_node.
  match goal with
  | |- context [fold_left _ ?l ?gc0] =>
      destruct (recompute_fold_fields p_graph u l gc0) as (_ & _ & _ & Ed)
  end.
  simpl in Ed. rewrite Ed.
  rewrite (scatter_add_lookup (fun _ => u) snd).
  - unfold weighted_degree.
    destruct (Nat.eqb_spec u v) as [->|Hne].
    + rewrite list_lookup_total_insert_eq by lia.
      simpl. apply sumZ_map_ext. intros e _. reflexivity.
    + rewrite list_lookup_total_insert_ne by done.
      rewrite (sumZ_map_ext _ (fun _ => 0%Z)).
      * rewrite sumZ_map_zero. lia.
      * intros e _. reflexivity.
  - intros e _. rewrite length_insert. lia.
Qed.

Lemma in_node_range_empty s v : in_node_range s 0 v = false.
Proof.
  unfold in_node_range.
  destruct (Nat.leb_spec s v), (Nat.ltb_spec v (s + 0)); simpl; lia.
Qed.

Lemma in_node_range_step s len v :
  in_node_range s (S len) v = Nat.eqb s v || in_node_range (S s) len v.
Proof.
  unfold in_node_range.
  destruct (Nat.eqb_spec s v), (Nat.leb_spec (S s) v), (Nat.leb_spec s v),
    (Nat.ltb_spec v (S s + len)), (Nat.ltb_spec v (s + S len)); simpl; lia.
Qed.

Lemma in_node_range_all n v : v < n -> in_node_range 0 n v = true.
Proof.
  intros. unfold in_node_range.
  destruct (Nat.leb_spec 0 v), (Nat.ltb_spec v (0 + n)); simpl; lia.
Qed.

(** Recomputing the nodes [s .. s + len) adds their connections to their
    rows and sets their degrees. *)
Lemma recompute_range p_graph s len gc :
  valid_partitioned_graph p_graph -> cache_fits gc p_graph ->
  s + len <= graph_n (graph p_graph) ->
  let gc' := fold_left (DenseGainCache.recompute_node p_graph) (seq s len) gc in
  cache_fits gc' p_graph
  /\ (forall v b, v < graph_n (graph p_graph) -> b < p_k p_graph ->
        DenseGainCache.weighted_degree_to gc' v b
        = (DenseGainCache.weighted_degree_to gc v b
           + counted (in_node_range s len v)
                     (OnTheFlyGainCache.conn_impl p_graph v b))%Z)
  /\ (forall v, v < graph_n (graph p_graph) ->
        DenseGainCache._weighted_degrees gc' !!! v
        = if in_node_range s len v
          then weighted_degree (graph p_graph) v
          else DenseGainCache._weighted_degrees gc !!! v).
Proof.
  intros Hv. revert s gc.
  induction len as [|len IH]; intros s gc Hf Hrange; simpl.
  - split; [done|]. split.
    + intros v b _ _. rewrite in_node_range_empty. simpl. lia.
    + intros v _. by rewrite in_node_range_empty.
  - destruct (IH (S s) (DenseGainCache.recompute_node p_graph gc s))
      as (Hf' & Hconn & Hdeg);
      [by apply recompute_node_fits | lia |].
    split; [done|]. split.
    + intros v b Hvn Hb. rewrite Hconn by done.
      rewrite recompute_node_lookup by (done || lia).
      rewrite in_node_range_step. unfold counted.
      destruct (Nat.eqb_spec s v) as [->|Hne]; simpl.
      * replace (in_node_range (S v) len v) with false; [lia|].
        unfold in_node_range.
        destruct (Nat.leb_spec (S v) v); simpl; [lia | done].
      * destruct (in_node_range (S s) len v); lia.
    + intros v Hvn. rewrite Hdeg by done.
      rewrite recompute_node_degree by (done || lia).
      rewrite in_node_range_step.
      destruct (Nat.eqb_spec s v) as [->|Hne]; simpl; [|done].
      replace (in_node_range (S v) len v) with false; [done|].
      unfold in_node_range.
      destruct (Nat.leb_spec (S v) v); simpl; [lia | done].
Qed.

Lemma reset_fits gc p_graph :
  cache_fits gc p_graph -> cache_fits (DenseGainCache.reset gc) p_graph.
Proof.
  intros [Hk Hn Hc Hd]. split; simpl; try done.
  by rewrite length_replicate.
Qed.

Lemma reset_lookup gc p_graph v b :
  cache_fits gc p_graph -> v < graph_n (graph p_graph) -> b < p_k p_graph ->
  DenseGainCache.weighted_degree_to (DenseGainCache.reset gc) v b = 0%Z.
Proof.
  intros [Hk Hn Hc Hd] Hv Hb.
  unfold DenseGainCache.weighted_degree_to, DenseGainCache.index. simpl.
  apply lookup_total_replicate_2. rewrite Hc.
  apply index_in_range; lia.
Qed.

Lemma initialize_consistent p_graph gc :
  valid_partitioned_graph p_graph -> cache_fits gc p_graph ->
  cache_consistent (DenseGainCache.initialize p_graph gc) p_graph.
Proof.
  intros Hv Hf. unfold DenseGainCache.initialize, DenseGainCache.recompute_all.
  destruct (recompute_range p_graph 0 (graph_n (graph p_graph))
              (DenseGainCache.reset gc) Hv (reset_fits _ _ Hf))
    as (Hf' & Hconn & Hdeg); [lia|].
  split; [done| |].
  - intros u b Hu Hb. rewrite Hconn by done.
    rewrite (reset_lookup _ p_graph), in_node_range_all by done.
    simpl. lia.
  - intros u Hu. rewrite Hdeg by done. by rewrite in_node_range_all.
Qed.

Lemma block_set_block p_graph u to v :
  u < length (partition p_graph) ->
  block (set_block p_graph u to) v
  = if Nat.eqb u v then to else block p_graph v.
Proof.
  intros Hu. unfold block, set_block. simpl.
  destruct (Nat.eqb_spec u v) as [->|Hne].
  - by rewrite list_lookup_total_insert_eq.
  - by rewrite list_lookup_total_insert_ne.
Qed.

Lemma set_block_valid p_graph u to :
  valid_partitioned_graph p_graph ->
  u < graph_n (graph p_graph) -> to < p_k p_graph ->
  valid_partitioned_graph (set_block p_graph u to).
Proof.
  intros [Hlen Hblocks Htargets Hsym] Hu Hto. split; simpl.
  - by rewrite length_insert.
  - intros v Hv. rewrite block_set_block by lia.
    destruct (Nat.eqb u v); [done | by apply Hblocks].
  - done.
  - done.
Qed.

Lemma sumZ_counted_and {A} (c : A -> bool) (d : bool) (w : A -> Z) (l : list A) :
  sumZ (map (fun e => counted (c e && d) (w e)) l)
  = counted d (sumZ (map (fun e => counted (c e) (w e)) l)).
Proof.
  destruct d; simpl.
  - apply sumZ_map_ext. intros e _. by rewrite andb_true_r.
  - rewrite <- (sumZ_map_zero l). apply sumZ_map_ext.
    intros e _. by rewrite andb_false_r.
Qed.

(** Connections of [v] after [u] changed its block: the weight between [v]
    and [u] leaves the old block of [u] and enters the new one. *)
Lemma conn_impl_set_block p_graph u to v b :
  u < length (partition p_graph) ->
  OnTheFlyGainCache.conn_impl (set_block p_graph u to) v b
  = (OnTheFlyGainCache.conn_impl p_graph v b
     + counted (Nat.eqb to b) (edge_weight_between (graph p_graph) v u)
     - counted (Nat.eqb (block p_graph u) b)
               (edge_weight_between (graph p_graph) v u))%Z.
Proof.
  intros Hu. rewrite !conn_impl_sum. unfold edge_weight_between. simpl.
  induction (neighbors (graph p_graph) v) as [|e l IH]; simpl.
  - unfold counted. destruct (Nat.eqb to b), (Nat.eqb (block p_graph u) b); lia.
  - rewrite IH, block_set_block by done. unfold counted.
    destruct (Nat.eqb_spec u (fst e)) as [->|Hne].
    + rewrite Nat.eqb_refl.
      destruct (Nat.eqb to b), (Nat.eqb (block p_graph (fst e)) b); lia.
    + destruct (Nat.eqb_spec (fst e) u) as [Heq|_]; [by subst|].
      destruct (Nat.eqb to b), (Nat.eqb (block p_graph u) b),
        (Nat.eqb (block p_graph (fst e)) b); lia.
Qed.

Lemma move_fits p_graph p_graph' node block_from block_to gc :
  graph p_graph' = graph p_graph -> p_k p_graph' = p_k p_graph ->
  cache_fits gc p_graph ->
  cache_fits (DenseGainCache.move p_graph node block_from block_to gc) p_graph'.
Proof.
  intros Hg Hpk [Hk Hn Hc Hd]. unfold DenseGainCache.move.
  match goal with
  | |- cache_fits (fold_left _ ?l ?gc0) _ =>
      destruct (move_fold_fields block_from block_to l gc0)
        as (Ek & En & Ec & Ed)
  end.
  split; rewrite ?Hg, ?Hpk, ?Ek, ?En, ?Ec, ?Ed, ?transfer_length; done.
Qed.

Lemma move_lookup p_graph gc node block_from block_to v b :
  valid_partitioned_graph p_graph -> cache_fits gc p_graph ->
  block_from < p_k p_graph -> block_to < p_k p_graph ->
  v < graph_n (graph p_graph) -> b < p_k p_graph ->
  DenseGainCache.weighted_degree_to
    (DenseGainCache.move p_graph node block_from block_to gc) v b
  = (DenseGainCache.weighted_degree_to gc v b
     + counted (Nat.eqb block_to b)
               (edge_weight_between (graph p_graph) node v)
     - counted (Nat.eqb block_from b)
               (edge_weight_between (graph p_graph) node v))%Z.
Proof.
  intros Hv Hf Hfrom Hto Hvn Hb.
  pose proof (cf_k _ _ Hf) as HK. pose proof (cf_n _ _ Hf) as HN.
  unfold DenseGainCache.weighted_degree_to, DenseGainCache.index,
    DenseGainCache.move.
  match goal with
  | |- context [fold_left _ ?l ?gc0] =>
      destruct (move_fold_fields block_from block_to l gc0)
        as (Ek & _ & Ec & _)
  end.
  rewrite Ek, Ec.
  rewrite (transfer_lookup
             (fun e => fst e * DenseGainCache._k gc + block_from)
             (fun e => fst e * DenseGainCache._k gc + block_to) snd).
  - unfold edge_weight_between.
    rewrite <- !sumZ_counted_and.
    f_equal; [f_equal|]; apply sumZ_map_ext; intros e _;
      rewrite index_eqb by lia; reflexivity.
  - intros e He. rewrite (cf_cache _ _ Hf).
    pose proof (vp_targets _ Hv _ _ He).
    split; apply index_in_range; lia.
Qed.

Lemma move_consistent p_graph gc u to :
  valid_partitioned_graph p_graph -> cache_consistent gc p_graph ->
  u < graph_n (graph p_graph) -> to < p_k p_graph ->
  cache_consistent (DenseGainCache.move p_graph u (block p_graph u) to gc)
                   (set_block p_graph u to).
Proof.
  intros Hv [Hf Hconn Hdeg] Hu Hto.
  pose proof (vp_blocks _ Hv _ Hu) as Hfrom.
  split.
  - by apply move_fits.
  - intros v b Hvn Hb. simpl in Hvn, Hb.
    rewrite move_lookup, conn_impl_set_block, Hconn; try done.
    + by rewrite (vp_symmetric _ Hv u v).
    + rewrite (vp_partition_length _ Hv). done.
  - intros v Hvn. simpl in *. unfold DenseGainCache.move.
    match goal with
    | |- context [fold_left _ ?l ?gc0] =>
        destruct (move_fold_fields (block p_graph u) to l gc0)
          as (_ & _ & _ & Ed)
    end.
    rewrite Ed. by apply Hdeg.
Qed.

Lemma apply_moves_consistent moves p_graph gc :
  valid_partitioned_graph p_graph -> cache_consistent gc p_graph ->
  Forall (fun m => fst m < graph_n (graph p_graph)
                   /\ snd m < p_k p_graph) moves ->
  let st := apply_moves moves (p_graph, gc) in
  graph (fst st) = graph p_graph
  /\ p_k (fst st) = p_k p_graph
  /\ valid_partitioned_graph (fst st)
  /\ cache_consistent (snd st) (fst st).
Proof.
  revert p_graph gc.
  induction moves as [|[u to] moves IH]; intros p_graph gc Hv Hc Hmoves; simpl.
  - done.
  - apply Forall_cons in Hmoves as [[Hu Hto] Hmoves]. simpl in Hu, Hto.
    destruct (IH (set_block p_graph u to)
                 (DenseGainCache.move p_graph u (block p_graph u) to gc))
      as (Hg & Hk & Hv' & Hc').
    + by apply set_block_valid.
    + by apply move_consistent.
    + done.
    + done.
Qed.

(** C4.  After [initialize] and after any sequence of moves that the cache
    is told together with the partition, every node [u] satisfies: the cells
    of its row sum up to [deg[u]], which is the weighted degree of [u]; each
    cell [wdeg[u,b]] is the total weight of the edges from [u] to neighbours
    currently in block [b]; and [gain(u,a,b) = wdeg[u,b] - wdeg[u,a]]. *)
Theorem gain_cache_invariant
    (p_graph : PartitionedGraph) (gc : DenseGainCache.t)
    (moves : list (NodeID * BlockID)) :
  valid_partitioned_graph p_graph ->
  cache_fits gc p_graph ->
  Forall (fun m => fst m < graph_n (graph p_graph)
                   /\ snd m < p_k p_graph) moves ->
  let st := apply_moves moves
              (p_graph, DenseGainCache.initialize p_graph gc) in
  forall u, u < graph_n (graph p_graph) ->
    sumZ (map (DenseGainCache.weighted_degree_to (snd st) u)
              (seq 0 (p_k p_graph)))
    = DenseGainCache._weighted_degrees (snd st) !!! u
    /\ DenseGainCache._weighted_degrees (snd st) !!! u
       = weighted_degree (graph p_graph) u
    /\ (forall b, b < p_k p_graph ->
          DenseGainCache.weighted_degree_to (snd st) u b
          = OnTheFlyGainCache.conn_impl (fst st) u b)
    /\ (forall a b,
          DenseGainCache.gain (snd st) u a b
          = (DenseGainCache.weighted_degree_to (snd st) u b
             - DenseGainCache.weighted_degree_to (snd st) u a)%Z).
Proof.
  intros Hv Hf Hmoves st u Hu.
  destruct (apply_moves_consistent moves p_graph
              (DenseGainCache.initialize p_graph gc) Hv
              (initialize_consistent _ _ Hv Hf) Hmoves)
    as (Hg & Hk & Hv' & [Hf' Hconn Hdeg]).
  fold st in Hg, Hk, Hv', Hf', Hconn, Hdeg.
  rewrite Hg in Hdeg, Hconn. rewrite Hk in Hconn.
  assert (Hrow : forall b, b < p_k p_graph ->
            DenseGainCache.weighted_degree_to (snd st) u b
            = OnTheFlyGainCache.conn_impl (fst st) u b)
    by (intros b Hb; by apply Hconn).
  repeat split.
  - rewrite Hdeg by done.
    rewrite (sumZ_map_ext _ (OnTheFlyGainCache.conn_impl (fst st) u)).
    + rewrite conn_impl_total; [by rewrite Hg|].
      intros e He. rewrite <- Hk.
      apply (vp_blocks _ Hv'), (vp_targets _ Hv' u e He).
    + intros b Hb. apply Hrow.
      apply list_elem_of_In, in_seq in Hb. lia.
  - by apply Hdeg.
  - done.
Qed.

Lemma path4_valid : valid_partitioned_graph path4_partitioned.
Proof.
  split.
  - reflexivity.
  - intros u Hu. do 4 (destruct u as [|u]; [vm_compute; lia|]).
    vm_compute in Hu. lia.
  - intros u e He.
    do 4 (destruct u as [|u];
          [repeat (apply elem_of_cons in He as [->|He]; [vm_compute; lia|]);
           by apply elem_of_nil in He|]).
    by apply elem_of_nil in He.
  - intros u v.
    do 4 (destruct u as [|u];
          [do 4 (destruct v as [|v]; [reflexivity|]); reflexivity|]).
    do 4 (destruct v as [|v]; [reflexivity|]). reflexivity.
Qed.

Lemma path4_cache_fits :
  cache_fits (DenseGainCache.create 2 4 (fun i => Z.of_nat i + 17)%Z
                                    (fun _ => (-3)%Z))
             path4_partitioned.
Proof. split; vm_compute; lia. Qed.

Lemma gain_cache_invariant_witness :
  let st := apply_moves [(1, 0)] (path4_partitioned, path4_cache) in
  sumZ (map (DenseGainCache.weighted_degree_to (snd st) 2) (seq 0 2))
  = DenseGainCache._weighted_degrees (snd st) !!! 2
  /\ DenseGainCache._weighted_degrees (snd st) !!! 2
     = weighted_degree path4 2
  /\ (forall b, b < 2 ->
        DenseGainCache.weighted_degree_to (snd st) 2 b
        = OnTheFlyGainCache.conn_impl (fst st) 2 b)
  /\ (forall a b,
        DenseGainCache.gain (snd st) 2 a b
        = (DenseGainCache.weighted_degree_to (snd st) 2 b
           - DenseGainCache.weighted_degree_to (snd st) 2 a)%Z).
Proof.
  apply (gain_cache_invariant path4_partitioned _ [(1, 0)]
           path4_valid path4_cache_fits).
  - repeat constructor; simpl; lia.
  - vm_compute. lia.
Defined.

(** C2, as stated: node 2 keeps its edge to node 3 in block 0, so after the
    move its connection to block 0 is 2, not 1, and so is the gain. *)
Lemma path4_values_as_specified_fail :
  DenseGainCache.weighted_degree_to path4_cache_moved 2 0 = 2%Z
  /\ DenseGainCache.gain path4_cache_moved 2 1 0 = 2%Z
  /\ (DenseGainCache.weighted_degree_to path4_cache_moved 2 0 =? 1)%Z = false
  /\ (DenseGainCache.gain path4_cache_moved 2 1 0 =? 1)%Z = false
  /\ (path4_values_as_specified <-> False).
Proof.
  repeat split; try (vm_compute; reflexivity); try done.
  unfold path4_values_as_specified.
  intros (_ & _ & _ & _ & _ & _ & _ & Hwdeg & _).
  vm_compute in Hwdeg. discriminate Hwdeg.
Qed.

(** C2, amended.  On the path 0-1-2-3 with unit weights and partition
    [0,1,1,0] the cache holds wdeg[0,0]=0, wdeg[0,1]=1, wdeg[1,0]=1,
    wdeg[1,1]=1 after [initialize], and wdeg[0,1]=0, wdeg[0,0]=1,
    wdeg[2,1]=0, wdeg[2,0]=2 and gain(2,1,0)=2 after [move(1, 1->0)]. *)
Theorem path4_gain_cache_move :
  DenseGainCache.weighted_degree_to path4_cache 0 0 = 0%Z
  /\ DenseGainCache.weighted_degree_to path4_cache 0 1 = 1%Z
  /\ DenseGainCache.weighted_degree_to path4_cache 1 0 = 1%Z
  /\ DenseGainCache.weighted_degree_to path4_cache 1 1 = 1%Z
  /\ DenseGainCache.weighted_degree_to path4_cache_moved 0 1 = 0%Z
  /\ DenseGainCache.weighted_degree_to path4_cache_moved 0 0 = 1%Z
  /\ DenseGainCache.weighted_degree_to path4_cache_moved 2 1 = 0%Z
  /\ DenseGainCache.weighted_degree_to path4_cache_moved 2 0 = 2%Z
  /\ DenseGainCache.gain path4_cache_moved 2 1 0 = 2%Z.
Proof. repeat split; vm_compute; reflexivity. Qed.

(** ** Label-propagation refiner: the weight constraint *)

(** C3, as stated, fails on both sides.  A move whose resulting block
    weight is exactly the cap stays "at or below" the cap, and the weight
    constraint refuses it.  A move from a block that is within its cap, so
    that there is no overload to reduce, to another block is accepted
    although it pushes the target block above its cap. *)
Lemma accept_cluster_departs_from_claim :
  ((LabelPropagationRefiner.current_cluster_weight state_at_cap
    + LabelPropagationRefiner.u_weight state_at_cap
    <= 4)%Z
   /\ LabelPropagationRefiner.gain_condition (fun _ => 4%Z) state_at_cap
      = true
   /\ LabelPropagationRefiner.weight_condition (fun _ => 4%Z) state_at_cap
      = false
   /\ LabelPropagationRefiner.accept_cluster (fun _ => 4%Z) state_at_cap
      = false)
  /\ ((10 < LabelPropagationRefiner.current_cluster_weight
              state_feasible_source
            + LabelPropagationRefiner.u_weight state_feasible_source)%Z
      /\ overload (LabelPropagationRefiner.initial_cluster_weight
                     state_feasible_source) 10 = 0%Z
      /\ Nat.eqb (LabelPropagationRefiner.current_cluster
                    state_feasible_source)
                 (LabelPropagationRefiner.initial_cluster
                    state_feasible_source) = false
      /\ LabelPropagationRefiner.accept_cluster (fun _ => 10%Z)
           state_feasible_source = true).
Proof. repeat split; vm_compute; congruence. Qed.

(** The weight constraint compares the two blocks by their weight minus
    their cap, taken with its sign. *)
Lemma weight_condition_at_cap
    (max_cluster_weight : BlockID -> NodeWeight)
    (state : LabelPropagationRefiner.ClusterSelectionState) :
  (max_cluster_weight (LabelPropagationRefiner.current_cluster state)
   <= LabelPropagationRefiner.current_cluster_weight state
      + LabelPropagationRefiner.u_weight state)%Z ->
  LabelPropagationRefiner.current_cluster state
  <> LabelPropagationRefiner.initial_cluster state ->
  LabelPropagationRefiner.weight_condition max_cluster_weight state = true
  <-> (LabelPropagationRefiner.current_cluster_weight state
       - max_cluster_weight (LabelPropagationRefiner.current_cluster state)
       < LabelPropagationRefiner.initial_cluster_weight state
         - max_cluster_weight
             (LabelPropagationRefiner.initial_cluster state))%Z.
Proof.
  intros Hge Hne.
  unfold LabelPropagationRefiner.weight_condition,
    LabelPropagationRefiner.current_overload,
    LabelPropagationRefiner.initial_overload,
    LabelPropagationRefiner.current_max_weight.
  apply Z.ltb_ge in Hge. rewrite Hge.
  apply Nat.eqb_neq in Hne. rewrite Hne.
  rewrite orb_false_r. simpl. apply Z.ltb_lt.
Qed.

(** C3, amended.  The weight constraint never refuses a move that leaves
    the target block strictly below its cap, nor a move to the node's
    initial block.  A move to another block that brings the target block
    to its cap or above is accepted by the weight constraint exactly when,
    for an overloaded source block, the overload of the target block is
    smaller than the overload of the source block, and when, for a source
    block within its cap, the target block has more room below its cap
    than the source block has.  A move that the weight constraint refuses
    is refused by [accept_cluster]. *)
Theorem accept_cluster_weight_constraint
    (max_cluster_weight : BlockID -> NodeWeight)
    (state : LabelPropagationRefiner.ClusterSelectionState) :
  let target := LabelPropagationRefiner.current_cluster state in
  let source := LabelPropagationRefiner.initial_cluster state in
  let target_weight := LabelPropagationRefiner.current_cluster_weight state in
  let source_weight := LabelPropagationRefiner.initial_cluster_weight state in
  let accepted :=
    LabelPropagationRefiner.weight_condition max_cluster_weight state in
  ((target_weight + LabelPropagationRefiner.u_weight state
    < max_cluster_weight target)%Z -> accepted = true)
  /\ (target = source -> accepted = true)
  /\ ((max_cluster_weight target
       <= target_weight + LabelPropagationRefiner.u_weight state)%Z ->
      target <> source ->
      (max_cluster_weight source < source_weight)%Z ->
      accepted = true
      <-> (overload target_weight (max_cluster_weight target)
           < overload source_weight (max_cluster_weight source))%Z)
  /\ ((max_cluster_weight target
       <= target_weight + LabelPropagationRefiner.u_weight state)%Z ->
      target <> source ->
      (source_weight <= max_cluster_weight source)%Z ->
      accepted = true
      <-> (max_cluster_weight source - source_weight
           < max_cluster_weight target - target_weight)%Z)
  /\ (accepted = false ->
      LabelPropagationRefiner.accept_cluster max_cluster_weight state
      = false).
Proof.
  intros target source target_weight source_weight accepted.
  subst target source target_weight source_weight accepted.
  split; [|split; [|split; [|split]]].
  - intros Hlt. unfold LabelPropagationRefiner.weight_condition,
      LabelPropagationRefiner.current_max_weight.
    apply Z.ltb_lt in Hlt. by rewrite Hlt.
  - intros Heq. unfold LabelPropagationRefiner.weight_condition.
    rewrite Heq, Nat.eqb_refl. apply orb_true_r.
  - intros Hge Hne Hover.
    rewrite (weight_condition_at_cap _ _ Hge Hne). unfold overload. lia.
  - intros Hge Hne Hroom.
    rewrite (weight_condition_at_cap _ _ Hge Hne). lia.
  - intros Hrefused. unfold LabelPropagationRefiner.accept_cluster.
    rewrite Hrefused. apply andb_false_r.
Qed.

(** A move below the cap, a move back home, a repair move out of an
    overloaded block into a block at its cap, and the move out of a block
    within its cap that overloads its target. *)
Lemma accept_cluster_weight_constraint_witness :
  LabelPropagationRefiner.weight_condition (fun _ => 4%Z) state_below_cap
  = true
  /\ LabelPropagationRefiner.weight_condition (fun _ => 4%Z) state_back_home
     = true
  /\ (LabelPropagationRefiner.weight_condition (fun _ => 4%Z) state_repair
      = true
      <-> (overload 4 4 < overload 6 4)%Z)
  /\ (LabelPropagationRefiner.weight_condition (fun _ => 10%Z)
        state_feasible_source = true
      <-> (10 - 8 < 10 - 7)%Z)
  /\ LabelPropagationRefiner.accept_cluster (fun _ => 4%Z) state_at_cap
     = false.
Proof.
  split; [|split; [|split; [|split]]].
  - destruct (accept_cluster_weight_constraint (fun _ => 4%Z) state_below_cap)
      as (Hbelow & _).
    apply Hbelow. vm_compute. reflexivity.
  - destruct (accept_cluster_weight_constraint (fun _ => 4%Z) state_back_home)
      as (_ & Hhome & _).
    apply Hhome. reflexivity.
  - destruct (accept_cluster_weight_constraint (fun _ => 4%Z) state_repair)
      as (_ & _ & Hrepair & _).
    apply Hrepair.
    + vm_compute. congruence.
    + simpl. lia.
    + simpl. lia.
  - destruct (accept_cluster_weight_constraint (fun _ => 10%Z)
                state_feasible_source) as (_ & _ & _ & Hroom & _).
    apply Hroom.
    + vm_compute. congruence.
    + simpl. lia.
    + simpl. lia.
  - destruct (accept_cluster_weight_constraint (fun _ => 4%Z) state_at_cap)
      as (_ & _ & _ & _ & Hrefused).
    apply Hrefused. vm_compute. reflexivity.
Defined.

(** ** JET refiner: the pass loop *)

Section RefineLoop.
Context {State : Type}.
Variable edge_cut : State -> EdgeWeight.
Variable pass : State -> State.
Variable ctx : JetRefiner.JetRefinementContext.

Local Abbreviation iteration := (JetRefiner.iteration State edge_cut pass ctx).
Local Abbreviation loop_condition := (JetRefiner.loop_condition State ctx).
Local Abbreviation do_while := (JetRefiner.do_while State edge_cut pass ctx).

Lemma loop_condition_effective_stop st :
  loop_condition st = negb (JetRefiner.effective_stop State ctx st).
Proof.
  unfold JetRefiner.loop_condition, JetRefiner.effective_stop.
  rewrite negb_orb, !Z.leb_antisym, !negb_involutive. reflexivity.
Qed.

Lemma iteration_cur_iteration st :
  JetRefiner.cur_iteration (iteration st)
  = (JetRefiner.cur_iteration st + 1)%Z.
Proof.
  unfold JetRefiner.iteration.
  destruct (JetRefiner.improves ctx _ _); reflexivity.
Qed.

Lemma iterations_cur_iteration j st :
  JetRefiner.cur_iteration (Nat.iter j iteration st)
  = (JetRefiner.cur_iteration st + Z.of_nat j)%Z.
Proof.
  induction j as [|j IH]; simpl; [lia|].
  rewrite iteration_cur_iteration, IH. lia.
Qed.

Lemma do_while_stop more st :
  loop_condition (iteration st) = false -> do_while more st = iteration st.
Proof.
  intros Hstop. destruct more; simpl; [reflexivity|].
  by rewrite Hstop.
Qed.

Lemma do_while_continue more st :
  loop_condition (iteration st) = true ->
  do_while (S more) st = do_while more (iteration st).
Proof.
  intros Hgo. simpl. by rewrite Hgo.
Qed.

(** The loop runs the body [j] times, where [j] is the first count at
    which the condition fails, or [more + 1] when the bound is reached. *)
Lemma do_while_trace more st :
  exists j,
    1 <= j <= S more
    /\ do_while more st = Nat.iter j iteration st
    /\ (forall i, 1 <= i < j ->
          loop_condition (Nat.iter i iteration st) = true)
    /\ (j <= more -> loop_condition (Nat.iter j iteration st) = false).
Proof.
  revert st. induction more as [|more IH]; intros st.
  - exists 1. simpl.
    repeat split; first [lia | reflexivity | (intros; lia)].
  - destruct (loop_condition (iteration st)) eqn:Hc.
    + destruct (IH (iteration st)) as (j & Hj & Hrun & Hbefore & Hafter).
      exists (S j). rewrite do_while_continue by done.
      rewrite Hrun. rewrite !Nat.iter_succ_r.
      repeat split; try lia.
      * intros i Hi. destruct i as [|i]; [lia|].
        rewrite Nat.iter_succ_r.
        destruct i as [|i]; [exact Hc|]. apply Hbefore. lia.
      * intros Hle. apply Hafter. lia.
    + exists 1. rewrite do_while_stop by done. simpl.
      repeat split; first [lia | reflexivity | done | (intros; lia)].
Qed.

(** A larger bound does not change the outcome of a loop that stopped on
    its condition. *)
Lemma do_while_more_irrelevant more more' st :
  loop_condition (do_while more st) = false ->
  more <= more' ->
  do_while more' st = do_while more st.
Proof.
  revert more' st. induction more as [|more IH]; intros more' st Hstop Hle.
  - simpl in Hstop.
    rewrite do_while_stop by done. reflexivity.
  - destruct more' as [|more']; [lia|].
    destruct (loop_condition (iteration st)) eqn:Hc.
    + rewrite !do_while_continue by done.
      rewrite do_while_continue in Hstop by done.
      apply IH; [done | lia].
    + by rewrite !do_while_stop.
Qed.

(** The bound [max_num_iterations - 1] never cuts the loop short: the loop
    is left with its condition false. *)
Lemma refine_loop_exits p_graph s :
  loop_condition (JetRefiner.refine_loop State edge_cut pass ctx p_graph s)
  = false.
Proof.
  unfold JetRefiner.refine_loop.
  set (st0 := JetRefiner.initial_loop_state State edge_cut p_graph s).
  set (more := Z.to_nat (JetRefiner.max_num_iterations ctx - 1)).
  destruct (do_while_trace more st0) as (j & Hj & Hrun & _ & Hafter).
  rewrite Hrun.
  destruct (decide (j <= more)) as [Hle|Hgt]; [by apply Hafter|].
  assert (j = S more) as -> by lia.
  unfold JetRefiner.loop_condition.
  rewrite iterations_cur_iteration.
  replace (JetRefiner.cur_iteration st0) with 0%Z by reflexivity.
  apply andb_false_intro1, Z.ltb_ge. subst more. lia.
Qed.
End RefineLoop.

Lemma improves_lt (ctx : JetRefiner.JetRefinementContext)
    (best_cut final_cut : EdgeWeight) :
  (JetRefiner.fruitless_threshold ctx <= 1)%Q ->
  (0 <= best_cut)%Z ->
  JetRefiner.improves ctx best_cut final_cut = true ->
  (final_cut < best_cut)%Z.
Proof.
  intros Ht Hb Himp. unfold JetRefiner.improves in Himp.
  apply negb_true_iff in Himp.
  destruct (Z.lt_ge_cases final_cut best_cut) as [Hlt|Hge]; [done|].
  exfalso. apply not_true_iff_false in Himp. apply Himp.
  apply Qle_bool_iff.
  apply Qle_trans with (inject_Z 0).
  - rewrite <- Zle_Qle. lia.
  - apply Qmult_le_0_compat.
    + unfold Qminus. by apply Qle_minus_iff in Ht.
    + change 0%Q with (inject_Z 0). rewrite <- Zle_Qle. lia.
Qed.

Section RefineResult.
Context {State : Type}.
Variable edge_cut : State -> EdgeWeight.
Variable pass : State -> State.
Variable ctx : JetRefiner.JetRefinementContext.
Hypothesis edge_cut_nonneg : forall p_graph, (0 <= edge_cut p_graph)%Z.
Hypothesis threshold_le_1 : (JetRefiner.fruitless_threshold ctx <= 1)%Q.

Lemma snapshooter_update_cut p_graph s :
  JetRefiner.best_partition_cut s = edge_cut (JetRefiner.best_partition s) ->
  let s' := JetRefiner.snapshooter_update State edge_cut p_graph s in
  JetRefiner.best_partition_cut s' = edge_cut (JetRefiner.best_partition s')
  /\ (JetRefiner.best_partition_cut s' <= JetRefiner.best_partition_cut s)%Z
  /\ (JetRefiner.best_partition_cut s' <= edge_cut p_graph)%Z.
Proof.
  intros Hs. unfold JetRefiner.snapshooter_update.
  destruct (Z.ltb_spec (edge_cut p_graph) (JetRefiner.best_partition_cut s));
    simpl; repeat split; try done; lia.
Qed.

Lemma iteration_invariant initial_cut st :
  snapshot_invariant edge_cut initial_cut st ->
  snapshot_invariant edge_cut initial_cut
    (JetRefiner.iteration State edge_cut pass ctx st).
Proof.
  intros (Hrec & Hle & Hbest).
  destruct (snapshooter_update_cut (pass (JetRefiner._p_graph st))
              (JetRefiner._snapshooter st) Hrec) as (Hrec' & Hdown & Hcur).
  unfold JetRefiner.iteration, snapshot_invariant.
  destruct (JetRefiner.improves ctx _ _) eqn:Himp; simpl.
  - apply improves_lt in Himp; [|done|lia].
    pose proof (edge_cut_nonneg (pass (JetRefiner._p_graph st))).
    repeat split; try done; lia.
  - repeat split; try done; lia.
Qed.

Lemma iterations_invariant initial_cut j st :
  snapshot_invariant edge_cut initial_cut st ->
  snapshot_invariant edge_cut initial_cut
    (Nat.iter j (JetRefiner.iteration State edge_cut pass ctx) st).
Proof.
  intros Hst. induction j as [|j IH]; simpl; [done|].
  by apply iteration_invariant.
Qed.

Lemma refine_loop_invariant p_graph :
  snapshot_invariant edge_cut (edge_cut p_graph)
    (JetRefiner.refine_loop State edge_cut pass ctx p_graph
       (JetRefiner.snapshooter_init State edge_cut p_graph)).
Proof.
  unfold JetRefiner.refine_loop.
  destruct (do_while_trace edge_cut pass ctx
              (Z.to_nat (JetRefiner.max_num_iterations ctx - 1))
              (JetRefiner.initial_loop_state State edge_cut p_graph
                 (JetRefiner.snapshooter_init State edge_cut p_graph)))
    as (j & _ & Hrun & _).
  rewrite Hrun. apply iterations_invariant.
  unfold snapshot_invariant. simpl.
  pose proof (edge_cut_nonneg p_graph). repeat split; try done; lia.
Qed.
End RefineResult.

(** C1, amended.  After [initialize()] has recorded the starting partition,
    with cuts that are not negative and a threshold of at most 1: when
    [refine()] returns true, the cut of the partition it leaves behind
    (after the rollback) is strictly smaller than the cut at its start; and
    whatever it returns, that cut is not larger than the cut at its start. *)
Theorem refine_true_implies_cut_decreased {State : Type}
    (edge_cut : State -> EdgeWeight) (pass : State -> State)
    (ctx : JetRefiner.JetRefinementContext) (p_graph : State) :
  (forall p, (0 <= edge_cut p)%Z) ->
  (JetRefiner.fruitless_threshold ctx <= 1)%Q ->
  let result :=
    JetRefiner.refine State edge_cut pass ctx p_graph
      (JetRefiner.snapshooter_init State edge_cut p_graph) in
  (fst result = true -> (edge_cut (snd result) < edge_cut p_graph)%Z)
  /\ (edge_cut (snd result) <= edge_cut p_graph)%Z.
Proof.
  intros Hnonneg Ht result.
  destruct (refine_loop_invariant edge_cut pass ctx Hnonneg Ht p_graph)
    as (Hrec & Hle & Hbest).
  subst result. unfold JetRefiner.refine, JetRefiner.snapshooter_rollback.
  simpl. rewrite <- Hrec. split; [|lia].
  intros Hret. apply Z.gtb_lt in Hret. lia.
Qed.

(** C1, as stated: a pass that lowers the cut from 4 to 3 does not exceed
    the threshold [(1 - 1/2) * 4 = 2], so [best_cut] stays 4 and [refine()]
    returns false, although the snapshot that is rolled back to has cut 3. *)
Lemma refine_false_although_cut_decreased :
  let result :=
    JetRefiner.refine nat (cut_after_passes 3) S single_pass_ctx 0
      (JetRefiner.snapshooter_init nat (cut_after_passes 3) 0) in
  fst result = false
  /\ (cut_after_passes 3 (snd result) < cut_after_passes 3 0)%Z.
Proof. vm_compute. split; reflexivity. Qed.

Lemma refine_true_implies_cut_decreased_witness :
  let result :=
    JetRefiner.refine nat (cut_after_passes 1) S single_pass_ctx 0
      (JetRefiner.snapshooter_init nat (cut_after_passes 1) 0) in
  (cut_after_passes 1 (snd result) < cut_after_passes 1 0)%Z.
Proof.
  apply (proj1 (refine_true_implies_cut_decreased
                  (cut_after_passes 1) S single_pass_ctx 0
                  ltac:(intros []; simpl; lia)
                  ltac:(unfold Qle; simpl; lia))).
  vm_compute. reflexivity.
Defined.

(** C6, amended.  [refine()] runs its body [j >= 1] times, where [j] is the
    first count at which the iteration counter has reached
    [max_num_iterations] or the fruitless counter has reached
    [max_num_fruitless_iterations]; these are the configured limits, except
    that a configured 0 stands for [INT_MAX].  The partition it leaves is
    the snapshot rolled back to.  For limits other than 0 the rule is the
    one of the specification. *)
Theorem refine_stopping_rule {State : Type}
    (edge_cut : State -> EdgeWeight) (pass : State -> State)
    (ctx : JetRefiner.JetRefinementContext) (p_graph : State)
    (s : JetRefiner.Snapshooter State) :
  let iteration := JetRefiner.iteration State edge_cut pass ctx in
  let st0 := JetRefiner.initial_loop_state State edge_cut p_graph s in
  let st := JetRefiner.refine_loop State edge_cut pass ctx p_graph s in
  (exists j,
      1 <= j
      /\ st = Nat.iter j iteration st0
      /\ JetRefiner.effective_stop State ctx st = true
      /\ (forall i, 1 <= i < j ->
            JetRefiner.effective_stop State ctx (Nat.iter i iteration st0)
            = false))
  /\ snd (JetRefiner.refine State edge_cut pass ctx p_graph s)
     = JetRefiner.snapshooter_rollback State (JetRefiner._snapshooter st)
  /\ (JetRefiner.num_iterations ctx <> 0%Z ->
      JetRefiner.num_fruitless_iterations ctx <> 0%Z ->
      forall st', JetRefiner.effective_stop State ctx st'
                  = JetRefiner.spec_stop State ctx st').
Proof.
  intros iteration st0 st. split; [|split].
  - pose proof (refine_loop_exits edge_cut pass ctx p_graph s) as Hexit.
    fold st in Hexit. rewrite loop_condition_effective_stop in Hexit.
    apply negb_false_iff in Hexit.
    destruct (do_while_trace edge_cut pass ctx
                (Z.to_nat (JetRefiner.max_num_iterations ctx - 1)) st0)
      as (j & Hj & Hrun & Hbefore & _).
    exists j. repeat split; [lia | exact Hrun | exact Hexit |].
    intros i Hi. specialize (Hbefore i Hi).
    rewrite loop_condition_effective_stop in Hbefore.
    by apply negb_true_iff in Hbefore.
  - reflexivity.
  - intros Hit Hfr st'.
    unfold JetRefiner.effective_stop, JetRefiner.spec_stop,
      JetRefiner.max_num_iterations, JetRefiner.max_num_fruitless_iterations.
    destruct (Z.eqb_spec (JetRefiner.num_iterations ctx) 0); [done|].
    destruct (Z.eqb_spec (JetRefiner.num_fruitless_iterations ctx) 0);
      [done|]. reflexivity.
Qed.

Lemma refine_stopping_rule_witness :
  let st1 :=
    JetRefiner.iteration nat (cut_after_passes 3) S single_pass_ctx
      (JetRefiner.initial_loop_state nat (cut_after_passes 3) 0
         (JetRefiner.snapshooter_init nat (cut_after_passes 3) 0)) in
  JetRefiner.effective_stop nat single_pass_ctx st1
  = JetRefiner.spec_stop nat single_pass_ctx st1.
Proof.
  apply (proj2 (proj2 (refine_stopping_rule
                         (cut_after_passes 3) S single_pass_ctx 0
                         (JetRefiner.snapshooter_init
                            nat (cut_after_passes 3) 0))));
    vm_compute; congruence.
Defined.

(** C6, as stated: with [num_iterations = 0] and passes that never change
    the cut (the triangle, where every cut is 2), the rule of the
    specification asks to stop after the first iteration, the loop goes on
    and leaves after the second. *)
Lemma refine_ignores_zero_limit :
  let edge_cut := fun _ : unit => 2%Z in
  let pass := fun p_graph : unit => p_graph in
  let s := JetRefiner.snapshooter_init unit edge_cut tt in
  let st1 :=
    JetRefiner.iteration unit edge_cut pass unlimited_ctx
      (JetRefiner.initial_loop_state unit edge_cut tt s) in
  JetRefiner.spec_stop unit unlimited_ctx st1 = true
  /\ JetRefiner.loop_condition unit unlimited_ctx st1 = true
  /\ JetRefiner.cur_iteration
       (JetRefiner.refine_loop unit edge_cut pass unlimited_ctx tt s) = 2%Z.
Proof.
  intros edge_cut pass s st1.
  split; [reflexivity|]. split; [reflexivity|].
  unfold JetRefiner.refine_loop.
  rewrite (do_while_more_irrelevant edge_cut pass unlimited_ctx 1).
  - reflexivity.
  - reflexivity.
  - replace (JetRefiner.max_num_iterations unlimited_ctx)
      with 2147483647%Z by reflexivity.
    lia.
Qed.

(** ** JET refiner: the tie-break of the filter phase *)

(** Under one numbering of the nodes, exactly one of two distinct nodes
    treats the other as moved. *)
Lemma treats_as_moved_exactly_one (gain_u gain_v : EdgeWeight) (u v : NodeID) :
  u <> v ->
  xorb (JetRefiner.treats_as_moved gain_u u gain_v v)
       (JetRefiner.treats_as_moved gain_v v gain_u u) = true.
Proof.
  intros Hne. unfold JetRefiner.treats_as_moved.
  destruct (Z.gtb_spec gain_v gain_u), (Z.gtb_spec gain_u gain_v),
    (Z.eqb_spec gain_v gain_u), (Z.eqb_spec gain_u gain_v),
    (Nat.ltb_spec v u), (Nat.ltb_spec u v); simpl; try reflexivity; lia.
Qed.

(** An owned node never takes a ghost for moved on equal gains: ghosts are
    numbered after the owned nodes. *)
Lemma treats_ghost_as_moved (n : nat) (gain_u gain_v : EdgeWeight)
    (u ghost : NodeID) :
  u < n -> n <= ghost ->
  JetRefiner.treats_as_moved gain_u u gain_v ghost = (gain_v >? gain_u)%Z.
Proof.
  intros Hu Hg. unfold JetRefiner.treats_as_moved.
  destruct (Nat.ltb_spec ghost u); [lia|].
  by rewrite andb_false_r, orb_false_r.
Qed.

(** C5, at the failing input: on both PEs the neighbour is a ghost with
    local id 1, the owned node has local id 0, the gains are equal, and
    neither node treats the other as moved: both keep the neighbour in its
    current block and both moves pass the filter. *)
Lemma cross_pe_tie_neither_moved :
  fst pe0_edge = 1 /\ fst pe1_edge = 1
  /\ JetRefiner.treats_as_moved 1 0 1 (fst pe0_edge) = false
  /\ JetRefiner.treats_as_moved 1 0 1 (fst pe1_edge) = false
  /\ JetRefiner.projected_block pe0_view 1 0 (fst pe0_edge) = 1
  /\ JetRefiner.projected_block pe1_view 1 0 (fst pe1_edge) = 0
  /\ JetRefiner.filter_bad_moves pe0_view = [true]
  /\ JetRefiner.filter_bad_moves pe1_view = [true].
Proof. repeat split; vm_compute; reflexivity. Qed.

(** ** Circular vector: tickets served in order *)

Lemma prefix_sums_snoc (deltas : list Z) (delta : Z) :
  prefix_sums (deltas ++ [delta]) = prefix_sums deltas ++ [sumZ deltas].
Proof.
  unfold prefix_sums. rewrite length_app. simpl.
  rewrite Nat.add_1_r, seq_S, map_app. simpl. f_equal.
  - apply map_ext_in. intros i Hi. apply in_seq in Hi.
    by rewrite take_app_le by lia.
  - by rewrite take_app_length.
Qed.

Lemma sumZ_nonneg (l : list Z) : Forall (fun d => (0 <= d)%Z) l -> (0 <= sumZ l)%Z.
Proof.
  induction 1 as [|d l Hd _ IH]; simpl; lia.
Qed.

(** The slot before slot [m mod N] in a ring of [N = size + 1] slots. *)
Lemma ring_prev_pos (size m : nat) :
  (if Nat.eqb (m mod S size) 0 then S size - 1 else m mod S size - 1)
  = (m + size) mod S size.
Proof.
  pose proof (Nat.mod_upper_bound m (S size) ltac:(lia)) as Hr.
  pose proof (Nat.div_mod_eq m (S size)) as Hm.
  destruct (Nat.eqb_spec (m mod S size) 0) as [H0|Hpos].
  - apply (Nat.mod_unique _ _ (m / S size)); [lia|]. lia.
  - apply (Nat.mod_unique _ _ (m / S size + 1)); [lia|]. nia.
Qed.

Lemma ring_next_prev (size m : nat) : (S m + size) mod S size = m mod S size.
Proof.
  replace (S m + size) with (m + 1 * S size) by lia.
  apply Nat.Div0.mod_add.
Qed.

Lemma ring_prev_differs (size m : nat) :
  1 <= size -> (m + size) mod S size <> m mod S size.
Proof.
  intros Hsize. rewrite <- ring_prev_pos.
  pose proof (Nat.mod_upper_bound m (S size) ltac:(lia)).
  destruct (Nat.eqb_spec (m mod S size) 0); lia.
Qed.

Section CircularVector.
Variable size_max : nat.
Variable value_max : Z.

Local Abbreviation t := ConcurrentCircularVector.t.
Local Abbreviation process_in_order :=
  (ConcurrentCircularVector.process_in_order size_max value_max).

Lemma process_in_order_snoc (deltas : list Z) (delta : Z) (v : t) :
  process_in_order (deltas ++ [delta]) v
  = match process_in_order deltas v with
    | None => None
    | Some (values, v1) =>
        let '(entry, v2) := ConcurrentCircularVector.next size_max v1 in
        match ConcurrentCircularVector.fetch_and_update
                value_max entry delta v2 with
        | None => None
        | Some (value, v3) => Some (values ++ [value], v3)
        end
    end.
Proof.
  revert v. induction deltas as [|d deltas IH]; intros v; simpl.
  - destruct (ConcurrentCircularVector.fetch_and_update _ _ _ _)
      as [[value v3]|]; reflexivity.
  - destruct (ConcurrentCircularVector.fetch_and_update _ _ d _)
      as [[value v2]|]; [|reflexivity].
    rewrite IH.
    destruct (process_in_order deltas v2) as [[values v3]|]; [|reflexivity].
    simpl.
    destruct (ConcurrentCircularVector.fetch_and_update _ _ delta _)
      as [[value' v4]|]; reflexivity.
Qed.

(** One call whose previous slot is set. *)
Lemma fetch_and_update_step (size m : nat) (delta value : Z) (v : t) :
  length (ConcurrentCircularVector._buffer v) = S size ->
  ConcurrentCircularVector._buffer v !!! ((m + size) mod S size) = value ->
  value <> value_max ->
  ConcurrentCircularVector.fetch_and_update value_max m delta v
  = Some (value,
          {| ConcurrentCircularVector._counter :=
               ConcurrentCircularVector._counter v;
             ConcurrentCircularVector._buffer :=
               <[m mod S size :=
                   ConcurrentCircularVector.wrap_value
                     value_max (value + delta)]>
                 (<[(m + size) mod S size := value_max]>
                    (ConcurrentCircularVector._buffer v)) |}).
Proof.
  intros Hbuf Hslot Hset.
  unfold ConcurrentCircularVector.fetch_and_update,
    ConcurrentCircularVector.prev_pos_of, ConcurrentCircularVector.pos_of,
    ConcurrentCircularVector.kLock.
  rewrite Hbuf, ring_prev_pos, Hslot.
  destruct (Z.eqb_spec value value_max); [done | reflexivity].
Qed.

(** After serving the tickets [0 .. m) in order: the counter is [m], and
    the slot before the one of ticket [m] holds the sum of all deltas. *)
Lemma process_in_order_state (size : nat) (deltas : list Z) :
  Forall (fun d => (0 <= d)%Z) deltas ->
  (sumZ deltas < value_max)%Z ->
  length deltas <= S size_max ->
  exists v,
    process_in_order deltas (ConcurrentCircularVector.create value_max size)
    = Some (prefix_sums deltas, v)
    /\ ConcurrentCircularVector._counter v
       = length deltas mod S size_max
    /\ length (ConcurrentCircularVector._buffer v) = S size
    /\ ConcurrentCircularVector._buffer v
         !!! ((length deltas + size) mod S size) = sumZ deltas.
Proof.
  induction deltas as [|delta deltas IH] using rev_ind;
    intros Hnonneg Hsum Hlen.
  - eexists. split; [reflexivity|].
    unfold ConcurrentCircularVector.create.
    cbn [ConcurrentCircularVector._counter
           ConcurrentCircularVector._buffer length].
    rewrite Nat.Div0.mod_0_l, length_app, length_replicate.
    change (length [0%Z]) with 1. rewrite Nat.add_0_l.
    repeat split; [lia|].
    rewrite Nat.mod_small by lia.
    rewrite lookup_total_app_r by (rewrite length_replicate; lia).
    rewrite length_replicate, Nat.sub_diag. reflexivity.
  - apply Forall_app in Hnonneg as [Hnonneg Hdelta].
    apply Forall_inv in Hdelta.
    rewrite sumZ_app in Hsum. cbn [sumZ foldr] in Hsum.
    rewrite length_app in Hlen. cbn [length] in Hlen.
    pose proof (sumZ_nonneg _ Hnonneg) as Hpos.
    destruct IH as (v & Hrun & Hcounter & Hbuf & Hslot);
      [done | lia | lia |].
    rewrite process_in_order_snoc, Hrun.
    unfold ConcurrentCircularVector.next.
    rewrite Hcounter, (Nat.mod_small (length deltas)) by lia.
    rewrite (fetch_and_update_step size _ _ (sumZ deltas));
      [|done|done|lia].
    eexists. split; [by rewrite prefix_sums_snoc|].
    cbn [ConcurrentCircularVector._counter
           ConcurrentCircularVector._buffer].
    rewrite !length_insert, length_app, sumZ_app.
    cbn [length sumZ foldr].
    rewrite Nat.add_1_r, ring_next_prev.
    repeat split; [done|].
    rewrite list_lookup_total_insert_eq.
    + unfold ConcurrentCircularVector.wrap_value.
      rewrite Z.mod_small; lia.
    + rewrite length_insert, Hbuf. apply Nat.mod_upper_bound. lia.
Qed.
End CircularVector.

(** C7.  When the tickets drawn with [next()] are served in order, the call
    for the i-th ticket returns the sum of the deltas of the earlier tickets
    (0 for the first); afterwards the slot of that ticket holds this sum
    plus its own delta and the slot before it holds the sentinel [kLock],
    the maximum value.  The vector has at least one slot besides the extra
    one, the tickets have not wrapped around, and the sums stay below the
    sentinel. *)
Theorem circular_vector_prefix_sums
    (size_max : nat) (value_max : Z) (size : nat)
    (deltas : list Z) (delta : Z) :
  1 <= size ->
  Forall (fun d => (0 <= d)%Z) (deltas ++ [delta]) ->
  (sumZ (deltas ++ [delta]) < value_max)%Z ->
  length (deltas ++ [delta]) <= S size_max ->
  exists v,
    ConcurrentCircularVector.process_in_order size_max value_max
      (deltas ++ [delta]) (ConcurrentCircularVector.create value_max size)
    = Some (prefix_sums deltas ++ [sumZ deltas], v)
    /\ prefix_sums (deltas ++ [delta]) = prefix_sums deltas ++ [sumZ deltas]
    /\ ConcurrentCircularVector._buffer v
         !!! ConcurrentCircularVector.pos_of v (length deltas)
       = (sumZ deltas + delta)%Z
    /\ ConcurrentCircularVector._buffer v
         !!! ConcurrentCircularVector.prev_pos_of v (length deltas)
       = ConcurrentCircularVector.kLock value_max
    /\ ConcurrentCircularVector.kLock value_max = value_max.
Proof.
  intros Hsize Hnonneg Hsum Hlen.
  pose proof Hnonneg as Hnonneg'.
  apply Forall_app in Hnonneg' as [Hnonneg' Hdelta].
  apply Forall_inv in Hdelta.
  pose proof (sumZ_nonneg _ Hnonneg') as Hpos.
  pose proof Hsum as Hsum'. rewrite sumZ_app in Hsum'.
  cbn [sumZ foldr] in Hsum'.
  pose proof Hlen as Hlen'. rewrite length_app in Hlen'.
  cbn [length] in Hlen'.
  destruct (process_in_order_state size_max value_max size deltas)
    as (v & Hrun & Hcounter & Hbuf & Hslot); [done | lia | lia |].
  rewrite process_in_order_snoc, Hrun.
  unfold ConcurrentCircularVector.next.
  rewrite Hcounter, (Nat.mod_small (length deltas)) by lia.
  rewrite (fetch_and_update_step value_max size _ _ (sumZ deltas));
    [|done|done|lia].
  eexists. split; [reflexivity|].
  unfold ConcurrentCircularVector.prev_pos_of,
    ConcurrentCircularVector.pos_of.
  cbn [ConcurrentCircularVector._buffer].
  rewrite !length_insert, Hbuf, ring_prev_pos.
  split; [apply prefix_sums_snoc|]. split; [|split; [|reflexivity]].
  - rewrite list_lookup_total_insert_eq.
    + unfold ConcurrentCircularVector.wrap_value. rewrite Z.mod_small; lia.
    + rewrite length_insert, Hbuf. apply Nat.mod_upper_bound. lia.
  - rewrite list_lookup_total_insert_ne
      by (by apply not_eq_sym, ring_prev_differs).
    rewrite list_lookup_total_insert_eq; [reflexivity|].
    rewrite Hbuf. apply Nat.mod_upper_bound. lia.
Qed.

Lemma circular_vector_prefix_sums_witness :
  exists v,
    ConcurrentCircularVector.process_in_order 255 255
      ([3; 4] ++ [5])%Z (ConcurrentCircularVector.create 255 2)
    = Some (prefix_sums [3; 4]%Z ++ [sumZ [3; 4]%Z], v)
    /\ prefix_sums ([3; 4] ++ [5])%Z
       = prefix_sums [3; 4]%Z ++ [sumZ [3; 4]%Z]
    /\ ConcurrentCircularVector._buffer v
         !!! ConcurrentCircularVector.pos_of v 2
       = (sumZ [3; 4] + 5)%Z
    /\ ConcurrentCircularVector._buffer v
         !!! ConcurrentCircularVector.prev_pos_of v 2
       = ConcurrentCircularVector.kLock 255
    /\ ConcurrentCircularVector.kLock 255 = 255%Z.
Proof.
  apply (circular_vector_prefix_sums 255 255 2 [3; 4]%Z 5%Z).
  - lia.
  - repeat constructor; lia.
  - simpl. lia.
  - simpl. lia.
Defined.

(** ** Fast-reset array *)

Lemma fast_reset_array_fresh {Value : Type} `{EqDecision Value}
    (default : Value) (capacity pos : nat) :
  pos < capacity ->
  FastResetArray.exists_ default (FastResetArray.create default capacity) pos
  = true.
Proof.
  intros Hpos. unfold FastResetArray.exists_, FastResetArray.create. simpl.
  apply bool_decide_eq_true.
  by apply (@lookup_total_replicate_2 _ (FastResetArray.value_inhabited default)).
Qed.

(** C8.  For a position below the capacity, [exists(pos)] is true exactly
    when the stored value is the default-constructed one: it is false for an
    entry that holds another value, and after [set(pos, v)] it tells whether
    [v] is the default value. *)
Theorem exists_iff_default {Value : Type} `{EqDecision Value}
    (default : Value) (a : @FastResetArray.t Value) (pos : nat) :
  pos < FastResetArray.capacity a ->
  (FastResetArray.exists_ default a pos = true
   <-> FastResetArray.get default a pos = default)
  /\ (FastResetArray.exists_ default a pos = false
      <-> FastResetArray.get default a pos <> default)
  /\ (forall new_value,
        FastResetArray.exists_ default
          (FastResetArray.set default pos new_value a) pos
        = bool_decide (new_value = default)).
Proof.
  intros Hpos. unfold FastResetArray.exists_, FastResetArray.get.
  split; [apply bool_decide_eq_true|]. split; [apply bool_decide_eq_false|].
  intros new_value. unfold FastResetArray.set, FastResetArray.access.
  destruct (decide (FastResetArray._data a !!! pos = default)); simpl;
    by rewrite (@list_lookup_total_insert_eq
                  _ (FastResetArray.value_inhabited default)).
Qed.

Lemma exists_iff_default_witness :
  (FastResetArray.exists_ 0%Z
     (FastResetArray.set 0%Z 1 7%Z (FastResetArray.create 0%Z 3)) 1 = true
   <-> FastResetArray.get 0%Z
         (FastResetArray.set 0%Z 1 7%Z (FastResetArray.create 0%Z 3)) 1
       = 0%Z)
  /\ FastResetArray.exists_ 0%Z
       (FastResetArray.set 0%Z 1 7%Z (FastResetArray.create 0%Z 3)) 1
     = false.
Proof.
  assert (Hpos : 1 < FastResetArray.capacity
                       (FastResetArray.set 0%Z 1 7%Z
                          (FastResetArray.create 0%Z 3)))
    by (vm_compute; lia).
  destruct (exists_iff_default 0%Z _ 1 Hpos) as (Hdefault & Hother & _).
  split; [exact Hdefault|].
  apply Hother. vm_compute. discriminate.
Defined.

(** ** Compressed graph: removing and integrating isolated nodes *)

Lemma update_total_node_weight_ext (g1 g2 : CompressedGraph.t) :
  StaticArray._size (CompressedGraph._nodes g1)
  = StaticArray._size (CompressedGraph._nodes g2) ->
  StaticArray._size (CompressedGraph._node_weights g1)
  = StaticArray._size (CompressedGraph._node_weights g2) ->
  StaticArray.storage (CompressedGraph._node_weights g1)
  = StaticArray.storage (CompressedGraph._node_weights g2) ->
  CompressedGraph._total_node_weight
    (CompressedGraph.update_total_node_weight g1)
  = CompressedGraph._total_node_weight
      (CompressedGraph.update_total_node_weight g2)
  /\ CompressedGraph._max_node_weight
       (CompressedGraph.update_total_node_weight g1)
     = CompressedGraph._max_node_weight
         (CompressedGraph.update_total_node_weight g2).
Proof.
  intros Hn Hw Hs.
  unfold CompressedGraph.update_total_node_weight, StaticArray.empty,
    StaticArray.elements, CompressedGraph.n, StaticArray.size.
  rewrite Hn, Hw, Hs.
  destruct (Nat.eqb _ 0); done.
Qed.

Lemma update_total_node_weight_fields (g : CompressedGraph.t) :
  CompressedGraph._nodes (CompressedGraph.update_total_node_weight g)
  = CompressedGraph._nodes g
  /\ CompressedGraph._node_weights (CompressedGraph.update_total_node_weight g)
     = CompressedGraph._node_weights g
  /\ CompressedGraph._buckets (CompressedGraph.update_total_node_weight g)
     = CompressedGraph._buckets g.
Proof.
  unfold CompressedGraph.update_total_node_weight.
  destruct (StaticArray.empty _); done.
Qed.

Lemma shift_buckets_back (k : Z) (buckets : list Z) :
  Forall (fun b => (0 <= b < CompressedGraph.NodeID_modulus)%Z) buckets ->
  CompressedGraph.shift_buckets k (CompressedGraph.shift_buckets (- k) buckets)
  = buckets.
Proof.
  intros Hrange. destruct buckets as [|b0 rest]; [reflexivity|].
  apply Forall_cons in Hrange as [_ Hrest]. simpl. f_equal.
  rewrite map_map.
  induction Hrest as [|b rest Hb _ IH]; simpl; [reflexivity|].
  rewrite IH. f_equal. unfold CompressedGraph.wrap_node.
  rewrite Zplus_mod_idemp_l.
  replace (b + - k + k)%Z with b by lia.
  apply Z.mod_small. done.
Qed.

Lemma shift_buckets_zero (buckets : list Z) :
  Forall (fun b => (0 <= b < CompressedGraph.NodeID_modulus)%Z) buckets ->
  CompressedGraph.shift_buckets 0 buckets = buckets.
Proof.
  intros Hrange. destruct buckets as [|b0 rest]; [reflexivity|].
  apply Forall_cons in Hrange as [_ Hrest]. simpl. f_equal.
  induction Hrest as [|b rest Hb _ IH]; simpl; [reflexivity|].
  rewrite IH. f_equal. unfold CompressedGraph.wrap_node.
  rewrite Z.add_0_r. by apply Z.mod_small.
Qed.

(** C9.  On a sorted graph as the constructor leaves it, with [k] at most
    the number of nodes (the trailing [k] nodes being the isolated ones),
    [remove_isolated_nodes(k)] followed by [integrate_isolated_nodes()]
    restores [n()], the total node weight, the maximum node weight and all
    degree-bucket prefix sums. *)
Theorem remove_then_integrate_restores
    (g : CompressedGraph.t) (isolated_nodes : nat) :
  CompressedGraph.well_formed g ->
  isolated_nodes <= CompressedGraph.n g ->
  let g' := CompressedGraph.integrate_isolated_nodes
              (CompressedGraph.remove_isolated_nodes isolated_nodes g) in
  CompressedGraph.n g' = CompressedGraph.n g
  /\ CompressedGraph._total_node_weight g'
     = CompressedGraph._total_node_weight g
  /\ CompressedGraph._max_node_weight g'
     = CompressedGraph._max_node_weight g
  /\ CompressedGraph._buckets g' = CompressedGraph._buckets g.
Proof.
  intros [_ Hsize Hnodes _ Hwsize Hweights [Htotal Hmax] Hbuckets] Hk g'.
  subst g'. unfold CompressedGraph.integrate_isolated_nodes.
  match goal with
  | |- context [CompressedGraph.update_total_node_weight ?g0] =>
      destruct (update_total_node_weight_fields g0) as (En & Ew & Eb);
      destruct (update_total_node_weight_ext g0 g) as (Et & Em)
  end.
  - (* node offsets *)
    unfold CompressedGraph.remove_isolated_nodes. simpl.
    destruct (Nat.eqb_spec isolated_nodes 0); simpl; [done|].
    match goal with
    | |- context [CompressedGraph.update_total_node_weight ?g1] =>
        destruct (update_total_node_weight_fields g1) as (-> & _ & _)
    end.
    reflexivity.
  - (* size of the node weights *)
    unfold CompressedGraph.remove_isolated_nodes. simpl.
    destruct (Nat.eqb_spec isolated_nodes 0); simpl; [done|].
    match goal with
    | |- context [CompressedGraph.update_total_node_weight ?g1] =>
        destruct (update_total_node_weight_fields g1) as (_ & -> & _)
    end.
    simpl. destruct (StaticArray.empty _); simpl; done.
  - (* storage of the node weights *)
    unfold CompressedGraph.remove_isolated_nodes. simpl.
    destruct (Nat.eqb_spec isolated_nodes 0); simpl; [done|].
    match goal with
    | |- context [CompressedGraph.update_total_node_weight ?g1] =>
        destruct (update_total_node_weight_fields g1) as (_ & -> & _)
    end.
    simpl. destruct (StaticArray.empty _); simpl; done.
  - simpl. rewrite En, Et, Em, Eb, Htotal, Hmax. simpl.
    unfold CompressedGraph.n, StaticArray.size.
    unfold CompressedGraph.remove_isolated_nodes.
    destruct (Nat.eqb_spec isolated_nodes 0) as [->|Hpos].
    + simpl. rewrite Hnodes, Nat.sub_diag.
      repeat split; try done. by apply shift_buckets_zero.
    + simpl.
      match goal with
      | |- context [CompressedGraph.update_total_node_weight ?g1] =>
          destruct (update_total_node_weight_fields g1) as (-> & _ & ->)
      end.
      simpl. repeat split; try done.
      unfold CompressedGraph.n, StaticArray.size in *.
      match goal with
      | |- CompressedGraph.shift_buckets (Z.of_nat ?d) _ = _ =>
          replace d with isolated_nodes by lia
      end.
      by apply shift_buckets_back.
Qed.

(** Every graph the constructor builds is well formed. *)
Lemma create_well_formed (nodes : list Z) (node_weights : list NodeWeight)
    (buckets : list Z) (number_of_buckets : nat) :
  1 <= length nodes ->
  node_weights = [] \/ length node_weights = length nodes - 1 ->
  Forall (fun b => (0 <= b < CompressedGraph.NodeID_modulus)%Z) buckets ->
  CompressedGraph.well_formed
    (CompressedGraph.create nodes node_weights true buckets number_of_buckets).
Proof.
  intros Hnodes Hweights Hbuckets.
  unfold CompressedGraph.create.
  match goal with
  | |- CompressedGraph.well_formed
         (CompressedGraph.update_total_node_weight ?g0) =>
      set (g := g0);
      destruct (update_total_node_weight_fields g) as (En & Ew & Eb);
      destruct (update_total_node_weight_ext
                  (CompressedGraph.update_total_node_weight g) g)
        as (Et & Em); [by rewrite En | by rewrite Ew | by rewrite Ew |]
  end.
  split.
  - unfold CompressedGraph.update_total_node_weight.
    destruct (StaticArray.empty _); reflexivity.
  - rewrite En. simpl. lia.
  - rewrite En. reflexivity.
  - rewrite Ew. simpl. lia.
  - unfold CompressedGraph.n, StaticArray.size. rewrite En, Ew. simpl.
    destruct Hweights as [->|Hlen]; [by left | by right].
  - rewrite Ew. reflexivity.
  - done.
  - by rewrite Eb.
Qed.

Lemma remove_then_integrate_restores_witness :
  let g' := CompressedGraph.integrate_isolated_nodes
              (CompressedGraph.remove_isolated_nodes
                 2 small_compressed_graph) in
  CompressedGraph.n g' = CompressedGraph.n small_compressed_graph
  /\ CompressedGraph._total_node_weight g'
     = CompressedGraph._total_node_weight small_compressed_graph
  /\ CompressedGraph._max_node_weight g'
     = CompressedGraph._max_node_weight small_compressed_graph
  /\ CompressedGraph._buckets g'
     = CompressedGraph._buckets small_compressed_graph.
Proof.
  apply (remove_then_integrate_restores small_compressed_graph 2).
  - apply create_well_formed.
    + simpl. lia.
    + right. reflexivity.
    + repeat constructor; vm_compute; congruence.
  - vm_compute. lia.
Defined.

Example small_compressed_graph_removed :
  let g := CompressedGraph.remove_isolated_nodes 2 small_compressed_graph in
  CompressedGraph.n g = 2
  /\ CompressedGraph._total_node_weight g = 5%Z
  /\ CompressedGraph._max_node_weight g = 3%Z
  /\ CompressedGraph._buckets g = [0; 0; 2; 2]%Z.
Proof. repeat split; vm_compute; reflexivity. Qed.

(** ** Balancer: the move sets that the result delimits *)

Lemma top_in (h : BinaryMaxHeap.ListHeap) (e : nat * Z) :
  BinaryMaxHeap.top h = Some e -> e ∈ h.
Proof.
  revert e. induction h as [|e0 h IH]; intros e; simpl; [done|].
  destruct (BinaryMaxHeap.top h) as [e'|].
  - destruct (snd e' >? snd e0)%Z; intros [= <-].
    + apply list_elem_of_further. by apply IH.
    + apply list_elem_of_here.
  - intros [= <-]. apply list_elem_of_here.
Qed.

Lemma top_nonempty (h : BinaryMaxHeap.ListHeap) :
  h <> [] -> exists e, BinaryMaxHeap.top h = Some e.
Proof.
  destruct h as [|e0 h]; [done|]. intros _. simpl.
  destruct (BinaryMaxHeap.top h) as [e'|]; [|by eexists].
  destruct (snd e' >? snd e0)%Z; by eexists.
Qed.

Lemma reprioritise_ids (id : nat) (f : Z -> Z) (h : BinaryMaxHeap.ListHeap) :
  map fst (BinaryMaxHeap.reprioritise id f h) = map fst h.
Proof.
  unfold BinaryMaxHeap.reprioritise. rewrite map_map.
  apply map_ext_in. intros e _.
  destruct (Nat.eqb_spec (fst e) id) as [<-|]; reflexivity.
Qed.

#[global] Instance list_heap_laws : BinaryMaxHeap.Laws BinaryMaxHeap.ListHeap.
Proof.
  split.
  - reflexivity.
  - intros [|e h]; simpl; [reflexivity | discriminate].
  - intros h Hne. simpl in *.
    destruct (top_nonempty h) as [e He]; [by destruct h|].
    rewrite He. apply list_elem_of_fmap. exists e. split; [done|].
    by apply top_in.
  - intros id k h x Hx. simpl in *.
    rewrite map_app in Hx. apply elem_of_app in Hx as [Hx|Hx]; [by right|].
    left. simpl in Hx. by apply list_elem_of_singleton in Hx.
  - intros h x Hx. simpl in *.
    destruct (BinaryMaxHeap.top h) as [e|]; [|done].
    apply list_elem_of_fmap in Hx as (e' & -> & He').
    apply list_elem_of_filter in He' as [_ He'].
    apply list_elem_of_fmap. by exists e'.
  - intros id k h x Hx. simpl in *. by rewrite reprioritise_ids in Hx.
Qed.


(** * Further properties of the embedded code *)

(** ** Dense gain cache: [validate] *)

Lemma check_fold (p_graph : PartitionedGraph) (l : list (NodeID * EdgeWeight))
    (a0 : EdgeWeight) (d0 : list EdgeWeight) :
  fold_left (DenseGainCache.check_edge p_graph) l (a0, d0)
  = ((a0 + sumZ (map snd l))%Z,
     fold_left (fun a e => atomic_fetch_add a (block p_graph (fst e)) (snd e))
               l d0).
Proof.
  revert a0 d0. induction l as [|e l IH]; intros a0 d0; simpl.
  - f_equal. lia.
  - unfold DenseGainCache.check_edge at 2. simpl. rewrite IH. f_equal. lia.
Qed.

Lemma forallb_seq (f : nat -> bool) (K : nat) :
  forallb f (seq 0 K) = true <-> forall b, b < K -> f b = true.
Proof.
  rewrite forallb_forall. split.
  - intros Hall b Hb. apply Hall, in_seq. lia.
  - intros Hall b Hb. apply in_seq in Hb. apply Hall. lia.
Qed.

Lemma check_cached_gain_for_node_true (p_graph : PartitionedGraph)
    (gc : DenseGainCache.t) (u : NodeID) :
  valid_partitioned_graph p_graph -> cache_fits gc p_graph ->
  DenseGainCache.check_cached_gain_for_node p_graph gc u = true
  <-> (forall b, b < DenseGainCache._k gc ->
         DenseGainCache.weighted_degree_to gc u b
         = OnTheFlyGainCache.conn_impl p_graph u b)
      /\ DenseGainCache._weighted_degrees gc !!! u
         = weighted_degree (graph p_graph) u.
Proof.
  intros Hv Hf. unfold DenseGainCache.check_cached_gain_for_node.
  rewrite check_fold.
  assert (Hactual : forall b, b < DenseGainCache._k gc ->
            fold_left
              (fun a e => atomic_fetch_add a (block p_graph (fst e)) (snd e))
              (neighbors (graph p_graph) u)
              (replicate (DenseGainCache._k gc) 0%Z) !!! b
            = OnTheFlyGainCache.conn_impl p_graph u b).
  { intros b Hb.
    rewrite (scatter_add_lookup (fun e => block p_graph (fst e)) snd).
    - rewrite lookup_total_replicate_2 by done. rewrite conn_impl_sum. lia.
    - intros e He. rewrite length_replicate. by eapply neighbor_block_bound. }
  unfold weighted_degree.
  destruct (forallb _ (seq 0 (DenseGainCache._k gc))) eqn:Hcells.
  - pose proof (proj1 (forallb_seq _ _) Hcells) as Hcells'.
    rewrite Z.eqb_eq. split.
    + intros Hdeg. split; [|lia].
      intros b Hb. specialize (Hcells' b Hb). apply Z.eqb_eq in Hcells'.
      rewrite <- Hcells'. by apply Hactual.
    + intros [_ Hdeg]. lia.
  - split; [discriminate|]. intros [Hconn _]. exfalso.
    assert (Hall : forallb
              (fun b => Z.eqb
                 (fold_left
                    (fun a e =>
                       atomic_fetch_add a (block p_graph (fst e)) (snd e))
                    (neighbors (graph p_graph) u)
                    (replicate (DenseGainCache._k gc) 0%Z) !!! b)
                 (DenseGainCache.weighted_degree_to gc u b))
              (seq 0 (DenseGainCache._k gc)) = true).
    { apply (proj2 (forallb_seq _ _)). intros b Hb. apply Z.eqb_eq.
      rewrite Hactual, Hconn by done. reflexivity. }
    congruence.
Qed.

(** X1.  [validate] is a sound and complete check: it returns [true]
    exactly when every cell of the rows of the graph's nodes (for all [_k]
    blocks of the cache) equals the connection recomputed from the
    adjacency and every cached degree equals the node's weighted degree. *)
Theorem validate_iff_exact (p_graph : PartitionedGraph)
    (gc : DenseGainCache.t) :
  valid_partitioned_graph p_graph -> cache_fits gc p_graph ->
  DenseGainCache.validate p_graph gc = true <-> cache_exact gc p_graph.
Proof.
  intros Hv Hf. unfold DenseGainCache.validate, cache_exact.
  rewrite forallb_seq. split.
  - intros Hall. split.
    + intros u b Hu Hb.
      destruct (proj1 (check_cached_gain_for_node_true p_graph gc u Hv Hf)
                      (Hall u Hu)) as [Hconn _].
      by apply Hconn.
    + intros u Hu.
      by destruct (proj1 (check_cached_gain_for_node_true p_graph gc u Hv Hf)
                         (Hall u Hu)) as [_ Hdeg].
  - intros [Hconn Hdeg] u Hu.
    apply (check_cached_gain_for_node_true p_graph gc u Hv Hf).
    split; [intros b Hb; by apply Hconn | by apply Hdeg].
Qed.

Lemma path4_cache_initialized_fits : cache_fits path4_cache path4_partitioned.
Proof. split; vm_compute; lia. Qed.

Lemma validate_iff_exact_witness :
  DenseGainCache.validate path4_partitioned path4_cache = true
  <-> cache_exact path4_cache path4_partitioned.
Proof.
  exact (validate_iff_exact path4_partitioned path4_cache
           path4_valid path4_cache_initialized_fits).
Defined.

Lemma with_k_valid (K : BlockID) (p_graph : PartitionedGraph) :
  valid_partitioned_graph p_graph -> p_k p_graph <= K ->
  valid_partitioned_graph (with_k K p_graph).
Proof.
  intros [Hlen Hblocks Htargets Hsym] HK. split; simpl; try done.
  intros u Hu. specialize (Hblocks u Hu). unfold block in *. simpl. lia.
Qed.

Lemma with_k_fits (gc : DenseGainCache.t) (p_graph : PartitionedGraph) :
  cache_fits gc p_graph ->
  cache_fits gc (with_k (DenseGainCache._k gc) p_graph).
Proof. intros [Hk Hn Hc Hd]. split; simpl; done. Qed.

Lemma apply_moves_with_k (K : BlockID) (moves : list (NodeID * BlockID))
    (p_graph : PartitionedGraph) (gc : DenseGainCache.t) :
  apply_moves moves (with_k K p_graph, gc)
  = (with_k K (fst (apply_moves moves (p_graph, gc))),
     snd (apply_moves moves (p_graph, gc))).
Proof.
  revert p_graph gc.
  induction moves as [|[u to] moves IH]; intros p_graph gc; [reflexivity|].
  unfold apply_moves in *. simpl.
  exact (IH (set_block p_graph u to)
            (DenseGainCache.move p_graph u (block p_graph u) to gc)).
Qed.

Lemma conn_impl_with_k (K : BlockID) (p_graph : PartitionedGraph)
    (u : NodeID) (b : BlockID) :
  OnTheFlyGainCache.conn_impl (with_k K p_graph) u b
  = OnTheFlyGainCache.conn_impl p_graph u b.
Proof. reflexivity. Qed.

Lemma recompute_node_k (p_graph : PartitionedGraph) (gc : DenseGainCache.t)
    (u : NodeID) :
  DenseGainCache._k (DenseGainCache.recompute_node p_graph gc u)
  = DenseGainCache._k gc.
Proof.
  unfold DenseGainCache.recompute_node.
  match goal with
  | |- DenseGainCache._k (fold_left _ ?l ?gc1) = _ =>
      destruct (recompute_fold_fields p_graph u l gc1) as (Ek & _)
  end.
  by rewrite Ek.
Qed.

Lemma initialize_k (p_graph : PartitionedGraph) (gc : DenseGainCache.t) :
  DenseGainCache._k (DenseGainCache.initialize p_graph gc)
  = DenseGainCache._k gc.
Proof.
  unfold DenseGainCache.initialize, DenseGainCache.recompute_all.
  change (DenseGainCache._k gc)
    with (DenseGainCache._k (DenseGainCache.reset gc)).
  generalize (DenseGainCache.reset gc) as gc0.
  induction (seq 0 (graph_n (graph p_graph))) as [|x nodes IH]; intros gc0;
    simpl; [done|].
  by rewrite IH, recompute_node_k.
Qed.

Lemma move_k (p_graph : PartitionedGraph) (node : NodeID)
    (block_from block_to : BlockID) (gc : DenseGainCache.t) :
  DenseGainCache._k (DenseGainCache.move p_graph node block_from block_to gc)
  = DenseGainCache._k gc.
Proof.
  unfold DenseGainCache.move.
  match goal with
  | |- DenseGainCache._k (fold_left _ ?l ?gc1) = _ =>
      destruct (move_fold_fields block_from block_to l gc1) as (Ek & _)
  end.
  by rewrite Ek.
Qed.

Lemma apply_moves_k (moves : list (NodeID * BlockID))
    (p_graph : PartitionedGraph) (gc : DenseGainCache.t) :
  DenseGainCache._k (snd (apply_moves moves (p_graph, gc)))
  = DenseGainCache._k gc.
Proof.
  revert p_graph gc.
  induction moves as [|[u to] moves IH]; intros p_graph gc; [reflexivity|].
  unfold apply_moves in *. simpl. by rewrite IH, move_k.
Qed.

(** X2.  A cache that was initialised and then told every move together
    with the partition passes [validate]: the debug check raises no false
    alarm, also for the cells of blocks beyond the graph's [k]. *)
Theorem validate_accepts_maintained_cache (p_graph : PartitionedGraph)
    (gc : DenseGainCache.t) (moves : list (NodeID * BlockID)) :
  valid_partitioned_graph p_graph ->
  cache_fits gc p_graph ->
  Forall (fun m => fst m < graph_n (graph p_graph)
                   /\ snd m < p_k p_graph) moves ->
  let st := apply_moves moves
              (p_graph, DenseGainCache.initialize p_graph gc) in
  DenseGainCache.validate (fst st) (snd st) = true.
Proof.
  intros Hv Hf Hmoves st.
  set (K := DenseGainCache._k gc).
  pose proof (cf_k _ _ Hf) as HK.
  destruct (apply_moves_consistent moves p_graph
              (DenseGainCache.initialize p_graph gc) Hv
              (initialize_consistent _ _ Hv Hf) Hmoves)
    as (Hg & Hk & Hv' & [Hf' _ Hdeg]).
  fold st in Hg, Hk, Hv', Hf', Hdeg.
  assert (Hmoves' : Forall (fun m => fst m < graph_n (graph (with_k K p_graph))
                                     /\ snd m < p_k (with_k K p_graph)) moves).
  { eapply Forall_impl; [exact Hmoves|]. simpl. intros m [? ?]. split; lia. }
  destruct (apply_moves_consistent moves (with_k K p_graph)
              (DenseGainCache.initialize (with_k K p_graph) gc)
              (with_k_valid K _ Hv HK)
              (initialize_consistent _ _ (with_k_valid K _ Hv HK)
                                     (with_k_fits _ _ Hf)) Hmoves')
    as (_ & _ & _ & [_ Hconn _]).
  change (DenseGainCache.initialize (with_k K p_graph) gc)
    with (DenseGainCache.initialize p_graph gc) in Hconn.
  rewrite apply_moves_with_k in Hconn. fold st in Hconn.
  simpl in Hconn.
  unfold DenseGainCache.validate. apply (proj2 (forallb_seq _ _)).
  intros u Hu. apply (check_cached_gain_for_node_true _ _ u Hv' Hf'). split.
  - intros b Hb. apply Hconn; [done|].
    unfold st in Hb. by rewrite apply_moves_k, initialize_k in Hb.
  - by apply Hdeg.
Qed.

Lemma validate_accepts_maintained_cache_witness :
  let st := apply_moves [(1, 0); (2, 0)]
              (path4_partitioned,
               DenseGainCache.initialize path4_partitioned
                 (DenseGainCache.create 2 4 (fun i => Z.of_nat i + 17)%Z
                                        (fun _ => (-3)%Z))) in
  DenseGainCache.validate (fst st) (snd st) = true.
Proof.
  apply (validate_accepts_maintained_cache path4_partitioned _
           [(1, 0); (2, 0)] path4_valid path4_cache_fits).
  repeat constructor; simpl; lia.
Defined.

(** ** Gain caches: border nodes and gains, cached and on the fly *)

Lemma sumZ_counted_split {A} (c : A -> bool) (w : A -> Z) (l : list A) :
  sumZ (map w l)
  = (sumZ (map (fun e => counted (c e) (w e)) l)
     + sumZ (map (fun e => counted (negb (c e)) (w e)) l))%Z.
Proof.
  induction l as [|e l IH]; simpl; [reflexivity|].
  rewrite IH. unfold counted. destruct (c e); simpl; lia.
Qed.

Lemma sumZ_counted_positive {A} (c : A -> bool) (w : A -> Z) (l : list A) :
  (forall e, e ∈ l -> (0 < w e)%Z) ->
  (0 <= sumZ (map (fun e => counted (c e) (w e)) l))%Z
  /\ (sumZ (map (fun e => counted (c e) (w e)) l) = 0%Z
      <-> existsb c l = false).
Proof.
  induction l as [|e l IH]; intros Hpos; simpl; [done|].
  destruct IH as [Hnonneg Hzero].
  { intros e' He'. by apply Hpos, list_elem_of_further. }
  pose proof (Hpos e (list_elem_of_here _ _)) as He.
  unfold counted at 1 3. destruct (c e); simpl.
  - split; [lia|]. split; [lia | discriminate].
  - split; [lia|]. rewrite <- Hzero. split; lia.
Qed.

(** X3.  With positive edge weights and a consistent cache, the cached
    border test ([deg[u] != wdeg[u, b]]) agrees with the scan of the
    adjacency: it is [true] exactly when some neighbour of [u] lies outside
    block [b]. *)
Theorem is_border_node_agrees (p_graph : PartitionedGraph)
    (gc : DenseGainCache.t) (u : NodeID) (b : BlockID) :
  cache_consistent gc p_graph ->
  u < graph_n (graph p_graph) -> b < p_k p_graph ->
  (forall e, e ∈ neighbors (graph p_graph) u -> (0 < snd e)%Z) ->
  DenseGainCache.is_border_node gc u b
  = OnTheFlyGainCache.is_border_node_impl p_graph u b.
Proof.
  intros [_ Hconn Hdeg] Hu Hb Hpos.
  unfold DenseGainCache.is_border_node,
    OnTheFlyGainCache.is_border_node_impl.
  rewrite Hdeg, Hconn, conn_impl_sum by done. unfold weighted_degree.
  rewrite (sumZ_counted_split
             (fun e => Nat.eqb (block p_graph (fst e)) b) snd).
  destruct (sumZ_counted_positive
              (fun e => negb (Nat.eqb (block p_graph (fst e)) b)) snd
              (neighbors (graph p_graph) u) Hpos) as [Hnonneg Hzero].
  destruct (existsb _ (neighbors (graph p_graph) u)) eqn:Hex.
  - apply negb_true_iff, Z.eqb_neq. intros Heq.
    assert (Hz : sumZ (map (fun e =>
                   counted (negb (Nat.eqb (block p_graph (fst e)) b)) (snd e))
                   (neighbors (graph p_graph) u)) = 0%Z) by lia.
    apply Hzero in Hz. discriminate.
  - apply negb_false_iff, Z.eqb_eq.
    pose proof (proj2 Hzero eq_refl). lia.
Qed.

Lemma is_border_node_agrees_witness :
  DenseGainCache.is_border_node path4_cache 1 1
  = OnTheFlyGainCache.is_border_node_impl path4_partitioned 1 1.
Proof.
  apply is_border_node_agrees.
  - apply initialize_consistent; [apply path4_valid | apply path4_cache_fits].
  - vm_compute. lia.
  - vm_compute. lia.
  - intros e He.
    repeat (apply elem_of_cons in He as [->|He]; [vm_compute; reflexivity|]).
    by apply elem_of_nil in He.
Defined.

Lemma gain_fold (p_graph : PartitionedGraph) (from to : BlockID)
    (l : list (NodeID * EdgeWeight)) (c_from c_to : EdgeWeight) :
  fold_left (OnTheFlyGainCache.gain_edge p_graph from to) l (c_from, c_to)
  = ((c_from
      + sumZ (map (fun e => counted (Nat.eqb (block p_graph (fst e)) from)
                                    (snd e)) l))%Z,
     (c_to
      + sumZ (map (fun e =>
                     counted (negb (Nat.eqb (block p_graph (fst e)) from)
                              && Nat.eqb (block p_graph (fst e)) to)
                             (snd e)) l))%Z).
Proof.
  revert c_from c_to. induction l as [|e l IH]; intros c_from c_to; simpl.
  - f_equal; lia.
  - unfold OnTheFlyGainCache.gain_edge at 2. unfold counted at 1 3.
    destruct (Nat.eqb (block p_graph (fst e)) from),
             (Nat.eqb (block p_graph (fst e)) to); simpl;
      rewrite IH; f_equal; lia.
Qed.

(** The gain computed in one pass over the neighbours, in terms of the
    connections. *)
Lemma gain_impl_cases (p_graph : PartitionedGraph) (node : NodeID)
    (from to : BlockID) :
  OnTheFlyGainCache.gain_impl p_graph node from to
  = if Nat.eqb from to
    then (- OnTheFlyGainCache.conn_impl p_graph node from)%Z
    else (OnTheFlyGainCache.conn_impl p_graph node to
          - OnTheFlyGainCache.conn_impl p_graph node from)%Z.
Proof.
  unfold OnTheFlyGainCache.gain_impl. rewrite gain_fold, !conn_impl_sum.
  destruct (Nat.eqb_spec from to) as [->|Hne].
  - rewrite (sumZ_map_ext _ (fun _ => 0%Z)).
    + rewrite sumZ_map_zero. lia.
    + intros e _. unfold counted.
      by destruct (Nat.eqb (block p_graph (fst e)) to).
  - rewrite (sumZ_map_ext
               (fun e => counted (negb (Nat.eqb (block p_graph (fst e)) from)
                                  && Nat.eqb (block p_graph (fst e)) to)
                                 (snd e))
               (fun e => counted (Nat.eqb (block p_graph (fst e)) to)
                                 (snd e))).
    + lia.
    + intros e _. f_equal.
      destruct (Nat.eqb_spec (block p_graph (fst e)) from) as [Hf|Hf],
               (Nat.eqb_spec (block p_graph (fst e)) to) as [Ht|Ht];
        simpl; congruence.
Qed.

(** X4.  [gain_impl] is the difference of the two connections only for
    distinct blocks: the target block is tested in the [else] branch of the
    source block, so for [from = to] nothing is counted towards [conn_to]
    and the result is minus the connection to the block. *)
Theorem gain_impl_conn (p_graph : PartitionedGraph) (node : NodeID)
    (from to : BlockID) :
  (from <> to ->
   OnTheFlyGainCache.gain_impl p_graph node from to
   = (OnTheFlyGainCache.conn_impl p_graph node to
      - OnTheFlyGainCache.conn_impl p_graph node from)%Z)
  /\ OnTheFlyGainCache.gain_impl p_graph node from from
     = (- OnTheFlyGainCache.conn_impl p_graph node from)%Z.
Proof.
  split.
  - intros Hne. rewrite gain_impl_cases.
    by destruct (Nat.eqb_spec from to).
  - rewrite gain_impl_cases. by rewrite Nat.eqb_refl.
Qed.

(** X5.  For two distinct blocks of the graph a consistent dense cache and
    the on-the-fly computation report the same gain. *)
Theorem dense_gain_is_gain_impl (p_graph : PartitionedGraph)
    (gc : DenseGainCache.t) (u : NodeID) (from to : BlockID) :
  cache_consistent gc p_graph ->
  u < graph_n (graph p_graph) ->
  from < p_k p_graph -> to < p_k p_graph -> from <> to ->
  DenseGainCache.gain gc u from to
  = OnTheFlyGainCache.gain_impl p_graph u from to.
Proof.
  intros [_ Hconn _] Hu Hfrom Hto Hne.
  rewrite gain_impl_cases. unfold DenseGainCache.gain.
  rewrite !Hconn by done.
  by destruct (Nat.eqb_spec from to).
Qed.

Lemma dense_gain_is_gain_impl_witness :
  DenseGainCache.gain path4_cache 1 1 0
  = OnTheFlyGainCache.gain_impl path4_partitioned 1 1 0.
Proof.
  apply dense_gain_is_gain_impl.
  - apply initialize_consistent; [apply path4_valid | apply path4_cache_fits].
  - vm_compute. lia.
  - vm_compute. lia.
  - vm_compute. lia.
  - discriminate.
Defined.

(** ** Gain caches: undoing a move, and the delta overlay *)

Lemma list_eq_total (l1 l2 : list Z) :
  length l1 = length l2 ->
  (forall i, i < length l1 -> l1 !!! i = l2 !!! i) ->
  l1 = l2.
Proof.
  intros Hlen Hcells. apply list_eq. intros i.
  destruct (Nat.lt_ge_cases i (length l1)) as [Hi|Hi].
  - rewrite !list_lookup_lookup_total_lt by lia. f_equal. by apply Hcells.
  - rewrite !lookup_ge_None_2 by lia. reflexivity.
Qed.

Lemma dense_gain_cache_eq (gc1 gc2 : DenseGainCache.t) :
  DenseGainCache._k gc1 = DenseGainCache._k gc2 ->
  DenseGainCache._n gc1 = DenseGainCache._n gc2 ->
  DenseGainCache._gain_cache gc1 = DenseGainCache._gain_cache gc2 ->
  DenseGainCache._weighted_degrees gc1 = DenseGainCache._weighted_degrees gc2 ->
  gc1 = gc2.
Proof. destruct gc1, gc2. simpl. by intros -> -> -> ->. Qed.

(** X6.  Telling the cache the reverse move restores it: [move(u, b -> a)]
    after [move(u, a -> b)] leaves every cell and every degree as it was. *)
Theorem move_back_restores (p_graph : PartitionedGraph)
    (gc : DenseGainCache.t) (u : NodeID) (a b : BlockID) :
  valid_partitioned_graph p_graph -> cache_fits gc p_graph ->
  a < p_k p_graph -> b < p_k p_graph ->
  DenseGainCache.move p_graph u b a (DenseGainCache.move p_graph u a b gc)
  = gc.
Proof.
  intros Hv Hf Ha Hb.
  pose proof (cf_k _ _ Hf) as HK. pose proof (cf_n _ _ Hf) as HN.
  pose proof (cf_cache _ _ Hf) as HC.
  assert (Hix : forall c, c < p_k p_graph ->
            forall e, e ∈ neighbors (graph p_graph) u ->
              fst e * DenseGainCache._k gc + c
              < length (DenseGainCache._gain_cache gc)).
  { intros c Hc e He. rewrite HC.
    pose proof (vp_targets _ Hv _ _ He). apply index_in_range; lia. }
  unfold DenseGainCache.move.
  destruct (move_fold_fields a b (neighbors (graph p_graph) u) gc)
    as (Ek1 & En1 & Ec1 & Ed1).
  set (gc1 := fold_left (DenseGainCache.move_edge a b)
                        (neighbors (graph p_graph) u) gc) in *.
  destruct (move_fold_fields b a (neighbors (graph p_graph) u) gc1)
    as (Ek2 & En2 & Ec2 & Ed2).
  apply dense_gain_cache_eq; [congruence | congruence | | congruence].
  rewrite Ec2, Ec1, Ek1. apply list_eq_total.
  - by rewrite !transfer_length.
  - intros i _.
    rewrite (transfer_lookup
               (fun e => fst e * DenseGainCache._k gc + b)
               (fun e => fst e * DenseGainCache._k gc + a) snd).
    + rewrite (transfer_lookup
                 (fun e => fst e * DenseGainCache._k gc + a)
                 (fun e => fst e * DenseGainCache._k gc + b) snd).
      * lia.
      * intros e He. split; by apply Hix.
    + intros e He. rewrite transfer_length. split; by apply Hix.
Qed.

Lemma move_back_restores_witness :
  DenseGainCache.move path4_partitioned 1 0 1
    (DenseGainCache.move path4_partitioned 1 1 0 path4_cache)
  = path4_cache.
Proof.
  apply (move_back_restores path4_partitioned path4_cache 1 1 0
           path4_valid path4_cache_initialized_fits); vm_compute; lia.
Defined.

Lemma find_or_zero_insert (delta : gmap nat EdgeWeight) (i j : nat)
    (x : EdgeWeight) :
  DeltaGainCache.find_or_zero (<[i := x]> delta) j
  = if Nat.eqb i j then x else DeltaGainCache.find_or_zero delta j.
Proof.
  unfold DeltaGainCache.find_or_zero.
  destruct (Nat.eqb_spec i j) as [->|Hne].
  - by rewrite lookup_insert_eq.
  - by rewrite lookup_insert_ne.
Qed.

Lemma delta_fold_lookup (gc : DenseGainCache.t) (from to : BlockID)
    (l : list (NodeID * EdgeWeight)) (delta : gmap nat EdgeWeight) (j : nat) :
  DeltaGainCache.find_or_zero
    (fold_left (DeltaGainCache.move_edge gc from to) l delta) j
  = (DeltaGainCache.find_or_zero delta j
     + sumZ (map (fun e => counted (Nat.eqb (fst e * DenseGainCache._k gc + to)
                                            j) (snd e)) l)
     - sumZ (map (fun e => counted (Nat.eqb
                                      (fst e * DenseGainCache._k gc + from) j)
                                   (snd e)) l))%Z.
Proof.
  revert delta. induction l as [|e l IH]; intros delta; simpl; [lia|].
  rewrite IH. unfold DeltaGainCache.move_edge, DenseGainCache.index.
  rewrite !find_or_zero_insert. unfold counted.
  generalize (fst e * DenseGainCache._k gc + to) as i_to.
  generalize (fst e * DenseGainCache._k gc + from) as i_from.
  intros i_from i_to.
  destruct (Nat.eqb_spec i_to j), (Nat.eqb_spec i_from j),
           (Nat.eqb_spec i_from i_to); subst; try lia; congruence.
Qed.

Lemma delta_move_lookup (p_graph : PartitionedGraph) (d : DeltaGainCache.t)
    (node : NodeID) (from to : BlockID) (v : NodeID) (b : BlockID) :
  from < DenseGainCache._k (DeltaGainCache._gain_cache d) ->
  to < DenseGainCache._k (DeltaGainCache._gain_cache d) ->
  b < DenseGainCache._k (DeltaGainCache._gain_cache d) ->
  DeltaGainCache.find_or_zero
    (DeltaGainCache._gain_cache_delta
       (DeltaGainCache.move p_graph node from to d))
    (DenseGainCache.index (DeltaGainCache._gain_cache d) v b)
  = (DeltaGainCache.find_or_zero
       (DeltaGainCache._gain_cache_delta d)
       (DenseGainCache.index (DeltaGainCache._gain_cache d) v b)
     + counted (Nat.eqb to b) (edge_weight_between (graph p_graph) node v)
     - counted (Nat.eqb from b)
               (edge_weight_between (graph p_graph) node v))%Z.
Proof.
  intros Hfrom Hto Hb. unfold DeltaGainCache.move. simpl.
  rewrite delta_fold_lookup. unfold edge_weight_between, DenseGainCache.index.
  rewrite <- !sumZ_counted_and.
  f_equal; [f_equal|]; apply sumZ_map_ext; intros e _;
    rewrite index_eqb by lia; reflexivity.
Qed.

Lemma dense_moves_fits (p_graph : PartitionedGraph)
    (moves : list (NodeID * (BlockID * BlockID))) (gc : DenseGainCache.t) :
  cache_fits gc p_graph ->
  cache_fits (dense_moves p_graph moves gc) p_graph
  /\ DenseGainCache._k (dense_moves p_graph moves gc) = DenseGainCache._k gc.
Proof.
  revert gc. induction moves as [|m moves IH]; intros gc Hf; [done|].
  unfold dense_moves in *. simpl.
  destruct (IH (DenseGainCache.move p_graph (fst m) (fst (snd m))
                                    (snd (snd m)) gc)) as [Hf' Hk'].
  - by apply move_fits.
  - split; [done|]. by rewrite Hk', move_k.
Qed.

Lemma delta_moves_base (p_graph : PartitionedGraph)
    (moves : list (NodeID * (BlockID * BlockID))) (d : DeltaGainCache.t) :
  DeltaGainCache._gain_cache (delta_moves p_graph moves d)
  = DeltaGainCache._gain_cache d.
Proof.
  revert d. induction moves as [|m moves IH]; intros d; [done|].
  unfold delta_moves in *. simpl. by rewrite IH.
Qed.

(** The overlay holds, for every cell of the graph, the difference between
    the dense cache that was told the moves and the one that was not. *)
Lemma delta_moves_difference (p_graph : PartitionedGraph)
    (moves : list (NodeID * (BlockID * BlockID)))
    (gc' : DenseGainCache.t) (d : DeltaGainCache.t) :
  valid_partitioned_graph p_graph ->
  cache_fits gc' p_graph ->
  cache_fits (DeltaGainCache._gain_cache d) p_graph ->
  Forall (fun m => fst (snd m) < p_k p_graph /\ snd (snd m) < p_k p_graph)
         moves ->
  (forall v b, v < graph_n (graph p_graph) -> b < p_k p_graph ->
     DenseGainCache.weighted_degree_to gc' v b
     = (DenseGainCache.weighted_degree_to (DeltaGainCache._gain_cache d) v b
        + DeltaGainCache.find_or_zero
            (DeltaGainCache._gain_cache_delta d)
            (DenseGainCache.index (DeltaGainCache._gain_cache d) v b))%Z) ->
  forall v b, v < graph_n (graph p_graph) -> b < p_k p_graph ->
    DenseGainCache.weighted_degree_to (dense_moves p_graph moves gc') v b
    = (DenseGainCache.weighted_degree_to (DeltaGainCache._gain_cache d) v b
       + DeltaGainCache.find_or_zero
           (DeltaGainCache._gain_cache_delta (delta_moves p_graph moves d))
           (DenseGainCache.index (DeltaGainCache._gain_cache d) v b))%Z.
Proof.
  intros Hv. revert gc' d.
  induction moves as [|m moves IH]; intros gc' d Hf' Hfd Hmoves Hdiff;
    [exact Hdiff|].
  apply Forall_cons in Hmoves as [[Hfrom Hto] Hmoves].
  pose proof (cf_k _ _ Hfd) as HK.
  unfold dense_moves, delta_moves in *. simpl.
  intros v b Hvn Hb.
  rewrite (IH (DenseGainCache.move p_graph (fst m) (fst (snd m))
                                   (snd (snd m)) gc')
              (DeltaGainCache.move p_graph (fst m) (fst (snd m))
                                   (snd (snd m)) d)); try done.
  - by apply move_fits.
  - intros v' b' Hv' Hb'.
    change (DeltaGainCache._gain_cache
              (DeltaGainCache.move p_graph (fst m) (fst (snd m))
                                   (snd (snd m)) d))
      with (DeltaGainCache._gain_cache d).
    rewrite move_lookup, delta_move_lookup, Hdiff by (done || lia). lia.
Qed.

(** X7.  The delta gain cache answers as a dense cache that was told the
    same moves would, without touching the cache underneath; after
    [clear] it answers as the cache underneath. *)
Theorem delta_gain_cache_overlay (p_graph : PartitionedGraph)
    (gc : DenseGainCache.t) (moves : list (NodeID * (BlockID * BlockID)))
    (node : NodeID) (from to : BlockID) :
  valid_partitioned_graph p_graph ->
  cache_fits gc p_graph ->
  Forall (fun m => fst (snd m) < p_k p_graph /\ snd (snd m) < p_k p_graph)
         moves ->
  node < graph_n (graph p_graph) ->
  from < p_k p_graph -> to < p_k p_graph ->
  let d := delta_moves p_graph moves (DeltaGainCache.create gc) in
  DeltaGainCache._gain_cache d = gc
  /\ DeltaGainCache.gain d node from to
     = DenseGainCache.gain (dense_moves p_graph moves gc) node from to
  /\ DeltaGainCache.gain (DeltaGainCache.clear d) node from to
     = DenseGainCache.gain gc node from to.
Proof.
  intros Hv Hf Hmoves Hnode Hfrom Hto d.
  assert (Hbase : DeltaGainCache._gain_cache d = gc)
    by (unfold d; by rewrite delta_moves_base).
  split; [done|]. split.
  - assert (Hdiff := delta_moves_difference p_graph moves gc
                       (DeltaGainCache.create gc) Hv Hf Hf Hmoves).
    simpl in Hdiff. fold d in Hdiff.
    unfold DeltaGainCache.gain, DenseGainCache.gain. rewrite Hbase.
    rewrite !Hdiff; try done; try lia.
    all: intros v b _ _; unfold DeltaGainCache.find_or_zero;
      rewrite lookup_empty; lia.
  - unfold DeltaGainCache.gain, DeltaGainCache.clear,
      DeltaGainCache.find_or_zero. simpl.
    rewrite !lookup_empty, Hbase. lia.
Qed.

Lemma delta_gain_cache_overlay_witness :
  let d := delta_moves path4_partitioned [(1, (1, 0)); (2, (1, 0))]
                       (DeltaGainCache.create path4_cache) in
  DeltaGainCache._gain_cache d = path4_cache
  /\ DeltaGainCache.gain d 3 0 1
     = DenseGainCache.gain
         (dense_moves path4_partitioned [(1, (1, 0)); (2, (1, 0))]
                      path4_cache) 3 0 1
  /\ DeltaGainCache.gain (DeltaGainCache.clear d) 3 0 1
     = DenseGainCache.gain path4_cache 3 0 1.
Proof.
  apply (delta_gain_cache_overlay path4_partitioned path4_cache
           [(1, (1, 0)); (2, (1, 0))] 3 0 1
           path4_valid path4_cache_initialized_fits).
  - repeat constructor; simpl; lia.
  - vm_compute. lia.
  - vm_compute. lia.
  - vm_compute. lia.
Defined.

(** ** JET refiner: the filter and the gain *)

Lemma filter_fold_quiet (pe : JetRefiner.LocalView) (u : NodeID)
    (gain_u : EdgeWeight) (from_u to_u : BlockID)
    (l : list (NodeID * EdgeWeight)) (acc : EdgeWeight) :
  from_u <> to_u ->
  (forall e, e ∈ l ->
     snd (JetRefiner._gains_and_targets pe !!! fst e)
     = block (JetRefiner.lv_graph pe) (fst e)) ->
  fold_left (JetRefiner.filter_edge pe u gain_u from_u to_u) l acc
  = (acc
     + sumZ (map (fun e => counted (Nat.eqb (block (JetRefiner.lv_graph pe)
                                                   (fst e)) to_u) (snd e)) l)
     - sumZ (map (fun e => counted (Nat.eqb (block (JetRefiner.lv_graph pe)
                                                   (fst e)) from_u) (snd e))
                 l))%Z.
Proof.
  intros Hne. revert acc.
  induction l as [|e l IH]; intros acc Hquiet; simpl; [lia|].
  rewrite IH by (intros e' He'; by apply Hquiet, list_elem_of_further).
  pose proof (Hquiet e (list_elem_of_here _ _)) as He.
  unfold JetRefiner.filter_edge, JetRefiner.projected_block.
  destruct (JetRefiner._gains_and_targets pe !!! fst e) as [gain_v to_v].
  simpl in He. subst to_v.
  assert (Hproj : (if JetRefiner.treats_as_moved gain_u u gain_v (fst e)
                   then block (JetRefiner.lv_graph pe) (fst e)
                   else block (JetRefiner.lv_graph pe) (fst e))
                  = block (JetRefiner.lv_graph pe) (fst e))
    by (by destruct (JetRefiner.treats_as_moved gain_u u gain_v (fst e))).
  rewrite Hproj. unfold counted.
  destruct (Nat.eqb_spec (block (JetRefiner.lv_graph pe) (fst e)) to_u),
           (Nat.eqb_spec (block (JetRefiner.lv_graph pe) (fst e)) from_u);
    try lia; congruence.
Qed.

(** X8.  When no neighbour of a candidate [u] is itself a candidate, the
    projected gain of the filter is the gain of the move computed from the
    adjacency, and the move is kept exactly when that gain is not
    negative. *)
Theorem filter_node_without_competing_moves (pe : JetRefiner.LocalView)
    (u : NodeID) :
  block (JetRefiner.lv_graph pe) u
  <> snd (JetRefiner._gains_and_targets pe !!! u) ->
  (forall e, e ∈ neighbors (graph (JetRefiner.lv_graph pe)) u ->
     snd (JetRefiner._gains_and_targets pe !!! fst e)
     = block (JetRefiner.lv_graph pe) (fst e)) ->
  JetRefiner.filter_node pe u
  = (0 <=? OnTheFlyGainCache.gain_impl
             (JetRefiner.lv_graph pe) u
             (block (JetRefiner.lv_graph pe) u)
             (snd (JetRefiner._gains_and_targets pe !!! u)))%Z.
Proof.
  intros Hne Hquiet. unfold JetRefiner.filter_node.
  destruct (JetRefiner._gains_and_targets pe !!! u) as [gain_u to_u].
  simpl in Hne |- *.
  destruct (Nat.eqb_spec (block (JetRefiner.lv_graph pe) u) to_u);
    [done|].
  rewrite filter_fold_quiet by done.
  rewrite gain_impl_cases, !conn_impl_sum.
  destruct (Nat.eqb_spec (block (JetRefiner.lv_graph pe) u) to_u); [done|].
  f_equal.
Qed.

(** Node 1 of the path proposes to move to block 0 and nobody else moves. *)
Lemma filter_node_without_competing_moves_witness :
  JetRefiner.filter_node
    (JetRefiner.mkView path4_partitioned
                       [(0%Z, 0); (1%Z, 0); (0%Z, 1); (0%Z, 0)]) 1
  = (0 <=? OnTheFlyGainCache.gain_impl path4_partitioned 1 1 0)%Z.
Proof.
  apply (filter_node_without_competing_moves
           (JetRefiner.mkView path4_partitioned
                              [(0%Z, 0); (1%Z, 0); (0%Z, 1); (0%Z, 0)]) 1).
  - vm_compute. discriminate.
  - intros e He.
    repeat (apply elem_of_cons in He as [->|He]; [vm_compute; reflexivity|]).
    by apply elem_of_nil in He.
Defined.

(** ** JET refiner: locks, moves and block weights *)

Lemma write_range_length {A} (f : nat -> A) (first count : nat) (a : list A) :
  length (JetPass.write_range f first count a) = length a.
Proof.
  unfold JetPass.write_range. revert first a.
  induction count as [|count IH]; intros first a; simpl; [done|].
  by rewrite IH, length_insert.
Qed.

Lemma write_range_lookup {A} `{Inhabited A} (f : nat -> A)
    (first count : nat) (a : list A) (i : nat) :
  i < length a ->
  JetPass.write_range f first count a !!! i
  = if in_node_range first count i then f i else a !!! i.
Proof.
  unfold JetPass.write_range. revert first a.
  induction count as [|count IH]; intros first a Hi; simpl.
  - by rewrite in_node_range_empty.
  - rewrite IH by (by rewrite length_insert).
    rewrite in_node_range_step.
    destruct (Nat.eqb_spec first i) as [->|Hne]; simpl.
    + replace (in_node_range (S i) count i) with false.
      * by rewrite list_lookup_total_insert_eq.
      * unfold in_node_range. destruct (Nat.leb_spec (S i) i); [lia|done].
    + rewrite list_lookup_total_insert_ne by done. reflexivity.
Qed.

Lemma in_node_range_below (first count i : nat) :
  i < first -> in_node_range first count i = false.
Proof.
  intros Hi. unfold in_node_range. destruct (Nat.leb_spec first i); [lia|done].
Qed.

Lemma store_messages_lookup (recv_buffer : list JetPass.Message)
    (a : list (EdgeWeight * BlockID)) (u : NodeID) :
  Forall (fun m => u < JetPass.msg_node m) recv_buffer ->
  fold_left (fun a m => <[JetPass.msg_node m :=
                            (JetPass.msg_gain m, JetPass.msg_target m)]> a)
            recv_buffer a !!! u
  = a !!! u.
Proof.
  revert a. induction recv_buffer as [|m recv IH]; intros a Hrecv; simpl;
    [done|].
  apply Forall_cons in Hrecv as [Hm Hrecv].
  rewrite IH by done. apply list_lookup_total_insert_ne. lia.
Qed.

Lemma move_locked_node_frame (st : JetPass.t) (u : NodeID) :
  let st' := JetPass.move_locked_node st u in
  JetPass._locked st' = JetPass._locked st
  /\ JetPass._gains_and_targets st' = JetPass._gains_and_targets st
  /\ JetPass.n st' = JetPass.n st
  /\ JetPass.k st' = JetPass.k st
  /\ JetPass.total_n st' = JetPass.total_n st
  /\ MoveSetBuilder.node_weights (JetPass._p_graph st')
     = MoveSetBuilder.node_weights (JetPass._p_graph st)
  /\ MoveSetBuilder.block_weights (JetPass._p_graph st')
     = MoveSetBuilder.block_weights (JetPass._p_graph st).
Proof.
  unfold JetPass.move_locked_node.
  destruct (JetPass._locked st !!! u : bool); [|done].
  repeat split; try reflexivity.
  unfold JetPass.total_n. simpl. apply length_insert.
Qed.

Lemma move_locked_node_block (st : JetPass.t) (u v : NodeID) :
  u < JetPass.total_n st ->
  JetPass.block_of (JetPass.move_locked_node st u) v
  = if Nat.eqb u v && (JetPass._locked st !!! u : bool)
    then snd (JetPass._gains_and_targets st !!! u)
    else JetPass.block_of st v.
Proof.
  intros Hu. unfold JetPass.move_locked_node.
  destruct (JetPass._locked st !!! u : bool).
  - unfold JetPass.block_of. simpl. rewrite block_set_block by done.
    by rewrite andb_true_r.
  - by rewrite andb_false_r.
Qed.

Lemma move_locked_range_frame (st : JetPass.t) (nodes : list NodeID) :
  let st' := fold_left JetPass.move_locked_node nodes st in
  JetPass._locked st' = JetPass._locked st
  /\ JetPass._gains_and_targets st' = JetPass._gains_and_targets st
  /\ JetPass.n st' = JetPass.n st
  /\ JetPass.k st' = JetPass.k st
  /\ JetPass.total_n st' = JetPass.total_n st
  /\ MoveSetBuilder.node_weights (JetPass._p_graph st')
     = MoveSetBuilder.node_weights (JetPass._p_graph st)
  /\ MoveSetBuilder.block_weights (JetPass._p_graph st')
     = MoveSetBuilder.block_weights (JetPass._p_graph st).
Proof.
  revert st. induction nodes as [|u nodes IH]; intros st; simpl; [done|].
  destruct (IH (JetPass.move_locked_node st u))
    as (H1 & H2 & H3 & H4 & H5 & H6 & H7).
  destruct (move_locked_node_frame st u)
    as (G1 & G2 & G3 & G4 & G5 & G6 & G7).
  repeat split; congruence.
Qed.

Lemma move_locked_range_block (st : JetPass.t) (first count : nat)
    (v : NodeID) :
  first + count <= JetPass.total_n st ->
  JetPass.block_of
    (fold_left JetPass.move_locked_node (seq first count) st) v
  = if in_node_range first count v && (JetPass._locked st !!! v : bool)
    then snd (JetPass._gains_and_targets st !!! v)
    else JetPass.block_of st v.
Proof.
  revert first st.
  induction count as [|count IH]; intros first st Hrange; simpl.
  - by rewrite in_node_range_empty.
  - destruct (move_locked_node_frame st first)
      as (G1 & G2 & _ & _ & G5 & _).
    rewrite IH by lia. rewrite G1, G2.
    rewrite move_locked_node_block by lia.
    rewrite in_node_range_step.
    destruct (Nat.eqb_spec first v) as [->|Hne]; simpl; [|done].
    replace (in_node_range (S v) count v) with false; [simpl|].
    + by destruct (JetPass._locked st !!! v : bool).
    + symmetry. apply in_node_range_below. lia.
Qed.

(** The block of a node after [move_locked_nodes]. *)
Lemma move_locked_nodes_block_of (st : JetPass.t) (v : NodeID) :
  JetPass.n st <= JetPass.total_n st ->
  JetPass.block_of (JetPass.move_locked_nodes st) v
  = if (v <? JetPass.n st) && (JetPass._locked st !!! v : bool)
    then snd (JetPass._gains_and_targets st !!! v)
    else JetPass.block_of st v.
Proof.
  intros Hn. unfold JetPass.move_locked_nodes.
  rewrite move_locked_range_block by lia.
  unfold in_node_range. simpl. reflexivity.
Qed.

(** X9.  [move_locked_nodes] moves exactly the locked owned nodes, each to
    its recorded target; every other node, ghost nodes included, keeps its
    block. *)
Theorem move_locked_nodes_blocks (st : JetPass.t) (v : NodeID) :
  JetPass.n st <= JetPass.total_n st ->
  let st' := JetPass.move_locked_nodes st in
  (v < JetPass.n st -> JetPass._locked st !!! v = true ->
   JetPass.block_of st' v = snd (JetPass._gains_and_targets st !!! v))
  /\ (v < JetPass.n st -> JetPass._locked st !!! v = false ->
      JetPass.block_of st' v = JetPass.block_of st v)
  /\ (JetPass.n st <= v -> JetPass.block_of st' v = JetPass.block_of st v).
Proof.
  intros Hn st'. unfold st'. rewrite move_locked_nodes_block_of by done.
  split; [|split].
  - intros Hv ->. by destruct (Nat.ltb_spec v (JetPass.n st)); [|lia].
  - intros _ ->. by rewrite andb_false_r.
  - intros Hv. by destruct (Nat.ltb_spec v (JetPass.n st)); [lia|].
Qed.

Lemma move_locked_nodes_blocks_witness :
  let st' := JetPass.move_locked_nodes pe0_pass in
  (1 < JetPass.n pe0_pass -> JetPass._locked pe0_pass !!! 1 = true ->
   JetPass.block_of st' 1 = snd (JetPass._gains_and_targets pe0_pass !!! 1))
  /\ (1 < JetPass.n pe0_pass -> JetPass._locked pe0_pass !!! 1 = false ->
      JetPass.block_of st' 1 = JetPass.block_of pe0_pass 1)
  /\ (JetPass.n pe0_pass <= 1 ->
      JetPass.block_of st' 1 = JetPass.block_of pe0_pass 1).
Proof. apply (move_locked_nodes_blocks pe0_pass 1). vm_compute. lia. Defined.

(** X10.  A node that is locked when a pass starts, that is, one that the
    previous pass moved, is no candidate in this pass: [find_moves] stores
    "stays" for it, whatever the ghost exchange delivers the filter clears
    its lock, and [move_locked_nodes] leaves it in its block. *)
Theorem locked_node_rests_one_pass
    (compute_max_gainer : NodeID -> JetPass.MaxGainer)
    (recv_buffer : list JetPass.Message) (st : JetPass.t) (u : NodeID) :
  u < JetPass.n st -> JetPass.n st <= JetPass.total_n st ->
  u < length (JetPass._gains_and_targets st) ->
  u < length (JetPass._locked st) ->
  JetPass._locked st !!! u = true ->
  Forall (fun m => JetPass.n st <= JetPass.msg_node m) recv_buffer ->
  let st1 :=
    JetPass.filter_bad_moves
      (JetPass.synchronize_ghost_node_move_candidates
         recv_buffer (JetPass.find_moves compute_max_gainer st)) in
  JetPass._locked st1 !!! u = false
  /\ JetPass.block_of (JetPass.move_locked_nodes st1) u
     = JetPass.block_of st u.
Proof.
  intros Hu Hn Hgt Hlocked Hlock Hrecv st1.
  assert (Hentry : JetPass._gains_and_targets st1 !!! u
                   = (0%Z, JetPass.block_of st u)).
  { unfold st1. simpl. rewrite store_messages_lookup.
    - rewrite write_range_lookup by (by rewrite write_range_length).
      rewrite in_node_range_below by done.
      rewrite write_range_lookup by done.
      rewrite in_node_range_all by done.
      unfold JetPass.find_move. by rewrite Hlock.
    - eapply Forall_impl; [exact Hrecv|]. simpl. intros m Hm.
      change (JetPass.n (JetPass.find_moves compute_max_gainer st))
        with (JetPass.n st). lia. }
  assert (Hfalse : JetPass._locked st1 !!! u = false).
  { unfold st1. simpl. rewrite write_range_lookup by done.
    change (JetPass.n (JetPass.synchronize_ghost_node_move_candidates
                         recv_buffer
                         (JetPass.find_moves compute_max_gainer st)))
      with (JetPass.n st).
    rewrite in_node_range_all by done.
    unfold JetRefiner.filter_node.
    change (JetRefiner._gains_and_targets
              (JetPass.view
                 (JetPass.synchronize_ghost_node_move_candidates
                    recv_buffer
                    (JetPass.find_moves compute_max_gainer st))))
      with (JetPass._gains_and_targets st1).
    rewrite Hentry.
    change (block (JetRefiner.lv_graph
                     (JetPass.view
                        (JetPass.synchronize_ghost_node_move_candidates
                           recv_buffer
                           (JetPass.find_moves compute_max_gainer st)))) u)
      with (JetPass.block_of st u).
    by rewrite Nat.eqb_refl. }
  split; [done|].
  rewrite move_locked_nodes_block_of by done.
  rewrite Hfalse, andb_false_r. reflexivity.
Qed.

Lemma locked_node_rests_one_pass_witness :
  let st1 :=
    JetPass.filter_bad_moves
      (JetPass.synchronize_ghost_node_move_candidates
         [JetPass.mkMessage 2 1%Z 0]
         (JetPass.find_moves (fun _ => JetPass.mkMaxGainer 0 0%Z 1%Z)
                             pe0_pass)) in
  JetPass._locked st1 !!! 1 = false
  /\ JetPass.block_of (JetPass.move_locked_nodes st1) 1
     = JetPass.block_of pe0_pass 1.
Proof.
  apply (locked_node_rests_one_pass
           (fun _ => JetPass.mkMaxGainer 0 0%Z 1%Z)
           [JetPass.mkMessage 2 1%Z 0] pe0_pass 1);
    try (vm_compute; lia); try reflexivity.
  apply Forall_singleton. vm_compute. lia.
Defined.

Lemma sumZ_point_update (f h : nat -> Z) (u count : nat) :
  (forall v, v <> u -> f v = h v) ->
  sumZ (map f (seq 0 count))
  = (sumZ (map h (seq 0 count)) + counted (Nat.ltb u count) (f u - h u))%Z.
Proof.
  intros Hfh. induction count as [|count IH]; [reflexivity|].
  rewrite seq_S, !map_app, !sumZ_app, IH. simpl. unfold counted.
  destruct (Nat.ltb_spec u count), (Nat.ltb_spec u (S count)); try lia.
  - rewrite (Hfh count) by lia. lia.
  - assert (u = count) as -> by lia. lia.
  - rewrite (Hfh count) by lia. lia.
Qed.

Lemma move_locked_node_deltas (st : JetPass.t) (u : NodeID) :
  JetPass._block_weight_deltas (JetPass.move_locked_node st u)
  = if (JetPass._locked st !!! u : bool)
    then atomic_fetch_add
           (atomic_fetch_sub (JetPass._block_weight_deltas st)
                             (JetPass.block_of st u)
                             (MoveSetBuilder.node_weight
                                (JetPass._p_graph st) u))
           (snd (JetPass._gains_and_targets st !!! u))
           (MoveSetBuilder.node_weight (JetPass._p_graph st) u)
    else JetPass._block_weight_deltas st.
Proof.
  unfold JetPass.move_locked_node.
  by destruct (JetPass._locked st !!! u : bool).
Qed.

(** One iteration of [move_locked_nodes] keeps, for every block, the
    difference between the pending delta and the weight of the owned nodes
    in the block. *)
Lemma move_locked_node_account (st : JetPass.t) (u : NodeID) :
  moves_in_range st -> u < JetPass.n st ->
  let st' := JetPass.move_locked_node st u in
  moves_in_range st'
  /\ forall b, b < JetPass.k st ->
       (JetPass._block_weight_deltas st' !!! b - owned_block_weight st' b
        = JetPass._block_weight_deltas st !!! b - owned_block_weight st b)%Z.
Proof.
  intros [Hpart Hdeltas Hblocks Htargets] Hu st'.
  destruct (move_locked_node_frame st u) as (G1 & G2 & G3 & G4 & G5 & G6 & _).
  fold st' in G1, G2, G3, G4, G5, G6.
  assert (Hblock : forall v,
            JetPass.block_of st' v
            = if Nat.eqb u v && (JetPass._locked st !!! u : bool)
              then snd (JetPass._gains_and_targets st !!! u)
              else JetPass.block_of st v)
    by (intros v; apply move_locked_node_block; lia).
  split.
  - split.
    + lia.
    + rewrite G4. subst st'. rewrite move_locked_node_deltas.
      destruct (JetPass._locked st !!! u : bool); [|done].
      by rewrite atomic_fetch_add_length, atomic_fetch_sub_length.
    + intros v Hv. rewrite G3 in Hv. rewrite G4, Hblock.
      destruct (Nat.eqb_spec u v) as [->|Hne]; simpl; [|by apply Hblocks].
      destruct (JetPass._locked st !!! v : bool) eqn:Hlock;
        [by apply Htargets | by apply Hblocks].
    + intros v Hv Hlock. rewrite G3 in Hv. rewrite G1 in Hlock.
      rewrite G2, G4. by apply Htargets.
  - intros b Hb. unfold owned_block_weight. rewrite G3.
    unfold MoveSetBuilder.node_weight. rewrite G6.
    rewrite (sumZ_point_update
               (fun v => counted (Nat.eqb (JetPass.block_of st' v) b)
                                 (MoveSetBuilder.node_weights
                                    (JetPass._p_graph st) !!! v))
               (fun v => counted (Nat.eqb (JetPass.block_of st v) b)
                                 (MoveSetBuilder.node_weights
                                    (JetPass._p_graph st) !!! v))
               u).
    2:{ intros v Hv. rewrite Hblock.
        destruct (Nat.eqb_spec u v); [congruence | reflexivity]. }
    apply Nat.ltb_lt in Hu as Hu'. rewrite Hu'. unfold counted at 2.
    rewrite Hblock, Nat.eqb_refl. subst st'.
    rewrite move_locked_node_deltas.
    destruct (JetPass._locked st !!! u : bool) eqn:Hlock;
      cbn [andb]; [|lia].
    pose proof (Hblocks u Hu) as Hfrom.
    pose proof (Htargets u Hu Hlock) as Hto.
    rewrite atomic_fetch_add_lookup
      by (rewrite atomic_fetch_sub_length; lia).
    rewrite atomic_fetch_sub_lookup by lia.
    unfold MoveSetBuilder.node_weight, counted.
    destruct (Nat.eqb_spec (snd (JetPass._gains_and_targets st !!! u)) b),
             (Nat.eqb_spec (JetPass.block_of st u) b); lia.
Qed.

Lemma move_locked_range_account (st : JetPass.t) (nodes : list NodeID) :
  moves_in_range st -> Forall (fun u => u < JetPass.n st) nodes ->
  let st' := fold_left JetPass.move_locked_node nodes st in
  moves_in_range st'
  /\ forall b, b < JetPass.k st ->
       (JetPass._block_weight_deltas st' !!! b - owned_block_weight st' b
        = JetPass._block_weight_deltas st !!! b - owned_block_weight st b)%Z.
Proof.
  revert st. induction nodes as [|u nodes IH]; intros st Hin Hnodes; simpl.
  - split; [done|]. intros b Hb. lia.
  - apply Forall_cons in Hnodes as [Hu Hnodes].
    destruct (move_locked_node_account st u Hin Hu) as [Hin' Hacc].
    destruct (move_locked_node_frame st u) as (_ & _ & G3 & G4 & _).
    destruct (IH (JetPass.move_locked_node st u) Hin') as [Hin'' Hacc'].
    { eapply Forall_impl; [exact Hnodes|]. simpl. intros v Hv.
      by rewrite G3. }
    split; [done|]. intros b Hb.
    rewrite Hacc' by (by rewrite G4). by apply Hacc.
Qed.

(** X11.  The deltas that [move_locked_nodes] accumulates are the changes
    of the block weights: for every block, the delta grows by the weight of
    the owned nodes that entered the block less the weight of those that
    left it. *)
Theorem move_locked_nodes_deltas (st : JetPass.t) (b : BlockID) :
  moves_in_range st -> b < JetPass.k st ->
  let st' := JetPass.move_locked_nodes st in
  JetPass._block_weight_deltas st' !!! b
  = (JetPass._block_weight_deltas st !!! b
     + owned_block_weight st' b - owned_block_weight st b)%Z.
Proof.
  intros Hin Hb st'.
  destruct (move_locked_range_account st (seq 0 (JetPass.n st)) Hin)
    as [_ Hacc].
  - apply Forall_forall. intros u Hu.
    apply list_elem_of_In, in_seq in Hu. lia.
  - specialize (Hacc b Hb). fold (JetPass.move_locked_nodes st) in Hacc.
    fold st' in Hacc. lia.
Qed.

Lemma pe0_pass_in_range : moves_in_range pe0_pass.
Proof.
  split.
  - vm_compute. lia.
  - reflexivity.
  - intros u Hu. do 2 (destruct u as [|u]; [vm_compute; lia|]).
    vm_compute in Hu. lia.
  - intros u Hu _. do 2 (destruct u as [|u]; [vm_compute; lia|]).
    vm_compute in Hu. lia.
Qed.

Lemma pe1_pass_in_range : moves_in_range pe1_pass.
Proof.
  split.
  - vm_compute. lia.
  - reflexivity.
  - intros u Hu. do 2 (destruct u as [|u]; [vm_compute; lia|]).
    vm_compute in Hu. lia.
  - intros u Hu _. do 2 (destruct u as [|u]; [vm_compute; lia|]).
    vm_compute in Hu. lia.
Qed.

Lemma move_locked_nodes_deltas_witness :
  let st' := JetPass.move_locked_nodes pe0_pass in
  JetPass._block_weight_deltas st' !!! 0
  = (JetPass._block_weight_deltas pe0_pass !!! 0%nat
     + owned_block_weight st' 0 - owned_block_weight pe0_pass 0)%Z.
Proof.
  apply (move_locked_nodes_deltas pe0_pass 0 pe0_pass_in_range).
  vm_compute. lia.
Defined.

Lemma owned_block_weight_ext (st1 st2 : JetPass.t) (b : BlockID) :
  MoveSetBuilder.p_graph (JetPass._p_graph st1)
  = MoveSetBuilder.p_graph (JetPass._p_graph st2) ->
  MoveSetBuilder.node_weights (JetPass._p_graph st1)
  = MoveSetBuilder.node_weights (JetPass._p_graph st2) ->
  owned_block_weight st1 b = owned_block_weight st2 b.
Proof.
  intros Hp Hw.
  unfold owned_block_weight, JetPass.n, JetPass.block_of,
    MoveSetBuilder.dist_n, MoveSetBuilder.node_weight.
  by rewrite Hp, Hw.
Qed.

Lemma apply_block_weight_range (st : JetPass.t) (first count : nat) :
  let st' :=
    fold_left JetPass.apply_block_weight_delta (seq first count) st in
  MoveSetBuilder.p_graph (JetPass._p_graph st')
  = MoveSetBuilder.p_graph (JetPass._p_graph st)
  /\ MoveSetBuilder.node_weights (JetPass._p_graph st')
     = MoveSetBuilder.node_weights (JetPass._p_graph st)
  /\ (forall b,
        b < length (MoveSetBuilder.block_weights (JetPass._p_graph st)) ->
        b < length (JetPass._block_weight_deltas st) ->
        MoveSetBuilder.block_weight (JetPass._p_graph st') b
        = (if in_node_range first count b
           then (MoveSetBuilder.block_weight (JetPass._p_graph st) b
                 + JetPass._block_weight_deltas st !!! b)%Z
           else MoveSetBuilder.block_weight (JetPass._p_graph st) b)
        /\ JetPass._block_weight_deltas st' !!! b
           = if in_node_range first count b then 0%Z
             else JetPass._block_weight_deltas st !!! b).
Proof.
  revert first st.
  induction count as [|count IH]; intros first st; simpl.
  - repeat split; try done; by rewrite in_node_range_empty.
  - destruct (IH (S first) (JetPass.apply_block_weight_delta st first))
      as (Hp & Hw & Hcells).
    split; [by rewrite Hp|]. split; [by rewrite Hw|].
    intros b Hbw Hbd.
    destruct (Hcells b) as [Hweight Hdelta].
    { unfold JetPass.apply_block_weight_delta, JetPass.set_block_weight.
      cbn [JetPass._p_graph MoveSetBuilder.block_weights].
      by rewrite length_insert. }
    { unfold JetPass.apply_block_weight_delta.
      cbn [JetPass._block_weight_deltas]. by rewrite length_insert. }
    rewrite Hweight, Hdelta, in_node_range_step.
    unfold JetPass.apply_block_weight_delta, JetPass.set_block_weight,
      MoveSetBuilder.block_weight.
    cbn [JetPass._p_graph JetPass._block_weight_deltas
         MoveSetBuilder.block_weights].
    destruct (Nat.eqb_spec first b) as [->|Hne]; cbn [orb].
    + rewrite in_node_range_below by lia.
      by rewrite !list_lookup_total_insert_eq.
    + rewrite !list_lookup_total_insert_ne by done.
      by destruct (in_node_range (S first) count b).
Qed.

Lemma sumZ_map_sub {A} (f h : A -> Z) (l : list A) :
  sumZ (map (fun x => (f x - h x)%Z) l)
  = (sumZ (map f l) - sumZ (map h l))%Z.
Proof. induction l as [|x l IH]; simpl; [reflexivity | rewrite IH; lia]. Qed.

Lemma apply_block_weight_local (st : JetPass.t) :
  let st' :=
    fold_left JetPass.apply_block_weight_delta (seq 0 (JetPass.k st)) st in
  JetPass.k st' = JetPass.k st
  /\ (forall b, owned_block_weight st' b = owned_block_weight st b)
  /\ (forall b,
        b < JetPass.k st ->
        b < length (MoveSetBuilder.block_weights (JetPass._p_graph st)) ->
        b < length (JetPass._block_weight_deltas st) ->
        MoveSetBuilder.block_weight (JetPass._p_graph st') b
        = (MoveSetBuilder.block_weight (JetPass._p_graph st) b
           + JetPass._block_weight_deltas st !!! b)%Z
        /\ JetPass._block_weight_deltas st' !!! b = 0%Z).
Proof.
  intros st'.
  destruct (apply_block_weight_range st 0 (JetPass.k st))
    as (Hp & Hw & Hcells).
  fold st' in Hp, Hw, Hcells.
  split; [unfold JetPass.k; by rewrite Hp|].
  split; [intros b; by apply owned_block_weight_ext|].
  intros b Hb Hbw Hbd. destruct (Hcells b Hbw Hbd) as [Hweight Hzero].
  by rewrite in_node_range_all in Hweight, Hzero.
Qed.

(** X12.  Block weights stay exact across the PEs.  If every PE holds the
    global weight of every block and no pending delta, then after all PEs
    ran [move_locked_nodes] and [apply_block_weight_deltas] (all-reduce of
    the deltas, then the local update) every PE again holds the global
    weight of every block, now of the new partition, and all deltas are
    zero. *)
Theorem block_weights_stay_exact (pes : list JetPass.t) (K : BlockID) :
  Forall moves_in_range pes ->
  Forall (fun pe =>
            JetPass.k pe = K
            /\ length (MoveSetBuilder.block_weights (JetPass._p_graph pe))
               = K) pes ->
  Forall (block_weights_exact pes) pes ->
  let pes' :=
    JetPass.apply_block_weight_deltas (map JetPass.move_locked_nodes pes) in
  Forall (block_weights_exact pes') pes'.
Proof.
  intros Hin HK Hexact pes'.
  rewrite Forall_forall in Hin, HK, Hexact.
  set (moved := map JetPass.move_locked_nodes pes) in *.
  (* the deltas of a PE after its moves *)
  assert (Hdelta : forall pe b, pe ∈ pes -> b < K ->
            JetPass._block_weight_deltas (JetPass.move_locked_nodes pe) !!! b
            = (owned_block_weight (JetPass.move_locked_nodes pe) b
               - owned_block_weight pe b)%Z).
  { intros pe b Hpe Hb. destruct (HK pe Hpe) as [Hk _].
    destruct (move_locked_range_account pe (seq 0 (JetPass.n pe))
                (Hin pe Hpe)) as [_ Hacc].
    { apply Forall_forall. intros u Hu.
      apply list_elem_of_In, in_seq in Hu. lia. }
    specialize (Hacc b ltac:(lia)).
    fold (JetPass.move_locked_nodes pe) in Hacc.
    destruct (Hexact pe Hpe b) as [_ Hzero]; [lia|]. lia. }
  (* the all-reduced deltas *)
  assert (Hreduced : forall b, b < K ->
            sumZ (map (fun q => JetPass._block_weight_deltas q !!! b) moved)
            = (global_block_weight moved b - global_block_weight pes b)%Z).
  { intros b Hb. unfold global_block_weight, moved. rewrite !map_map.
    rewrite <- sumZ_map_sub. apply sumZ_map_ext.
    intros pe Hpe. by apply Hdelta. }
  (* the partition is that of the PEs after their moves *)
  assert (Hglobal : forall b, global_block_weight pes' b
                              = global_block_weight moved b).
  { intros b. unfold global_block_weight, pes',
      JetPass.apply_block_weight_deltas, JetPass.allreduce_sum.
    rewrite !map_map. apply sumZ_map_ext. intros m _.
    destruct (apply_block_weight_local (JetPass.receive_sum moved m))
      as (_ & Howned & _).
    change (JetPass.k m) with (JetPass.k (JetPass.receive_sum moved m)).
    rewrite Howned. by apply owned_block_weight_ext. }
  apply Forall_forall. intros pe' Hpe'.
  unfold pes', JetPass.apply_block_weight_deltas, JetPass.allreduce_sum
    in Hpe'.
  rewrite map_map in Hpe'.
  apply list_elem_of_In, in_map_iff in Hpe' as (m & <- & Hm).
  unfold moved in Hm. apply in_map_iff in Hm as (pe & <- & Hpe).
  apply list_elem_of_In in Hpe.
  destruct (HK pe Hpe) as [Hk Hbw].
  destruct (move_locked_range_frame pe (seq 0 (JetPass.n pe)))
    as (_ & _ & _ & Gk & _ & _ & Gbw).
  fold (JetPass.move_locked_nodes pe) in Gk, Gbw.
  destruct (move_locked_range_account pe (seq 0 (JetPass.n pe)) (Hin pe Hpe))
    as [Hin' _].
  { apply Forall_forall. intros u Hu.
    apply list_elem_of_In, in_seq in Hu. lia. }
  fold (JetPass.move_locked_nodes pe) in Hin'.
  pose proof (mr_deltas _ Hin') as Hlen.
  set (m := JetPass.move_locked_nodes pe) in *.
  destruct (apply_block_weight_local (JetPass.receive_sum moved m))
    as (Hk' & _ & Hcells).
  intros b Hb. rewrite Hk' in Hb.
  destruct (Hcells b) as [Hweight Hzero].
  { done. }
  all: change (JetPass.k (JetPass.receive_sum moved m)) with (JetPass.k m)
         in Hb.
  { cbn [JetPass.receive_sum JetPass._p_graph]. rewrite Gbw. lia. }
  { cbn [JetPass.receive_sum JetPass._block_weight_deltas].
    rewrite write_range_length. lia. }
  split; [|exact Hzero].
  rewrite Hweight, Hglobal.
  cbn [JetPass.receive_sum JetPass._p_graph JetPass._block_weight_deltas].
  rewrite write_range_lookup by lia.
  rewrite in_node_range_all by done.
  rewrite Hreduced by lia.
  unfold MoveSetBuilder.block_weight. rewrite Gbw.
  destruct (Hexact pe Hpe b) as [Hw _]; [lia|].
  unfold MoveSetBuilder.block_weight in Hw. rewrite Hw. lia.
Qed.

Lemma block_weights_stay_exact_witness :
  let pes' :=
    JetPass.apply_block_weight_deltas
      (map JetPass.move_locked_nodes [pe0_pass; pe1_pass]) in
  Forall (block_weights_exact pes') pes'.
Proof.
  apply (block_weights_stay_exact [pe0_pass; pe1_pass] 2).
  - constructor; [exact pe0_pass_in_range|].
    constructor; [exact pe1_pass_in_range | constructor].
  - constructor; [split; reflexivity|].
    constructor; [split; reflexivity | constructor].
  - constructor; [|constructor; [|constructor]]; intros b Hb;
      (do 2 (destruct b as [|b]; [vm_compute; done|]));
      vm_compute in Hb; lia.
Defined.

(** ** Distributed graph builder: ghost nodes and the finalized arrays *)

Lemma builder_call_frame (b : Builder.t) (c : BuilderCall) :
  Builder._node_distribution (builder_call b c) = Builder._node_distribution b
  /\ Builder._offset_n (builder_call b c) = Builder._offset_n b
  /\ Builder._local_n (builder_call b c) = Builder._local_n b.
Proof.
  destruct c as [weight|node weight|node delta|weight global_v]; simpl;
    try done.
  unfold Builder.create_edge, Builder.create_ghost_node.
  destruct (Builder.is_local_node b global_v); [done|].
  by destruct (Builder._global_to_ghost b !! global_v).
Qed.

Lemma builder_calls_frame (calls : list BuilderCall) (b : Builder.t) :
  Builder._node_distribution (builder_calls calls b)
  = Builder._node_distribution b
  /\ Builder._offset_n (builder_calls calls b) = Builder._offset_n b
  /\ Builder._local_n (builder_calls calls b) = Builder._local_n b.
Proof.
  revert b. induction calls as [|c calls IH]; intros b; [done|].
  unfold builder_calls in *. simpl.
  destruct (IH (builder_call b c)) as (H1 & H2 & H3).
  destruct (builder_call_frame b c) as (G1 & G2 & G3).
  repeat split; congruence.
Qed.

Lemma create_ghost_node_invariant (global_u : nat) (b : Builder.t) :
  builder_invariant b ->
  Builder.is_local_node b global_u = false ->
  let '(local_id, b') := Builder.create_ghost_node global_u b in
  builder_invariant b'
  /\ Builder._edges b' = Builder._edges b
  /\ Builder._edge_weights b' = Builder._edge_weights b
  /\ Builder._local_n b' = Builder._local_n b
  /\ Builder._local_n b <= local_id
  /\ Builder._ghost_to_global b' !! (local_id - Builder._local_n b)
     = Some global_u
  /\ (exists rest, Builder._ghost_to_global b'
                   = Builder._ghost_to_global b ++ rest).
Proof.
  intros Hinv Hlocal.
  pose proof Hinv as [Hids Hdistinct Hforeign Howners Hedges Hweights].
  unfold Builder.create_ghost_node.
  destruct (Builder._global_to_ghost b !! global_u) as [local_id|] eqn:Hfind.
  - apply Hids in Hfind as Hj. destruct Hj as (j & -> & Hj).
    split; [exact Hinv|].
    split; [done|]. split; [done|]. split; [done|]. split; [lia|]. split.
    + replace (Builder._local_n b + j - Builder._local_n b) with j by lia.
      done.
    + exists []. by rewrite app_nil_r.
  - assert (Hfresh : global_u ∉ Builder._ghost_to_global b).
    { intros Hin. apply list_elem_of_lookup in Hin as [j Hj].
      assert (Hsome : Builder._global_to_ghost b !! global_u
                      = Some (Builder._local_n b + j))
        by (apply Hids; eauto).
      congruence. }
    split; [split; simpl|].
    + intros global id. split.
      * intros Hlookup.
        destruct (decide (global = global_u)) as [->|Hne].
        -- rewrite lookup_insert_eq in Hlookup. injection Hlookup as <-.
           exists (length (Builder._ghost_to_global b)). split; [done|].
           rewrite lookup_app_r by lia. by rewrite Nat.sub_diag.
        -- rewrite lookup_insert_ne in Hlookup by done.
           apply Hids in Hlookup as (j & -> & Hj).
           exists j. split; [done|]. by apply lookup_app_l_Some.
      * intros (j & -> & Hj).
        destruct (Nat.lt_ge_cases j (length (Builder._ghost_to_global b)))
          as [Hlt|Hge].
        -- rewrite lookup_app_l in Hj by done.
           assert (global <> global_u).
           { intros ->. apply Hfresh. by eapply list_elem_of_lookup_2. }
           rewrite lookup_insert_ne by done. apply Hids. eauto.
        -- rewrite lookup_app_r in Hj by done.
           destruct (j - length (Builder._ghost_to_global b)) as [|j'] eqn:Hj';
             [|done].
           injection Hj as <-.
           assert (j = length (Builder._ghost_to_global b)) as -> by lia.
           by rewrite lookup_insert_eq.
    + apply NoDup_app. split; [done|]. split.
      * intros x Hx Hx'. apply list_elem_of_singleton in Hx'. by subst.
      * apply NoDup_singleton.
    + apply Forall_app. split; [done|]. by apply Forall_singleton.
    + rewrite map_app. simpl. unfold Builder.find_ghost_owner. simpl.
      f_equal. exact Howners.
    + eapply Forall_impl; [exact Hedges|]. simpl. intros x Hx.
      rewrite length_app. simpl. lia.
    + done.
    + simpl.
      split; [done|]. split; [done|]. split; [done|]. split; [lia|]. split.
      * replace (Builder._local_n b + length (Builder._ghost_to_global b)
                 - Builder._local_n b)
          with (length (Builder._ghost_to_global b)) by lia.
        rewrite lookup_app_r by lia. by rewrite Nat.sub_diag.
      * by exists [global_u].
Qed.

Lemma builder_call_invariant (b : Builder.t) (c : BuilderCall) :
  builder_invariant b -> builder_invariant (builder_call b c).
Proof.
  intros Hinv.
  destruct c as [weight|node weight|node delta|weight global_v]; simpl.
  - destruct Hinv as [Hids Hdistinct Hforeign Howners Hedges Hweights].
    split; simpl; done.
  - destruct Hinv as [Hids Hdistinct Hforeign Howners Hedges Hweights].
    split; simpl; done.
  - destruct Hinv as [Hids Hdistinct Hforeign Howners Hedges Hweights].
    split; simpl; done.
  - unfold Builder.create_edge.
    destruct (Builder.is_local_node b global_v) eqn:Hlocal.
    + destruct Hinv as [Hids Hdistinct Hforeign Howners Hedges Hweights].
      split; simpl; try done.
      * apply Forall_app. split; [done|]. apply Forall_singleton.
        unfold Builder.is_local_node in Hlocal.
        apply andb_true_iff in Hlocal as [Hlo Hhi].
        apply Nat.leb_le in Hlo. apply Nat.ltb_lt in Hhi. lia.
      * rewrite !length_app. simpl. lia.
    + pose proof (create_ghost_node_invariant global_v b Hinv Hlocal) as Hghost.
      destruct (Builder.create_ghost_node global_v b) as [local_v b1].
      destruct Hghost as (Hinv1 & He & Hw & Hn & Hlo & Hl2g & rest & Hrest).
      destruct Hinv1 as [Hids Hdistinct Hforeign Howners Hedges Hweights].
      split; simpl; try done.
      * apply Forall_app. split; [done|]. apply Forall_singleton.
        apply lookup_lt_Some in Hl2g. lia.
      * rewrite !length_app. simpl. lia.
Qed.

Lemma initialize_invariant (rank : nat) (node_distribution : list nat) :
  builder_invariant (Builder.initialize rank node_distribution).
Proof.
  split; simpl.
  - intros global id. split.
    + intros Hlookup. by rewrite lookup_empty in Hlookup.
    + intros (j & _ & Hj). by rewrite lookup_nil in Hj.
  - apply NoDup_nil_2.
  - apply Forall_nil_2.
  - reflexivity.
  - apply Forall_nil_2.
  - reflexivity.
Qed.

Lemma builder_calls_invariant (calls : list BuilderCall) (b : Builder.t) :
  builder_invariant b -> builder_invariant (builder_calls calls b).
Proof.
  revert b. induction calls as [|c calls IH]; intros b Hinv; [done|].
  unfold builder_calls in *. simpl. by apply IH, builder_call_invariant.
Qed.

(** X13.  Whatever calls are made on a builder after [initialize], the two
    ghost maps stay inverse to each other and number the ghost nodes
    consecutively from [_local_n] on, no global node gets two ghosts, no
    ghost is a node of the PE itself, every ghost has its owner on record,
    and every stored edge endpoint is the local id of an owned node or of a
    ghost. *)
Theorem builder_keeps_invariant (rank : nat) (node_distribution : list nat)
    (calls : list BuilderCall) :
  builder_invariant
    (builder_calls calls (Builder.initialize rank node_distribution)).
Proof.
  apply builder_calls_invariant.
  apply initialize_invariant.
Qed.

Lemma local_to_global_stable (b b' : Builder.t) (rest : list nat)
    (local : NodeID) :
  Builder._offset_n b' = Builder._offset_n b ->
  Builder._local_n b' = Builder._local_n b ->
  Builder._ghost_to_global b' = Builder._ghost_to_global b ++ rest ->
  local < Builder._local_n b + length (Builder._ghost_to_global b) ->
  local_to_global b' local = local_to_global b local.
Proof.
  intros Ho Hn Hg Hlocal. unfold local_to_global. rewrite Ho, Hn, Hg.
  destruct (Nat.ltb_spec local (Builder._local_n b)); [done|].
  apply lookup_total_app_l. lia.
Qed.

Lemma builder_call_edges (b : Builder.t) (c : BuilderCall) :
  builder_invariant b ->
  map (local_to_global (builder_call b c)) (Builder._edges (builder_call b c))
  = map (local_to_global b) (Builder._edges b) ++ edge_targets [c].
Proof.
  intros Hinv.
  destruct c as [weight|node weight|node delta|weight global_v]; simpl;
    try (by rewrite app_nil_r).
  unfold Builder.create_edge.
  destruct (Builder.is_local_node b global_v) eqn:Hlocal.
  - simpl. rewrite map_app. simpl.
    change (local_to_global _)
      with (local_to_global b) at 1.
    f_equal. unfold local_to_global. simpl.
    unfold Builder.is_local_node in Hlocal.
    apply andb_true_iff in Hlocal as [Hlo Hhi].
    apply Nat.leb_le in Hlo. apply Nat.ltb_lt in Hhi.
    destruct (Nat.ltb_spec (global_v - Builder._offset_n b)
                           (Builder._local_n b)); [|lia].
    f_equal. lia.
  - pose proof (create_ghost_node_invariant global_v b Hinv Hlocal) as Hghost.
    destruct (Builder.create_ghost_node global_v b) as [local_v b1] eqn:Hb1.
    destruct Hghost as (Hinv1 & He & Hw & Hn & Hlo & Hl2g & rest & Hrest).
    assert (Ho : Builder._offset_n b1 = Builder._offset_n b).
    { unfold Builder.create_ghost_node in Hb1.
      destruct (Builder._global_to_ghost b !! global_v);
        injection Hb1 as <- <-; reflexivity. }
    simpl. rewrite map_app, He. simpl. f_equal.
    + apply map_ext_in. intros local Hin.
      apply (local_to_global_stable b _ rest); simpl; try done.
      pose proof (bi_edges _ Hinv) as Hedges.
      rewrite Forall_forall in Hedges. by apply Hedges, list_elem_of_In.
    + f_equal. unfold local_to_global. simpl. rewrite Hn.
      destruct (Nat.ltb_spec local_v (Builder._local_n b)); [lia|].
      by apply list_lookup_total_correct.
Qed.

Lemma builder_calls_edges (calls : list BuilderCall) (b : Builder.t) :
  builder_invariant b ->
  map (local_to_global (builder_calls calls b))
      (Builder._edges (builder_calls calls b))
  = map (local_to_global b) (Builder._edges b) ++ edge_targets calls.
Proof.
  revert b. induction calls as [|c calls IH]; intros b Hinv.
  - simpl. by rewrite app_nil_r.
  - unfold builder_calls in *. simpl fold_left.
    rewrite IH by (by apply builder_call_invariant).
    rewrite builder_call_edges by done.
    rewrite <- app_assoc. f_equal.
    unfold edge_targets. simpl. by rewrite app_nil_r.
Qed.

(** X14.  Edge endpoints survive the renumbering: translating the local
    ids the builder stored in [_edges] back to global ids (owned nodes by
    the offset of the PE, ghost nodes through [_ghost_to_global]) gives the
    global endpoints that were passed to [create_edge], in call order. *)
Theorem builder_edges_round_trip (rank : nat) (node_distribution : list nat)
    (calls : list BuilderCall) :
  let b := builder_calls calls (Builder.initialize rank node_distribution) in
  map (local_to_global b) (Builder._edges b) = edge_targets calls.
Proof.
  intros b. unfold b.
  rewrite builder_calls_edges by apply initialize_invariant.
  reflexivity.
Qed.

Lemma upper_bound_spec (range : list nat) (value : nat) :
  Builder.upper_bound range value <= length range
  /\ (forall q x, q < Builder.upper_bound range value ->
                  range !! q = Some x -> x <= value)
  /\ (forall x, range !! Builder.upper_bound range value = Some x ->
                value < x).
Proof.
  induction range as [|y range (Hlen & Hbelow & Hat)]; simpl.
  - split; [lia|]. split; [intros q x Hq; lia | intros x Hx; done].
  - destruct (Nat.ltb_spec value y) as [Hlt|Hge].
    + split; [lia|]. split; [intros q x Hq; lia|].
      intros x Hx. simpl in Hx. injection Hx as <-. done.
    + split; [lia|]. split.
      * intros q x Hq Hx. destruct q as [|q]; simpl in Hx.
        -- injection Hx as <-. done.
        -- apply (Hbelow q); [lia | done].
      * intros x Hx. simpl in Hx. by apply Hat.
Qed.

Lemma find_ghost_owner_upper_bound (b : Builder.t) (global_u : nat) :
  Builder.find_ghost_owner b global_u
  = Builder.upper_bound (tail (Builder._node_distribution b)) global_u.
Proof. unfold Builder.find_ghost_owner. lia. Qed.

Lemma find_ghost_owner_holds (b : Builder.t) (rank global_n global_u : nat) :
  valid_distribution rank global_n (Builder._node_distribution b) ->
  global_u < global_n ->
  Builder.find_ghost_owner b global_u + 1
  < length (Builder._node_distribution b)
  /\ Builder._node_distribution b
       !!! Builder.find_ghost_owner b global_u <= global_u
  /\ global_u < Builder._node_distribution b
                  !!! (Builder.find_ghost_owner b global_u + 1).
Proof.
  intros [Hfront Hback Hsorted Hrank] Hu.
  rewrite find_ghost_owner_upper_bound.
  destruct (Builder._node_distribution b) as [|d0 dist] eqn:Hdist;
    [simpl in Hrank; lia|].
  simpl in Hfront. injection Hfront as ->. simpl tail.
  destruct (upper_bound_spec dist global_u) as (Hlen & Hbelow & Hat).
  set (p := Builder.upper_bound dist global_u) in *.
  assert (Hp : p < length dist).
  { destruct (Nat.lt_ge_cases p (length dist)) as [|Hge]; [done|].
    exfalso. assert (p = length dist) as Hpl by lia.
    destruct dist as [|d1 dist'] using rev_ind; [simpl in Hrank; lia|].
    clear IHdist'.
    change (0 :: dist' ++ [d1]) with ((0 :: dist') ++ [d1]) in Hback.
    rewrite last_snoc in Hback. injection Hback as ->.
    rewrite length_app in Hpl. simpl in Hpl.
    assert (Hle : global_n <= global_u).
    { apply (Hbelow (length dist')); [lia|].
      rewrite lookup_app_r by lia. by rewrite Nat.sub_diag. }
    lia. }
  destruct (lookup_lt_is_Some_2 dist p Hp) as [x Hx].
  split; [simpl; lia|]. split.
  - destruct p as [|p'] eqn:Hp'; [simpl; lia|].
    destruct (lookup_lt_is_Some_2 dist p') as [y Hy]; [lia|].
    change ((0 :: dist) !!! S p') with (dist !!! p').
    rewrite (list_lookup_total_correct _ _ _ Hy).
    apply (Hbelow p'); [lia | done].
  - replace (p + 1) with (S p) by lia.
    change ((0 :: dist) !!! S p) with (dist !!! p).
    rewrite (list_lookup_total_correct _ _ _ Hx). by apply Hat.
Qed.

(** X15.  On a valid node distribution [find_ghost_owner] returns the one
    PE whose node range holds the global id: the range of the returned PE
    contains it, and no other PE's range does. *)
Theorem find_ghost_owner_range (b : Builder.t) (rank global_n global_u : nat) :
  valid_distribution rank global_n (Builder._node_distribution b) ->
  global_u < global_n ->
  let owner := Builder.find_ghost_owner b global_u in
  owner + 1 < length (Builder._node_distribution b)
  /\ Builder._node_distribution b !!! owner <= global_u
  /\ global_u < Builder._node_distribution b !!! (owner + 1)
  /\ forall pe, pe + 1 < length (Builder._node_distribution b) ->
       Builder._node_distribution b !!! pe <= global_u ->
       global_u < Builder._node_distribution b !!! (pe + 1) ->
       pe = owner.
Proof.
  intros Hvalid Hu owner.
  destruct (find_ghost_owner_holds b rank global_n global_u Hvalid Hu)
    as (Hlen & Hlo & Hhi).
  fold owner in Hlen, Hlo, Hhi.
  repeat (split; [done|]).
  intros pe Hpe Hpe_lo Hpe_hi.
  pose proof (vd_sorted _ _ _ Hvalid) as Hsorted.
  set (dist := Builder._node_distribution b) in *.
  assert (Hat : forall i, i < length dist -> dist !! i = Some (dist !!! i))
    by (intros i Hi; by apply list_lookup_lookup_total_lt).
  destruct (Nat.lt_total pe owner) as [Hlt|[Heq|Hgt]]; [|done|]; exfalso.
  - assert (dist !!! (pe + 1) <= dist !!! owner)
      by (apply (Hsorted (pe + 1) owner); [lia | apply Hat; lia
                                                | apply Hat; lia]).
    lia.
  - assert (dist !!! (owner + 1) <= dist !!! pe)
      by (apply (Hsorted (owner + 1) pe); [lia | apply Hat; lia
                                                | apply Hat; lia]).
    lia.
Qed.

Lemma find_ghost_owner_range_witness :
  let owner := Builder.find_ghost_owner
                 (Builder.initialize 0 [0; 3; 5; 9]) 4 in
  owner + 1 < length [0; 3; 5; 9]
  /\ [0; 3; 5; 9] !!! owner <= 4
  /\ 4 < [0; 3; 5; 9] !!! (owner + 1)
  /\ forall pe, pe + 1 < length [0; 3; 5; 9] ->
       [0; 3; 5; 9] !!! pe <= 4 ->
       4 < [0; 3; 5; 9] !!! (pe + 1) ->
       pe = owner.
Proof.
  apply (find_ghost_owner_range (Builder.initialize 0 [0; 3; 5; 9]) 0 9 4);
    [|lia].
  split; simpl; [reflexivity | reflexivity | | lia].
  intros i j x y Hij Hi Hj.
  do 4 (destruct i as [|i];
        [do 4 (destruct j as [|j];
               [simpl in Hi, Hj; injection Hi as <-; injection Hj as <-; lia|]);
         done|]).
  done.
Defined.

Lemma builder_call_ghosts (b : Builder.t) (c : BuilderCall) (global : nat) :
  global ∈ Builder._ghost_to_global (builder_call b c) ->
  global ∈ Builder._ghost_to_global b \/ global ∈ edge_targets [c].
Proof.
  destruct c as [weight|node weight|node delta|weight global_v]; simpl;
    try (by left).
  unfold Builder.create_edge, Builder.create_ghost_node.
  destruct (Builder.is_local_node b global_v); [by left|].
  destruct (Builder._global_to_ghost b !! global_v); simpl; [by left|].
  intros Hin. apply elem_of_app in Hin as [Hin|Hin]; [by left | by right].
Qed.

Lemma builder_calls_ghosts (calls : list BuilderCall) (b : Builder.t)
    (global : nat) :
  global ∈ Builder._ghost_to_global (builder_calls calls b) ->
  global ∈ Builder._ghost_to_global b \/ global ∈ edge_targets calls.
Proof.
  revert b. induction calls as [|c calls IH]; intros b Hin; [by left|].
  unfold builder_calls in *. simpl in Hin.
  destruct (IH _ Hin) as [Hb|Hcalls].
  - destruct (builder_call_ghosts b c global Hb) as [Hb'|Hc]; [by left|].
    right. unfold edge_targets in *. simpl in *.
    rewrite app_nil_r in Hc. apply elem_of_app. by left.
  - right. unfold edge_targets in *. simpl. apply elem_of_app. by right.
Qed.

(** X16.  Every ghost node is owned by another PE: the owner on record is
    the PE whose node range holds the ghost's global id, and it is never
    the PE that builds the graph. *)
Theorem ghost_owners_are_foreign (rank global_n : nat)
    (node_distribution : list nat) (calls : list BuilderCall) :
  valid_distribution rank global_n node_distribution ->
  Forall (fun global_v => global_v < global_n) (edge_targets calls) ->
  let b := builder_calls calls (Builder.initialize rank node_distribution) in
  length (Builder._ghost_owner b) = length (Builder._ghost_to_global b)
  /\ forall j global owner,
       Builder._ghost_to_global b !! j = Some global ->
       Builder._ghost_owner b !! j = Some owner ->
       owner <> rank
       /\ owner + 1 < length node_distribution
       /\ node_distribution !!! owner <= global
       /\ global < node_distribution !!! (owner + 1).
Proof.
  intros Hvalid Htargets b.
  pose proof (builder_calls_invariant calls _
                (initialize_invariant rank node_distribution)) as Hinv.
  fold b in Hinv.
  destruct (builder_calls_frame calls
              (Builder.initialize rank node_distribution))
    as (Hdist & Hoffset & Hlocal).
  fold b in Hdist, Hoffset, Hlocal. simpl in Hdist, Hoffset, Hlocal.
  pose proof (bi_owners _ Hinv) as Howners.
  split; [by rewrite Howners, length_map|].
  intros j global owner Hglobal Howner.
  rewrite Howners in Howner.
  change (map (Builder.find_ghost_owner b) (Builder._ghost_to_global b))
    with (Builder.find_ghost_owner b <$> Builder._ghost_to_global b)
    in Howner.
  rewrite list_lookup_fmap, Hglobal in Howner. injection Howner as <-.
  assert (Hbound : global < global_n).
  { destruct (builder_calls_ghosts calls _ global
                (list_elem_of_lookup_2 _ _ _ Hglobal)) as [Hin|Hin].
    - by apply elem_of_nil in Hin.
    - rewrite Forall_forall in Htargets. by apply Htargets. }
  assert (Hvalid' : valid_distribution rank global_n
                      (Builder._node_distribution b))
    by (by rewrite Hdist).
  destruct (find_ghost_owner_holds b rank global_n global Hvalid' Hbound)
    as (Hlen & Hlo & Hhi).
  rewrite Hdist in Hlen, Hlo, Hhi.
  split; [|done].
  intros Heq.
  pose proof (bi_ghosts_foreign _ Hinv) as Hforeign.
  rewrite Forall_forall in Hforeign.
  specialize (Hforeign global (list_elem_of_lookup_2 _ _ _ Hglobal)).
  unfold Builder.is_local_node in Hforeign.
  rewrite Hoffset, Hlocal in Hforeign.
  rewrite Heq in Hlo, Hhi.
  destruct Hvalid as [_ _ Hsorted Hrank].
  destruct (lookup_lt_is_Some_2 node_distribution rank) as [x Hx]; [lia|].
  destruct (lookup_lt_is_Some_2 node_distribution (rank + 1)) as [y Hy];
    [lia|].
  rewrite (list_lookup_total_correct _ _ _ Hx) in Hforeign, Hlo.
  rewrite (list_lookup_total_correct _ _ _ Hy) in Hforeign, Hhi.
  assert (x <= y) by (apply (Hsorted rank (rank + 1)); [lia | done | done]).
  apply andb_false_iff in Hforeign as [Hf|Hf].
  - apply Nat.leb_gt in Hf. lia.
  - apply Nat.ltb_ge in Hf. lia.
Qed.

Lemma ghost_owners_are_foreign_witness :
  let b := builder_calls [CreateNode 1%Z; CreateEdge 1%Z 4; CreateEdge 1%Z 1;
                          CreateEdge 1%Z 7]
                         (Builder.initialize 0 [0; 3; 5; 9]) in
  length (Builder._ghost_owner b) = length (Builder._ghost_to_global b)
  /\ forall j global owner,
       Builder._ghost_to_global b !! j = Some global ->
       Builder._ghost_owner b !! j = Some owner ->
       owner <> 0
       /\ owner + 1 < length [0; 3; 5; 9]
       /\ [0; 3; 5; 9] !!! owner <= global
       /\ global < [0; 3; 5; 9] !!! (owner + 1).
Proof.
  apply (ghost_owners_are_foreign 0 9 [0; 3; 5; 9]).
  - split; simpl; [reflexivity | reflexivity | | lia].
    intros i j x y Hij Hi Hj.
    do 4 (destruct i as [|i];
          [do 4 (destruct j as [|j];
                 [simpl in Hi, Hj; injection Hi as <-; injection Hj as <-;
                  lia|]);
           done|]).
    done.
  - repeat (apply Forall_cons; split; [lia|]). apply Forall_nil_2.
Defined.

Lemma builder_call_offsets (b : Builder.t) (c : BuilderCall) :
  offsets_invariant b ->
  offsets_invariant (builder_call b c)
  /\ length (Builder._nodes (builder_call b c))
     = length (Builder._nodes b) + created_nodes [c]
  /\ length (Builder._node_weights (builder_call b c))
     = length (Builder._node_weights b) + created_nodes [c].
Proof.
  intros [Hsorted Hbounded].
  destruct c as [weight|node weight|node delta|weight global_v]; simpl.
  - split; [split; simpl|].
    + intros i j x y Hij Hi Hj.
      destruct (Nat.lt_ge_cases j (length (Builder._nodes b))) as [Hjl|Hjl].
      * rewrite lookup_app_l in Hi, Hj by lia.
        exact (Hsorted i j x y Hij Hi Hj).
      * rewrite lookup_app_r in Hj by lia.
        destruct (j - length (Builder._nodes b)) as [|j']; [|done].
        injection Hj as <-.
        destruct (Nat.lt_ge_cases i (length (Builder._nodes b))) as [Hil|Hil].
        -- rewrite lookup_app_l in Hi by lia.
           rewrite Forall_forall in Hbounded.
           exact (Hbounded x (list_elem_of_lookup_2 _ _ _ Hi)).
        -- rewrite lookup_app_r in Hi by lia.
           destruct (i - length (Builder._nodes b)) as [|i']; [|done].
           by injection Hi as <-.
    + apply Forall_app. split; [done|]. by apply Forall_singleton.
    + rewrite !length_app. simpl. unfold created_nodes. simpl. done.
  - split; [split; done|]. unfold created_nodes. simpl.
    rewrite length_insert. lia.
  - split; [split; done|]. unfold created_nodes. simpl.
    rewrite length_insert. lia.
  - unfold Builder.create_edge.
    assert (Hgrow : forall local_v,
              Forall (fun offset =>
                        offset <= length (Builder._edges b ++ [local_v]))
                     (Builder._nodes b)).
    { intros local_v. eapply Forall_impl; [exact Hbounded|].
      simpl. intros x Hx. rewrite length_app. simpl. lia. }
    destruct (Builder.is_local_node b global_v).
    + split; [split; simpl; [done | by apply Hgrow]|].
      unfold created_nodes. simpl. lia.
    + unfold Builder.create_ghost_node.
      destruct (Builder._global_to_ghost b !! global_v).
      * split; [split; simpl; [done | by apply Hgrow]|].
        unfold created_nodes. simpl. lia.
      * split; [split; simpl; [done | by apply Hgrow]|].
        unfold created_nodes. simpl. lia.
Qed.

Lemma builder_calls_offsets (calls : list BuilderCall) (b : Builder.t) :
  offsets_invariant b ->
  offsets_invariant (builder_calls calls b)
  /\ length (Builder._nodes (builder_calls calls b))
     = length (Builder._nodes b) + created_nodes calls
  /\ length (Builder._node_weights (builder_calls calls b))
     = length (Builder._node_weights b) + created_nodes calls.
Proof.
  revert b. induction calls as [|c calls IH]; intros b Hinv.
  - unfold created_nodes. simpl. split; [done|]. split; lia.
  - unfold builder_calls in *. simpl fold_left.
    destruct (builder_call_offsets b c Hinv) as (Hinv1 & Hn1 & Hw1).
    destruct (IH _ Hinv1) as (Hinv2 & Hn2 & Hw2).
    split; [done|].
    unfold created_nodes in *. simpl in Hn1, Hw1. simpl flat_map.
    rewrite app_nil_r in Hn1, Hw1. rewrite length_app. lia.
Qed.

(** X17.  [finalize] yields well-formed arrays whatever calls were made:
    one offset per created node and a closing one, sorted and ending at the
    number of edges; one weight per edge; one weight per created node
    followed by a weight of 1 per ghost.  When exactly [_local_n] nodes were
    created, the weight stored at the local id of every ghost is that 1. *)
Theorem finalize_arrays (rank : nat) (node_distribution : list nat)
    (calls : list BuilderCall) :
  let b := builder_calls calls (Builder.initialize rank node_distribution) in
  let g := Builder.finalize b in
  length (Builder.dg_nodes g) = created_nodes calls + 1
  /\ (forall i j x y, i <= j -> Builder.dg_nodes g !! i = Some x ->
                      Builder.dg_nodes g !! j = Some y -> x <= y)
  /\ last (Builder.dg_nodes g) = Some (length (Builder.dg_edges g))
  /\ length (Builder.dg_edge_weights g) = length (Builder.dg_edges g)
  /\ length (Builder.dg_node_weights g)
     = created_nodes calls + length (Builder.dg_ghost_to_global g)
  /\ (created_nodes calls = Builder._local_n b ->
      forall global id,
        Builder.dg_global_to_ghost g !! global = Some id ->
        Builder.dg_node_weights g !! id = Some 1%Z).
Proof.
  intros b g.
  assert (Hinit : offsets_invariant
                    (Builder.initialize rank node_distribution)).
  { split; simpl; [intros i j x y _ Hi; done | apply Forall_nil_2]. }
  destruct (builder_calls_offsets calls _ Hinit)
    as ([Hsorted Hbounded] & Hnodes & Hweights).
  fold b in Hsorted, Hbounded, Hnodes, Hweights.
  simpl in Hnodes, Hweights.
  pose proof (builder_calls_invariant calls _
                (initialize_invariant rank node_distribution)) as Hinv.
  fold b in Hinv.
  unfold g, Builder.finalize. simpl.
  split; [rewrite length_app; simpl; lia|]. split; [|split; [|split; [|split]]].
  - intros i j x y Hij Hi Hj.
    destruct (Nat.lt_ge_cases j (length (Builder._nodes b))) as [Hjl|Hjl].
    + rewrite lookup_app_l in Hi, Hj by lia.
        exact (Hsorted i j x y Hij Hi Hj).
    + rewrite lookup_app_r in Hj by lia.
      destruct (j - length (Builder._nodes b)) as [|j']; [|done].
      injection Hj as <-.
      destruct (Nat.lt_ge_cases i (length (Builder._nodes b))) as [Hil|Hil].
      * rewrite lookup_app_l in Hi by lia.
        rewrite Forall_forall in Hbounded.
        exact (Hbounded x (list_elem_of_lookup_2 _ _ _ Hi)).
      * rewrite lookup_app_r in Hi by lia.
        destruct (i - length (Builder._nodes b)) as [|i']; [|done].
        by injection Hi as <-.
  - by rewrite last_snoc.
  - apply (bi_edge_weights _ Hinv).
  - rewrite length_app, length_replicate. lia.
  - intros Hcreated global id Hid.
    apply (bi_ghost_ids _ Hinv) in Hid as (j & -> & Hj).
    apply lookup_lt_Some in Hj as Hjl.
    rewrite lookup_app_r by lia.
    apply lookup_replicate_2. lia.
Qed.

(** ** Circular vector: tickets cannot overtake *)

Lemma ring_same_prev (size e m : nat) :
  (e + size) mod S size = (m + size) mod S size ->
  e mod S size = m mod S size.
Proof.
  intros Heq.
  rewrite <- (ring_next_prev size e), <- (ring_next_prev size m).
  replace (S e + size) with ((e + size) + 1) by lia.
  replace (S m + size) with ((m + size) + 1) by lia.
  rewrite (Nat.Div0.add_mod (e + size)), (Nat.Div0.add_mod (m + size)).
  by rewrite Heq.
Qed.

(** After serving the tickets [0 .. m) in order every slot but the one
    just written holds the lock. *)
Lemma process_in_order_locks (size_max : nat) (value_max : Z) (size : nat)
    (deltas : list Z) :
  1 <= size ->
  Forall (fun d => (0 <= d)%Z) deltas ->
  (sumZ deltas < value_max)%Z ->
  length deltas <= S size_max ->
  exists v,
    ConcurrentCircularVector.process_in_order size_max value_max deltas
      (ConcurrentCircularVector.create value_max size)
    = Some (prefix_sums deltas, v)
    /\ ConcurrentCircularVector._counter v = length deltas mod S size_max
    /\ length (ConcurrentCircularVector._buffer v) = S size
    /\ ConcurrentCircularVector._buffer v
         !!! ((length deltas + size) mod S size) = sumZ deltas
    /\ forall i, i < S size -> i <> (length deltas + size) mod S size ->
         ConcurrentCircularVector._buffer v !!! i = value_max.
Proof.
  intros Hsize.
  induction deltas as [|delta deltas IH] using rev_ind;
    intros Hnonneg Hsum Hlen.
  - eexists. split; [reflexivity|].
    unfold ConcurrentCircularVector.create.
    cbn [ConcurrentCircularVector._counter
           ConcurrentCircularVector._buffer length].
    rewrite Nat.Div0.mod_0_l, length_app, length_replicate.
    change (length [0%Z]) with 1. rewrite Nat.add_0_l.
    rewrite Nat.mod_small by lia.
    split; [done|]. split; [lia|]. split.
    + rewrite lookup_total_app_r by (rewrite length_replicate; lia).
      rewrite length_replicate, Nat.sub_diag. reflexivity.
    + intros i Hi Hne.
      rewrite lookup_total_app_l by (rewrite length_replicate; lia).
      apply lookup_total_replicate_2. lia.
  - apply Forall_app in Hnonneg as [Hnonneg Hdelta].
    apply Forall_inv in Hdelta.
    rewrite sumZ_app in Hsum. cbn [sumZ foldr] in Hsum.
    rewrite length_app in Hlen. cbn [length] in Hlen.
    pose proof (sumZ_nonneg _ Hnonneg) as Hpos.
    destruct IH as (v & Hrun & Hcounter & Hbuf & Hslot & Hlocks);
      [done | lia | lia |].
    rewrite process_in_order_snoc, Hrun.
    unfold ConcurrentCircularVector.next.
    rewrite Hcounter, (Nat.mod_small (length deltas)) by lia.
    rewrite (fetch_and_update_step value_max size _ _ (sumZ deltas));
      [|done|done|lia].
    eexists. split; [by rewrite prefix_sums_snoc|].
    cbn [ConcurrentCircularVector._counter
           ConcurrentCircularVector._buffer].
    rewrite !length_insert, length_app, sumZ_app.
    cbn [length sumZ foldr].
    rewrite Nat.add_1_r, ring_next_prev.
    split; [done|]. split; [done|]. split.
    + rewrite list_lookup_total_insert_eq.
      * unfold ConcurrentCircularVector.wrap_value.
        rewrite Z.mod_small; lia.
      * rewrite length_insert, Hbuf. apply Nat.mod_upper_bound. lia.
    + intros i Hi Hne.
      rewrite list_lookup_total_insert_ne by done.
      destruct (Nat.eq_dec i ((length deltas + size) mod S size)) as [->|Hne'].
      * rewrite list_lookup_total_insert_eq; [done|].
        rewrite Hbuf. apply Nat.mod_upper_bound. lia.
      * rewrite list_lookup_total_insert_ne by done. by apply Hlocks.
Qed.

(** X18.  Tickets are served strictly in order.  After the tickets
    [0 .. m) have been served, every slot but the one written last holds
    the lock, so [fetch_and_update] for any ticket whose slot is not the
    next one in the ring finds the lock and does not get past its wait
    loop. *)
Theorem circular_vector_no_overtaking
    (size_max : nat) (value_max : Z) (size : nat)
    (deltas : list Z) (entry : nat) (delta : Z) :
  1 <= size ->
  Forall (fun d => (0 <= d)%Z) deltas ->
  (sumZ deltas < value_max)%Z ->
  length deltas <= S size_max ->
  entry mod S size <> length deltas mod S size ->
  exists v,
    ConcurrentCircularVector.process_in_order size_max value_max deltas
      (ConcurrentCircularVector.create value_max size)
    = Some (prefix_sums deltas, v)
    /\ (forall i, i < length (ConcurrentCircularVector._buffer v) ->
          i <> ConcurrentCircularVector.prev_pos_of v (length deltas) ->
          ConcurrentCircularVector._buffer v !!! i
          = ConcurrentCircularVector.kLock value_max)
    /\ ConcurrentCircularVector.fetch_and_update value_max entry delta v
       = None.
Proof.
  intros Hsize Hnonneg Hsum Hlen Hentry.
  destruct (process_in_order_locks size_max value_max size deltas)
    as (v & Hrun & _ & Hbuf & _ & Hlocks); try done.
  exists v. split; [done|].
  unfold ConcurrentCircularVector.prev_pos_of,
    ConcurrentCircularVector.pos_of, ConcurrentCircularVector.kLock.
  rewrite Hbuf, ring_prev_pos. split; [exact Hlocks|].
  unfold ConcurrentCircularVector.fetch_and_update,
    ConcurrentCircularVector.prev_pos_of, ConcurrentCircularVector.pos_of,
    ConcurrentCircularVector.kLock.
  rewrite Hbuf, ring_prev_pos.
  rewrite Hlocks.
  - by rewrite Z.eqb_refl.
  - apply Nat.mod_upper_bound. lia.
  - intros Heq. by apply Hentry, ring_same_prev.
Qed.

Lemma circular_vector_no_overtaking_witness :
  exists v,
    ConcurrentCircularVector.process_in_order 255 255 [3; 4]%Z
      (ConcurrentCircularVector.create 255 3)
    = Some (prefix_sums [3; 4]%Z, v)
    /\ (forall i, i < length (ConcurrentCircularVector._buffer v) ->
          i <> ConcurrentCircularVector.prev_pos_of v (length [3; 4]%Z) ->
          ConcurrentCircularVector._buffer v !!! i
          = ConcurrentCircularVector.kLock 255)
    /\ ConcurrentCircularVector.fetch_and_update 255 3 5%Z v = None.
Proof.
  apply (circular_vector_no_overtaking 255 255 3 [3; 4]%Z 3 5%Z).
  - lia.
  - repeat (apply Forall_cons; split; [lia|]). apply Forall_nil_2.
  - vm_compute. reflexivity.
  - simpl. lia.
  - vm_compute. lia.
Defined.

(** ** Fast-reset arrays: what [clear] resets and what [entries] lists *)

Lemma reset_positions_length {A} (x : A) (positions : list nat)
    (data : list A) :
  length (fold_left (fun data pos => <[pos := x]> data) positions data)
  = length data.
Proof.
  revert data. induction positions as [|p positions IH]; intros data; simpl;
    [done|].
  by rewrite IH, length_insert.
Qed.

Lemma reset_positions_lookup {A} (x : A) (positions : list nat)
    (data : list A) (i : nat) :
  fold_left (fun data pos => <[pos := x]> data) positions data !! i
  = if decide (i ∈ positions)
    then (if decide (i < length data) then Some x else None)
    else data !! i.
Proof.
  revert data. induction positions as [|p positions IH]; intros data; simpl.
  - destruct (decide (i ∈ [])) as [Hin|_]; [|done].
    by apply elem_of_nil in Hin.
  - rewrite IH, length_insert.
    destruct (decide (i ∈ positions)) as [Hin|Hnotin].
    + destruct (decide (i ∈ p :: positions)) as [_|Hn]; [done|].
      exfalso. apply Hn. by apply list_elem_of_further.
    + destruct (decide (i = p)) as [->|Hne].
      * destruct (decide (p ∈ p :: positions)) as [_|Hn].
        -- destruct (decide (p < length data)) as [Hlt|Hge].
           ++ by apply list_lookup_insert_eq.
           ++ apply lookup_ge_None_2. rewrite length_insert. lia.
        -- exfalso. apply Hn, list_elem_of_here.
      * destruct (decide (i ∈ p :: positions)) as [Hin|_].
        -- apply elem_of_cons in Hin as [?|?]; done.
        -- by apply list_lookup_insert_ne.
Qed.

Lemma fast_reset_set_tracked {Value : Type} `{EqDecision Value}
    (default : Value) (pos : nat) (new_value : Value)
    (a : @FastResetArray.t Value) :
  fast_reset_tracked default a ->
  pos < length (FastResetArray._data a) ->
  fast_reset_tracked default (FastResetArray.set default pos new_value a)
  /\ length (FastResetArray._data
               (FastResetArray.set default pos new_value a))
     = length (FastResetArray._data a).
Proof.
  intros [Hreg Hrange] Hpos.
  destruct (lookup_lt_is_Some_2 (FastResetArray._data a) pos Hpos)
    as [old Hold].
  pose proof (@list_lookup_total_correct
                _ (FastResetArray.value_inhabited default) _ _ _ Hold)
    as Htotal.
  unfold FastResetArray.set, FastResetArray.access. rewrite Htotal.
  destruct (decide (old = default)) as [Hdef|Hdef]; simpl.
  - split; [split; simpl|by rewrite length_insert].
    + intros pos' value Hlookup Hvalue.
      destruct (decide (pos' = pos)) as [->|Hne].
      * apply elem_of_app. right. apply list_elem_of_here.
      * rewrite list_lookup_insert_ne in Hlookup by done.
        apply elem_of_app. left. by eapply Hreg.
    + rewrite length_insert. apply Forall_app. split; [done|].
      by apply Forall_singleton.
  - split; [split; simpl|by rewrite length_insert].
    + intros pos' value Hlookup Hvalue.
      destruct (decide (pos' = pos)) as [->|Hne].
      * by eapply Hreg.
      * rewrite list_lookup_insert_ne in Hlookup by done. by eapply Hreg.
    + by rewrite length_insert.
Qed.

Lemma fast_reset_sets_tracked {Value : Type} `{EqDecision Value}
    (default : Value) (writes : list (nat * Value))
    (a : @FastResetArray.t Value) :
  fast_reset_tracked default a ->
  Forall (fun w => fst w < length (FastResetArray._data a)) writes ->
  fast_reset_tracked default (fast_reset_sets default writes a)
  /\ length (FastResetArray._data (fast_reset_sets default writes a))
     = length (FastResetArray._data a).
Proof.
  revert a. induction writes as [|w writes IH]; intros a Htracked Hwrites;
    [done|].
  apply Forall_cons in Hwrites as [Hw Hwrites].
  destruct (fast_reset_set_tracked default (fst w) (snd w) a Htracked Hw)
    as [Htracked' Hlen].
  unfold fast_reset_sets in *. simpl.
  destruct (IH _ Htracked') as [Htracked'' Hlen'].
  - by rewrite Hlen.
  - split; [done | by rewrite Hlen'].
Qed.

(** X19.  [clear] brings a fast-reset array back to the state the
    constructor left it in: after any sequence of [set] calls at positions
    below the capacity every slot holds the default value again and no
    entry is registered. *)
Theorem clear_restores_fresh {Value : Type} `{EqDecision Value}
    (default : Value) (capacity : nat) (writes : list (nat * Value)) :
  Forall (fun w => fst w < capacity) writes ->
  FastResetArray.clear default
    (fast_reset_sets default writes (FastResetArray.create default capacity))
  = FastResetArray.create default capacity.
Proof.
  intros Hwrites.
  assert (Hfresh : fast_reset_tracked default
                     (FastResetArray.create default capacity)).
  { split; simpl; [|apply Forall_nil_2].
    intros pos value Hlookup Hvalue.
    apply lookup_replicate_1 in Hlookup as [-> _]. done. }
  destruct (fast_reset_sets_tracked default writes _ Hfresh)
    as [[Hreg Hrange] Hlen].
  { simpl. by rewrite length_replicate. }
  simpl in Hlen. rewrite length_replicate in Hlen.
  set (a := fast_reset_sets default writes
              (FastResetArray.create default capacity)) in *.
  unfold FastResetArray.clear, FastResetArray.create. f_equal.
  apply list_eq. intros i. rewrite reset_positions_lookup, Hlen.
  destruct (decide (i ∈ FastResetArray._used_entries a)) as [Hin|Hnotin].
  - rewrite Forall_forall in Hrange. specialize (Hrange i Hin).
    rewrite Hlen in Hrange.
    destruct (decide (i < capacity)); [|lia].
    symmetry. by apply lookup_replicate_2.
  - destruct (FastResetArray._data a !! i) as [value|] eqn:Hlookup.
    + apply lookup_lt_Some in Hlookup as Hi. rewrite Hlen in Hi.
      destruct (decide (value = default)) as [->|Hne].
      * symmetry. by apply lookup_replicate_2.
      * exfalso. by eapply Hnotin, Hreg.
    + apply lookup_ge_None in Hlookup. rewrite Hlen in Hlookup.
      symmetry. apply lookup_ge_None_2. by rewrite length_replicate.
Qed.

Lemma clear_restores_fresh_witness :
  FastResetArray.clear 0%Z
    (fast_reset_sets 0%Z [(1, 7%Z); (3, 0%Z); (1, 2%Z); (3, 0%Z)]
                     (FastResetArray.create 0%Z 4))
  = FastResetArray.create 0%Z 4.
Proof.
  apply (clear_restores_fresh 0%Z 4 [(1, 7%Z); (3, 0%Z); (1, 2%Z); (3, 0%Z)]).
  repeat (apply Forall_cons; split; [simpl; lia|]). apply Forall_nil_2.
Defined.

Lemma fast_reset_set_exact {Value : Type} `{EqDecision Value}
    (default : Value) (pos : nat) (new_value : Value)
    (a : @FastResetArray.t Value) :
  new_value <> default ->
  pos < length (FastResetArray._data a) ->
  NoDup (FastResetArray._used_entries a) ->
  (forall p, p ∈ FastResetArray._used_entries a
             <-> exists x, FastResetArray._data a !! p = Some x
                           /\ x <> default) ->
  let a' := FastResetArray.set default pos new_value a in
  length (FastResetArray._data a') = length (FastResetArray._data a)
  /\ NoDup (FastResetArray._used_entries a')
  /\ (forall p, p ∈ FastResetArray._used_entries a'
                <-> exists x, FastResetArray._data a' !! p = Some x
                              /\ x <> default).
Proof.
  intros Hvalue Hpos Hnodup Hexact a'.
  destruct (lookup_lt_is_Some_2 (FastResetArray._data a) pos Hpos)
    as [old Hold].
  pose proof (@list_lookup_total_correct
                _ (FastResetArray.value_inhabited default) _ _ _ Hold)
    as Htotal.
  unfold a', FastResetArray.set, FastResetArray.access. rewrite Htotal.
  destruct (decide (old = default)) as [Hdef|Hdef]; simpl.
  - assert (Hfresh : pos ∉ FastResetArray._used_entries a).
    { intros Hin. apply Hexact in Hin as (x & Hx & Hxd). congruence. }
    split; [by rewrite length_insert|]. split.
    + apply NoDup_app. split; [done|]. split; [|apply NoDup_singleton].
      intros p Hp Hp'. apply list_elem_of_singleton in Hp'. by subst.
    + intros p. rewrite elem_of_app, list_elem_of_singleton.
      destruct (decide (p = pos)) as [->|Hne].
      * rewrite list_lookup_insert_eq by done. split; [eauto|]. by right.
      * rewrite list_lookup_insert_ne by done. rewrite Hexact.
        split; [intros [?|?]; done | by left].
  - split; [by rewrite length_insert|]. split; [done|].
    intros p. destruct (decide (p = pos)) as [->|Hne].
    + rewrite list_lookup_insert_eq by done. split; [eauto|].
      intros _. apply Hexact. eauto.
    + rewrite list_lookup_insert_ne by done. apply Hexact.
Qed.

(** X20.  When no default value is ever written, the registered entries
    are exactly the slots that hold a value: [entries()] lists every slot
    that differs from the default with its current value, lists nothing
    else, and lists no position twice. *)
Theorem entries_list_stored_values {Value : Type} `{EqDecision Value}
    (default : Value) (capacity : nat) (writes : list (nat * Value)) :
  Forall (fun w => fst w < capacity /\ snd w <> default) writes ->
  let a := fast_reset_sets default writes
             (FastResetArray.create default capacity) in
  NoDup (FastResetArray.used_entry_ids a)
  /\ forall pos value,
       (pos, value) ∈ FastResetArray.entries default a
       <-> FastResetArray._data a !! pos = Some value /\ value <> default.
Proof.
  intros Hwrites a.
  assert (Hexact :
            length (FastResetArray._data a) = capacity
            /\ NoDup (FastResetArray._used_entries a)
            /\ (forall p, p ∈ FastResetArray._used_entries a
                          <-> exists x, FastResetArray._data a !! p = Some x
                                        /\ x <> default)).
  { unfold a, fast_reset_sets.
    assert (Hinit :
              length (FastResetArray._data
                        (FastResetArray.create default capacity)) = capacity
              /\ NoDup (FastResetArray._used_entries
                          (FastResetArray.create default capacity))
              /\ (forall p,
                    p ∈ FastResetArray._used_entries
                          (FastResetArray.create default capacity)
                    <-> exists x,
                          FastResetArray._data
                            (FastResetArray.create default capacity) !! p
                          = Some x /\ x <> default)).
    { simpl. split; [apply length_replicate|]. split; [apply NoDup_nil_2|].
      intros p. split.
      - intros Hin. by apply elem_of_nil in Hin.
      - intros (x & Hx & Hxd). apply lookup_replicate_1 in Hx as [-> _].
        done. }
    revert Hinit.
    generalize (FastResetArray.create default capacity) as a0.
    induction writes as [|w writes IH]; intros a0 (Hlen & Hnodup & Hex);
      [done|].
    apply Forall_cons in Hwrites as [[Hpos Hvalue] Hwrites]. simpl.
    destruct (fast_reset_set_exact default (fst w) (snd w) a0 Hvalue)
      as (Hlen' & Hnodup' & Hex'); try done; [lia|].
    apply IH; [done|]. split; [lia | done]. }
  destruct Hexact as (Hlen & Hnodup & Hex).
  split; [exact Hnodup|].
  intros pos value. unfold FastResetArray.entries,
    FastResetArray.used_entry_ids.
  rewrite list_elem_of_In, in_map_iff. split.
  - intros (p & Hpair & Hin). injection Hpair as -> <-.
    apply list_elem_of_In, Hex in Hin as (x & Hx & Hxd).
    by rewrite (@list_lookup_total_correct
                  _ (FastResetArray.value_inhabited default) _ _ _ Hx).
  - intros [Hlookup Hvalue]. exists pos. split.
    + by rewrite (@list_lookup_total_correct
                    _ (FastResetArray.value_inhabited default) _ _ _ Hlookup).
    + apply list_elem_of_In, Hex. eauto.
Qed.

Lemma entries_list_stored_values_witness :
  let a := fast_reset_sets 0%Z [(1, 7%Z); (3, 5%Z); (1, 2%Z)]
                           (FastResetArray.create 0%Z 4) in
  NoDup (FastResetArray.used_entry_ids a)
  /\ forall pos value,
       (pos, value) ∈ FastResetArray.entries 0%Z a
       <-> FastResetArray._data a !! pos = Some value /\ value <> 0%Z.
Proof.
  apply (entries_list_stored_values 0%Z 4 [(1, 7%Z); (3, 5%Z); (1, 2%Z)]).
  repeat (apply Forall_cons; split; [simpl; split; [lia | discriminate]|]).
  apply Forall_nil_2.
Defined.

(** X21.  The concurrent fast-reset array resets exactly what the user
    marked: after [set_used_entries] and [clear] a marked slot holds the
    default value, a slot that was written but not marked still holds what
    was written, and no entry is marked any more. *)
Theorem concurrent_clear_resets_marked {Value : Type}
    (default : Value) (a : @ConcurrentFastResetArray.t Value)
    (used_entries : list nat) (pos : nat) :
  pos < length (ConcurrentFastResetArray._data a) ->
  let a' := ConcurrentFastResetArray.clear default
              (ConcurrentFastResetArray.set_used_entries used_entries a) in
  ConcurrentFastResetArray.get default a' pos
  = (if decide (pos ∈ used_entries) then default
     else ConcurrentFastResetArray.get default a pos)
  /\ ConcurrentFastResetArray._used_entries a' = []
  /\ length (ConcurrentFastResetArray._data a')
     = length (ConcurrentFastResetArray._data a).
Proof.
  intros Hpos a'.
  split; [|split; [reflexivity | apply reset_positions_length]].
  unfold a', ConcurrentFastResetArray.get, ConcurrentFastResetArray.clear,
    ConcurrentFastResetArray.set_used_entries.
  cbn [ConcurrentFastResetArray._data ConcurrentFastResetArray._used_entries].
  apply (@list_lookup_total_correct
           _ (ConcurrentFastResetArray.value_inhabited default)).
  rewrite reset_positions_lookup.
  destruct (decide (pos ∈ used_entries)).
  - by destruct (decide (pos < length (ConcurrentFastResetArray._data a))).
  - by apply (@list_lookup_lookup_total_lt
                _ (ConcurrentFastResetArray.value_inhabited default)).
Qed.

Lemma concurrent_clear_resets_marked_witness :
  let a' := ConcurrentFastResetArray.clear 0%Z
              (ConcurrentFastResetArray.set_used_entries [0]
                 (ConcurrentFastResetArray.set 2 9%Z
                    (ConcurrentFastResetArray.set 0 4%Z
                       (ConcurrentFastResetArray.create 0%Z 3)))) in
  ConcurrentFastResetArray.get 0%Z a' 2
  = (if decide (2 ∈ [0]) then 0%Z
     else ConcurrentFastResetArray.get 0%Z
            (ConcurrentFastResetArray.set 2 9%Z
               (ConcurrentFastResetArray.set 0 4%Z
                  (ConcurrentFastResetArray.create 0%Z 3))) 2)
  /\ ConcurrentFastResetArray._used_entries a' = []
  /\ length (ConcurrentFastResetArray._data a')
     = length (ConcurrentFastResetArray._data
                 (ConcurrentFastResetArray.set 2 9%Z
                    (ConcurrentFastResetArray.set 0 4%Z
                       (ConcurrentFastResetArray.create 0%Z 3)))).
Proof.
  apply (concurrent_clear_resets_marked 0%Z _ [0] 2).
  vm_compute. lia.
Defined.

(** ** Balancer: runs of the move set builder *)

Lemma is_assigned_insert (node_to_move_set : list (option NodeID))
    (u v : NodeID) (x : option NodeID) :
  v <> u ->
  is_assigned (<[u := x]> node_to_move_set) v
  = is_assigned node_to_move_set v.
Proof.
  intros Hne. unfold is_assigned. by rewrite list_lookup_insert_ne.
Qed.

Lemma sumZ_map_le {A} (f h : A -> Z) (l : list A) :
  (forall x, x ∈ l -> (f x <= h x)%Z) ->
  (sumZ (map f l) <= sumZ (map h l))%Z.
Proof.
  induction l as [|x l IH]; intros Hle; simpl; [lia|].
  pose proof (Hle x (list_elem_of_here _ _)).
  assert (sumZ (map f l) <= sumZ (map h l))%Z; [|lia].
  apply IH. intros y Hy. apply Hle. by apply list_elem_of_further.
Qed.

Section MoveSetsRuns.
Context {H : Type} `{BinaryMaxHeap.Ops H}.
Variable g : MoveSetBuilder.DistributedPartitionedGraph.
Variable max_weight : NodeWeight.

(** A call of [add_to_move_set] that returns stored within the arrays. *)
Lemma add_to_move_set_returns (u : NodeID) (b b' : @MoveSetBuilder.t H) :
  MoveSetBuilder.add_to_move_set g u b = MoveSetBuilder.Returns b' ->
  u < length (MoveSetBuilder._node_to_move_set b)
  /\ MoveSetBuilder._cur_pos b < length (MoveSetBuilder._move_sets b)
  /\ MoveSetBuilder._node_to_move_set b'
     = <[u := Some (MoveSetBuilder._cur_move_set b)]>
         (MoveSetBuilder._node_to_move_set b)
  /\ MoveSetBuilder._cur_move_set b' = MoveSetBuilder._cur_move_set b
  /\ MoveSetBuilder._frontier b' = MoveSetBuilder._frontier b
  /\ MoveSetBuilder._cur_weight b'
     = (MoveSetBuilder._cur_weight b + MoveSetBuilder.node_weight g u)%Z
  /\ MoveSetBuilder._move_set_indices b' = MoveSetBuilder._move_set_indices b
  /\ length (MoveSetBuilder._move_sets b')
     = length (MoveSetBuilder._move_sets b).
Proof.
  unfold MoveSetBuilder.add_to_move_set.
  destruct (Nat.ltb_spec u (length (MoveSetBuilder._node_to_move_set b)));
    [|done].
  destruct (Nat.ltb_spec (MoveSetBuilder._cur_pos b)
              (length (MoveSetBuilder._move_sets b))); [|done].
  simpl. destruct (fold_left _ _ _) as [cur_block_conn cur_conns].
  intros [= <-]. simpl. by rewrite length_insert.
Qed.

Lemma push_neighbor_stuck (bu : BlockID) (l : list (NodeID * EdgeWeight))
    (acc : MoveSetBuilder.Outcome H) (frontier : H) :
  fold_left (MoveSetBuilder.push_neighbor g bu) l acc
  = MoveSetBuilder.Returns frontier ->
  exists frontier0, acc = MoveSetBuilder.Returns frontier0.
Proof.
  revert acc. induction l as [|e l IH]; intros acc Hrun; simpl in Hrun.
  - by exists frontier.
  - apply IH in Hrun as [frontier1 Hstep].
    destruct acc as [frontier0| |]; [by exists frontier0|done|done].
Qed.

(** The loop of [finish_move_set] only takes nodes out of their set. *)
Lemma unassign_returns (b : @MoveSetBuilder.t H) (positions : list nat)
    (acc : MoveSetBuilder.Outcome (list (option NodeID)))
    (node_to_move_set' : list (option NodeID)) :
  fold_left (MoveSetBuilder.unassign b) positions acc
  = MoveSetBuilder.Returns node_to_move_set' ->
  exists node_to_move_set,
    acc = MoveSetBuilder.Returns node_to_move_set
    /\ forall u, node_to_move_set' !! u = node_to_move_set !! u
                 \/ node_to_move_set' !! u = Some None.
Proof.
  revert acc. induction positions as [|pos positions IH]; intros acc Hrun;
    simpl in Hrun.
  - exists node_to_move_set'. split; [done|]. intros u. by left.
  - apply IH in Hrun as (n1 & Hstep & Hrel).
    destruct acc as [n0| |]; [|done|done]. exists n0. split; [done|].
    simpl in Hstep.
    destruct (MoveSetBuilder._move_sets b !! pos) as [[v|]|]; [|done|done].
    destruct (Nat.ltb_spec v (length n0)) as [Hv|_]; [|done].
    injection Hstep as <-. intros u.
    destruct (Hrel u) as [Hu|Hu]; [|by right]. rewrite Hu.
    destruct (decide (u = v)) as [->|Hne].
    + right. by apply list_lookup_insert_eq.
    + left. by apply list_lookup_insert_ne.
Qed.

Lemma unassign_ends (b : @MoveSetBuilder.t H) (positions : list nat)
    (acc : MoveSetBuilder.Outcome (list (option NodeID))) :
  acc <> MoveSetBuilder.OutOfFuel ->
  fold_left (MoveSetBuilder.unassign b) positions acc
  <> MoveSetBuilder.OutOfFuel.
Proof.
  revert acc. induction positions as [|pos positions IH]; intros acc Hacc;
    simpl; [done|].
  apply IH. destruct acc as [n0| |]; simpl; [|done|done].
  destruct (MoveSetBuilder._move_sets b !! pos) as [[v|]|]; [|done|done].
  by destruct (v <? length n0).
Qed.

(** A call of [finish_move_set] that returns. *)
Lemma finish_move_set_returns (b b' : @MoveSetBuilder.t H) :
  MoveSetBuilder.finish_move_set g b = MoveSetBuilder.Returns b' ->
  (forall u, MoveSetBuilder._node_to_move_set b' !! u
             = MoveSetBuilder._node_to_move_set b !! u
             \/ MoveSetBuilder._node_to_move_set b' !! u = Some None)
  /\ MoveSetBuilder._move_sets b' = MoveSetBuilder._move_sets b
  /\ MoveSetBuilder._move_set_indices b'
     = <[MoveSetBuilder._cur_move_set b + 1 :=
           MoveSetBuilder._move_set_indices b
             !!! MoveSetBuilder._cur_move_set b
           + MoveSetBuilder._best_prefix_pos b]>
         (MoveSetBuilder._move_set_indices b)
  /\ MoveSetBuilder._cur_move_set b' = MoveSetBuilder._cur_move_set b + 1
  /\ MoveSetBuilder._frontier b' = MoveSetBuilder._frontier b
  /\ MoveSetBuilder._cur_weight b' = MoveSetBuilder._cur_weight b.
Proof.
  unfold MoveSetBuilder.finish_move_set.
  destruct (fold_left _ _ _) as [n2ms| |] eqn:Hloop; [|done|done].
  destruct (negb _); [done|]. intros [= <-]. simpl.
  apply unassign_returns in Hloop as (n0 & [= <-] & Hrel). done.
Qed.

Lemma finish_move_set_ends (b : @MoveSetBuilder.t H) :
  MoveSetBuilder.finish_move_set g b <> MoveSetBuilder.OutOfFuel.
Proof.
  unfold MoveSetBuilder.finish_move_set.
  pose proof (unassign_ends b
                (seq (MoveSetBuilder._best_prefix_pos b)
                     (MoveSetBuilder._cur_pos b
                      - MoveSetBuilder._best_prefix_pos b))
                (MoveSetBuilder.Returns (MoveSetBuilder._node_to_move_set b)))
    as Hloop.
  destruct (fold_left _ _ _) as [n2ms| |]; [|done|by destruct Hloop].
  by destruct (negb _).
Qed.

(** Whatever is to be shown of the builder after the while loop of
    [grow_move_set] need only be kept by one iteration that returns. *)
Lemma grow_loop_invariant (P : @MoveSetBuilder.t H -> Prop) (fuel : nat)
    (b b' : @MoveSetBuilder.t H) :
  (forall b b2 frontier,
     P b ->
     BinaryMaxHeap.empty (MoveSetBuilder._frontier b) = false ->
     (MoveSetBuilder._cur_weight b < max_weight)%Z ->
     MoveSetBuilder.add_to_move_set g
       (BinaryMaxHeap.peek_id (MoveSetBuilder._frontier b))
       (MoveSetBuilder.with_frontier
          (BinaryMaxHeap.pop (MoveSetBuilder._frontier b)) b)
     = MoveSetBuilder.Returns b2 ->
     fold_left
       (MoveSetBuilder.push_neighbor g
          (block (MoveSetBuilder.p_graph g)
                 (BinaryMaxHeap.peek_id (MoveSetBuilder._frontier b))))
       (neighbors (graph (MoveSetBuilder.p_graph g))
                  (BinaryMaxHeap.peek_id (MoveSetBuilder._frontier b)))
       (MoveSetBuilder.Returns (MoveSetBuilder._frontier b2))
     = MoveSetBuilder.Returns frontier ->
     P (MoveSetBuilder.with_frontier frontier b2)) ->
  MoveSetBuilder.grow_loop g fuel max_weight b = MoveSetBuilder.Returns b' ->
  P b ->
  P b'
  /\ (BinaryMaxHeap.empty (MoveSetBuilder._frontier b') = true
      \/ (max_weight <= MoveSetBuilder._cur_weight b')%Z).
Proof.
  intros Hstep. revert b.
  induction fuel as [|fuel IH]; intros b Hrun HP; simpl in Hrun;
    destruct (BinaryMaxHeap.empty (MoveSetBuilder._frontier b)) eqn:Hempty;
    simpl in Hrun;
    try (injection Hrun as <-; split; [done | by left]);
    destruct (Z.ltb_spec (MoveSetBuilder._cur_weight b) max_weight)
      as [Hlt|Hge];
    try (injection Hrun as <-; split; [done | by right]);
    [done|].
  destruct (MoveSetBuilder.add_to_move_set _ _ _) as [b2| |] eqn:Hadd;
    [|done|done].
  destruct (fold_left _ _ _) as [frontier| |] eqn:Hpush; [|done|done].
  apply IH in Hrun; [done|]. by apply (Hstep b b2 frontier).
Qed.

Lemma build_node_stuck (fuel : nat) (nodes : list NodeID)
    (acc : MoveSetBuilder.Outcome (@MoveSetBuilder.t H))
    (b' : @MoveSetBuilder.t H) :
  fold_left (MoveSetBuilder.build_node g fuel max_weight) nodes acc
  = MoveSetBuilder.Returns b' ->
  exists b, acc = MoveSetBuilder.Returns b.
Proof.
  revert acc. induction nodes as [|u nodes IH]; intros acc Hrun;
    simpl in Hrun.
  - by exists b'.
  - apply IH in Hrun as [b1 Hstep].
    destruct acc as [b| |]; [by exists b|done|done].
Qed.

(** Whatever is to be shown of the builder after [build] need only be kept
    by a set that is grown and by a node that is passed over; [processed]
    are the nodes that [build] has visited. *)
Lemma build_nodes_invariant
    (P : list NodeID -> @MoveSetBuilder.t H -> Prop) (fuel : nat)
    (nodes processed : list NodeID) (b b' : @MoveSetBuilder.t H) :
  (forall processed b u b1,
     P processed b -> u < MoveSetBuilder.dist_n g ->
     MoveSetBuilder.starts_move_set g b u = true ->
     MoveSetBuilder.grow_move_set g fuel u max_weight b
     = MoveSetBuilder.Returns b1 ->
     P (processed ++ [u]) b1) ->
  (forall processed b u,
     P processed b -> u < MoveSetBuilder.dist_n g ->
     MoveSetBuilder.starts_move_set g b u = false ->
     P (processed ++ [u]) b) ->
  fold_left (MoveSetBuilder.build_node g fuel max_weight) nodes
            (MoveSetBuilder.Returns b)
  = MoveSetBuilder.Returns b' ->
  Forall (fun u => u < MoveSetBuilder.dist_n g) nodes ->
  P processed b ->
  P (processed ++ nodes) b'.
Proof.
  intros Hgrow Hskip. revert processed b.
  induction nodes as [|u nodes IH]; intros processed b Hrun Hnodes HP.
  - simpl in Hrun. injection Hrun as <-. by rewrite app_nil_r.
  - apply Forall_cons in Hnodes as [Hu Hnodes]. simpl in Hrun.
    replace (processed ++ u :: nodes) with ((processed ++ [u]) ++ nodes)
      by (by rewrite <- app_assoc).
    destruct (MoveSetBuilder.starts_move_set g b u) eqn:Hstart.
    + destruct (build_node_stuck _ _ _ _ Hrun) as [b1 Hb1].
      rewrite Hb1 in Hrun. apply (IH _ b1); [done | done |].
      by apply (Hgrow processed b u).
    + apply (IH _ b); [done | done |]. by apply Hskip.
Qed.

(** The while loop leaves the index array, the number of the set and the
    size of [_move_sets] as they are. *)
Lemma grow_loop_indices (fuel : nat) (b b' : @MoveSetBuilder.t H) :
  MoveSetBuilder.grow_loop g fuel max_weight b = MoveSetBuilder.Returns b' ->
  MoveSetBuilder._move_set_indices b' = MoveSetBuilder._move_set_indices b
  /\ MoveSetBuilder._cur_move_set b' = MoveSetBuilder._cur_move_set b
  /\ length (MoveSetBuilder._move_sets b')
     = length (MoveSetBuilder._move_sets b).
Proof.
  intros Hrun.
  apply (grow_loop_invariant
           (fun b1 =>
              MoveSetBuilder._move_set_indices b1
              = MoveSetBuilder._move_set_indices b
              /\ MoveSetBuilder._cur_move_set b1
                 = MoveSetBuilder._cur_move_set b
              /\ length (MoveSetBuilder._move_sets b1)
                 = length (MoveSetBuilder._move_sets b)) fuel b b');
    [|done|done].
  intros b1 b2 frontier (Hi & Hc & Hl) _ _ Hadd _.
  apply add_to_move_set_returns in Hadd
    as (_ & _ & _ & Ec & _ & _ & Ei & El).
  simpl in *. by rewrite Ei, Ec, El.
Qed.
End MoveSetsRuns.

Section MoveSetsFrontier.
Context {H : Type} `{BinaryMaxHeap.Laws H}.
Variable g : MoveSetBuilder.DistributedPartitionedGraph.
Variable max_weight : NodeWeight.

(** A node that the neighbour loop of [grow_move_set] brings to the
    frontier is an owned node in the block of the node just added. *)
Lemma push_neighbors_returns (bu : BlockID)
    (l : list (NodeID * EdgeWeight)) (frontier frontier' : H) :
  fold_left (MoveSetBuilder.push_neighbor g bu) l
            (MoveSetBuilder.Returns frontier)
  = MoveSetBuilder.Returns frontier' ->
  forall x, x ∈ BinaryMaxHeap.ids frontier' ->
    x ∈ BinaryMaxHeap.ids frontier
    \/ (x < MoveSetBuilder.dist_n g
        /\ block (MoveSetBuilder.p_graph g) x = bu).
Proof.
  revert frontier. induction l as [|e l IH]; intros frontier Hrun x Hx.
  - simpl in Hrun. injection Hrun as <-. by left.
  - simpl in Hrun.
    destruct (Nat.eqb_spec (block (MoveSetBuilder.p_graph g) (fst e)) bu)
      as [Hblock|_].
    + destruct (Nat.ltb_spec (fst e) (MoveSetBuilder.dist_n g))
        as [Howned|_]; simpl in Hrun.
      * destruct (BinaryMaxHeap.contains frontier (fst e)).
        -- destruct (IH _ Hrun x Hx) as [Hin|Hnew]; [|by right].
           left. by apply BinaryMaxHeap.ids_decrease_priority in Hin.
        -- destruct (IH _ Hrun x Hx) as [Hin|Hnew]; [|by right].
           apply BinaryMaxHeap.ids_push in Hin as [->|Hin];
             [by right | by left].
      * by apply push_neighbor_stuck in Hrun as [frontier0 [=]].
    + by apply (IH frontier).
Qed.

Lemma sets_in_seed_blocks_snoc (seeds : list NodeID) (seed : NodeID)
    (node_to_move_set : list (option NodeID)) :
  sets_in_seed_blocks g seeds node_to_move_set ->
  sets_in_seed_blocks g (seeds ++ [seed]) node_to_move_set.
Proof.
  intros Hsets u s Hu. destruct (Hsets u s Hu) as (seed' & Hs & Hb).
  exists seed'. split; [by apply lookup_app_l_Some | done].
Qed.

(** The while loop keeps [growing] and is left with an empty frontier or
    a full set. *)
Lemma grow_loop_growing (seeds : list NodeID) (seed : NodeID) (fuel : nat)
    (b b' : @MoveSetBuilder.t H) :
  MoveSetBuilder.grow_loop g fuel max_weight b = MoveSetBuilder.Returns b' ->
  growing g max_weight seeds seed b ->
  growing g max_weight seeds seed b'
  /\ (BinaryMaxHeap.ids (MoveSetBuilder._frontier b') = []
      \/ (max_weight <= MoveSetBuilder._cur_weight b')%Z).
Proof.
  intros Hrun Hgrow.
  destruct (grow_loop_invariant g max_weight
              (growing g max_weight seeds seed) fuel b b')
    as [Hgrow' Hleft]; [|done|done|].
  - clear Hrun Hgrow.
    intros b0 b2 frontier (Hset & Hfrontier & Hsets) Hempty Hlt Hadd Hpush.
    destruct Hfrontier as [Hfrontier|Hfull]; [|lia].
    pose proof (BinaryMaxHeap.peek_id_held _ Hempty) as Hpeek.
    apply Hfrontier in Hpeek.
    apply add_to_move_set_returns in Hadd
      as (_ & _ & En & Es & Ef & _).
    simpl in Es, Ef, En.
    split; [|split]; simpl.
    + by rewrite Es.
    + left. intros x Hx.
      destruct (push_neighbors_returns _ _ _ _ Hpush x Hx) as [Hx'|[_ Hx']].
      * rewrite Ef in Hx'. apply BinaryMaxHeap.ids_pop in Hx'.
        by apply Hfrontier.
      * by rewrite Hx'.
    + rewrite En. intros u s Hu.
      apply list_lookup_insert_Some in Hu
        as [(<- & [= <-] & _)|[_ Hu]]; [|by apply Hsets].
      exists seed. split; [|done].
      rewrite Hset. apply list_lookup_middle. reflexivity.
  - split; [done|]. destruct Hleft as [Hempty|Hfull]; [|by right].
    left. by apply BinaryMaxHeap.ids_empty.
Qed.

Lemma grow_move_set_between (seeds : list NodeID) (seed : NodeID)
    (fuel : nat) (b b' : @MoveSetBuilder.t H) :
  MoveSetBuilder.grow_move_set g fuel seed max_weight b
  = MoveSetBuilder.Returns b' ->
  seed < MoveSetBuilder.dist_n g -> overloaded g seed ->
  between_sets g max_weight seeds b ->
  between_sets g max_weight (seeds ++ [seed]) b'.
Proof.
  unfold MoveSetBuilder.grow_move_set.
  intros Hrun Hseed Hover (Hset & Hseeds & Hsets & Hidle).
  destruct (MoveSetBuilder.grow_loop _ _ _ _) as [b1| |] eqn:Hloop;
    [|done|done].
  apply finish_move_set_returns in Hrun
    as (Hrel & _ & _ & Hset' & Hfrontier' & Hweight').
  apply (grow_loop_growing seeds seed) in Hloop
    as [(Hset1 & _ & Hsets1) Hidle1].
  - split; [|split; [|split]].
    + rewrite Hset', Hset1, length_app. simpl. lia.
    + apply Forall_app. split; [done|]. by constructor.
    + intros u s Hu. apply Hsets1.
      destruct (Hrel u) as [Hu'|Hu']; rewrite Hu' in Hu; [done|].
      by injection Hu.
    + by rewrite Hfrontier', Hweight'.
  - split; [|split]; simpl.
    + done.
    + destruct Hidle as [Hnone|Hfull]; [|by right].
      left. intros x Hx. apply BinaryMaxHeap.ids_push in Hx as [->|Hx];
        [done|]. rewrite Hnone in Hx. by apply elem_of_nil in Hx.
    + by apply sets_in_seed_blocks_snoc.
Qed.

Lemma create_between (garbage : nat) :
  between_sets g max_weight [] (MoveSetBuilder.create g garbage).
Proof.
  split; [reflexivity|]. split; [constructor|]. split.
  - intros u s Hu. simpl in Hu.
    apply lookup_replicate in Hu as [[=] _].
  - left. simpl. apply BinaryMaxHeap.ids_create.
Qed.
End MoveSetsFrontier.

(** X29.  What the builder records in [_node_to_move_set] respects the
    blocks: in every result of a run that stays within its arrays, each
    set has a seed, an owned node of an overloaded block at which [build]
    started the set, and every node that [_node_to_move_set] assigns to
    the set lies in the block of that seed.  (The sets that the index
    array delimits in [_move_sets] are another matter.) *)
Theorem assigned_nodes_in_seed_block
    {H : Type} `{BinaryMaxHeap.Laws H}
    (g : MoveSetBuilder.DistributedPartitionedGraph)
    (fuel garbage : nat) (max_move_set_weight : NodeWeight)
    (sets : MoveSetBuilder.MoveSets) :
  MoveSetBuilder.build_greedy_move_sets (H := H) g fuel garbage
    max_move_set_weight = MoveSetBuilder.Returns sets ->
  exists seeds : list NodeID,
    Forall (fun seed => seed < MoveSetBuilder.dist_n g /\ overloaded g seed)
           seeds
    /\ forall u s,
         MoveSetBuilder.ms_node_to_move_set sets !! u = Some (Some s) ->
         exists seed,
           seeds !! s = Some seed
           /\ block (MoveSetBuilder.p_graph g) u
              = block (MoveSetBuilder.p_graph g) seed.
Proof.
  unfold MoveSetBuilder.build_greedy_move_sets, MoveSetBuilder.build.
  intros Hrun.
  destruct (fold_left _ _ _) as [b| |] eqn:Hbuild; [|done|done].
  injection Hrun as <-.
  apply (build_nodes_invariant g max_move_set_weight
           (fun _ b => exists seeds, between_sets g max_move_set_weight
                                                  seeds b)
           fuel _ []) in Hbuild as (seeds & _ & Hseeds & Hsets & _).
  - exists seeds. split; [exact Hseeds | exact Hsets].
  - intros _ b0 u b1 [seeds Hbetween] Hu Hstart Hgrow.
    exists (seeds ++ [u]).
    apply (grow_move_set_between g max_move_set_weight seeds u fuel b0);
      try done.
    unfold MoveSetBuilder.starts_move_set in Hstart.
    apply andb_prop in Hstart as [Hover _]. by apply Z.ltb_lt in Hover.
  - intros _ b0 u Hbetween _ _. exact Hbetween.
  - apply Forall_forall. intros u Hu.
    apply list_elem_of_In, in_seq in Hu. lia.
  - exists []. apply create_between.
Qed.

Lemma assigned_nodes_in_seed_block_witness :
  exists seeds : list NodeID,
    Forall (fun seed => seed < MoveSetBuilder.dist_n path8_partitioned
                        /\ overloaded path8_partitioned seed) seeds
    /\ forall u s,
         MoveSetBuilder.ms_node_to_move_set path8_move_sets !! u
         = Some (Some s) ->
         exists seed,
           seeds !! s = Some seed
           /\ block (MoveSetBuilder.p_graph path8_partitioned) u
              = block (MoveSetBuilder.p_graph path8_partitioned) seed.
Proof.
  apply (assigned_nodes_in_seed_block (H := BinaryMaxHeap.ListHeap)
           path8_partitioned 8 0 2%Z path8_move_sets).
  vm_compute. reflexivity.
Defined.

(** ** Balancer: the weight of the move sets *)

Section MoveSetsWeight.
Context {H : Type} `{BinaryMaxHeap.Laws H}.
Variable g : MoveSetBuilder.DistributedPartitionedGraph.
Variable max_weight max_node_weight : NodeWeight.
Hypothesis weights : positive_weights g.
Hypothesis weights_bounded :
  forall u, u < MoveSetBuilder.dist_n g ->
            (MoveSetBuilder.node_weight g u <= max_node_weight)%Z.

Lemma assigned_weight_assign (node_to_move_set : list (option NodeID))
    (u s : NodeID) :
  (0 <= MoveSetBuilder.node_weight g u)%Z ->
  (assigned_weight g (<[u := Some s]> node_to_move_set)
   <= assigned_weight g node_to_move_set + MoveSetBuilder.node_weight g u)%Z.
Proof.
  intros Hpos. unfold assigned_weight.
  rewrite (sumZ_point_update
             (fun v => counted (is_assigned (<[u := Some s]> node_to_move_set)
                                            v)
                               (MoveSetBuilder.node_weight g v))
             (fun v => counted (is_assigned node_to_move_set v)
                               (MoveSetBuilder.node_weight g v))
             u)
    by (intros v Hv; by rewrite is_assigned_insert).
  unfold counted.
  destruct (u <? MoveSetBuilder.dist_n g),
           (is_assigned (<[u := Some s]> node_to_move_set) u),
           (is_assigned node_to_move_set u); lia.
Qed.

Lemma assigned_weight_unassigned
    (node_to_move_set node_to_move_set' : list (option NodeID)) :
  (forall u, node_to_move_set' !! u = node_to_move_set !! u
             \/ node_to_move_set' !! u = Some None) ->
  (assigned_weight g node_to_move_set'
   <= assigned_weight g node_to_move_set)%Z.
Proof.
  intros Hrel. unfold assigned_weight. apply sumZ_map_le.
  intros u Hu. apply list_elem_of_In, in_seq in Hu.
  pose proof (weights u ltac:(lia)) as Hpos.
  unfold counted, is_assigned.
  destruct (Hrel u) as [->| ->]; [lia|].
  destruct (node_to_move_set !! u) as [[s|]|]; lia.
Qed.

Lemma grow_loop_weight (fuel : nat) (b b' : @MoveSetBuilder.t H) :
  MoveSetBuilder.grow_loop g fuel max_weight b = MoveSetBuilder.Returns b' ->
  frontier_owned g b ->
  weight_accounted g max_weight max_node_weight b ->
  frontier_owned g b'
  /\ weight_accounted g max_weight max_node_weight b'.
Proof.
  intros Hrun Howned Hacc.
  apply (grow_loop_invariant g max_weight
           (fun b1 => frontier_owned g b1
                      /\ weight_accounted g max_weight max_node_weight b1)
           fuel b b'); [|done|done].
  clear Hrun Howned Hacc b b'.
  intros b b2 frontier [Howned [Hassigned Hcur]] Hempty Hlt Hadd Hpush.
  pose proof (BinaryMaxHeap.peek_id_held _ Hempty) as Hpeek.
  apply Howned in Hpeek.
  pose proof (weights _ Hpeek) as Hpos.
  pose proof (weights_bounded _ Hpeek) as Hmax.
  apply add_to_move_set_returns in Hadd as (_ & _ & En & _ & Ef & Ew & _).
  simpl in En, Ef, Ew. split.
  - intros x Hx. simpl in Hx.
    destruct (push_neighbors_returns g _ _ _ _ Hpush x Hx) as [Hx'|[Hx' _]];
      [|done].
    rewrite Ef in Hx'. apply BinaryMaxHeap.ids_pop in Hx'. by apply Howned.
  - unfold weight_accounted. simpl. rewrite En, Ew. split; [|lia].
    etransitivity; [apply assigned_weight_assign; lia|]. lia.
Qed.

Lemma grow_move_set_weight (fuel : nat) (seed : NodeID)
    (b b' : @MoveSetBuilder.t H) :
  MoveSetBuilder.grow_move_set g fuel seed max_weight b
  = MoveSetBuilder.Returns b' ->
  seed < MoveSetBuilder.dist_n g ->
  frontier_owned g b ->
  weight_accounted g max_weight max_node_weight b ->
  frontier_owned g b'
  /\ weight_accounted g max_weight max_node_weight b'.
Proof.
  unfold MoveSetBuilder.grow_move_set. intros Hrun Hseed Howned Hacc.
  destruct (MoveSetBuilder.grow_loop _ _ _ _) as [b1| |] eqn:Hloop;
    [|done|done].
  apply finish_move_set_returns in Hrun
    as (Hrel & _ & _ & _ & Hfrontier' & Hweight').
  apply grow_loop_weight in Hloop as [Howned1 [Hassigned1 Hcur1]].
  - split.
    + unfold frontier_owned. by rewrite Hfrontier'.
    + split; rewrite Hweight'; [|done].
      etransitivity; [by apply assigned_weight_unassigned | done].
  - intros x Hx. simpl in Hx.
    apply BinaryMaxHeap.ids_push in Hx as [->|Hx]; [done | by apply Howned].
  - done.
Qed.
End MoveSetsWeight.

(** X22.  The weight counter of the builder is not reset between sets, so
    the cap holds for all sets together: in every result of a run of
    [build_greedy_move_sets] that stays within its arrays, the nodes that
    are assigned to a move set weigh, all sets taken together, less than
    [max_move_set_weight] plus the weight of the heaviest owned node. *)
Theorem move_sets_share_one_cap {H : Type} `{BinaryMaxHeap.Laws H}
    (g : MoveSetBuilder.DistributedPartitionedGraph)
    (fuel garbage : nat) (max_move_set_weight max_node_weight : NodeWeight)
    (sets : MoveSetBuilder.MoveSets) :
  positive_weights g ->
  (0 <= max_node_weight)%Z ->
  (forall u, u < MoveSetBuilder.dist_n g ->
             (MoveSetBuilder.node_weight g u <= max_node_weight)%Z) ->
  (0 < max_move_set_weight)%Z ->
  MoveSetBuilder.build_greedy_move_sets (H := H) g fuel garbage
    max_move_set_weight = MoveSetBuilder.Returns sets ->
  (assigned_weight g (MoveSetBuilder.ms_node_to_move_set sets)
   < max_move_set_weight + max_node_weight)%Z.
Proof.
  intros Hweights Hnode Hbounded Hcap.
  unfold MoveSetBuilder.build_greedy_move_sets, MoveSetBuilder.build.
  intros Hrun.
  destruct (fold_left _ _ _) as [b| |] eqn:Hbuild; [|done|done].
  injection Hrun as <-. simpl.
  apply (build_nodes_invariant g max_move_set_weight
           (fun _ b =>
              frontier_owned g b
              /\ weight_accounted g max_move_set_weight max_node_weight b)
           fuel _ []) in Hbuild as [_ [Hassigned Hcur]].
  - lia.
  - intros _ b0 u b1 [Howned Hacc] Hu _ Hgrow.
    by apply (grow_move_set_weight g max_move_set_weight max_node_weight
                Hweights Hbounded fuel u b0).
  - intros _ b0 u Hkept _ _. exact Hkept.
  - apply Forall_forall. intros u Hu.
    apply list_elem_of_In, in_seq in Hu. lia.
  - split.
    + intros x Hx. simpl in Hx. rewrite BinaryMaxHeap.ids_create in Hx.
      by apply elem_of_nil in Hx.
    + split; simpl; [|lia].
      unfold assigned_weight.
      rewrite (sumZ_map_ext _ (fun _ => 0%Z)); [by rewrite sumZ_map_zero|].
      intros u Hu. unfold is_assigned.
      apply list_elem_of_In, in_seq in Hu.
      rewrite lookup_replicate_2 by lia. reflexivity.
Qed.

Lemma path8_positive_weights : positive_weights path8_partitioned.
Proof.
  intros u Hu. do 8 (destruct u as [|u]; [vm_compute; discriminate|]).
  vm_compute in Hu. lia.
Qed.

(** Sets of weight at most 2 on a block of weight 6: the five sets that
    are started hold two nodes in all. *)
Lemma move_sets_share_one_cap_witness :
  (assigned_weight path8_partitioned
     (MoveSetBuilder.ms_node_to_move_set path8_move_sets)
   < 2 + 1)%Z.
Proof.
  apply (move_sets_share_one_cap (H := BinaryMaxHeap.ListHeap)
           path8_partitioned 8 0 2%Z 1%Z path8_move_sets
           path8_positive_weights).
  - lia.
  - intros u Hu. do 8 (destruct u as [|u]; [vm_compute; discriminate|]).
    vm_compute in Hu. lia.
  - lia.
  - vm_compute. reflexivity.
Defined.

(** ** Balancer: the index array of the result *)

(** X23.  In every result of a run of [build_greedy_move_sets] that stays
    within its arrays, the index array ends with the number of nodes,
    which is the size of [_move_sets].  It starts with 0, as the
    constructor of [MoveSets] asserts, exactly when a set was started,
    that is, when some owned node lies in an overloaded block, or when the
    graph has no node; without an overloaded block it is the single entry
    [n]. *)
Theorem move_sets_index_bounds {H : Type} `{BinaryMaxHeap.Ops H}
    (g : MoveSetBuilder.DistributedPartitionedGraph)
    (fuel garbage : nat) (max_move_set_weight : NodeWeight)
    (sets : MoveSetBuilder.MoveSets) :
  MoveSetBuilder.build_greedy_move_sets (H := H) g fuel garbage
    max_move_set_weight = MoveSetBuilder.Returns sets ->
  last (MoveSetBuilder.ms_move_set_indices sets)
  = Some (length (MoveSetBuilder.ms_move_sets sets))
  /\ length (MoveSetBuilder.ms_move_sets sets) = MoveSetBuilder.dist_n g
  /\ (head (MoveSetBuilder.ms_move_set_indices sets) = Some 0
      <-> MoveSetBuilder.dist_n g = 0
          \/ exists u, u < MoveSetBuilder.dist_n g /\ overloaded g u)
  /\ ((forall u, u < MoveSetBuilder.dist_n g -> ~ overloaded g u) ->
      MoveSetBuilder.ms_move_set_indices sets = [MoveSetBuilder.dist_n g]).
Proof.
  unfold MoveSetBuilder.build_greedy_move_sets, MoveSetBuilder.build.
  intros Hrun.
  destruct (fold_left _ _ _) as [b| |] eqn:Hbuild; [|done|done].
  injection Hrun as <-.
  apply (build_nodes_invariant g max_move_set_weight
           (fun processed b =>
              length (MoveSetBuilder._move_sets b) = MoveSetBuilder.dist_n g
              /\ MoveSetBuilder._move_set_indices b !! 0 = Some 0
              /\ ((MoveSetBuilder._cur_move_set b = 0
                   /\ (forall u, MoveSetBuilder._node_to_move_set b !!! u
                                 = None)
                   /\ Forall (fun u => ~ overloaded g u) processed)
                  \/ (1 <= MoveSetBuilder._cur_move_set b
                      /\ Exists (overloaded g) processed)))
           fuel _ []) in Hbuild as (Hlen & Hzero & Hsets).
  2:{ intros processed b0 u b1 (Hlen & Hzero & Hsets) Hu Hstart Hgrow.
      unfold MoveSetBuilder.grow_move_set in Hgrow.
      destruct (MoveSetBuilder.grow_loop _ _ _ _) as [b2| |] eqn:Hloop;
        [|done|done].
      apply finish_move_set_returns in Hgrow
        as (_ & Hsets' & Hindices' & Hset' & _).
      apply grow_loop_indices in Hloop as (Hi & Hc & Hl).
      simpl in Hi, Hc, Hl.
      split; [by rewrite Hsets', Hl|].
      split; [rewrite Hindices', list_lookup_insert_ne by lia;
              by rewrite Hi|].
      right. split; [lia|].
      apply Exists_app. right. apply Exists_cons. left.
      unfold MoveSetBuilder.starts_move_set in Hstart.
      apply andb_prop in Hstart as [Hover _].
      by apply Z.ltb_lt in Hover. }
  2:{ intros processed b0 u (Hlen & Hzero & Hsets) Hu Hstart.
      split; [done|]. split; [done|].
      destruct Hsets as [(Hc & Hnone & Hprocessed)|[Hc Hsome]].
      - left. split; [done|]. split; [done|].
        apply Forall_app. split; [done|]. apply Forall_singleton.
        intros Hover. unfold MoveSetBuilder.starts_move_set in Hstart.
        apply andb_false_iff in Hstart as [Hf|Hf].
        + apply Z.ltb_ge in Hf. unfold overloaded in Hover. lia.
        + apply bool_decide_eq_false in Hf. by apply Hf.
      - right. split; [done|]. apply Exists_app. by left. }
  2:{ apply Forall_forall. intros u Hu.
      apply list_elem_of_In, in_seq in Hu. lia. }
  2:{ split; [simpl; apply length_replicate|]. split; [reflexivity|].
      left. split; [reflexivity|]. split; [|apply Forall_nil_2].
      intros u. simpl. rewrite list_lookup_total_alt.
      destruct (replicate (MoveSetBuilder.dist_n g) None !! u) as [x|] eqn:Hx;
        [|done].
      by apply lookup_replicate_1 in Hx as [-> _]. }
  simpl in Hsets. unfold MoveSetBuilder.finalize. simpl.
  set (c := MoveSetBuilder._cur_move_set b) in *.
  set (n := MoveSetBuilder.dist_n g) in *.
  set (indices := MoveSetBuilder._move_set_indices b) in *.
  assert (Hsize : length (resize (c + 1) 0 indices) = c + 1)
    by apply length_resize.
  split; [|split; [done|split]].
  - rewrite last_lookup, length_insert, Hsize, Hlen.
    replace (pred (c + 1)) with c by lia.
    apply list_lookup_insert_eq. lia.
  - rewrite head_lookup.
    destruct Hsets as [(Hc & _ & Hnone)|[Hc Hsome]].
    + rewrite Hc. simpl.
      destruct indices as [|i0 indices']; simpl.
      * split.
        -- intros [= ->]. by left.
        -- intros [->|(u & Hu & Hover)]; [done|].
           rewrite Forall_forall in Hnone. exfalso.
           apply (Hnone u); [|done]. apply list_elem_of_In, in_seq. lia.
      * split.
        -- intros [= ->]. by left.
        -- intros [->|(u & Hu & Hover)]; [done|].
           rewrite Forall_forall in Hnone. exfalso.
           apply (Hnone u); [|done]. apply list_elem_of_In, in_seq. lia.
    + rewrite list_lookup_insert_ne by lia.
      rewrite lookup_resize; [|lia|by eapply lookup_lt_Some].
      split; [|done]. intros _. right.
      apply Exists_exists in Hsome as (u & Hu & Hover).
      exists u. split; [|done].
      apply list_elem_of_In, in_seq in Hu. lia.
  - intros Hnone.
    destruct Hsets as [(Hc & _)|[Hc Hsome]].
    + rewrite Hc. simpl. clear. generalize indices.
      intros [|i0 l]; simpl; [reflexivity | by rewrite resize_0].
    + exfalso. apply Exists_exists in Hsome as (u & Hu & Hover).
      apply (Hnone u); [|done].
      apply list_elem_of_In, in_seq in Hu. lia.
Qed.

Lemma move_sets_index_bounds_witness :
  last (MoveSetBuilder.ms_move_set_indices path8_move_sets)
  = Some (length (MoveSetBuilder.ms_move_sets path8_move_sets))
  /\ length (MoveSetBuilder.ms_move_sets path8_move_sets)
     = MoveSetBuilder.dist_n path8_partitioned
  /\ (head (MoveSetBuilder.ms_move_set_indices path8_move_sets) = Some 0
      <-> MoveSetBuilder.dist_n path8_partitioned = 0
          \/ exists u, u < MoveSetBuilder.dist_n path8_partitioned
                       /\ overloaded path8_partitioned u)
  /\ ((forall u, u < MoveSetBuilder.dist_n path8_partitioned ->
                 ~ overloaded path8_partitioned u) ->
      MoveSetBuilder.ms_move_set_indices path8_move_sets
      = [MoveSetBuilder.dist_n path8_partitioned]).
Proof.
  apply (move_sets_index_bounds (H := BinaryMaxHeap.ListHeap)
           path8_partitioned 8 0 2%Z path8_move_sets).
  vm_compute. reflexivity.
Defined.

(** ** Balancer: the growth loop ends *)

Section MoveSetsTermination.
Context {H : Type} `{BinaryMaxHeap.Laws H}.
Variable g : MoveSetBuilder.DistributedPartitionedGraph.
Variable max_weight : NodeWeight.
Hypothesis weights : positive_weights g.

(** With positive weights every iteration adds at least 1 to the weight
    counter, so [max_weight - _cur_weight] iterations are enough. *)
Lemma grow_loop_ends (fuel : nat) (b : @MoveSetBuilder.t H) :
  frontier_owned g b ->
  Z.to_nat (max_weight - MoveSetBuilder._cur_weight b) <= fuel ->
  MoveSetBuilder.grow_loop g fuel max_weight b = MoveSetBuilder.OutOfBounds
  \/ exists b',
       MoveSetBuilder.grow_loop g fuel max_weight b
       = MoveSetBuilder.Returns b'.
Proof.
  revert b. induction fuel as [|fuel IH]; intros b Howned Hfuel; simpl;
    destruct (BinaryMaxHeap.empty (MoveSetBuilder._frontier b)) eqn:Hempty;
    simpl; try (right; by eexists);
    destruct (Z.ltb_spec (MoveSetBuilder._cur_weight b) max_weight)
      as [Hlt|Hge]; try (right; by eexists); [lia|].
  pose proof (BinaryMaxHeap.peek_id_held _ Hempty) as Hpeek.
  apply Howned in Hpeek. pose proof (weights _ Hpeek) as Hpos.
  destruct (MoveSetBuilder.add_to_move_set _ _ _) as [b2| |] eqn:Hadd;
    [|by left|].
  - apply add_to_move_set_returns in Hadd as (_ & _ & _ & _ & Ef & Ew & _).
    simpl in Ef, Ew.
    destruct (fold_left _ _ _) as [frontier| |] eqn:Hpush; [|by left|].
    + apply IH.
      * intros x Hx. simpl in Hx.
        destruct (push_neighbors_returns g _ _ _ _ Hpush x Hx)
          as [Hx'|[Hx' _]]; [|done].
        rewrite Ef in Hx'. apply BinaryMaxHeap.ids_pop in Hx'.
        by apply Howned.
      * simpl. rewrite Ew. lia.
    + exfalso. clear -Hpush.
      induction (neighbors _ _) as [|e l IHl] in Hpush |- * using rev_ind;
        [done|].
      rewrite fold_left_app in Hpush. simpl in Hpush.
      unfold MoveSetBuilder.push_neighbor in Hpush at 1.
      destruct (fold_left _ l _) as [frontier| |]; [|done|by apply IHl].
      destruct (Nat.eqb _ _); [|done].
      destruct (negb _); [done|].
      by destruct (BinaryMaxHeap.contains _ _).
  - exfalso. revert Hadd. unfold MoveSetBuilder.add_to_move_set.
    destruct (negb _); [done|].
    by destruct (fold_left _ _ _).
Qed.

Lemma grow_move_set_ends (fuel : nat) (seed : NodeID)
    (b : @MoveSetBuilder.t H) :
  frontier_owned g b -> (0 <= MoveSetBuilder._cur_weight b)%Z ->
  seed < MoveSetBuilder.dist_n g ->
  Z.to_nat max_weight <= fuel ->
  MoveSetBuilder.grow_move_set g fuel seed max_weight b
  = MoveSetBuilder.OutOfBounds
  \/ exists b',
       MoveSetBuilder.grow_move_set g fuel seed max_weight b
       = MoveSetBuilder.Returns b'
       /\ frontier_owned g b' /\ (0 <= MoveSetBuilder._cur_weight b')%Z.
Proof.
  intros Howned Hweight Hseed Hfuel. unfold MoveSetBuilder.grow_move_set.
  set (b0 := MoveSetBuilder.with_frontier _ b).
  assert (Howned0 : frontier_owned g b0).
  { intros x Hx. simpl in Hx.
    apply BinaryMaxHeap.ids_push in Hx as [->|Hx]; [done | by apply Howned]. }
  destruct (grow_loop_ends fuel b0 Howned0) as [->|[b1 Hrun]];
    [simpl; lia | by left |].
  rewrite Hrun.
  apply (grow_loop_invariant g max_weight
           (fun b2 => frontier_owned g b2
                      /\ (0 <= MoveSetBuilder._cur_weight b2)%Z)
           fuel b0 b1) in Hrun as [[Howned1 Hweight1] _]; [| |done].
  - pose proof (finish_move_set_ends g b1) as Hends.
    destruct (MoveSetBuilder.finish_move_set g b1) as [b2| |] eqn:Hfinish;
      [|by left|done].
    right. exists b2. split; [done|].
    apply finish_move_set_returns in Hfinish
      as (_ & _ & _ & _ & Hfrontier' & Hweight').
    split; [unfold frontier_owned; by rewrite Hfrontier' | by rewrite Hweight'].
  - intros c c2 frontier [Hc Hc_weight] Hempty _ Hadd Hpush.
    pose proof (BinaryMaxHeap.peek_id_held _ Hempty) as Hpeek.
    apply Hc in Hpeek. pose proof (weights _ Hpeek) as Hpos.
    apply add_to_move_set_returns in Hadd as (_ & _ & _ & _ & Ef & Ew & _).
    simpl in Ef, Ew. split.
    + intros x Hx. simpl in Hx.
      destruct (push_neighbors_returns g _ _ _ _ Hpush x Hx)
        as [Hx'|[Hx' _]]; [|done].
      rewrite Ef in Hx'. apply BinaryMaxHeap.ids_pop in Hx'. by apply Hc.
    + simpl. rewrite Ew. lia.
Qed.

Lemma build_nodes_end (fuel : nat) (nodes : list NodeID)
    (b : @MoveSetBuilder.t H) :
  frontier_owned g b -> (0 <= MoveSetBuilder._cur_weight b)%Z ->
  Forall (fun u => u < MoveSetBuilder.dist_n g) nodes ->
  Z.to_nat max_weight <= fuel ->
  fold_left (MoveSetBuilder.build_node g fuel max_weight) nodes
            (MoveSetBuilder.Returns b)
  = MoveSetBuilder.OutOfBounds
  \/ exists b',
       fold_left (MoveSetBuilder.build_node g fuel max_weight) nodes
                 (MoveSetBuilder.Returns b)
       = MoveSetBuilder.Returns b'.
Proof.
  intros Howned Hweight Hnodes Hfuel. revert b Howned Hweight.
  induction Hnodes as [|u nodes Hu _ IH]; intros b Howned Hweight; simpl.
  - right. by eexists.
  - destruct (MoveSetBuilder.starts_move_set g b u); [|by apply IH].
    destruct (grow_move_set_ends fuel u b Howned Hweight Hu Hfuel)
      as [->|(b1 & -> & Howned1 & Hweight1)]; [|by apply IH].
    left. clear. induction nodes as [|v nodes IHn]; [done | exact IHn].
Qed.
End MoveSetsTermination.

(** X30.  With positive weights of the owned nodes the growth of a move
    set ends: every iteration of the while loop adds a node and at least 1
    to the weight counter, so that [max_move_set_weight] iterations for
    each set are enough for [build_greedy_move_sets] to return, unless the
    run leaves its arrays. *)
Theorem build_greedy_move_sets_ends {H : Type} `{BinaryMaxHeap.Laws H}
    (g : MoveSetBuilder.DistributedPartitionedGraph)
    (fuel garbage : nat) (max_move_set_weight : NodeWeight) :
  positive_weights g ->
  Z.to_nat max_move_set_weight <= fuel ->
  MoveSetBuilder.build_greedy_move_sets (H := H) g fuel garbage
    max_move_set_weight = MoveSetBuilder.OutOfBounds
  \/ exists sets,
       MoveSetBuilder.build_greedy_move_sets (H := H) g fuel garbage
         max_move_set_weight = MoveSetBuilder.Returns sets.
Proof.
  intros Hweights Hfuel.
  unfold MoveSetBuilder.build_greedy_move_sets, MoveSetBuilder.build.
  destruct (build_nodes_end g max_move_set_weight Hweights fuel
              (seq 0 (MoveSetBuilder.dist_n g))
              (MoveSetBuilder.create g garbage)) as [->|[b ->]].
  - intros x Hx. simpl in Hx. rewrite BinaryMaxHeap.ids_create in Hx.
    by apply elem_of_nil in Hx.
  - simpl. lia.
  - apply Forall_forall. intros u Hu.
    apply list_elem_of_In, in_seq in Hu. lia.
  - done.
  - by left.
  - right. by eexists.
Qed.

(** On the path with sets of weight at most 2, two iterations to a set
    are enough. *)
Lemma build_greedy_move_sets_ends_witness :
  (MoveSetBuilder.build_greedy_move_sets (H := BinaryMaxHeap.ListHeap)
     path8_partitioned 2 0 2%Z = MoveSetBuilder.OutOfBounds
   \/ exists sets,
        MoveSetBuilder.build_greedy_move_sets (H := BinaryMaxHeap.ListHeap)
          path8_partitioned 2 0 2%Z = MoveSetBuilder.Returns sets).
Proof.
  apply (build_greedy_move_sets_ends (H := BinaryMaxHeap.ListHeap)
           path8_partitioned 2 0 2%Z path8_positive_weights).
  vm_compute. lia.
Defined.

(** Two adjacent nodes of one overloaded block and sets of weight at most
    5: the growth loop brings the node it has just added back to the
    frontier through its neighbour, adds it again, and the third node of
    the set is stored at [_move_sets[2]] of an array with two entries. *)
Lemma adjacent_nodes_leave_the_arrays (garbage : nat) :
  MoveSetBuilder.build_greedy_move_sets (H := BinaryMaxHeap.ListHeap)
    adjacent2 5 garbage 5%Z
  = MoveSetBuilder.OutOfBounds.
Proof. vm_compute. reflexivity. Qed.

(** ** Label-propagation refiner: the iteration loop *)

Lemma refine_loop_result {State : Type}
    (randomized_iteration : State -> N * State) (remaining : nat)
    (st : State) :
  (fst (LabelPropagationRefiner.refine_loop State randomized_iteration
          remaining st) = false
   <-> exists i, i < remaining
                 /\ fst (randomized_iteration
                           (after_iterations randomized_iteration i st))
                    = 0%N)
  /\ (fst (LabelPropagationRefiner.refine_loop State randomized_iteration
             remaining st) = true ->
      snd (LabelPropagationRefiner.refine_loop State randomized_iteration
             remaining st)
      = after_iterations randomized_iteration remaining st).
Proof.
  revert st. induction remaining as [|remaining IH]; intros st; simpl.
  - split; [|done]. split; [done|]. intros (i & Hi & _). lia.
  - destruct (randomized_iteration st) as [num_moved_nodes st'] eqn:Hiter.
    destruct (N.eqb_spec num_moved_nodes 0) as [->|Hmoved]; simpl.
    + split; [|done]. split; [|done]. intros _. exists 0.
      split; [lia|]. simpl. by rewrite Hiter.
    + destruct (IH st') as [Hfalse Htrue]. split.
      * rewrite Hfalse. split.
        -- intros (i & Hi & Hzero). exists (S i). split; [lia|].
           simpl. by rewrite Hiter.
        -- intros (i & Hi & Hzero). destruct i as [|i].
           ++ simpl in Hzero. rewrite Hiter in Hzero. done.
           ++ exists i. split; [lia|]. simpl in Hzero.
              by rewrite Hiter in Hzero.
      * intros Hret. exact (Htrue Hret).
Qed.

(** X24.  [refine] of the label-propagation refiner reports convergence,
    not improvement.  It returns [false] exactly when one of its iterations
    moves no node, and it stops with that iteration; it returns [true] when
    all iterations of its budget moved nodes.  The budget is
    [num_iterations], and [2^64 - 1] for [num_iterations = 0], so at least
    one iteration is always run. *)
Theorem lp_refine_reports_convergence {State : Type}
    (randomized_iteration : State -> N * State) (num_iterations : N)
    (st : State) :
  let budget :=
    N.to_nat (LabelPropagationRefiner.max_iterations num_iterations) in
  let result :=
    LabelPropagationRefiner.refine State randomized_iteration
                                   num_iterations st in
  1 <= budget
  /\ (num_iterations <> 0%N -> budget = N.to_nat num_iterations)
  /\ (num_iterations = 0%N -> budget = N.to_nat (2 ^ 64 - 1))
  /\ (fst result = false
      <-> exists i, i < budget
                    /\ fst (randomized_iteration
                              (after_iterations randomized_iteration i st))
                       = 0%N)
  /\ (fst result = true ->
      snd result = after_iterations randomized_iteration budget st).
Proof.
  intros budget result.
  assert (Hbudget : (1 <= LabelPropagationRefiner.max_iterations
                            num_iterations)%N).
  { unfold LabelPropagationRefiner.max_iterations,
      LabelPropagationRefiner.kInfiniteIterations.
    destruct (N.eqb_spec num_iterations 0); lia. }
  split; [unfold budget; lia|]. split; [|split].
  - intros Hne. unfold budget, LabelPropagationRefiner.max_iterations.
    by destruct (N.eqb_spec num_iterations 0).
  - intros ->. reflexivity.
  - apply refine_loop_result.
Qed.

(** ** Distributed coarsener: the hierarchy of levels *)

Section CoarsenerHierarchy.
Context {DistributedGraph GlobalMapping Algorithms : Type}.
Variable total_n : DistributedGraph -> nat.
Variable local_clustering :
  Algorithms -> DistributedGraph -> Z ->
  Algorithms * option (DistributedGraph * list NodeID).
Variable global_clustering :
  Algorithms -> DistributedGraph -> Z ->
  Algorithms * option (DistributedGraph * GlobalMapping).
Variable has_converged : DistributedGraph -> DistributedGraph -> bool.
Variable project_global_contracted_graph :
  DistributedGraph -> Coarsener.DistributedPartitionedGraph -> GlobalMapping ->
  Coarsener.DistributedPartitionedGraph.

Local Abbreviation coarsener := (Coarsener.t DistributedGraph GlobalMapping Algorithms).
Local Abbreviation coarsen_once :=
  (Coarsener.coarsen_once _ _ _ local_clustering global_clustering
                          has_converged).
Local Abbreviation coarsen_once_local :=
  (Coarsener.coarsen_once_local _ _ _ local_clustering has_converged).
Local Abbreviation coarsen_once_global :=
  (Coarsener.coarsen_once_global _ _ _ global_clustering has_converged).
Local Abbreviation uncoarsen_once :=
  (Coarsener.uncoarsen_once _ total_n _ _ project_global_contracted_graph).
Local Abbreviation graphs := (Coarsener._graph_hierarchy _ _ _).
Local Abbreviation globals := (Coarsener._global_mapping_hierarchy _ _ _).
Local Abbreviation locals := (Coarsener._local_mapping_hierarchy _ _ _).
Local Abbreviation converged := (Coarsener._local_clustering_converged _ _ _).
Local Abbreviation max_global := (Coarsener.max_global_clustering_levels _ _ _).
Local Abbreviation max_local := (Coarsener.max_local_clustering_levels _ _ _).

(** What [coarsen_once_global] does to the hierarchy: nothing, or one more
    graph with one more global mapping. *)
Lemma coarsen_once_global_levels (c : coarsener) (w : Z) :
  max_global (coarsen_once_global c w) = max_global c
  /\ max_local (coarsen_once_global c w) = max_local c
  /\ converged (coarsen_once_global c w) = converged c
  /\ locals (coarsen_once_global c w) = locals c
  /\ ((graphs (coarsen_once_global c w) = graphs c
       /\ globals (coarsen_once_global c w) = globals c)
      \/ exists c_graph mapping,
           graphs (coarsen_once_global c w) = graphs c ++ [c_graph]
           /\ globals (coarsen_once_global c w) = globals c ++ [mapping]).
Proof.
  unfold Coarsener.coarsen_once_global.
  destruct (global_clustering _ _ _) as [algorithms [[c_graph mapping]|]];
    [destruct (has_converged _ _)|]; simpl;
    (do 4 (split; [reflexivity|]));
    first [left; by split | right; by eexists _, _].
Qed.

Lemma coarsen_once_local_levels (c : coarsener) (w : Z) :
  max_global (coarsen_once_local c w).1 = max_global c
  /\ max_local (coarsen_once_local c w).1 = max_local c
  /\ converged (coarsen_once_local c w).1 = converged c
  /\ globals (coarsen_once_local c w).1 = globals c
  /\ (((coarsen_once_local c w).2 = false
       /\ graphs (coarsen_once_local c w).1 = graphs c
       /\ locals (coarsen_once_local c w).1 = locals c)
      \/ ((coarsen_once_local c w).2 = true
          /\ exists c_graph mapping,
               graphs (coarsen_once_local c w).1 = graphs c ++ [c_graph]
               /\ locals (coarsen_once_local c w).1 = locals c ++ [mapping])).
Proof.
  unfold Coarsener.coarsen_once_local.
  destruct (local_clustering _ _ _) as [algorithms [[c_graph mapping]|]];
    [destruct (has_converged _ _)|]; simpl;
    (do 4 (split; [reflexivity|]));
    first [left; by repeat split | right; split; [done|by eexists _, _]].
Qed.

(** The three ways [coarsen_once] can leave the hierarchy: as it was, with
    one more local level, or with one more global level. *)
Lemma coarsen_once_outcome (c : coarsener) (w : Z) :
  max_global (coarsen_once c w) = max_global c
  /\ max_local (coarsen_once c w) = max_local c
  /\ (converged c = true -> converged (coarsen_once c w) = true)
  /\ ((graphs (coarsen_once c w) = graphs c
       /\ globals (coarsen_once c w) = globals c
       /\ locals (coarsen_once c w) = locals c)
      \/ (Coarsener.level _ _ _ c < max_global c
          /\ converged c = false
          /\ Coarsener.level _ _ _ c <> max_local c
          /\ converged (coarsen_once c w) = false
          /\ globals (coarsen_once c w) = globals c
          /\ exists c_graph mapping,
               graphs (coarsen_once c w) = graphs c ++ [c_graph]
               /\ locals (coarsen_once c w) = locals c ++ [mapping])
      \/ (Coarsener.level _ _ _ c < max_global c
          /\ converged (coarsen_once c w) = true
          /\ locals (coarsen_once c w) = locals c
          /\ exists c_graph mapping,
               graphs (coarsen_once c w) = graphs c ++ [c_graph]
               /\ globals (coarsen_once c w) = globals c ++ [mapping])).
Proof.
  unfold Coarsener.coarsen_once.
  destruct (Nat.leb_spec (max_global c) (Coarsener.level _ _ _ c))
    as [Hfull|Hroom].
  { repeat split; auto. }
  set (c1 := if Coarsener.level _ _ _ c =? max_local c
             then Coarsener.with_local_clustering_converged _ _ _ c else c).
  assert (Hc1 : max_global c1 = max_global c /\ max_local c1 = max_local c
                /\ graphs c1 = graphs c /\ globals c1 = globals c
                /\ locals c1 = locals c
                /\ (converged c = true -> converged c1 = true)
                /\ (converged c1 = false ->
                    converged c = false
                    /\ Coarsener.level _ _ _ c <> max_local c)).
  { unfold c1.
    destruct (Nat.eqb_spec (Coarsener.level _ _ _ c) (max_local c));
      simpl; repeat split; auto; congruence. }
  destruct Hc1 as (Hg1 & Hl1 & Hgraphs1 & Hglobals1 & Hlocals1 & Hkeep1
                   & Hopen1).
  generalize dependent c1. intros c1 Hg1 Hl1 Hgraphs1 Hglobals1 Hlocals1
                                  Hkeep1 Hopen1.
  destruct (converged c1) eqn:Hconv1; simpl.
  - destruct (coarsen_once_global_levels c1 w)
      as (Hg & Hl & Hconv & Hlocals & Hpush).
    split; [congruence|]. split; [congruence|].
    split; [intros _; congruence|].
    destruct Hpush as [[Hgraphs Hglobals]|(c_graph & mapping & Hgraphs
                                           & Hglobals)].
    + left. repeat split; congruence.
    + right. right. split; [done|]. split; [congruence|].
      split; [congruence|]. exists c_graph, mapping. split; congruence.
  - destruct (Hopen1 eq_refl) as [Hopen Hlevel].
    destruct (coarsen_once_local_levels c1 w)
      as (Hg & Hl & Hconv & Hglobals & Hpush).
    destruct (coarsen_once_local c1 w) as [c2 pushed]. simpl in *.
    destruct Hpush as [(-> & Hgraphs & Hlocals)
                      |(-> & c_graph & mapping & Hgraphs & Hlocals)].
    + set (c3 := Coarsener.with_local_clustering_converged _ _ _ c2).
      destruct (coarsen_once_global_levels c3 w)
        as (Hg3 & Hl3 & Hconv3 & Hlocals3 & Hpush3).
      change (max_global c3) with (max_global c2) in Hg3.
      change (max_local c3) with (max_local c2) in Hl3.
      change (converged c3) with true in Hconv3.
      change (locals c3) with (locals c2) in Hlocals3.
      change (graphs c3) with (graphs c2) in Hpush3.
      change (globals c3) with (globals c2) in Hpush3.
      split; [congruence|]. split; [congruence|]. split; [done|].
      destruct Hpush3 as [[Hgraphs3 Hglobals3]
                         |(c_graph & mapping & Hgraphs3 & Hglobals3)].
      * left. repeat split; congruence.
      * right. right. split; [done|]. split; [done|].
        split; [congruence|]. exists c_graph, mapping. split; congruence.
    + split; [congruence|]. split; [congruence|].
      split; [congruence|]. right. left.
      split; [done|]. split; [done|]. split; [done|].
      split; [congruence|]. split; [congruence|].
      exists c_graph, mapping. split; congruence.
Qed.

(** [coarsen_once] keeps the invariant of the hierarchy. *)
Lemma coarsen_once_invariant (c : coarsener) (w : Z) :
  hierarchy_invariant c -> hierarchy_invariant (coarsen_once c w).
Proof.
  intros [Hlevel Hglobal Hlocal Hfirst].
  destruct (coarsen_once_outcome c w)
    as (Hg & Hl & Hkeep & [(Hgraphs & Hglobals & Hlocals)
                          |[(Hroom & Hconv & Hne & Hconv' & Hglobals
                             & c_graph & mapping & Hgraphs & Hlocals)
                           |(Hroom & Hconv' & Hlocals
                             & c_graph & mapping & Hgraphs & Hglobals)]]).
  - split; unfold Coarsener.level in *;
      rewrite ?Hgraphs, ?Hglobals, ?Hlocals, ?Hg, ?Hl; try done.
    intros Hopen. apply Hfirst.
    destruct (converged c); [by rewrite Hkeep in Hopen|done].
  - specialize (Hfirst Hconv).
    split; unfold Coarsener.level in *;
      rewrite ?Hgraphs, ?Hglobals, ?Hlocals, ?Hg, ?Hl, ?length_app;
      simpl; try lia; [|done].
    rewrite Hfirst in Hlevel. simpl in Hlevel. lia.
  - split; unfold Coarsener.level in *;
      rewrite ?Hgraphs, ?Hglobals, ?Hlocals, ?Hg, ?Hl, ?length_app;
      simpl; try lia. congruence.
Qed.

(** [uncoarsen_once] pops the level pushed last, and there is one to pop
    as soon as the hierarchy has a graph. *)
Lemma uncoarsen_once_pops (c : coarsener)
    (p_graph : Coarsener.DistributedPartitionedGraph) :
  hierarchy_invariant c ->
  graphs c <> [] ->
  exists c' p_graph',
    uncoarsen_once c p_graph = Some (c', p_graph')
    /\ max_global c' = max_global c /\ max_local c' = max_local c
    /\ converged c' = converged c
    /\ graphs c' = removelast (graphs c)
    /\ ((globals c <> [] /\ globals c' = removelast (globals c)
         /\ locals c' = locals c)
        \/ (globals c = [] /\ globals c' = []
            /\ locals c' = removelast (locals c))).
Proof.
  intros [Hlevel Hglobal Hlocal Hfirst] Hgraphs.
  unfold Coarsener.uncoarsen_once, Coarsener.level in *.
  destruct (globals c) as [|m ms] eqn:Hglobals.
  - unfold Coarsener.uncoarsen_once_local.
    destruct (graphs c) as [|g gs] eqn:Hgs; [done|].
    destruct (last (locals c)) as [mapping|] eqn:Hlast.
    + eexists _, _. split; [reflexivity|]. simpl.
      repeat split; auto.
    + apply last_None in Hlast. rewrite Hlast in Hlevel. simpl in Hlevel.
      lia.
  - unfold Coarsener.uncoarsen_once_global. rewrite Hglobals.
    destruct (graphs c) as [|g gs] eqn:Hgs; [done|].
    destruct (last (m :: ms)) as [mapping|] eqn:Hlast.
    + eexists _, _. split; [reflexivity|]. simpl.
      repeat split; auto.
    + by apply last_None in Hlast.
Qed.

Lemma uncoarsen_once_needs_graph (c : coarsener)
    (p_graph : Coarsener.DistributedPartitionedGraph) :
  graphs c = [] -> uncoarsen_once c p_graph = None.
Proof.
  intros Hempty.
  unfold Coarsener.uncoarsen_once, Coarsener.uncoarsen_once_global,
    Coarsener.uncoarsen_once_local.
  rewrite Hempty.
  destruct (globals c) as [|m ms]; [by destruct (last (locals c))|].
  by destruct (last (m :: ms)).
Qed.

Lemma uncoarsen_once_invariant (c c' : coarsener)
    (p_graph p_graph' : Coarsener.DistributedPartitionedGraph) :
  hierarchy_invariant c ->
  uncoarsen_once c p_graph = Some (c', p_graph') ->
  hierarchy_invariant c'.
Proof.
  intros Hinv Hpop.
  destruct (decide (graphs c = [])) as [Hempty|Hgraphs].
  { by rewrite (uncoarsen_once_needs_graph c p_graph Hempty) in Hpop. }
  destruct (uncoarsen_once_pops c p_graph Hinv Hgraphs)
    as (c2 & p2 & Hpop' & Hg & Hl & Hconv & Hgs & Hmaps).
  rewrite Hpop in Hpop'. injection Hpop' as <- <-.
  destruct Hinv as [Hlevel Hglobal Hlocal Hfirst].
  assert (Hlen : forall {A} (l : list A),
             l <> [] -> length (removelast l) + 1 = length l).
  { intros A l Hl'. destruct (exists_last Hl') as (l' & x & ->).
    rewrite removelast_last, length_app. simpl. lia. }
  pose proof (Hlen _ _ Hgraphs) as Hgraphs_len.
  unfold Coarsener.level in *.
  destruct Hmaps as [(Hne & Hglobals & Hlocals)|(Hnil & Hglobals & Hlocals)].
  - pose proof (Hlen _ _ Hne) as Hglobals_len.
    split; unfold Coarsener.level;
      rewrite ?Hgs, ?Hglobals, ?Hlocals, ?Hg, ?Hl, ?Hconv; try lia.
    intros Hopen. by rewrite (Hfirst Hopen) in Hne.
  - assert (Hne : locals c <> []).
    { intros Hnil'. rewrite Hnil, Hnil' in Hlevel. simpl in Hlevel.
      destruct (graphs c); [done|simpl in Hlevel; lia]. }
    pose proof (Hlen _ _ Hne) as Hlocals_len.
    split; unfold Coarsener.level;
      rewrite ?Hgs, ?Hglobals, ?Hlocals, ?Hg, ?Hl, ?Hconv; try lia; try done.
    rewrite Hnil in Hlevel. simpl in *. lia.
Qed.

(** Every sequence of calls keeps the invariant and the two limits. *)
Lemma coarsener_calls_invariant (calls : list CoarsenerCall)
    (c0 c : coarsener) :
  hierarchy_invariant c0 ->
  coarsener_calls total_n local_clustering global_clustering has_converged
                  project_global_contracted_graph c0 calls = Some c ->
  hierarchy_invariant c
  /\ max_global c = max_global c0 /\ max_local c = max_local c0.
Proof.
  revert c0. induction calls as [|call calls IH]; intros c0 Hinv; simpl.
  - by intros [= ->].
  - destruct call as [w|p_graph]; simpl.
    + intros Hrun.
      destruct (IH _ (coarsen_once_invariant c0 w Hinv) Hrun)
        as (Hinv' & Hg & Hl).
      destruct (coarsen_once_outcome c0 w) as (Hg0 & Hl0 & _).
      split; [done|]. split; congruence.
    + destruct (uncoarsen_once c0 p_graph) as [[c1 p1]|] eqn:Hpop;
        simpl; [|done].
      intros Hrun.
      destruct (IH _ (uncoarsen_once_invariant _ _ _ _ Hinv Hpop) Hrun)
        as (Hinv' & Hg & Hl).
      destruct (decide (graphs c0 = [])) as [Hempty|Hgraphs].
      { by rewrite (uncoarsen_once_needs_graph c0 p_graph Hempty) in Hpop. }
      destruct (uncoarsen_once_pops c0 p_graph Hinv Hgraphs)
        as (c2 & p2 & Hpop' & Hg2 & Hl2 & _).
      rewrite Hpop in Hpop'. injection Hpop' as <- <-.
      split; [done|]. split; congruence.
Qed.

Lemma no_levels_invariant (c : coarsener) :
  no_levels c -> hierarchy_invariant c.
Proof.
  intros (Hgraphs & Hglobals & Hlocals).
  split; unfold Coarsener.level; rewrite ?Hgraphs, ?Hglobals, ?Hlocals;
    simpl; try lia; done.
Qed.

(** X25.  Whatever the partitioner calls on a coarsener that starts without
    levels, the hierarchy stays in step: there is one mapping per coarse
    graph, at most [max_global_clustering_levels] graphs, at most
    [max_local_clustering_levels] of them from local clustering, a global
    level only once local clustering has converged, and [uncoarsen_once]
    finds a level to pop whenever there is a coarse graph. *)
Theorem coarsener_levels_bounded (calls : list CoarsenerCall)
    (c0 c : coarsener) :
  no_levels c0 ->
  coarsener_calls total_n local_clustering global_clustering has_converged
                  project_global_contracted_graph c0 calls = Some c ->
  Coarsener.level _ _ _ c = length (locals c) + length (globals c)
  /\ Coarsener.level _ _ _ c <= max_global c0
  /\ length (locals c) <= max_local c0
  /\ (globals c <> [] -> converged c = true)
  /\ (0 < Coarsener.level _ _ _ c ->
      forall p_graph, is_Some (uncoarsen_once c p_graph)).
Proof.
  intros Hfresh Hrun.
  destruct (coarsener_calls_invariant calls c0 c
              (no_levels_invariant c0 Hfresh) Hrun) as (Hinv & Hg & Hl).
  pose proof Hinv as [Hlevel Hglobal Hlocal Hfirst].
  split; [done|]. split; [lia|]. split; [lia|]. split.
  - intros Hne. destruct (converged c); [done|]. by destruct Hne; apply Hfirst.
  - intros Hpos p_graph.
    assert (Hgraphs : graphs c <> []).
    { unfold Coarsener.level in Hpos. destruct (graphs c); [simpl in Hpos; lia|done]. }
    destruct (uncoarsen_once_pops c p_graph Hinv Hgraphs)
      as (c' & p' & Hpop & _).
    by rewrite Hpop.
Qed.

(** X26.  Levels are popped in the reverse order of their creation: when
    [coarsen_once] adds a level to a coarsener in use, the next
    [uncoarsen_once] removes that level and no other, so that the graphs
    and both lists of mappings are what they were before the pair of
    calls. *)
Theorem uncoarsen_undoes_coarsen (calls : list CoarsenerCall)
    (c0 c : coarsener) (max_cluster_weight : Z)
    (p_graph : Coarsener.DistributedPartitionedGraph) :
  no_levels c0 ->
  coarsener_calls total_n local_clustering global_clustering has_converged
                  project_global_contracted_graph c0 calls = Some c ->
  graphs (coarsen_once c max_cluster_weight) <> graphs c ->
  exists c' p_graph',
    uncoarsen_once (coarsen_once c max_cluster_weight) p_graph
    = Some (c', p_graph')
    /\ graphs c' = graphs c
    /\ globals c' = globals c
    /\ locals c' = locals c.
Proof.
  intros Hfresh Hrun Hpushed.
  destruct (coarsener_calls_invariant calls c0 c
              (no_levels_invariant c0 Hfresh) Hrun) as (Hinv & _).
  pose proof (coarsen_once_invariant c max_cluster_weight Hinv) as Hinv'.
  destruct (coarsen_once_outcome c max_cluster_weight)
    as (_ & _ & _ & [(Hgraphs & _)
                    |[(_ & Hconv & _ & _ & Hglobals
                       & c_graph & mapping & Hgraphs & Hlocals)
                     |(_ & _ & Hlocals
                       & c_graph & mapping & Hgraphs & Hglobals)]]);
    [done| |].
  - assert (Hne : graphs (coarsen_once c max_cluster_weight) <> []).
    { rewrite Hgraphs. by destruct (graphs c). }
    destruct (uncoarsen_once_pops _ p_graph Hinv' Hne)
      as (c' & p' & Hpop & _ & _ & _ & Hgs & Hmaps).
    exists c', p'. split; [done|].
    rewrite Hgraphs, removelast_last in Hgs. split; [done|].
    destruct Hmaps as [(Hsome & _)|(_ & Hglobals' & Hlocals')].
    + rewrite Hglobals, (hi_local_first c Hinv Hconv) in Hsome. done.
    + rewrite Hlocals, removelast_last in Hlocals'.
      rewrite (hi_local_first c Hinv Hconv). done.
  - assert (Hne : graphs (coarsen_once c max_cluster_weight) <> []).
    { rewrite Hgraphs. by destruct (graphs c). }
    destruct (uncoarsen_once_pops _ p_graph Hinv' Hne)
      as (c' & p' & Hpop & _ & _ & _ & Hgs & Hmaps).
    exists c', p'. split; [done|].
    rewrite Hgraphs, removelast_last in Hgs. split; [done|].
    destruct Hmaps as [(_ & Hglobals' & Hlocals')|(Hnone & _)].
    + rewrite Hglobals, removelast_last in Hglobals'. split; congruence.
    + rewrite Hglobals in Hnone. by destruct (globals c).
Qed.

End CoarsenerHierarchy.

Lemma coarsener_levels_bounded_witness :
  let c := default halving_coarsener
                   (halving_calls [CoarsenOnce 10; CoarsenOnce 10]) in
  Coarsener.level _ _ _ c
  = length (Coarsener._local_mapping_hierarchy _ _ _ c)
    + length (Coarsener._global_mapping_hierarchy _ _ _ c)
  /\ Coarsener.level _ _ _ c
     <= Coarsener.max_global_clustering_levels _ _ _ halving_coarsener
  /\ length (Coarsener._local_mapping_hierarchy _ _ _ c)
     <= Coarsener.max_local_clustering_levels _ _ _ halving_coarsener
  /\ (Coarsener._global_mapping_hierarchy _ _ _ c <> [] ->
      Coarsener._local_clustering_converged _ _ _ c = true)
  /\ (0 < Coarsener.level _ _ _ c ->
      forall p_graph,
        is_Some (Coarsener.uncoarsen_once _ id _ _ (fun _ p _ => p)
                   c p_graph)).
Proof.
  apply (coarsener_levels_bounded id
           (fun (a : unit) (g : nat) (_ : Z) => (a, Some (g / 2, [0; 0])))
           (fun (a : unit) (g : nat) (_ : Z) => (a, Some (g / 2, tt)))
           (fun before after : nat => 19 * before <=? 20 * after)
           (fun _ p_graph _ => p_graph)
           [CoarsenOnce 10; CoarsenOnce 10] halving_coarsener).
  - by repeat split.
  - reflexivity.
Defined.

Lemma uncoarsen_undoes_coarsen_witness :
  let c := default halving_coarsener (halving_calls [CoarsenOnce 10]) in
  let coarsened :=
    Coarsener.coarsen_once _ _ _
      (fun (a : unit) (g : nat) (_ : Z) => (a, Some (g / 2, [0; 0])))
      (fun (a : unit) (g : nat) (_ : Z) => (a, Some (g / 2, tt)))
      (fun before after : nat => 19 * before <=? 20 * after) c 10 in
  exists c' p_graph',
    Coarsener.uncoarsen_once _ id _ _ (fun _ p _ => p) coarsened
                             (Coarsener.mkPartition 2 [0; 1] [1; 1]%Z)
    = Some (c', p_graph')
    /\ Coarsener._graph_hierarchy _ _ _ c' = Coarsener._graph_hierarchy _ _ _ c
    /\ Coarsener._global_mapping_hierarchy _ _ _ c'
       = Coarsener._global_mapping_hierarchy _ _ _ c
    /\ Coarsener._local_mapping_hierarchy _ _ _ c'
       = Coarsener._local_mapping_hierarchy _ _ _ c.
Proof.
  apply (uncoarsen_undoes_coarsen id
           (fun (a : unit) (g : nat) (_ : Z) => (a, Some (g / 2, [0; 0])))
           (fun (a : unit) (g : nat) (_ : Z) => (a, Some (g / 2, tt)))
           (fun before after : nat => 19 * before <=? 20 * after)
           (fun _ p_graph _ => p_graph)
           [CoarsenOnce 10] halving_coarsener).
  - by repeat split.
  - reflexivity.
  - vm_compute. discriminate.
Defined.

(** ** MPI helpers: receive counts and displacements of a distribution *)

Lemma to_int_small (x : Z) :
  (- 2 ^ 31 <= x < 2 ^ 31)%Z -> Mpi.to_int x = x.
Proof.
  intros Hx. unfold Mpi.to_int. rewrite Z.mod_small; lia.
Qed.

Lemma lookup_total_map_seq (f : nat -> Z) (n i : nat) :
  i < n -> map f (seq 0 n) !!! i = f i.
Proof.
  intros Hi. apply list_lookup_total_correct.
  change (map f (seq 0 n)) with (f <$> seq 0 n).
  rewrite list_lookup_fmap, lookup_seq_lt by done. reflexivity.
Qed.

Lemma sumZ_telescope (d : nat -> Z) (n : nat) :
  sumZ (map (fun i => (d (i + 1)%nat - d i)%Z) (seq 0 n)) = (d n - d 0%nat)%Z.
Proof.
  induction n as [|n IH]; [simpl; lia|].
  rewrite seq_S, map_app, sumZ_app, IH. simpl.
  replace (n + 1) with (S n) by lia. lia.
Qed.

(** X27.  For a distribution that is sorted and whose entries fit an
    [int], the receive counts and the displacements describe adjacent
    blocks: both have one entry per PE, block [i] starts at entry [i] of
    the distribution, has a size that is not negative and ends where block
    [i + 1] starts, and the counts add up to the span of the distribution. *)
Theorem distribution_blocks_adjacent (dist : list Z) :
  0 < length dist ->
  (forall i j x y, i <= j -> dist !! i = Some x -> dist !! j = Some y ->
                   (x <= y)%Z) ->
  (forall x, x ∈ dist -> (0 <= x < 2 ^ 31)%Z) ->
  exists recvcounts displs,
    Mpi.build_distribution_recvcounts dist = Some recvcounts
    /\ Mpi.build_distribution_displs dist = Some displs
    /\ length recvcounts = length dist - 1
    /\ length displs = length dist - 1
    /\ (forall i, i + 1 < length dist ->
          displs !!! i = dist !!! i
          /\ (0 <= recvcounts !!! i)%Z
          /\ (displs !!! i + recvcounts !!! i = dist !!! (i + 1)%nat)%Z)
    /\ sumZ recvcounts = (dist !!! (length dist - 1)%nat - dist !!! 0%nat)%Z.
Proof.
  intros Hlen Hsorted Hrange.
  assert (Hcell : forall i, i < length dist ->
            dist !! i = Some (dist !!! i) /\ (0 <= dist !!! i < 2 ^ 31)%Z).
  { intros i Hi. pose proof (list_lookup_lookup_total_lt dist i Hi) as Hi'.
    split; [done|]. apply Hrange. by apply list_elem_of_lookup_2 in Hi'. }
  assert (Hstep : forall i, i + 1 < length dist ->
            (0 <= dist !!! (i + 1)%nat - dist !!! i < 2 ^ 31)%Z).
  { intros i Hi.
    destruct (Hcell i ltac:(lia)) as [Hi0 Hr0].
    destruct (Hcell (i + 1) Hi) as [Hi1 Hr1].
    pose proof (Hsorted i (i + 1) _ _ ltac:(lia) Hi0 Hi1). lia. }
  destruct dist as [|d0 dist']; [simpl in Hlen; lia|].
  set (dist := d0 :: dist') in *.
  eexists _, _. split; [reflexivity|]. split; [reflexivity|].
  rewrite !length_map, !length_seq. split; [done|]. split; [done|]. split.
  - intros i Hi. rewrite !lookup_total_map_seq by lia.
    destruct (Hcell i ltac:(lia)) as [_ Hr].
    rewrite !to_int_small by (specialize (Hstep i Hi); lia).
    specialize (Hstep i Hi). lia.
  - rewrite (sumZ_map_ext _ (fun i => (dist !!! (i + 1)%nat - dist !!! i)%Z)).
    + apply (sumZ_telescope (fun i => dist !!! i)).
    + intros i Hi. apply elem_of_seq in Hi.
      apply to_int_small. specialize (Hstep i ltac:(lia)). lia.
Qed.

Lemma distribution_blocks_adjacent_witness :
  exists recvcounts displs,
    Mpi.build_distribution_recvcounts [0; 3; 3; 7]%Z = Some recvcounts
    /\ Mpi.build_distribution_displs [0; 3; 3; 7]%Z = Some displs
    /\ length recvcounts = 3
    /\ length displs = 3
    /\ (forall i, i + 1 < 4 ->
          displs !!! i = [0; 3; 3; 7]%Z !!! i
          /\ (0 <= recvcounts !!! i)%Z
          /\ (displs !!! i + recvcounts !!! i = [0; 3; 3; 7] !!! (i + 1)%nat)%Z)
    /\ sumZ recvcounts = 7%Z.
Proof.
  apply (distribution_blocks_adjacent [0; 3; 3; 7]%Z).
  - simpl. lia.
  - intros i j x y Hij Hi Hj.
    do 4 (destruct i as [|i]; [do 4 (destruct j as [|j];
            [simpl in *; try lia; injection Hi as <-; injection Hj as <-; lia|]);
            done|]).
    done.
  - intros x Hx. rewrite !elem_of_cons in Hx.
    destruct Hx as [->|[->|[->|[->|Hx]]]]; try lia. by apply elem_of_nil in Hx.
Defined.

(** ** Binary files: integers written and read back *)

Lemma to_bytes_length (size : nat) (value : Z) :
  length (BinaryIO.to_bytes size value) = size.
Proof.
  revert value. induction size as [|size IH]; intros value; simpl;
    [reflexivity | by rewrite IH].
Qed.

Lemma of_bytes_to_bytes (size : nat) (value : Z) :
  BinaryIO.of_bytes (BinaryIO.to_bytes size value)
  = (value mod 2 ^ (8 * Z.of_nat size))%Z.
Proof.
  revert value. induction size as [|size IH]; intros value.
  - simpl. by rewrite Z.mod_1_r.
  - cbn [BinaryIO.to_bytes BinaryIO.of_bytes]. rewrite IH.
    replace (8 * Z.of_nat (S size))%Z with (8 + 8 * Z.of_nat size)%Z by lia.
    rewrite Z.pow_add_r by lia.
    change (2 ^ 8)%Z with 256%Z.
    rewrite Z.rem_mul_r by lia. reflexivity.
Qed.

Lemma write_ints_snoc (ints : list (nat * Z)) (size : nat) (value : Z) :
  write_ints (ints ++ [(size, value)])
  = write_ints ints ++ BinaryIO.to_bytes size value.
Proof.
  unfold write_ints. rewrite fold_left_app. simpl.
  by rewrite firstn_all2 by (rewrite to_bytes_length; lia).
Qed.

Lemma write_ints_app (ints1 ints2 : list (nat * Z)) :
  write_ints (ints1 ++ ints2) = write_ints ints1 ++ write_ints ints2.
Proof.
  induction ints2 as [|[size value] ints2 IH] using rev_ind.
  - by rewrite !app_nil_r.
  - by rewrite app_assoc, !write_ints_snoc, IH, app_assoc.
Qed.

Lemma write_ints_length (ints : list (nat * Z)) :
  length (write_ints ints) = position_of ints (length ints).
Proof.
  unfold position_of. rewrite firstn_all.
  induction ints as [|[size value] ints IH]; [reflexivity|].
  change ((size, value) :: ints) with ([(size, value)] ++ ints).
  rewrite write_ints_app, length_app, IH.
  change [(size, value)] with ([] ++ [(size, value)]).
  rewrite write_ints_snoc. simpl. by rewrite to_bytes_length.
Qed.

(** X28.  Integers written with [write_int] are read back by [read]: after
    any sequence of [write_int] calls with values that fit their types, a
    reader of the file returns the value of call [i] at the position given
    by the sizes of the calls before it, and the file is as long as the
    sizes add up to. *)
Theorem write_int_read_round_trip (ints : list (nat * Z)) (i size : nat)
    (value : Z) :
  Forall (fun int => (0 <= snd int < 2 ^ (8 * Z.of_nat (fst int)))%Z) ints ->
  ints !! i = Some (size, value) ->
  exists reader,
    BinaryReader.create (Some (write_ints ints)) = Some reader
    /\ BinaryReader._length reader = position_of ints (length ints)
    /\ BinaryReader.read size (position_of ints i) reader = Some value.
Proof.
  intros Hfit Hi. eexists. split; [reflexivity|]. simpl.
  split; [apply write_ints_length|].
  rewrite Forall_forall in Hfit.
  pose proof (Hfit _ (list_elem_of_lookup_2 _ _ _ Hi)) as Hvalue.
  simpl in Hvalue.
  pose proof (take_drop_middle _ _ _ Hi) as Hsplit.
  assert (Hpos : position_of ints i = length (write_ints (take i ints))).
  { rewrite write_ints_length. unfold position_of.
    by rewrite firstn_all. }
  assert (Hfile : write_ints ints
                  = write_ints (take i ints)
                    ++ BinaryIO.to_bytes size value
                    ++ write_ints (drop (S i) ints)).
  { rewrite <- Hsplit at 1.
    change ((size, value) :: drop (S i) ints)
      with ([(size, value)] ++ drop (S i) ints).
    rewrite !write_ints_app. f_equal. f_equal.
    change [(size, value)] with ([] ++ [(size, value)]).
    by rewrite write_ints_snoc. }
  unfold BinaryReader.read. simpl. rewrite Hfile, Hpos.
  rewrite !length_app, to_bytes_length.
  destruct (Nat.leb_spec (length (write_ints (take i ints)) + size)
              (length (write_ints (take i ints))
               + (size + length (write_ints (drop (S i) ints)))));
    [|lia].
  rewrite drop_app_length.
  rewrite take_app_length' by (by rewrite to_bytes_length).
  rewrite of_bytes_to_bytes, Z.mod_small by done. reflexivity.
Qed.

Lemma write_int_read_round_trip_witness :
  exists reader,
    BinaryReader.create (Some (write_ints [(4, 7%Z); (8, 258%Z); (1, 255%Z)]))
    = Some reader
    /\ BinaryReader._length reader
       = position_of [(4, 7%Z); (8, 258%Z); (1, 255%Z)] 3
    /\ BinaryReader.read 8 (position_of [(4, 7%Z); (8, 258%Z); (1, 255%Z)] 1)
                         reader
       = Some 258%Z.
Proof.
  apply (write_int_read_round_trip [(4, 7%Z); (8, 258%Z); (1, 255%Z)] 1 8 258%Z).
  - repeat (constructor; [simpl; lia|]). constructor.
  - reflexivity.
Defined.
